(** * Zen Sand Garden: the canvas engine of the [useCanvas] hook

    A shallow embedding of the drawing and state engine of the Zen Sand
    Garden (hooks/useCanvas, and the part of components/ZenGarden that drives
    it): the scene (rake grooves and placed objects), the bounded undo stack,
    the pointer and touch handlers, and the pattern generator with its
    time-sliced animation.

    Modelling conventions.
    - A JavaScript [number] is an exact rational ([Q]); rounding, NaN and the
      infinities of IEEE doubles are outside the model.  [Math.floor] is
      [Qfloor], [Math.min] and [Math.max] are [Qmin] and [Qmax].  What is
      proved of a number the code computes from a draw or from a position is
      stated so that rounding keeps it: a bound includes its end (the doubles
      [8 + u * 4] and [0.8 + u * 0.4] are 12 and 1.2 at the draw next to 1),
      and of a scaled coordinate only its sign, its order and its value at
      the origin are stated, not its value at the far edge.
    - [Math.sin], [Math.cos], [Math.sqrt], [Math.atan2], [Math.hypot] and
      [Math.PI] are not rational functions: they are the fields of a class
      [MathLib], and every theorem holds for each of its instances.
    - [Math.random] is a stream of draws with a cursor, carried by the state;
      [Date.now] is supplied with each event.
    - React state ([useState]) and refs ([useRef]) are the fields of [State].
      A handler reads the values of its closure from the state at its entry,
      and the updates it queues are applied before the next event is handled.
    - A [Point[]] array that the code mutates in place ([push]) lives in a
      store ([arrays]) and is named by its index, so that two objects sharing
      one array are two records holding the same reference.  Arrays of paths
      and of objects are only ever replaced by fresh copies: they are lists.
    - The [async] function [generatePattern] is cut at its [await]s: what
      remains to run after a timer is a value of [Cont], resumed by the
      [Timeout] event.
    - What [render] does to the 2D context of the canvas, and what
      hooks/useSoundManager does to the Web Audio API, is the list of the
      calls made, in order; an interpreter of the calls of the canvas keeps
      the drawing state that [save] and [restore] stack.  The two themes of
      the hook (the dark garden and the light one in its wooden frame) share
      the handlers and the pattern functions word for word, and differ in
      what they paint: the theorems on the handlers are stated of the dark
      garden, and the hook of the light one, translated apart ([WoodHook]),
      is compared with it function by function. *)

From Stdlib Require Import QArith Qround Qminmax Lqa ZArith Lia.
From stdpp Require Import base option list strings pretty gmap.

Local Open Scope Q_scope.

(** ** Numbers *)

Abbreviation number := Q (only parsing).

Definition Qltb (a b : number) : bool := negb (Qle_bool b a).

(** The functions of [Math] that leave the rationals. *)
Class MathLib := {
  Math_sin : number -> number;
  Math_cos : number -> number;
  Math_sqrt : number -> number;
  Math_atan2 : number -> number -> number;
  Math_hypot : number -> number -> number;
  Math_PI : number
}.

(** [Math.pow(x, 2)] *)
Definition Math_pow2 (x : number) : number := x * x.

(** [Math.random]: the draws still to come. *)
Record Rng := { draws : nat -> number; cursor : nat }.

Definition Math_random (r : Rng) : number * Rng :=
  (draws r (cursor r), {| draws := draws r; cursor := S (cursor r) |}).

(** The contract of [Math.random]: every draw lies in [0, 1). *)
Definition unit_draws (r : Rng) : Prop := forall n, 0 <= draws r n /\ draws r n < 1.

(** ** Data model (hooks/useCanvas, components/ZenGarden) *)

Inductive Tool := rake | place.
Inductive GardenObject := stone | bonsai | lantern.

#[global] Instance Tool_eq_dec : EqDecision Tool.
Proof. solve_decision. Defined.
#[global] Instance GardenObject_eq_dec : EqDecision GardenObject.
Proof. solve_decision. Defined.

Module Point.
Record t := mk { x : number; y : number }.
End Point.
Abbreviation Point := Point.t.

(** A reference to a [Point[]] array of the store. *)
Abbreviation ref := nat (only parsing).

(** [RakePath], over the representation of its [points]: a reference for the
    objects the hook keeps in its state, the array itself for the paths the
    pattern functions return and for what an observer sees. *)
Module RakePath.
Record t (A : Type) := mk { id : string; points : A; width : number }.
Arguments mk {A} _ _ _.
Arguments id {A} _.
Arguments points {A} _.
Arguments width {A} _.
End RakePath.
Abbreviation RakePath := RakePath.t.

Module PlacedObject.
Record t := mk {
  id : string;
  type : GardenObject;
  x : number;
  y : number;
  rotation : number;
  scale : number
}.
End PlacedObject.
Abbreviation PlacedObject := PlacedObject.t.

Module CanvasState.
Record t := mk {
  rakePaths : list (RakePath ref);
  placedObjects : list PlacedObject
}.
End CanvasState.
Abbreviation CanvasState := CanvasState.t.

Module DOMRect.
Record t := mk { left : number; top : number; width : number; height : number }.
End DOMRect.

Module HTMLCanvasElement.
Record t := mk { width : number; height : number; getBoundingClientRect : DOMRect.t }.
End HTMLCanvasElement.
Abbreviation HTMLCanvasElement := HTMLCanvasElement.t.

(** What [getCanvasCoordinates] reads of a mouse event or of a touch. *)
Module PointLike.
Record t := mk { clientX : number; clientY : number }.
End PointLike.
Abbreviation PointLike := PointLike.t.

(** What is left of a call of [generatePattern] at one of its [await]s. *)
Inductive Cont :=
| AwaitPoint (canvas : HTMLCanvasElement) (path : RakePath (list Point))
    (animatedPath : RakePath ref) (i : nat) (rest : list (RakePath (list Point)))
| AwaitObject (canvas : HTMLCanvasElement) (i : nat) (objectCount : number).

Record State := mkState {
  arrays : list (list Point);
  tool : Tool;
  selectedObject : GardenObject;
  isGeneratingPattern : bool;
  isDrawing : bool;
  rakePaths : list (RakePath ref);
  placedObjects : list PlacedObject;
  undoStack : list CanvasState;
  currentPathRef : option (RakePath ref);
  lastPointRef : option Point;
  animation : option Cont;
  random : Rng;
  cues : list string
}.

Definition initialState (r : Rng) : State :=
  {| arrays := []; tool := rake; selectedObject := stone;
     isGeneratingPattern := false; isDrawing := false;
     rakePaths := []; placedObjects := []; undoStack := [];
     currentPathRef := None; lastPointRef := None; animation := None;
     random := r; cues := [] |}.

(** ** State updates

    The setters of [useState], the assignments to the [current] field of a
    ref, and the writes to the store. *)

Definition set_arrays (v : list (list Point)) (s : State) : State :=
  mkState v (tool s) (selectedObject s) (isGeneratingPattern s) (isDrawing s)
    (rakePaths s) (placedObjects s) (undoStack s) (currentPathRef s)
    (lastPointRef s) (animation s) (random s) (cues s).

Definition setTool (v : Tool) (s : State) : State :=
  mkState (arrays s) v (selectedObject s) (isGeneratingPattern s) (isDrawing s)
    (rakePaths s) (placedObjects s) (undoStack s) (currentPathRef s)
    (lastPointRef s) (animation s) (random s) (cues s).

Definition setSelectedObject (v : GardenObject) (s : State) : State :=
  mkState (arrays s) (tool s) v (isGeneratingPattern s) (isDrawing s)
    (rakePaths s) (placedObjects s) (undoStack s) (currentPathRef s)
    (lastPointRef s) (animation s) (random s) (cues s).

Definition setIsGeneratingPattern (v : bool) (s : State) : State :=
  mkState (arrays s) (tool s) (selectedObject s) v (isDrawing s)
    (rakePaths s) (placedObjects s) (undoStack s) (currentPathRef s)
    (lastPointRef s) (animation s) (random s) (cues s).

Definition setIsDrawing (v : bool) (s : State) : State :=
  mkState (arrays s) (tool s) (selectedObject s) (isGeneratingPattern s) v
    (rakePaths s) (placedObjects s) (undoStack s) (currentPathRef s)
    (lastPointRef s) (animation s) (random s) (cues s).

(** [setRakePaths(prev => f(prev))]; [setRakePaths(v)] is [setRakePaths (fun _ => v)]. *)
Definition setRakePaths (f : list (RakePath ref) -> list (RakePath ref)) (s : State) : State :=
  mkState (arrays s) (tool s) (selectedObject s) (isGeneratingPattern s) (isDrawing s)
    (f (rakePaths s)) (placedObjects s) (undoStack s) (currentPathRef s)
    (lastPointRef s) (animation s) (random s) (cues s).

Definition setPlacedObjects (f : list PlacedObject -> list PlacedObject) (s : State) : State :=
  mkState (arrays s) (tool s) (selectedObject s) (isGeneratingPattern s) (isDrawing s)
    (rakePaths s) (f (placedObjects s)) (undoStack s) (currentPathRef s)
    (lastPointRef s) (animation s) (random s) (cues s).

Definition setUndoStack (f : list CanvasState -> list CanvasState) (s : State) : State :=
  mkState (arrays s) (tool s) (selectedObject s) (isGeneratingPattern s) (isDrawing s)
    (rakePaths s) (placedObjects s) (f (undoStack s)) (currentPathRef s)
    (lastPointRef s) (animation s) (random s) (cues s).

Definition set_currentPathRef (v : option (RakePath ref)) (s : State) : State :=
  mkState (arrays s) (tool s) (selectedObject s) (isGeneratingPattern s) (isDrawing s)
    (rakePaths s) (placedObjects s) (undoStack s) v
    (lastPointRef s) (animation s) (random s) (cues s).

Definition set_lastPointRef (v : option Point) (s : State) : State :=
  mkState (arrays s) (tool s) (selectedObject s) (isGeneratingPattern s) (isDrawing s)
    (rakePaths s) (placedObjects s) (undoStack s) (currentPathRef s)
    v (animation s) (random s) (cues s).

Definition set_animation (v : option Cont) (s : State) : State :=
  mkState (arrays s) (tool s) (selectedObject s) (isGeneratingPattern s) (isDrawing s)
    (rakePaths s) (placedObjects s) (undoStack s) (currentPathRef s)
    (lastPointRef s) v (random s) (cues s).

Definition set_random (v : Rng) (s : State) : State :=
  mkState (arrays s) (tool s) (selectedObject s) (isGeneratingPattern s) (isDrawing s)
    (rakePaths s) (placedObjects s) (undoStack s) (currentPathRef s)
    (lastPointRef s) (animation s) v (cues s).

(** The injected [playSound]: the cue is recorded. *)
Definition playSound (sound : string) (s : State) : State :=
  mkState (arrays s) (tool s) (selectedObject s) (isGeneratingPattern s) (isDrawing s)
    (rakePaths s) (placedObjects s) (undoStack s) (currentPathRef s)
    (lastPointRef s) (animation s) (random s) (cues s ++ [sound]).

(** A call of [Math.random()] by a handler. *)
Definition draw (s : State) : number * State :=
  let '(u, r) := Math_random (random s) in (u, set_random r s).

(** An array literal: a new array of the store. *)
Definition alloc (v : list Point) (s : State) : ref * State :=
  (length (arrays s), set_arrays (arrays s ++ [v]) s).

(** [a.push(p)] on the array [a] refers to. *)
Definition push (a : ref) (p : Point) (s : State) : State :=
  set_arrays (alter (fun v => v ++ [p]) a (arrays s)) s.

(** The array a reference names in a store. *)
Definition deref (h : list (list Point)) (a : ref) : list Point :=
  default [] (h !! a).

(** ** What an observer sees: paths with their points read from the store *)

Definition viewPath (h : list (list Point)) (p : RakePath ref) : RakePath (list Point) :=
  RakePath.mk (RakePath.id p) (deref h (RakePath.points p)) (RakePath.width p).

Definition viewPaths (h : list (list Point)) (l : list (RakePath ref)) :=
  map (viewPath h) l.

(** The scene: the grooves and the objects that [render] paints. *)
Definition scene (s : State) : list (RakePath (list Point)) * list PlacedObject :=
  (viewPaths (arrays s) (rakePaths s), placedObjects s).

(** A snapshot of the undo stack, read in the store [h]. *)
Definition viewSnapshot (h : list (list Point)) (c : CanvasState)
  : list (RakePath (list Point)) * list PlacedObject :=
  (viewPaths h (CanvasState.rakePaths c), CanvasState.placedObjects c).

Definition history (s : State) :=
  map (viewSnapshot (arrays s)) (undoStack s).

(** [drawRakeGrooves] skips a path of fewer than two points. *)
Definition drawn (p : RakePath (list Point)) : bool :=
  negb (length (RakePath.points p) <? 2)%nat.

(** ** The hook [useCanvas] *)

(** [l.slice(-n)]: the last [n] elements. *)
Definition slice_last {A} (n : nat) (l : list A) : list A :=
  drop (length l - n) l.

(** [l.slice(0, -1)]: all but the last element. *)
Definition slice_init {A} (l : list A) : list A :=
  take (length l - 1) l.

(** [saveState], with the [rakePaths] and [placedObjects] of its closure.
    The spreads copy the two arrays, not the paths and not their points. *)
Definition saveState (rakePaths0 : list (RakePath ref))
    (placedObjects0 : list PlacedObject) (s : State) : State :=
  setUndoStack
    (fun prev => slice_last 20 (prev ++ [CanvasState.mk rakePaths0 placedObjects0])) s.

(** [getCanvasCoordinates].  The quotient and the product are exact here;
    in the doubles of the code each is rounded, so that the right and bottom
    edges of the rectangle may land an ulp beyond the width and height of
    the canvas. *)
Definition getCanvasCoordinates (pointLike : PointLike) (canvas : HTMLCanvasElement) : Point :=
  let rect := HTMLCanvasElement.getBoundingClientRect canvas in
  let scaleX := HTMLCanvasElement.width canvas / DOMRect.width rect in
  let scaleY := HTMLCanvasElement.height canvas / DOMRect.height rect in
  Point.mk ((PointLike.clientX pointLike - DOMRect.left rect) * scaleX)
           ((PointLike.clientY pointLike - DOMRect.top rect) * scaleY).

(** [prev => { newPaths = [...prev]; index = newPaths.findIndex(p => p.id ===
    current.id); index >= 0 ? newPaths[index] = {...current} :
    newPaths.push({...current}) }]: the copy [{...current}] shares the points
    of [current]. *)
Definition putPath (current : RakePath ref) (prev : list (RakePath ref)) : list (RakePath ref) :=
  match list_find (fun p => RakePath.id p = RakePath.id current) prev with
  | Some (index, _) => <[index := current]> prev
  | None => prev ++ [current]
  end.

Section UseCanvas.
Context {M : MathLib}.

(** The distance [handleMouseMove] and [handleTouchMove] compute. *)
Definition distance (point last : Point) : number :=
  Math_sqrt (Math_pow2 (Point.x point - Point.x last)
             + Math_pow2 (Point.y point - Point.y last)).

(** The body [handleMouseDown] and [handleTouchStart] share once the point
    is known.  The width [8 + u * 4], the rotation [(u - 0.5) * 0.4] and the
    scale [0.8 + u * 0.4] are exact here; the doubles of the code are these
    values rounded, which stay within the closed intervals [8, 12],
    [-0.2, 0.2] and [0.8, 1.2] and reach 12 and 1.2. *)
Definition pointerDown (now : Z) (point : Point) (s : State) : State :=
  match tool s with
  | rake =>
      let s1 := saveState (rakePaths s) (placedObjects s) s in
      let s2 := setIsDrawing true s1 in
      let '(a, s3) := alloc [point] s2 in
      let '(u, s4) := draw s3 in
      let newPath := RakePath.mk (pretty now) a (8 + u * 4) in
      let s5 := set_currentPathRef (Some newPath) s4 in
      let s6 := set_lastPointRef (Some point) s5 in
      playSound "rake" s6
  | place =>
      let s1 := saveState (rakePaths s) (placedObjects s) s in
      let '(u1, s2) := draw s1 in
      let '(u2, s3) := draw s2 in
      let newObject :=
        PlacedObject.mk (pretty now) (selectedObject s)
          (Point.x point) (Point.y point) ((u1 - 0.5) * 0.4) (0.8 + u2 * 0.4) in
      let s4 := setPlacedObjects (fun prev => prev ++ [newObject]) s3 in
      playSound "place" s4
  end.

Definition handleMouseDown (canvasRef : option HTMLCanvasElement) (now : Z)
    (event : PointLike) (s : State) : State :=
  match canvasRef with
  | None => s
  | Some canvas => pointerDown now (getCanvasCoordinates event canvas) s
  end.

Definition handleTouchStart (canvasRef : option HTMLCanvasElement) (now : Z)
    (touches : list PointLike) (s : State) : State :=
  match canvasRef, touches with
  | Some canvas, touch :: _ => pointerDown now (getCanvasCoordinates touch canvas) s
  | _, _ => s
  end.

(** The body [handleMouseMove] and [handleTouchMove] share once the point is
    known and the guards are passed. *)
Definition pointerMove (point : Point) (s : State) : State :=
  match currentPathRef s, lastPointRef s with
  | Some current, Some last =>
      if Qltb 3 (distance point last) then
        let s1 := push (RakePath.points current) point s in
        let s2 := set_lastPointRef (Some point) s1 in
        setRakePaths (putPath current) s2
      else s
  | _, _ => s
  end.

Definition handleMouseMove (canvasRef : option HTMLCanvasElement)
    (event : PointLike) (s : State) : State :=
  if negb (isDrawing s) || negb (bool_decide (tool s = rake))
     || negb (bool_decide (is_Some (currentPathRef s)))
  then s
  else match canvasRef with
       | None => s
       | Some canvas => pointerMove (getCanvasCoordinates event canvas) s
       end.

Definition handleTouchMove (canvasRef : option HTMLCanvasElement)
    (touches : list PointLike) (s : State) : State :=
  if negb (isDrawing s) || negb (bool_decide (tool s = rake))
     || negb (bool_decide (is_Some (currentPathRef s)))
  then s
  else match touches, canvasRef with
       | touch :: _, Some canvas => pointerMove (getCanvasCoordinates touch canvas) s
       | _, _ => s
       end.

(** [handleMouseUp] (also bound to [onMouseLeave]) and [handleTouchEnd]. *)
Definition handleMouseUp (s : State) : State :=
  if isDrawing s then
    set_lastPointRef None (set_currentPathRef None (setIsDrawing false s))
  else s.

Definition handleTouchEnd (s : State) : State := handleMouseUp s.

Definition clearGarden (s : State) : State :=
  let s1 := saveState (rakePaths s) (placedObjects s) s in
  let s2 := setRakePaths (fun _ => []) s1 in
  let s3 := setPlacedObjects (fun _ => []) s2 in
  playSound "clear" s3.

Definition undo (s : State) : State :=
  match last (undoStack s) with
  | Some lastState =>
      let s1 := setRakePaths (fun _ => CanvasState.rakePaths lastState) s in
      let s2 := setPlacedObjects (fun _ => CanvasState.placedObjects lastState) s1 in
      let s3 := setUndoStack slice_init s2 in
      playSound "undo" s3
  | None => s
  end.

(** ** The pattern functions *)

(** A computation that calls [Math.random]; [None] when it does not return
    (a loop that runs out of the fuel it is given, or an exception). *)
Definition Gen (A : Type) : Type := Rng -> option (A * Rng).

Definition gret {A} (a : A) : Gen A := fun r => Some (a, r).

Definition gbind {A B} (m : Gen A) (f : A -> Gen B) : Gen B :=
  fun r => match m r with Some (a, r') => f a r' | None => None end.

Definition throw {A} : Gen A := fun _ => None.

Definition rand : Gen number := fun r => Some (Math_random r).

Notation "x <- m ;; k" := (gbind m (fun x => k))
  (at level 100, m at next level, right associativity).

(** A loop counter as a number. *)
Definition num (i : nat) : number := inject_Z (Z.of_nat i).

(** The values of [i] in [for (let i = 0; i <= n; i++)]. *)
Definition countTo (n : number) : list nat := seq 0 (Z.to_nat (Qfloor n + 1)).

(** The values of [i] in [for (let i = 0; i < n; i++)]. *)
Definition countBelow (n : number) : list nat := seq 0 (Z.to_nat (Qceiling n)).

(** [for (const a of l) out.push(body(a))] *)
Fixpoint forEach {A B} (l : list A) (body : A -> Gen B) : Gen (list B) :=
  match l with
  | [] => gret []
  | a :: l' => b <- body a ;; bs <- forEach l' body ;; gret (b :: bs)
  end.

(** [for (let v = v0; v < bound; v = incr(v)) out.push(body(v))] *)
Fixpoint forLt {B} (fuel : nat) (v bound : number)
    (incr : number -> Gen number) (body : number -> Gen B) : Gen (list B) :=
  if Qltb v bound then
    match fuel with
    | O => throw
    | S fuel' =>
        b <- body v ;; v' <- incr v ;; bs <- forLt fuel' v' bound incr body ;;
        gret (b :: bs)
    end
  else gret [].

(** Fuel for a loop whose variable starts above 0 and grows by 1 or more. *)
Definition fuelUpTo (bound : number) : nat := S (Z.to_nat (Qceiling bound)).

(** [`${n}`] for a number of integral value (the loop variables [radius],
    [i] and [c] are the only numbers the code interpolates). *)
Definition Number_toString (n : number) : string := pretty (Qfloor n).

(** [n.toFixed(0)]: the nearest integer, a tie going away from zero. *)
Definition toFixed0 (n : number) : string :=
  if Qltb n 0 then "-" +:+ pretty (Qfloor (- n + 0.5))
  else pretty (Qfloor (n + 0.5)).

Definition generateSpiralPattern (centerX centerY radius turns : number) : list Point :=
  let totalPoints := turns * 50 in
  map (fun i =>
         let angle := (num i / totalPoints) * turns * 2 * Math_PI in
         let currentRadius := (num i / totalPoints) * radius in
         Point.mk (centerX + Math_cos angle * currentRadius)
                  (centerY + Math_sin angle * currentRadius))
      (countTo totalPoints).

Definition generateWavePattern (startX startY endX amplitude frequency : number)
  : list Point :=
  let distance := endX - startX in
  let steps := inject_Z (Qfloor (distance / 3)) in
  map (fun i =>
         let progress := num i / steps in
         Point.mk (startX + progress * distance)
                  (startY + Math_sin (progress * frequency * Math_PI * 2) * amplitude))
      (countTo steps).

Definition generateCirclePattern (centerX centerY radius : number) : list Point :=
  let totalPoints := inject_Z (Qfloor (radius * 0.5)) in
  map (fun i =>
         let angle := (num i / totalPoints) * 2 * Math_PI in
         Point.mk (centerX + Math_cos angle * radius)
                  (centerY + Math_sin angle * radius))
      (countTo totalPoints).

Definition generateEllipsePattern (centerX centerY radiusX radiusY : number)
  : list Point :=
  let approxPerimeter :=
    Math_PI * (3 * (radiusX + radiusY)
               - Math_sqrt ((3 * radiusX + radiusY) * (radiusX + 3 * radiusY))) in
  let totalPoints := Qmax 24 (inject_Z (Qfloor (approxPerimeter * 0.3))) in
  map (fun i =>
         let angle := (num i / totalPoints) * 2 * Math_PI in
         Point.mk (centerX + Math_cos angle * radiusX)
                  (centerY + Math_sin angle * radiusY))
      (countTo totalPoints).

(** The ten layouts of [generateZenPattern], in the order of its array. *)

Definition concentricCircles (canvas : HTMLCanvasElement)
  : Gen (list (RakePath (list Point))) :=
  let centerX := HTMLCanvasElement.width canvas / 2 in
  let centerY := HTMLCanvasElement.height canvas / 2 in
  let bound :=
    Qmin (HTMLCanvasElement.width canvas) (HTMLCanvasElement.height canvas) / 2 - 50 in
  forLt (fuelUpTo bound) 50 bound (fun radius => gret (radius + 40))
    (fun radius =>
       let points := generateCirclePattern centerX centerY radius in
       u <- rand ;;
       gret (RakePath.mk ("circle-" +:+ Number_toString radius) points (6 + u * 4))).

Definition spiralGarden (canvas : HTMLCanvasElement)
  : Gen (list (RakePath (list Point))) :=
  let centerX := HTMLCanvasElement.width canvas / 2 in
  let centerY := HTMLCanvasElement.height canvas / 2 in
  let maxRadius :=
    Qmin (HTMLCanvasElement.width canvas) (HTMLCanvasElement.height canvas) / 2 - 50 in
  let points := generateSpiralPattern centerX centerY maxRadius 4 in
  u <- rand ;;
  gret [RakePath.mk "spiral-main" points (8 + u * 4)].

Definition wavePatterns (canvas : HTMLCanvasElement)
  : Gen (list (RakePath (list Point))) :=
  let waveCount := 5%nat in
  let spacing := HTMLCanvasElement.height canvas / (num waveCount + 1) in
  forEach (seq 1 waveCount)
    (fun i =>
       let y := spacing * num i in
       u1 <- rand ;;
       let amplitude := 30 + u1 * 20 in
       u2 <- rand ;;
       let frequency := 2 + u2 * 2 in
       let points :=
         generateWavePattern 50 y (HTMLCanvasElement.width canvas - 50) amplitude frequency in
       u3 <- rand ;;
       gret (RakePath.mk ("wave-" +:+ pretty i) points (6 + u3 * 4))).

Definition mandala (canvas : HTMLCanvasElement)
  : Gen (list (RakePath (list Point))) :=
  let centerX := HTMLCanvasElement.width canvas / 2 in
  let centerY := HTMLCanvasElement.height canvas / 2 in
  let petals := 8%nat in
  paths <- forEach (seq 0 petals)
    (fun i =>
       let angle := (num i / num petals) * 2 * Math_PI in
       let startX := centerX + Math_cos angle * 50 in
       let startY := centerY + Math_sin angle * 50 in
       let endX := centerX + Math_cos angle * 200 in
       let endY := centerY + Math_sin angle * 200 in
       let steps := 30%nat in
       let points :=
         map (fun j =>
                let t := num j / num steps in
                let curveOffset := Math_sin (t * Math_PI) * 30 in
                let perpAngle := angle + Math_PI / 2 in
                Point.mk (startX + (endX - startX) * t + Math_cos perpAngle * curveOffset)
                         (startY + (endY - startY) * t + Math_sin perpAngle * curveOffset))
            (seq 0 (S steps)) in
       u <- rand ;;
       gret (RakePath.mk ("petal-" +:+ pretty i) points (5 + u * 3))) ;;
  let centerPoints := generateCirclePattern centerX centerY 30 in
  gret (paths ++ [RakePath.mk "center-circle" centerPoints 8]).

Definition rakedLines (canvas : HTMLCanvasElement)
  : Gen (list (RakePath (list Point))) :=
  let lineCount := 12%nat in
  let spacing := HTMLCanvasElement.width canvas / (num lineCount + 1) in
  forEach (seq 1 lineCount)
    (fun i =>
       let x := spacing * num i in
       let steps := 40%nat in
       points <- forEach (seq 0 (S steps))
         (fun j =>
            let t := num j / num steps in
            let y := 50 + t * (HTMLCanvasElement.height canvas - 100) in
            u <- rand ;;
            let waveOffset := Math_sin (t * Math_PI * 3) * (15 + u * 10) in
            gret (Point.mk (x + waveOffset) y)) ;;
       u <- rand ;;
       gret (RakePath.mk ("zen-line-" +:+ pretty i) points (6 + u * 4))).

Definition ellipticalRings (canvas : HTMLCanvasElement)
  : Gen (list (RakePath (list Point))) :=
  let centerX := HTMLCanvasElement.width canvas / 2 in
  let centerY := HTMLCanvasElement.height canvas / 2 in
  let maxRadiusX :=
    Qmin (HTMLCanvasElement.width canvas) (HTMLCanvasElement.height canvas) / 2 - 60 in
  u0 <- rand ;;
  let maxRadiusY := maxRadiusX * (0.6 + u0 * 0.3) in
  forLt (fuelUpTo maxRadiusX) 40 maxRadiusX (fun r => gret (r + 36))
    (fun r =>
       let rx := r in
       let ry := Qmax 24 ((r / maxRadiusX) * maxRadiusY) in
       let points := generateEllipsePattern centerX centerY rx ry in
       u <- rand ;;
       gret (RakePath.mk ("ellipse-" +:+ toFixed0 r) points (6 + u * 3))).

Definition doubleSpiral (canvas : HTMLCanvasElement)
  : Gen (list (RakePath (list Point))) :=
  let centerX := HTMLCanvasElement.width canvas / 2 in
  let centerY := HTMLCanvasElement.height canvas / 2 in
  let maxRadius :=
    Qmin (HTMLCanvasElement.width canvas) (HTMLCanvasElement.height canvas) / 2 - 50 in
  let points := generateSpiralPattern centerX centerY maxRadius 3.5 in
  u1 <- rand ;;
  let main := RakePath.mk "double-spiral-a" points (7 + u1 * 3) in
  let offsetAngle := Math_PI in
  let pointsB :=
    map (fun p =>
           let dx := Point.x p - centerX in
           let dy := Point.y p - centerY in
           let angle := Math_atan2 dy dx + offsetAngle in
           let radius := Math_hypot dx dy in
           Point.mk (centerX + Math_cos angle * radius) (centerY + Math_sin angle * radius))
        (RakePath.points main) in
  u2 <- rand ;;
  let other := RakePath.mk "double-spiral-b" pointsB (7 + u2 * 3) in
  gret [main; other].

Definition bambooGrove (canvas : HTMLCanvasElement)
  : Gen (list (RakePath (list Point))) :=
  u0 <- rand ;;
  let stalks := 10 + inject_Z (Qfloor (u0 * 6)) in
  let margin := 60 in
  forEach (countBelow stalks)
    (fun i =>
       let x :=
         margin + (num i + 0.5) * ((HTMLCanvasElement.width canvas - margin * 2) / stalks) in
       u1 <- rand ;;
       let sway := 18 + u1 * 14 in
       u2 <- rand ;;
       let freq := 2 + u2 * 2.5 in
       let steps := 48%nat in
       let points :=
         map (fun j =>
                let t := num j / num steps in
                let y := 50 + t * (HTMLCanvasElement.height canvas - 100) in
                let offset := Math_sin (t * Math_PI * freq) * sway in
                Point.mk (x + offset) y)
             (seq 0 (S steps)) in
       u3 <- rand ;;
       gret (RakePath.mk ("bamboo-" +:+ pretty i) points (5 + u3 * 3))).

Definition ripples (canvas : HTMLCanvasElement)
  : Gen (list (RakePath (list Point))) :=
  u0 <- rand ;;
  let centers := 2 + inject_Z (Qfloor (u0 * 2)) in
  rings <- forEach (countBelow centers)
    (fun c =>
       u1 <- rand ;;
       let cx := 120 + u1 * (HTMLCanvasElement.width canvas - 240) in
       u2 <- rand ;;
       let cy := 120 + u2 * (HTMLCanvasElement.height canvas - 240) in
       let maxR :=
         Qmin (HTMLCanvasElement.width canvas) (HTMLCanvasElement.height canvas) / 3 in
       forLt (fuelUpTo maxR) 40 maxR
         (fun r => u <- rand ;; gret (r + (32 + u * 12)))
         (fun r =>
            let points := generateCirclePattern cx cy r in
            u <- rand ;;
            gret (RakePath.mk ("ripple-" +:+ pretty c +:+ "-" +:+ toFixed0 r)
                    points (5 + u * 3)))) ;;
  gret (concat rings).

Definition serpentine (canvas : HTMLCanvasElement)
  : Gen (list (RakePath (list Point))) :=
  let rows := 10%nat in
  let margin := 50 in
  let heightAvail := HTMLCanvasElement.height canvas - margin * 2 in
  segments <- forEach (seq 0 rows)
    (fun row =>
       let y := margin + (num row / (num rows - 1)) * heightAvail in
       let leftToRight := Nat.eqb (row mod 2) 0 in
       let startX := margin in
       let endX := HTMLCanvasElement.width canvas - margin in
       let steps := 80%nat in
       forEach (seq 0 (S steps))
         (fun i =>
            let t := num i / num steps in
            let x := if leftToRight then startX + t * (endX - startX)
                     else endX - t * (endX - startX) in
            u <- rand ;;
            let amp := 10 + u * 8 in
            let offset := Math_sin ((t + num row * 0.15) * Math_PI * 2) * amp in
            gret (Point.mk x (y + offset)))) ;;
  u <- rand ;;
  gret [RakePath.mk "serpentine" (concat segments) (6 + u * 3)].

Definition patterns (canvas : HTMLCanvasElement)
  : list (Gen (list (RakePath (list Point)))) :=
  [ concentricCircles canvas; spiralGarden canvas; wavePatterns canvas;
    mandala canvas; rakedLines canvas; ellipticalRings canvas;
    doubleSpiral canvas; bambooGrove canvas; ripples canvas; serpentine canvas ].

(** [patterns[index]()]: calling [undefined] throws. *)
Definition callPattern (canvas : HTMLCanvasElement) (index : Z)
  : Gen (list (RakePath (list Point))) :=
  if (index <? 0)%Z then throw
  else match patterns canvas !! Z.to_nat index with
       | Some selectedPattern => selectedPattern
       | None => throw
       end.

Definition generateZenPattern (canvas : HTMLCanvasElement)
  : Gen (list (RakePath (list Point))) :=
  u <- rand ;;
  callPattern canvas (Qfloor (u * num (length (patterns canvas)))).

(** ** [generatePattern] and its animation *)

(** One turn of the inner loop of [generatePattern], up to its [await]:
    [animatedPath.points.push(path.points[i])], then the scene gets the copy
    [{...animatedPath}] in place of any path of the same id. *)
Definition reveal (path : RakePath (list Point)) (animatedPath : RakePath ref)
    (i : nat) (p : Point) (s : State) : State :=
  let s1 := push (RakePath.points animatedPath) p s in
  let s2 :=
    setRakePaths
      (fun prev =>
         filter (fun q => RakePath.id q <> RakePath.id path) prev ++ [animatedPath]) s1 in
  if Nat.eqb (i mod 10) 0 then playSound "rake" s2 else s2.

(** [objectTypes[index]]; out of range JavaScript gives [undefined], which
    [GardenObject] does not have: no draw of [unit_draws] gets there. *)
Definition objectTypeAt (index : Z) : GardenObject :=
  if (index =? 1)%Z then bonsai else if (index =? 2)%Z then lantern else stone.

(** The last part of [generatePattern], from [if (Math.random() > 0.3)] to
    the first [await] of the loop over the objects. *)
Definition placeObjects (canvas : HTMLCanvasElement) (s : State) : State :=
  let '(u, s1) := draw s in
  if Qltb 0.3 u then
    let '(u', s2) := draw s1 in
    let objectCount := 1 + inject_Z (Qfloor (u' * 3)) in
    if Qltb (num 0) objectCount
    then set_animation (Some (AwaitObject canvas 0 objectCount)) s2
    else set_animation None s2
  else set_animation None s1.

(** The loop over [newPaths] from the head of a turn to the next [await]:
    a path without points is passed without waiting. *)
Fixpoint animatePaths (canvas : HTMLCanvasElement)
    (paths : list (RakePath (list Point))) (s : State) : State :=
  match paths with
  | [] => placeObjects canvas s
  | path :: rest =>
      let '(a, s1) := alloc [] s in
      let animatedPath := RakePath.mk (RakePath.id path) a (RakePath.width path) in
      match RakePath.points path with
      | p :: _ =>
          set_animation (Some (AwaitPoint canvas path animatedPath 0 rest))
            (reveal path animatedPath 0 p s1)
      | [] => animatePaths canvas rest s1
      end
  end.

(** What runs when the timer of an [await] fires, up to the next [await].
    The position, rotation and scale of an object are exact here, as in
    [pointerDown]; rounded, they stay within the same closed intervals. *)
Definition resume (now : Z) (k : Cont) (s : State) : State :=
  match k with
  | AwaitPoint canvas path animatedPath i rest =>
      match RakePath.points path !! S i with
      | Some p =>
          set_animation (Some (AwaitPoint canvas path animatedPath (S i) rest))
            (reveal path animatedPath (S i) p s)
      | None => animatePaths canvas rest s
      end
  | AwaitObject canvas i objectCount =>
      let '(u1, s1) := draw s in
      let '(u2, s2) := draw s1 in
      let '(u3, s3) := draw s2 in
      let '(u4, s4) := draw s3 in
      let '(u5, s5) := draw s4 in
      let newObject :=
        PlacedObject.mk ("auto-" +:+ pretty now +:+ "-" +:+ pretty i)
          (objectTypeAt (Qfloor (u1 * 3)))
          (100 + u2 * (HTMLCanvasElement.width canvas - 200))
          (100 + u3 * (HTMLCanvasElement.height canvas - 200))
          ((u4 - 0.5) * 0.4) (0.8 + u5 * 0.4) in
      let s6 := setPlacedObjects (fun prev => prev ++ [newObject]) s5 in
      let s7 := playSound "place" s6 in
      if Qltb (num (S i)) objectCount
      then set_animation (Some (AwaitObject canvas (S i) objectCount)) s7
      else set_animation None s7
  end.

(** [generatePattern], up to its first [await] (or to its end).  [None]: the
    call of [generateZenPattern] does not return a pattern (it throws on an
    index out of range, or a loop of it does not end), after which nothing
    of this call runs; no draw of [Math.random], all of them in [0, 1),
    leads there ([generatePattern_total]). *)
Definition generatePattern (canvasRef : option HTMLCanvasElement) (s : State)
  : option State :=
  match canvasRef with
  | None => Some s
  | Some canvas =>
      let s1 := saveState (rakePaths s) (placedObjects s) s in
      let s2 := setRakePaths (fun _ => []) s1 in
      let s3 := setPlacedObjects (fun _ => []) s2 in
      match generateZenPattern canvas (random s3) with
      | Some (newPaths, r) => Some (animatePaths canvas newPaths (set_random r s3))
      | None => None
      end
  end.

(** ** The component [ZenGarden] around the hook *)

(** [setIsGeneratingPattern(false)], once [await generatePattern()] is over. *)
Definition settle (s : State) : State :=
  match animation s with
  | None => setIsGeneratingPattern false s
  | Some _ => s
  end.

Definition handleGeneratePattern (canvasRef : option HTMLCanvasElement) (s : State)
  : option State :=
  if isGeneratingPattern s then Some s
  else settle <$> generatePattern canvasRef (setIsGeneratingPattern true s).

(** What the browser delivers: the listeners of the canvas, the buttons, and
    the timer of a pending [await]. *)
Inductive Event :=
| MouseDown (event : PointLike)
| MouseMove (event : PointLike)
| MouseUp
| MouseLeave
| TouchStart (touches : list PointLike)
| TouchMove (touches : list PointLike)
| TouchEnd
| ClickTool (t : Tool)
| ClickObject (o : GardenObject)
| ClickGenerate
| ClickUndo
| ClickReset
| Timeout.

(** What an event finds around it: the canvas of [canvasRef.current] with
    its bounding rectangle, and the value of [Date.now()]. *)
Record Env := { canvasRef : option HTMLCanvasElement; now : Z }.

Definition step (s : State) (ev : Env * Event) : option State :=
  let '(env, e) := ev in
  match e with
  | MouseDown event => Some (handleMouseDown (canvasRef env) (now env) event s)
  | MouseMove event => Some (handleMouseMove (canvasRef env) event s)
  | MouseUp | MouseLeave => Some (handleMouseUp s)
  | TouchStart touches => Some (handleTouchStart (canvasRef env) (now env) touches s)
  | TouchMove touches => Some (handleTouchMove (canvasRef env) touches s)
  | TouchEnd => Some (handleTouchEnd s)
  | ClickTool t => Some (setTool t s)
  | ClickObject o =>
      Some (if bool_decide (tool s = place) then setSelectedObject o s else s)
  | ClickGenerate => handleGeneratePattern (canvasRef env) s
  | ClickUndo => Some (undo s)
  | ClickReset => Some (clearGarden s)
  | Timeout =>
      match animation s with
      | Some k => Some (settle (resume (now env) k s))
      | None => Some s
      end
  end.

Fixpoint run (s : State) (evs : list (Env * Event)) : option State :=
  match evs with
  | [] => Some s
  | ev :: evs' =>
      match step s ev with
      | Some s' => run s' evs'
      | None => None
      end
  end.

End UseCanvas.

(** ** Logical actions

    What the user does in one go: a rake gesture (down, moves, up), placing
    an object, Reset, and Auto Pattern with the timers of its animation.  A
    gesture on a touch screen has one touch or more in each event. *)

Inductive Op :=
| MouseRake (canvas : HTMLCanvasElement) (now : Z)
    (down : PointLike) (moves : list PointLike)
| TouchRake (canvas : HTMLCanvasElement) (now : Z)
    (touch : PointLike) (others : list PointLike) (moves : list (list PointLike))
| MousePlace (canvas : HTMLCanvasElement) (now : Z)
    (kind : GardenObject) (down : PointLike)
| TouchPlace (canvas : HTMLCanvasElement) (now : Z)
    (kind : GardenObject) (touch : PointLike) (others : list PointLike)
| Reset
| Generate (canvas : HTMLCanvasElement) (timers : list Z).

Definition on (canvas : HTMLCanvasElement) (now : Z) (e : Event) : Env * Event :=
  ({| canvasRef := Some canvas; now := now |}, e).

Definition opEvents (op : Op) : list (Env * Event) :=
  match op with
  | MouseRake canvas now down moves =>
      on canvas now (ClickTool rake) :: on canvas now (MouseDown down)
      :: map (fun m => on canvas now (MouseMove m)) moves
      ++ [on canvas now MouseUp]
  | TouchRake canvas now touch others moves =>
      on canvas now (ClickTool rake) :: on canvas now (TouchStart (touch :: others))
      :: map (fun m => on canvas now (TouchMove m)) moves
      ++ [on canvas now TouchEnd]
  | MousePlace canvas now kind down =>
      [on canvas now (ClickTool place); on canvas now (ClickObject kind);
       on canvas now (MouseDown down)]
  | TouchPlace canvas now kind touch others =>
      [on canvas now (ClickTool place); on canvas now (ClickObject kind);
       on canvas now (TouchStart (touch :: others)); on canvas now TouchEnd]
  | Reset => [({| canvasRef := None; now := 0 |}, ClickReset)]
  | Generate canvas timers =>
      on canvas 0 ClickGenerate :: map (fun t => on canvas t Timeout) timers
  end.

Section Actions.
Context {M : MathLib}.

(** An action carried through: its events are handled, and no animation is
    left waiting for a timer. *)
Definition doOp (s : State) (op : Op) : option State :=
  match run s (opEvents op) with
  | Some s' => match animation s' with None => Some s' | Some _ => None end
  | None => None
  end.

Fixpoint runOps (s : State) (ops : list Op) : option State :=
  match ops with
  | [] => Some s
  | op :: ops' =>
      match doOp s op with
      | Some s' => runOps s' ops'
      | None => None
      end
  end.

(** The points a rake gesture records: [last] is the last recorded point,
    [moves] are the points the pointer moves to, in the order of the calls. *)
Fixpoint strokePoints (last : Point) (moves : list Point) : list Point :=
  match moves with
  | [] => []
  | point :: moves' =>
      if Qltb 3 (distance point last)
      then point :: strokePoints point moves'
      else strokePoints last moves'
  end.

End Actions.

(** ** Predicates on states *)

(** The snapshot [saveState] pushes from the closure of [s], and the undo
    stack it leaves. *)
Definition snapshot (s : State) : CanvasState :=
  CanvasState.mk (rakePaths s) (placedObjects s).

Definition pushed (s : State) : list CanvasState :=
  slice_last 20 (undoStack s ++ [snapshot s]).

(** The arrays the code may still push to: the points of the path in
    progress and of the path being revealed. *)
Definition live (s : State) : list ref :=
  match currentPathRef s with Some current => [RakePath.points current] | None => [] end
  ++ match animation s with
     | Some (AwaitPoint _ _ animatedPath _ _) => [RakePath.points animatedPath]
     | _ => []
     end.

(** An array of the store that no code pushes to any more. *)
Definition frozen (s : State) (a : ref) : Prop :=
  (a < length (arrays s))%nat /\ a ∉ live s.

(** A frozen array stays as it is, and stays frozen. *)
Definition keeps (s s' : State) : Prop :=
  forall a, frozen s a -> frozen s' a /\ arrays s' !! a = arrays s !! a.

(** A path whose points are an array of a store of [n] arrays. *)
Definition allocated (n : nat) (p : RakePath ref) : Prop :=
  (RakePath.points p < n)%nat.

(** Every reference the state holds names an array of a store of [n] arrays. *)
Definition refsBelow (n : nat) (s : State) : Prop :=
  Forall (allocated n) (rakePaths s)
  /\ Forall (fun c => Forall (allocated n) (CanvasState.rakePaths c)) (undoStack s)
  /\ (forall current, currentPathRef s = Some current -> allocated n current)
  /\ (forall c p an i rest,
        animation s = Some (AwaitPoint c p an i rest) -> allocated n an).

Definition wellFormed (s : State) : Prop := refsBelow (length (arrays s)) s.

(** No gesture in progress and no animation pending. *)
Definition idle (s : State) : Prop :=
  currentPathRef s = None /\ animation s = None /\ isGeneratingPattern s = false.

(** A snapshot none of whose grooves is still being extended. *)
Definition settledSnapshot (s : State) (c : CanvasState) : Prop :=
  Forall (fun p => frozen s (RakePath.points p)) (CanvasState.rakePaths c).

(** ** A rational stand-in for [Math], to run the model on examples *)

Definition sampleMath : MathLib :=
  {| Math_sin := fun a => a - a * a * a / 6;
     Math_cos := fun a => 1 - a * a / 2;
     Math_sqrt := fun a => Z.sqrt (Qfloor (a * 1000000)) # 1000;
     Math_atan2 := fun b a => b / a;
     Math_hypot := fun a b => Z.sqrt (Qfloor ((a * a + b * b) * 1000000)) # 1000;
     Math_PI := 355 # 113 |}.

Definition halves : Rng := {| draws := fun _ => 1 # 2; cursor := 0 |}.

Definition canvas800 : HTMLCanvasElement :=
  HTMLCanvasElement.mk 800 600 (DOMRect.mk 0 0 800 600).

Definition at_ (clientX clientY : number) : PointLike := PointLike.mk clientX clientY.

(** ** Predicates of the proofs *)

(** What the moves of a gesture leave alone. *)
Definition sameBut_scene (s s' : State) : Prop :=
  undoStack s' = undoStack s /\ currentPathRef s' = currentPathRef s
  /\ isDrawing s' = isDrawing s /\ tool s' = tool s
  /\ animation s' = animation s /\ isGeneratingPattern s' = isGeneratingPattern s
  /\ placedObjects s' = placedObjects s.

(** The flag of the component is down whenever no animation is pending. *)
Definition flagDown (s : State) : Prop :=
  animation s = None -> isGeneratingPattern s = false.

(** Invariants of a state reached by whole actions. *)
Definition steady (s : State) : Prop :=
  idle s /\ wellFormed s /\ (length (undoStack s) <= 20)%nat.

(** [u] is [t] after [k] undos, as far as the stack and the references go. *)
Definition undone (k : nat) (u t : State) : Prop :=
  rakePaths u = rakePaths t /\ placedObjects u = placedObjects t
  /\ undoStack u = slice_last (20 - k) (undoStack t).

(** The state of a gesture that began at [p0] with the path [current]:
    [stroke] are the points recorded since. *)
Definition raking (current : RakePath ref) (p0 : Point) (stroke : list Point)
    (s : State) : Prop :=
  isDrawing s = true /\ tool s = rake /\ currentPathRef s = Some current
  /\ lastPointRef s = Some (List.last stroke p0)
  /\ arrays s !! RakePath.points current = Some (p0 :: stroke)
  /\ (stroke <> [] -> current ∈ rakePaths s).

(** The points of the moves of a gesture: of a mouse, and of a touch screen
    (the first touch of each event that has one). *)
Definition mousePoints (canvas : HTMLCanvasElement) (moves : list PointLike) : list Point :=
  map (fun m => getCanvasCoordinates m canvas) moves.

Definition touchPoints (canvas : HTMLCanvasElement) (moves : list (list PointLike))
  : list Point :=
  omap (fun touches => (fun t => getCanvasCoordinates t canvas) <$> head touches) moves.

(** [g] returns, whatever the draws (all of them in [0, 1)), a value that
    satisfies [P]. *)
Definition returns {A} (g : Gen A) (P : A -> Prop) : Prop :=
  forall r, unit_draws r ->
    exists a r', g r = Some (a, r') /\ draws r' = draws r /\ P a.

(** A path that [drawRakeGrooves] paints: two points or more. *)
Definition multiPoint (p : RakePath (list Point)) : Prop :=
  (2 <= length (RakePath.points p))%nat.

(** What [generate] needs of a pattern: a path or more, each of two points
    or more. *)
Definition paintable (paths : list (RakePath (list Point))) : Prop :=
  paths <> [] /\ Forall multiPoint paths.

(** The state of an animation: while a path is revealed it is the last of
    the scene, with the points revealed so far; afterwards the scene holds a
    path of two points or more. *)
Definition revealing (s : State) : Prop :=
  match animation s with
  | Some (AwaitPoint _ path an i rest) =>
      last (rakePaths s) = Some an
      /\ arrays s !! RakePath.points an = Some (take (S i) (RakePath.points path))
      /\ Forall multiPoint (path :: rest)
  | _ => exists p, p ∈ (scene s).1 /\ multiPoint p
  end.

(** The points an animation has still to reveal after the one it waits on. *)
Definition pointsLeft (paths : list (RakePath (list Point))) : nat :=
  sum_list (map (fun p => length (RakePath.points p)) paths).

(** The arrays of [s] are in [s'] as they were. *)
Definition untouched (s s' : State) : Prop :=
  forall a, (a < length (arrays s))%nat -> arrays s' !! a = arrays s !! a.

(** What a mutating operation leaves of the state [s] it starts from: the
    stack with the snapshot of [s] pushed, a snapshot that reads as the scene
    of [s], and that one undo brings back. *)
Definition snapshotTaken (s s' : State) : Prop :=
  undoStack s' = slice_last 20 (undoStack s ++ [snapshot s])
  /\ last (undoStack s') = Some (snapshot s)
  /\ length (undoStack s') = Nat.min 20 (S (length (undoStack s)))
  /\ viewSnapshot (arrays s') (snapshot s) = scene s
  /\ scene (undo s') = scene s.

Definition placeStone : Op := MousePlace canvas800 0 stone (at_ 100 100).

(** Points of a stroke one after the other are more than 3 apart. *)
Definition apart {M : MathLib} (stroke : list Point) : Prop :=
  forall i a b, stroke !! i = Some a -> stroke !! S i = Some b -> 3 < distance b a.

(** What a rake gesture that began at [p0] and moved through [moves] leaves
    of the state [s] it started in. *)
Definition gestureDone {M : MathLib} (now : Z) (p0 : Point) (moves : list Point)
    (s s' : State) : Prop :=
  let stroke := p0 :: strokePoints p0 moves in
  sublist stroke (p0 :: moves)
  /\ apart stroke
  /\ (strokePoints p0 moves <> [] ->
        exists w, RakePath.mk (pretty now) stroke w ∈ (scene s').1)
  /\ (strokePoints p0 moves = [] -> rakePaths s' = rakePaths s)
  /\ currentPathRef s' = None
  /\ undoStack s' = pushed s.

(** The events of a gesture but the last one, the pointer up. *)
Definition rakeDown (canvas : HTMLCanvasElement) (now : Z) (down : PointLike) :=
  [on canvas now (ClickTool rake); on canvas now (MouseDown down)].

(** What a gesture none of whose moves is recorded leaves of the state [s]
    it started in: the scene as it was, and one snapshot more. *)
Definition stillDone (s s' : State) : Prop :=
  rakePaths s' = rakePaths s
  /\ scene s' = scene s
  /\ currentPathRef s' = None
  /\ undoStack s' = pushed s
  /\ length (undoStack s') = Nat.min 20 (S (length (undoStack s))).

Definition resetWhileRaking : list (Env * Event) :=
  [on canvas800 0 (MouseDown (at_ 10 10)); on canvas800 0 (MouseMove (at_ 20 10));
   on canvas800 0 ClickReset].

(** A [Math.sqrt] that is increasing and takes 9 to 3, as far as the
    threshold test needs it. *)
Definition sqrtAround9 (M : MathLib) : Prop :=
  (forall a, a <= 9 -> Math_sqrt a <= 3) /\ (forall a, 9 < a -> 3 < Math_sqrt a).

(** The coordinates of the points of a list of paths, in lowest terms. *)
Definition coordinates (paths : list (RakePath (list Point))) : list (list (Q * Q)) :=
  map (fun p => map (fun q => (Qred (Point.x q), Qred (Point.y q))) (RakePath.points p))
    paths.

(** ** Painting: the calls on a [CanvasRenderingContext2D]

    What the drawing functions do to the context they are given is the list
    of the calls they make on it, in order; an assignment to a property is
    the call of its setter. *)

(** A fill or stroke style: a CSS colour, or a gradient with its colour
    stops ([createLinearGradient], [createRadialGradient], [addColorStop]). *)
Inductive Style :=
| Color (css : string)
| LinearGradient (x0 y0 x1 y1 : number) (colorStops : list (number * string))
| RadialGradient (x0 y0 r0 x1 y1 r1 : number) (colorStops : list (number * string)).

Module ctx.
#[warnings="-register-all"] Inductive Call :=
| clearRect (x y w h : number)
| fillRect (x y w h : number)
| strokeRect (x y w h : number)
| beginPath
| closePath
| moveTo (x y : number)
| lineTo (x y : number)
| quadraticCurveTo (cpx cpy x y : number)
| bezierCurveTo (cp1x cp1y cp2x cp2y x y : number)
| arc (x y radius startAngle endAngle : number)
| ellipse (x y radiusX radiusY rotation startAngle endAngle : number)
| fill
| stroke
| clip
| save
| restore
| translate (x y : number)
| rotate (angle : number)
| scale (x y : number)
| drawImage (image : list Call) (dx dy : number)
| fillStyle (v : Style)
| strokeStyle (v : Style)
| lineWidth (v : number)
| lineCap (v : string)
| lineJoin (v : string)
| shadowColor (v : string)
| shadowBlur (v : number)
| shadowOffsetX (v : number)
| shadowOffsetY (v : number)
| globalAlpha (v : number)
| globalCompositeOperation (v : string).
End ctx.

(** The colours of the grooves, in which the two themes of the hook differ. *)
Record GrooveTheme := {
  shadowStroke : string;
  shadowTint : string;
  shadowSpread : number;
  grooveBlend : string;
  grooveStroke : string;
  highlightStroke : string
}.

(** hooks/useCanvas, the dark garden. *)
Definition slate : GrooveTheme :=
  {| shadowStroke := "rgba(0, 0, 0, 0.4)"; shadowTint := "rgba(0, 0, 0, 0.35)";
     shadowSpread := 4; grooveBlend := "screen"; grooveStroke := "#64748b";
     highlightStroke := "rgba(255, 255, 255, 0.08)" |}.

(** hooks/useCanvas, the light garden in its wooden frame. *)
Definition wood : GrooveTheme :=
  {| shadowStroke := "rgba(0, 0, 0, 0.3)"; shadowTint := "rgba(0, 0, 0, 0.25)";
     shadowSpread := 3; grooveBlend := "multiply"; grooveStroke := "#A18B6A";
     highlightStroke := "rgba(255, 255, 255, 0.25)" |}.

(** [ctx.beginPath(); ctx.moveTo(points[0].x, points[0].y);
    points.forEach(point => ctx.lineTo(point.x, point.y)); ctx.stroke()] *)
Definition strokePolyline (points : list Point) : list ctx.Call :=
  match points with
  | [] => []
  | first :: _ =>
      [ctx.beginPath; ctx.moveTo (Point.x first) (Point.y first)]
      ++ map (fun point => ctx.lineTo (Point.x point) (Point.y point)) points
      ++ [ctx.stroke]
  end.

(** The body of the [forEach] of [drawRakeGrooves]. *)
Definition drawRakeGroove (theme : GrooveTheme) (path : RakePath (list Point))
  : list ctx.Call :=
  if (length (RakePath.points path) <? 2)%nat then []
  else
    [ctx.save;
     ctx.strokeStyle (Color (shadowStroke theme));
     ctx.lineWidth (RakePath.width path + 2);
     ctx.lineCap "round";
     ctx.lineJoin "round";
     ctx.shadowColor (shadowTint theme);
     ctx.shadowBlur (shadowSpread theme);
     ctx.shadowOffsetX 1;
     ctx.shadowOffsetY 1]
    ++ strokePolyline (RakePath.points path)
    ++ [ctx.restore;
        ctx.save;
        ctx.globalCompositeOperation (grooveBlend theme);
        ctx.strokeStyle (Color (grooveStroke theme));
        ctx.lineWidth (RakePath.width path);
        ctx.lineCap "round";
        ctx.lineJoin "round"]
    ++ strokePolyline (RakePath.points path)
    ++ [ctx.restore;
        ctx.save;
        ctx.strokeStyle (Color (highlightStroke theme));
        ctx.lineWidth (Qmax 1 (RakePath.width path / 3));
        ctx.lineCap "round";
        ctx.lineJoin "round"]
    ++ strokePolyline (RakePath.points path)
    ++ [ctx.restore].

Definition drawRakeGrooves (theme : GrooveTheme) (rakePaths : list (RakePath (list Point)))
  : list ctx.Call :=
  concat (map (drawRakeGroove theme) rakePaths).

Section Painting.
Context {M : MathLib}.

(** The [switch (obj.type)] of [drawObjects].  The light garden has a case
    ['flower'] besides, which no [GardenObject] reaches. *)
Definition drawObjectBody (type : GardenObject) : list ctx.Call :=
  match type with
  | stone =>
      [ctx.save;
       ctx.fillStyle (Color "rgba(0, 0, 0, 0.2)");
       ctx.translate 2 3;
       ctx.beginPath;
       ctx.ellipse 0 0 15 12 0 0 (Math_PI * 2);
       ctx.fill;
       ctx.restore;
       ctx.fillStyle
         (RadialGradient (-5) (-5) 0 0 0 20
            [(0, "#B8B5B2"); (0.7, "#8E8B88"); (1, "#6B6865")]);
       ctx.beginPath;
       ctx.ellipse 0 0 15 12 0 0 (Math_PI * 2);
       ctx.fill;
       ctx.fillStyle (Color "rgba(255, 255, 255, 0.3)");
       ctx.beginPath;
       ctx.ellipse (-6) (-4) 4 3 0 0 (Math_PI * 2);
       ctx.fill]
  | bonsai =>
      [ctx.save;
       ctx.fillStyle (Color "rgba(0, 0, 0, 0.2)");
       ctx.translate 3 4;
       ctx.beginPath;
       ctx.ellipse 0 5 12 8 0 0 (Math_PI * 2);
       ctx.fill;
       ctx.restore;
       ctx.fillStyle (Color "#8B4513");
       ctx.fillRect (-2) 0 4 15;
       ctx.fillStyle
         (RadialGradient 0 (-5) 0 0 (-5) 15
            [(0, "#90EE90"); (0.7, "#228B22"); (1, "#006400")]);
       ctx.beginPath;
       ctx.ellipse 0 (-5) 12 10 0 0 (Math_PI * 2);
       ctx.fill;
       ctx.fillStyle (Color "rgba(144, 238, 144, 0.6)");
       ctx.beginPath;
       ctx.ellipse (-4) (-8) 3 2 0 0 (Math_PI * 2);
       ctx.fill]
  | lantern =>
      [ctx.save;
       ctx.fillStyle (Color "rgba(0, 0, 0, 0.2)");
       ctx.translate 2 3;
       ctx.fillRect (-6) (-12) 12 20;
       ctx.restore;
       ctx.fillStyle (Color "#CD853F");
       ctx.fillRect (-6) (-12) 12 20;
       ctx.fillStyle
         (LinearGradient (-5) (-10) 5 6
            [(0, "#FFF8DC"); (0.5, "#F0E68C"); (1, "#DAA520")]);
       ctx.fillRect (-5) (-10) 10 16;
       ctx.strokeStyle (Color "#8B4513");
       ctx.lineWidth 1;
       ctx.strokeRect (-5) (-10) 10 16;
       ctx.beginPath;
       ctx.moveTo (-5) (-2);
       ctx.lineTo 5 (-2);
       ctx.stroke;
       ctx.fillStyle (Color "#8B4513");
       ctx.fillRect (-7) (-14) 14 3]
  end.

(** The body of the [forEach] of [drawObjects]. *)
Definition drawObject (obj : PlacedObject) : list ctx.Call :=
  [ctx.save;
   ctx.translate (PlacedObject.x obj) (PlacedObject.y obj);
   ctx.rotate (PlacedObject.rotation obj);
   ctx.scale (PlacedObject.scale obj) (PlacedObject.scale obj)]
  ++ drawObjectBody (PlacedObject.type obj)
  ++ [ctx.restore].

Definition drawObjects (placedObjects : list PlacedObject) : list ctx.Call :=
  concat (map drawObject placedObjects).

End Painting.

(** *** The dark garden (hooks/useCanvas, slate theme) *)

Module Slate.
Section SlateGarden.
Context {M : MathLib}.

(** One turn of the loop of [drawSandTexture]: a speckle. *)
Definition drawSpeckle (width height : number) : Gen (list ctx.Call) :=
  gbind rand (fun u1 =>
  let x := u1 * width in
  gbind rand (fun u2 =>
  let y := u2 * height in
  gbind rand (fun u3 =>
  let size := u3 * 2 in
  gbind rand (fun u4 =>
  gret
    [ctx.fillStyle (Color (if Qltb 0.5 u4 then "#334155" else "#1e293b"));
     ctx.beginPath;
     ctx.arc x y size 0 (Math_PI * 2);
     ctx.fill])))).

(** [drawSandTexture]: the sand, with its 1000 speckles. *)
Definition drawSandTexture (width height : number) : Gen (list ctx.Call) :=
  gbind (forEach (seq 0 1000) (fun _ => drawSpeckle width height)) (fun speckles =>
  gret
    ([ctx.fillStyle
        (LinearGradient 0 0 width height
           [(0, "#1f2937"); (0.5, "#111827"); (1, "#0b1220")]);
      ctx.fillRect 0 0 width height;
      ctx.globalAlpha 0.05]
     ++ concat speckles
     ++ [ctx.globalAlpha 1])).

(** [render], on the scene it closes over; [getContext] tells whether
    [canvas.getContext('2d')] gives a context.  Its draws are draws of the
    same [Math.random] as those of the handlers. *)
Definition render (canvasRef : option HTMLCanvasElement) (getContext : bool)
    (rakePaths : list (RakePath (list Point))) (placedObjects : list PlacedObject)
  : Gen (list ctx.Call) :=
  match canvasRef with
  | None => gret []
  | Some canvas =>
      if getContext then
        gbind (drawSandTexture (HTMLCanvasElement.width canvas)
                 (HTMLCanvasElement.height canvas)) (fun texture =>
        gret
          ([ctx.clearRect 0 0 (HTMLCanvasElement.width canvas)
              (HTMLCanvasElement.height canvas)]
           ++ texture
           ++ drawRakeGrooves slate rakePaths
           ++ drawObjects placedObjects))
      else gret []
  end.

End SlateGarden.
End Slate.

(** ** What the calls do to a context

    The drawing state of a context, as [save] and [restore] stack it, and
    what has been painted, with the state it was painted in. *)

Record DrawingState := mkDrawingState {
  transforms : list ctx.Call;
  clips : list (list ctx.Call);
  fillStyle : Style;
  strokeStyle : Style;
  lineWidth : number;
  lineCap : string;
  lineJoin : string;
  shadowColor : string;
  shadowBlur : number;
  shadowOffsetX : number;
  shadowOffsetY : number;
  globalAlpha : number;
  globalCompositeOperation : string
}.

(** A painting call, the path it paints (for [fill] and [stroke]) and the
    state it paints in. *)
Record Paint := mkPaint { call : ctx.Call; shape : list ctx.Call; brush : DrawingState }.

Record Context2D := mkContext2D {
  state : DrawingState;
  saved : list DrawingState;
  currentPath : list ctx.Call;
  painted : list Paint
}.

Definition set_state (f : DrawingState -> DrawingState) (c : Context2D) : Context2D :=
  mkContext2D (f (state c)) (saved c) (currentPath c) (painted c).

Definition addToPath (k : ctx.Call) (c : Context2D) : Context2D :=
  mkContext2D (state c) (saved c) (currentPath c ++ [k]) (painted c).

Definition paint (k : ctx.Call) (shape : list ctx.Call) (c : Context2D) : Context2D :=
  mkContext2D (state c) (saved c) (currentPath c)
    (painted c ++ [mkPaint k shape (state c)]).

Definition exec (c : Context2D) (k : ctx.Call) : Context2D :=
  let st := state c in
  match k with
  | ctx.save => mkContext2D st (st :: saved c) (currentPath c) (painted c)
  | ctx.restore =>
      match saved c with
      | top :: rest => mkContext2D top rest (currentPath c) (painted c)
      | [] => c
      end
  | ctx.beginPath => mkContext2D st (saved c) [] (painted c)
  | ctx.closePath | ctx.moveTo _ _ | ctx.lineTo _ _ | ctx.quadraticCurveTo _ _ _ _
  | ctx.bezierCurveTo _ _ _ _ _ _ | ctx.arc _ _ _ _ _ | ctx.ellipse _ _ _ _ _ _ _ =>
      addToPath k c
  | ctx.fill | ctx.stroke => paint k (currentPath c) c
  | ctx.clearRect _ _ _ _ | ctx.fillRect _ _ _ _ | ctx.strokeRect _ _ _ _
  | ctx.drawImage _ _ _ => paint k [] c
  | ctx.clip =>
      set_state (fun st =>
        mkDrawingState (transforms st) (clips st ++ [currentPath c]) (fillStyle st)
          (strokeStyle st) (lineWidth st) (lineCap st) (lineJoin st) (shadowColor st)
          (shadowBlur st) (shadowOffsetX st) (shadowOffsetY st) (globalAlpha st)
          (globalCompositeOperation st)) c
  | ctx.translate _ _ | ctx.rotate _ | ctx.scale _ _ =>
      set_state (fun st =>
        mkDrawingState (transforms st ++ [k]) (clips st) (fillStyle st)
          (strokeStyle st) (lineWidth st) (lineCap st) (lineJoin st) (shadowColor st)
          (shadowBlur st) (shadowOffsetX st) (shadowOffsetY st) (globalAlpha st)
          (globalCompositeOperation st)) c
  | ctx.fillStyle v =>
      set_state (fun st =>
        mkDrawingState (transforms st) (clips st) v
          (strokeStyle st) (lineWidth st) (lineCap st) (lineJoin st) (shadowColor st)
          (shadowBlur st) (shadowOffsetX st) (shadowOffsetY st) (globalAlpha st)
          (globalCompositeOperation st)) c
  | ctx.strokeStyle v =>
      set_state (fun st =>
        mkDrawingState (transforms st) (clips st) (fillStyle st)
          v (lineWidth st) (lineCap st) (lineJoin st) (shadowColor st)
          (shadowBlur st) (shadowOffsetX st) (shadowOffsetY st) (globalAlpha st)
          (globalCompositeOperation st)) c
  | ctx.lineWidth v =>
      set_state (fun st =>
        mkDrawingState (transforms st) (clips st) (fillStyle st)
          (strokeStyle st) v (lineCap st) (lineJoin st) (shadowColor st)
          (shadowBlur st) (shadowOffsetX st) (shadowOffsetY st) (globalAlpha st)
          (globalCompositeOperation st)) c
  | ctx.lineCap v =>
      set_state (fun st =>
        mkDrawingState (transforms st) (clips st) (fillStyle st)
          (strokeStyle st) (lineWidth st) v (lineJoin st) (shadowColor st)
          (shadowBlur st) (shadowOffsetX st) (shadowOffsetY st) (globalAlpha st)
          (globalCompositeOperation st)) c
  | ctx.lineJoin v =>
      set_state (fun st =>
        mkDrawingState (transforms st) (clips st) (fillStyle st)
          (strokeStyle st) (lineWidth st) (lineCap st) v (shadowColor st)
          (shadowBlur st) (shadowOffsetX st) (shadowOffsetY st) (globalAlpha st)
          (globalCompositeOperation st)) c
  | ctx.shadowColor v =>
      set_state (fun st =>
        mkDrawingState (transforms st) (clips st) (fillStyle st)
          (strokeStyle st) (lineWidth st) (lineCap st) (lineJoin st) v
          (shadowBlur st) (shadowOffsetX st) (shadowOffsetY st) (globalAlpha st)
          (globalCompositeOperation st)) c
  | ctx.shadowBlur v =>
      set_state (fun st =>
        mkDrawingState (transforms st) (clips st) (fillStyle st)
          (strokeStyle st) (lineWidth st) (lineCap st) (lineJoin st) (shadowColor st)
          v (shadowOffsetX st) (shadowOffsetY st) (globalAlpha st)
          (globalCompositeOperation st)) c
  | ctx.shadowOffsetX v =>
      set_state (fun st =>
        mkDrawingState (transforms st) (clips st) (fillStyle st)
          (strokeStyle st) (lineWidth st) (lineCap st) (lineJoin st) (shadowColor st)
          (shadowBlur st) v (shadowOffsetY st) (globalAlpha st)
          (globalCompositeOperation st)) c
  | ctx.shadowOffsetY v =>
      set_state (fun st =>
        mkDrawingState (transforms st) (clips st) (fillStyle st)
          (strokeStyle st) (lineWidth st) (lineCap st) (lineJoin st) (shadowColor st)
          (shadowBlur st) (shadowOffsetX st) v (globalAlpha st)
          (globalCompositeOperation st)) c
  | ctx.globalAlpha v =>
      set_state (fun st =>
        mkDrawingState (transforms st) (clips st) (fillStyle st)
          (strokeStyle st) (lineWidth st) (lineCap st) (lineJoin st) (shadowColor st)
          (shadowBlur st) (shadowOffsetX st) (shadowOffsetY st) v
          (globalCompositeOperation st)) c
  | ctx.globalCompositeOperation v =>
      set_state (fun st =>
        mkDrawingState (transforms st) (clips st) (fillStyle st)
          (strokeStyle st) (lineWidth st) (lineCap st) (lineJoin st) (shadowColor st)
          (shadowBlur st) (shadowOffsetX st) (shadowOffsetY st) (globalAlpha st)
          v) c
  end.

(** The calls of a list, one after the other. *)
Definition execAll (calls : list ctx.Call) (c : Context2D) : Context2D :=
  foldl exec c calls.

(** ** The light garden in its wooden frame (hooks/useCanvas, wood theme)

    Its handlers, its undo stack and its pattern functions are, word for
    word, those of the dark garden; what follows is what it has of its
    own. *)

Module Wood.

(** What [getSandRect] returns. *)
Record SandRect := {
  x : number;
  y : number;
  w : number;
  h : number;
  r : number;
  frameMargin : number;
  frameWidth : number
}.

Definition getSandRect (width height : number) : SandRect :=
  let frameMargin := 16 in
  let frameWidth := 26 in
  let radius := 28 in
  let x := frameMargin + frameWidth in
  let y := frameMargin + frameWidth in
  let w := Qmax 0 (width - 2 * (frameMargin + frameWidth)) in
  let h := Qmax 0 (height - 2 * (frameMargin + frameWidth)) in
  {| x := x; y := y; w := w; h := h; r := radius;
     frameMargin := frameMargin; frameWidth := frameWidth |}.

Definition roundedRectPath (x y w h r : number) : list ctx.Call :=
  let radius := Qmin r (Qmin (w / 2) (h / 2)) in
  [ctx.beginPath;
   ctx.moveTo (x + radius) y;
   ctx.lineTo (x + w - radius) y;
   ctx.quadraticCurveTo (x + w) y (x + w) (y + radius);
   ctx.lineTo (x + w) (y + h - radius);
   ctx.quadraticCurveTo (x + w) (y + h) (x + w - radius) (y + h);
   ctx.lineTo (x + radius) (y + h);
   ctx.quadraticCurveTo x (y + h) x (y + h - radius);
   ctx.lineTo x (y + radius);
   ctx.quadraticCurveTo x y (x + radius) y;
   ctx.closePath].

(** An off-screen canvas ([document.createElement('canvas')]): its size,
    what has been painted on it, and which of the canvases the document has
    made it is. *)
Record OffscreenCanvas := {
  serial : nat;
  width : number;
  height : number;
  bitmap : list ctx.Call
}.

(** A canvas that [drawImage] takes: one that has a width and a height. *)
Definition drawable (image : OffscreenCanvas) : bool :=
  negb (Qeq_bool (width image) 0 || Qeq_bool (height image) 0).

(** The refs of the cache of the background, and the canvases made so far. *)
Record Background := {
  backgroundCacheRef : option OffscreenCanvas;
  backgroundSizeRef : option (number * number);
  created : nat
}.

Section WoodGarden.
Context {M : MathLib}.

Notation "x <- m ;; k" := (gbind m (fun x => k))
  (at level 100, m at next level, right associativity).

(** [drawLeaf], local to [drawVine]. *)
Definition drawLeaf (cx cy angle size : number) : list ctx.Call :=
  [ctx.save;
   ctx.translate cx cy;
   ctx.rotate angle;
   ctx.fillStyle (Color "#4FA16A");
   ctx.beginPath;
   ctx.ellipse (- size * 0.7) 0 size (size * 0.5) 0 0 (Math_PI * 2);
   ctx.fill;
   ctx.beginPath;
   ctx.ellipse (size * 0.7) 0 size (size * 0.5) 0 0 (Math_PI * 2);
   ctx.fill;
   ctx.restore].

(** [drawFlower], local to [drawVine]. *)
Definition drawFlower (cx cy size : number) : list ctx.Call :=
  [ctx.save; ctx.translate cx cy]
  ++ concat
       (map (fun p =>
               let a := (num p / 5) * Math_PI * 2 in
               let px := Math_cos a * size in
               let py := Math_sin a * size in
               [ctx.fillStyle
                  (RadialGradient px py 0 px py (size * 1.2)
                     [(0, "#FFE6F1"); (1, "#F5A3C2")]);
                ctx.beginPath;
                ctx.ellipse px py (size * 0.9) (size * 0.55) a 0 (Math_PI * 2);
                ctx.fill])
          (seq 0 5))
  ++ [ctx.fillStyle (Color "#F3D36B");
      ctx.beginPath;
      ctx.arc 0 0 (size * 0.5) 0 (Math_PI * 2);
      ctx.fill;
      ctx.restore].

(** [points[i]]; reading [x] or [y] of [undefined] throws. *)
Definition pointAt (points : list Point) (i : Z) : Gen Point :=
  if (i <? 0)%Z then throw
  else match points !! Z.to_nat i with
       | Some p => gret p
       | None => throw
       end.

(** The body of the last loop of [drawVine], at the index [i]: a leaf, and a
    flower when [i % 24 === 0]. *)
Definition drawLeafAt (points : list Point) (i : number) : Gen (list ctx.Call) :=
  prev <- pointAt points (Qfloor i - 1) ;;
  curr <- pointAt points (Qfloor i) ;;
  next <- pointAt points (Qfloor i + 1) ;;
  let angle := Math_atan2 (Point.y next - Point.y prev) (Point.x next - Point.x prev) in
  u <- rand ;;
  let leafSize := 6 + u * 3 in
  let leaf := drawLeaf (Point.x curr) (Point.y curr) (angle - Math_PI / 4) leafSize in
  if (Qfloor i mod 24 =? 0)%Z then
    u' <- rand ;;
    gret (leaf
          ++ drawFlower (Point.x curr + Math_cos (angle - Math_PI / 2) * 9)
               (Point.y curr + Math_sin (angle - Math_PI / 2) * 9)
               (4.5 + u' * 2))
  else gret leaf.

(** [drawVine], local to [drawSandTexture]. *)
Definition drawVine (points : list Point) : Gen (list ctx.Call) :=
  match points with
  | first :: (_ :: _) as others =>
      let bound := num (length points) - 1 in
      leaves <- forLt (fuelUpTo bound) 1 bound (fun i => gret (i + 12)) (drawLeafAt points) ;;
      gret
        ([ctx.save;
          ctx.lineCap "round";
          ctx.lineJoin "round";
          ctx.shadowColor "rgba(0,0,0,0.2)";
          ctx.shadowBlur 2;
          ctx.strokeStyle (Color "#2E6B3E");
          ctx.lineWidth 3;
          ctx.beginPath;
          ctx.moveTo (Point.x first) (Point.y first)]
         ++ map (fun point => ctx.lineTo (Point.x point) (Point.y point)) others
         ++ [ctx.stroke]
         ++ concat leaves
         ++ [ctx.restore])
  | _ => gret []
  end.

(** [buildWavePoints], local to [drawSandTexture]. *)
Definition buildWavePoints (startX startY endX endY amplitude waves : number) : list Point :=
  let steps := 120%nat in
  map (fun i =>
         let t := num i / num steps in
         Point.mk (startX + (endX - startX) * t)
           (startY + (endY - startY) * t + Math_sin (t * Math_PI * 2 * waves) * amplitude))
      (seq 0 (S steps)).

(** One line of the grain of the wood. *)
Definition drawGrain (width height : number) (i : nat) : list ctx.Call :=
  let ny := (num i / 16) * height in
  [ctx.beginPath;
   ctx.moveTo 0 (ny + Math_sin (num i) * 2);
   ctx.bezierCurveTo (width * 0.33) (ny + Math_sin (num i * 1.3) * 3)
     (width * 0.66) (ny + Math_sin (num i * 1.7) * 3)
     width (ny + Math_sin (num i * 2.1) * 2);
   ctx.stroke].

(** One speckle of the sand. *)
Definition drawSpeckle (sandRect : SandRect) : Gen (list ctx.Call) :=
  u1 <- rand ;;
  let x := x sandRect + u1 * w sandRect in
  u2 <- rand ;;
  let y := y sandRect + u2 * h sandRect in
  u3 <- rand ;;
  let size := u3 * 1.6 + 0.2 in
  u4 <- rand ;;
  gret
    [ctx.fillStyle (Color (if Qltb 0.5 u4 then "#CDBA92" else "#BFA982"));
     ctx.beginPath;
     ctx.arc x y size 0 (Math_PI * 2);
     ctx.fill].

(** [drawSandTexture]: the frame with its grain, the sand with its speckles,
    and the vines on the frame. *)
Definition drawSandTexture (width height : number) (sandRect : SandRect)
  : Gen (list ctx.Call) :=
  let bevel := 10 in
  let centerX := x sandRect + w sandRect / 2 in
  let centerY := y sandRect + h sandRect / 2 in
  let maxR := Math_hypot (w sandRect) (h sandRect) / 2 in
  speckles <-
    forEach
      (countBelow (Qmax 600 (inject_Z (Qfloor ((w sandRect * h sandRect) / 1500)))))
      (fun _ => drawSpeckle sandRect) ;;
  let outerInset := Qmax 10 (frameMargin sandRect * 0.7) in
  let topY := outerInset in
  let bottomY := height - outerInset in
  let leftX := outerInset in
  let rightX := width - outerInset in
  vine1 <- drawVine (buildWavePoints leftX topY rightX topY 7 4) ;;
  vine2 <- drawVine (buildWavePoints rightX bottomY leftX bottomY 7 4) ;;
  vine3 <- drawVine (buildWavePoints leftX bottomY leftX topY 7 3) ;;
  vine4 <- drawVine (buildWavePoints rightX topY rightX bottomY 7 3) ;;
  gret
    ([ctx.fillStyle
        (LinearGradient 0 0 0 height [(0, "#9C6B3E"); (0.5, "#84562E"); (1, "#6E4725")]);
      ctx.fillRect 0 0 width height;
      ctx.save;
      ctx.globalAlpha 0.08;
      ctx.strokeStyle (Color "rgba(255, 255, 255, 0.15)")]
     ++ concat (map (drawGrain width height) (seq 0 16))
     ++ [ctx.restore;
         ctx.save]
     ++ roundedRectPath (x sandRect - bevel) (y sandRect - bevel)
          (w sandRect + bevel * 2) (h sandRect + bevel * 2) (r sandRect + 12)
     ++ [ctx.strokeStyle (Color "rgba(0,0,0,0.35)");
         ctx.lineWidth 8;
         ctx.shadowColor "rgba(0,0,0,0.3)";
         ctx.shadowBlur 18;
         ctx.shadowOffsetX 0;
         ctx.shadowOffsetY 2;
         ctx.stroke;
         ctx.restore]
     ++ roundedRectPath (x sandRect) (y sandRect) (w sandRect) (h sandRect) (r sandRect)
     ++ [ctx.save;
         ctx.clip;
         ctx.fillStyle
           (RadialGradient centerX centerY (maxR * 0.1) centerX centerY maxR
              [(0, "#F2E7C9"); (0.6, "#E8D9B4"); (1, "#D9C49C")]);
         ctx.fillRect (x sandRect) (y sandRect) (w sandRect) (h sandRect);
         ctx.globalAlpha 0.12]
     ++ concat speckles
     ++ [ctx.globalAlpha 1;
         ctx.fillStyle
           (LinearGradient (x sandRect) (y sandRect) (x sandRect) (y sandRect + h sandRect)
              [(0, "rgba(0,0,0,0.15)"); (0.05, "rgba(0,0,0,0.05)");
               (0.95, "rgba(0,0,0,0.05)"); (1, "rgba(0,0,0,0.15)")]);
         ctx.fillRect (x sandRect) (y sandRect) (w sandRect) (h sandRect);
         ctx.restore]
     ++ vine1 ++ vine2 ++ vine3 ++ vine4
     ++ [ctx.save]
     ++ roundedRectPath (x sandRect - 1) (y sandRect - 1)
          (w sandRect + 2) (h sandRect + 2) (r sandRect + 2)
     ++ [ctx.strokeStyle (Color "rgba(255,255,255,0.12)");
         ctx.lineWidth 2;
         ctx.stroke;
         ctx.restore]).

(** [backgroundSizeRef.current.w !== width || backgroundSizeRef.current.h
    !== height] *)
Definition otherSize (size : number * number) (width height : number) : bool :=
  negb (Qeq_bool (fst size) width) || negb (Qeq_bool (snd size) height).

(** [getBackgroundCanvas]; [getContext] tells whether the off-screen canvas
    gives a context. *)
Definition getBackgroundCanvas (width height : number) (getContext : bool)
    (bg : Background) : Gen (OffscreenCanvas * Background) :=
  let needsNew :=
    match backgroundCacheRef bg, backgroundSizeRef bg with
    | Some _, Some size => otherSize size width height
    | _, _ => true
    end in
  if needsNew then
    painted <-
      (if getContext
       then drawSandTexture width height (getSandRect width height)
       else gret []) ;;
    let off :=
      {| serial := created bg; width := width; height := height; bitmap := painted |} in
    gret (off,
          {| backgroundCacheRef := Some off;
             backgroundSizeRef := Some (width, height);
             created := S (created bg) |})
  else
    match backgroundCacheRef bg with
    | Some off => gret (off, bg)
    | None => throw
    end.

(** [render], on the scene it closes over.  [drawImage] throws when the
    canvas it is given has no width or no height. *)
Definition render (canvasRef : option HTMLCanvasElement) (getContext offContext : bool)
    (rakePaths : list (RakePath (list Point))) (placedObjects : list PlacedObject)
    (bg : Background) : Gen (list ctx.Call * Background) :=
  match canvasRef with
  | None => gret ([], bg)
  | Some canvas =>
      if getContext then
        let width := HTMLCanvasElement.width canvas in
        let height := HTMLCanvasElement.height canvas in
        let sandRect := getSandRect width height in
        image <- getBackgroundCanvas width height offContext bg ;;
        if negb (drawable (fst image)) then throw
        else
          gret
            ([ctx.clearRect 0 0 width height;
              ctx.drawImage (bitmap (fst image)) 0 0;
              ctx.save]
             ++ roundedRectPath (x sandRect) (y sandRect) (w sandRect) (h sandRect)
                  (r sandRect)
             ++ [ctx.clip]
             ++ drawRakeGrooves wood rakePaths
             ++ drawObjects placedObjects
             ++ [ctx.restore],
             snd image)
      else gret ([], bg)
  end.

End WoodGarden.
End Wood.

(** ** The hook of the light garden

    The second [useCanvas] of the sources, the one of the garden in its
    wooden frame: [saveState], [getCanvasCoordinates], the handlers, the
    pattern functions and [generatePattern], translated from its own text,
    and the component [ZenGarden] around it.  Its data, the setters of its
    state and the loops of its pattern functions are those of the dark
    garden; what it paints is in [Wood]. *)

Module WoodHook.

Definition saveState (rakePaths0 : list (RakePath ref))
    (placedObjects0 : list PlacedObject) (s : State) : State :=
  setUndoStack
    (fun prev => slice_last 20 (prev ++ [CanvasState.mk rakePaths0 placedObjects0])) s.

Definition getCanvasCoordinates (pointLike : PointLike) (canvas : HTMLCanvasElement) : Point :=
  let rect := HTMLCanvasElement.getBoundingClientRect canvas in
  let scaleX := HTMLCanvasElement.width canvas / DOMRect.width rect in
  let scaleY := HTMLCanvasElement.height canvas / DOMRect.height rect in
  Point.mk ((PointLike.clientX pointLike - DOMRect.left rect) * scaleX)
           ((PointLike.clientY pointLike - DOMRect.top rect) * scaleY).

Definition putPath (current : RakePath ref) (prev : list (RakePath ref)) : list (RakePath ref) :=
  match list_find (fun p => RakePath.id p = RakePath.id current) prev with
  | Some (index, _) => <[index := current]> prev
  | None => prev ++ [current]
  end.

Section UseCanvas.
Context {M : MathLib}.

#[local] Notation "x <- m ;; k" := (gbind m (fun x => k))
  (at level 100, m at next level, right associativity).

Definition distance (point last : Point) : number :=
  Math_sqrt (Math_pow2 (Point.x point - Point.x last)
             + Math_pow2 (Point.y point - Point.y last)).

Definition pointerDown (now : Z) (point : Point) (s : State) : State :=
  match tool s with
  | rake =>
      let s1 := saveState (rakePaths s) (placedObjects s) s in
      let s2 := setIsDrawing true s1 in
      let '(a, s3) := alloc [point] s2 in
      let '(u, s4) := draw s3 in
      let newPath := RakePath.mk (pretty now) a (8 + u * 4) in
      let s5 := set_currentPathRef (Some newPath) s4 in
      let s6 := set_lastPointRef (Some point) s5 in
      playSound "rake" s6
  | place =>
      let s1 := saveState (rakePaths s) (placedObjects s) s in
      let '(u1, s2) := draw s1 in
      let '(u2, s3) := draw s2 in
      let newObject :=
        PlacedObject.mk (pretty now) (selectedObject s)
          (Point.x point) (Point.y point) ((u1 - 0.5) * 0.4) (0.8 + u2 * 0.4) in
      let s4 := setPlacedObjects (fun prev => prev ++ [newObject]) s3 in
      playSound "place" s4
  end.

Definition handleMouseDown (canvasRef : option HTMLCanvasElement) (now : Z)
    (event : PointLike) (s : State) : State :=
  match canvasRef with
  | None => s
  | Some canvas => pointerDown now (getCanvasCoordinates event canvas) s
  end.

Definition handleTouchStart (canvasRef : option HTMLCanvasElement) (now : Z)
    (touches : list PointLike) (s : State) : State :=
  match canvasRef, touches with
  | Some canvas, touch :: _ => pointerDown now (getCanvasCoordinates touch canvas) s
  | _, _ => s
  end.

Definition pointerMove (point : Point) (s : State) : State :=
  match currentPathRef s, lastPointRef s with
  | Some current, Some last =>
      if Qltb 3 (distance point last) then
        let s1 := push (RakePath.points current) point s in
        let s2 := set_lastPointRef (Some point) s1 in
        setRakePaths (putPath current) s2
      else s
  | _, _ => s
  end.

Definition handleMouseMove (canvasRef : option HTMLCanvasElement)
    (event : PointLike) (s : State) : State :=
  if negb (isDrawing s) || negb (bool_decide (tool s = rake))
     || negb (bool_decide (is_Some (currentPathRef s)))
  then s
  else match canvasRef with
       | None => s
       | Some canvas => pointerMove (getCanvasCoordinates event canvas) s
       end.

Definition handleTouchMove (canvasRef : option HTMLCanvasElement)
    (touches : list PointLike) (s : State) : State :=
  if negb (isDrawing s) || negb (bool_decide (tool s = rake))
     || negb (bool_decide (is_Some (currentPathRef s)))
  then s
  else match touches, canvasRef with
       | touch :: _, Some canvas => pointerMove (getCanvasCoordinates touch canvas) s
       | _, _ => s
       end.

Definition handleMouseUp (s : State) : State :=
  if isDrawing s then
    set_lastPointRef None (set_currentPathRef None (setIsDrawing false s))
  else s.

Definition handleTouchEnd (s : State) : State := handleMouseUp s.

Definition clearGarden (s : State) : State :=
  let s1 := saveState (rakePaths s) (placedObjects s) s in
  let s2 := setRakePaths (fun _ => []) s1 in
  let s3 := setPlacedObjects (fun _ => []) s2 in
  playSound "clear" s3.

Definition undo (s : State) : State :=
  match last (undoStack s) with
  | Some lastState =>
      let s1 := setRakePaths (fun _ => CanvasState.rakePaths lastState) s in
      let s2 := setPlacedObjects (fun _ => CanvasState.placedObjects lastState) s1 in
      let s3 := setUndoStack slice_init s2 in
      playSound "undo" s3
  | None => s
  end.

Definition generateSpiralPattern (centerX centerY radius turns : number) : list Point :=
  let totalPoints := turns * 50 in
  map (fun i =>
         let angle := (num i / totalPoints) * turns * 2 * Math_PI in
         let currentRadius := (num i / totalPoints) * radius in
         Point.mk (centerX + Math_cos angle * currentRadius)
                  (centerY + Math_sin angle * currentRadius))
      (countTo totalPoints).

Definition generateWavePattern (startX startY endX amplitude frequency : number)
  : list Point :=
  let distance := endX - startX in
  let steps := inject_Z (Qfloor (distance / 3)) in
  map (fun i =>
         let progress := num i / steps in
         Point.mk (startX + progress * distance)
                  (startY + Math_sin (progress * frequency * Math_PI * 2) * amplitude))
      (countTo steps).

Definition generateCirclePattern (centerX centerY radius : number) : list Point :=
  let totalPoints := inject_Z (Qfloor (radius * 0.5)) in
  map (fun i =>
         let angle := (num i / totalPoints) * 2 * Math_PI in
         Point.mk (centerX + Math_cos angle * radius)
                  (centerY + Math_sin angle * radius))
      (countTo totalPoints).

Definition generateEllipsePattern (centerX centerY radiusX radiusY : number)
  : list Point :=
  let approxPerimeter :=
    Math_PI * (3 * (radiusX + radiusY)
               - Math_sqrt ((3 * radiusX + radiusY) * (radiusX + 3 * radiusY))) in
  let totalPoints := Qmax 24 (inject_Z (Qfloor (approxPerimeter * 0.3))) in
  map (fun i =>
         let angle := (num i / totalPoints) * 2 * Math_PI in
         Point.mk (centerX + Math_cos angle * radiusX)
                  (centerY + Math_sin angle * radiusY))
      (countTo totalPoints).

Definition concentricCircles (canvas : HTMLCanvasElement)
  : Gen (list (RakePath (list Point))) :=
  let centerX := HTMLCanvasElement.width canvas / 2 in
  let centerY := HTMLCanvasElement.height canvas / 2 in
  let bound :=
    Qmin (HTMLCanvasElement.width canvas) (HTMLCanvasElement.height canvas) / 2 - 50 in
  forLt (fuelUpTo bound) 50 bound (fun radius => gret (radius + 40))
    (fun radius =>
       let points := generateCirclePattern centerX centerY radius in
       u <- rand ;;
       gret (RakePath.mk ("circle-" +:+ Number_toString radius) points (6 + u * 4))).

Definition spiralGarden (canvas : HTMLCanvasElement)
  : Gen (list (RakePath (list Point))) :=
  let centerX := HTMLCanvasElement.width canvas / 2 in
  let centerY := HTMLCanvasElement.height canvas / 2 in
  let maxRadius :=
    Qmin (HTMLCanvasElement.width canvas) (HTMLCanvasElement.height canvas) / 2 - 50 in
  let points := generateSpiralPattern centerX centerY maxRadius 4 in
  u <- rand ;;
  gret [RakePath.mk "spiral-main" points (8 + u * 4)].

Definition wavePatterns (canvas : HTMLCanvasElement)
  : Gen (list (RakePath (list Point))) :=
  let waveCount := 5%nat in
  let spacing := HTMLCanvasElement.height canvas / (num waveCount + 1) in
  forEach (seq 1 waveCount)
    (fun i =>
       let y := spacing * num i in
       u1 <- rand ;;
       let amplitude := 30 + u1 * 20 in
       u2 <- rand ;;
       let frequency := 2 + u2 * 2 in
       let points :=
         generateWavePattern 50 y (HTMLCanvasElement.width canvas - 50) amplitude frequency in
       u3 <- rand ;;
       gret (RakePath.mk ("wave-" +:+ pretty i) points (6 + u3 * 4))).

Definition mandala (canvas : HTMLCanvasElement)
  : Gen (list (RakePath (list Point))) :=
  let centerX := HTMLCanvasElement.width canvas / 2 in
  let centerY := HTMLCanvasElement.height canvas / 2 in
  let petals := 8%nat in
  paths <- forEach (seq 0 petals)
    (fun i =>
       let angle := (num i / num petals) * 2 * Math_PI in
       let startX := centerX + Math_cos angle * 50 in
       let startY := centerY + Math_sin angle * 50 in
       let endX := centerX + Math_cos angle * 200 in
       let endY := centerY + Math_sin angle * 200 in
       let steps := 30%nat in
       let points :=
         map (fun j =>
                let t := num j / num steps in
                let curveOffset := Math_sin (t * Math_PI) * 30 in
                let perpAngle := angle + Math_PI / 2 in
                Point.mk (startX + (endX - startX) * t + Math_cos perpAngle * curveOffset)
                         (startY + (endY - startY) * t + Math_sin perpAngle * curveOffset))
            (seq 0 (S steps)) in
       u <- rand ;;
       gret (RakePath.mk ("petal-" +:+ pretty i) points (5 + u * 3))) ;;
  let centerPoints := generateCirclePattern centerX centerY 30 in
  gret (paths ++ [RakePath.mk "center-circle" centerPoints 8]).

Definition rakedLines (canvas : HTMLCanvasElement)
  : Gen (list (RakePath (list Point))) :=
  let lineCount := 12%nat in
  let spacing := HTMLCanvasElement.width canvas / (num lineCount + 1) in
  forEach (seq 1 lineCount)
    (fun i =>
       let x := spacing * num i in
       let steps := 40%nat in
       points <- forEach (seq 0 (S steps))
         (fun j =>
            let t := num j / num steps in
            let y := 50 + t * (HTMLCanvasElement.height canvas - 100) in
            u <- rand ;;
            let waveOffset := Math_sin (t * Math_PI * 3) * (15 + u * 10) in
            gret (Point.mk (x + waveOffset) y)) ;;
       u <- rand ;;
       gret (RakePath.mk ("zen-line-" +:+ pretty i) points (6 + u * 4))).

Definition ellipticalRings (canvas : HTMLCanvasElement)
  : Gen (list (RakePath (list Point))) :=
  let centerX := HTMLCanvasElement.width canvas / 2 in
  let centerY := HTMLCanvasElement.height canvas / 2 in
  let maxRadiusX :=
    Qmin (HTMLCanvasElement.width canvas) (HTMLCanvasElement.height canvas) / 2 - 60 in
  u0 <- rand ;;
  let maxRadiusY := maxRadiusX * (0.6 + u0 * 0.3) in
  forLt (fuelUpTo maxRadiusX) 40 maxRadiusX (fun r => gret (r + 36))
    (fun r =>
       let rx := r in
       let ry := Qmax 24 ((r / maxRadiusX) * maxRadiusY) in
       let points := generateEllipsePattern centerX centerY rx ry in
       u <- rand ;;
       gret (RakePath.mk ("ellipse-" +:+ toFixed0 r) points (6 + u * 3))).

Definition doubleSpiral (canvas : HTMLCanvasElement)
  : Gen (list (RakePath (list Point))) :=
  let centerX := HTMLCanvasElement.width canvas / 2 in
  let centerY := HTMLCanvasElement.height canvas / 2 in
  let maxRadius :=
    Qmin (HTMLCanvasElement.width canvas) (HTMLCanvasElement.height canvas) / 2 - 50 in
  let points := generateSpiralPattern centerX centerY maxRadius 3.5 in
  u1 <- rand ;;
  let main := RakePath.mk "double-spiral-a" points (7 + u1 * 3) in
  let offsetAngle := Math_PI in
  let pointsB :=
    map (fun p =>
           let dx := Point.x p - centerX in
           let dy := Point.y p - centerY in
           let angle := Math_atan2 dy dx + offsetAngle in
           let radius := Math_hypot dx dy in
           Point.mk (centerX + Math_cos angle * radius) (centerY + Math_sin angle * radius))
        (RakePath.points main) in
  u2 <- rand ;;
  let other := RakePath.mk "double-spiral-b" pointsB (7 + u2 * 3) in
  gret [main; other].

Definition bambooGrove (canvas : HTMLCanvasElement)
  : Gen (list (RakePath (list Point))) :=
  u0 <- rand ;;
  let stalks := 10 + inject_Z (Qfloor (u0 * 6)) in
  let margin := 60 in
  forEach (countBelow stalks)
    (fun i =>
       let x :=
         margin + (num i + 0.5) * ((HTMLCanvasElement.width canvas - margin * 2) / stalks) in
       u1 <- rand ;;
       let sway := 18 + u1 * 14 in
       u2 <- rand ;;
       let freq := 2 + u2 * 2.5 in
       let steps := 48%nat in
       let points :=
         map (fun j =>
                let t := num j / num steps in
                let y := 50 + t * (HTMLCanvasElement.height canvas - 100) in
                let offset := Math_sin (t * Math_PI * freq) * sway in
                Point.mk (x + offset) y)
             (seq 0 (S steps)) in
       u3 <- rand ;;
       gret (RakePath.mk ("bamboo-" +:+ pretty i) points (5 + u3 * 3))).

Definition ripples (canvas : HTMLCanvasElement)
  : Gen (list (RakePath (list Point))) :=
  u0 <- rand ;;
  let centers := 2 + inject_Z (Qfloor (u0 * 2)) in
  rings <- forEach (countBelow centers)
    (fun c =>
       u1 <- rand ;;
       let cx := 120 + u1 * (HTMLCanvasElement.width canvas - 240) in
       u2 <- rand ;;
       let cy := 120 + u2 * (HTMLCanvasElement.height canvas - 240) in
       let maxR :=
         Qmin (HTMLCanvasElement.width canvas) (HTMLCanvasElement.height canvas) / 3 in
       forLt (fuelUpTo maxR) 40 maxR
         (fun r => u <- rand ;; gret (r + (32 + u * 12)))
         (fun r =>
            let points := generateCirclePattern cx cy r in
            u <- rand ;;
            gret (RakePath.mk ("ripple-" +:+ pretty c +:+ "-" +:+ toFixed0 r)
                    points (5 + u * 3)))) ;;
  gret (concat rings).

Definition serpentine (canvas : HTMLCanvasElement)
  : Gen (list (RakePath (list Point))) :=
  let rows := 10%nat in
  let margin := 50 in
  let heightAvail := HTMLCanvasElement.height canvas - margin * 2 in
  segments <- forEach (seq 0 rows)
    (fun row =>
       let y := margin + (num row / (num rows - 1)) * heightAvail in
       let leftToRight := Nat.eqb (row mod 2) 0 in
       let startX := margin in
       let endX := HTMLCanvasElement.width canvas - margin in
       let steps := 80%nat in
       forEach (seq 0 (S steps))
         (fun i =>
            let t := num i / num steps in
            let x := if leftToRight then startX + t * (endX - startX)
                     else endX - t * (endX - startX) in
            u <- rand ;;
            let amp := 10 + u * 8 in
            let offset := Math_sin ((t + num row * 0.15) * Math_PI * 2) * amp in
            gret (Point.mk x (y + offset)))) ;;
  u <- rand ;;
  gret [RakePath.mk "serpentine" (concat segments) (6 + u * 3)].

Definition patterns (canvas : HTMLCanvasElement)
  : list (Gen (list (RakePath (list Point)))) :=
  [ concentricCircles canvas; spiralGarden canvas; wavePatterns canvas;
    mandala canvas; rakedLines canvas; ellipticalRings canvas;
    doubleSpiral canvas; bambooGrove canvas; ripples canvas; serpentine canvas ].

Definition callPattern (canvas : HTMLCanvasElement) (index : Z)
  : Gen (list (RakePath (list Point))) :=
  if (index <? 0)%Z then throw
  else match patterns canvas !! Z.to_nat index with
       | Some selectedPattern => selectedPattern
       | None => throw
       end.

Definition generateZenPattern (canvas : HTMLCanvasElement)
  : Gen (list (RakePath (list Point))) :=
  u <- rand ;;
  callPattern canvas (Qfloor (u * num (length (patterns canvas)))).

Definition reveal (path : RakePath (list Point)) (animatedPath : RakePath ref)
    (i : nat) (p : Point) (s : State) : State :=
  let s1 := push (RakePath.points animatedPath) p s in
  let s2 :=
    setRakePaths
      (fun prev =>
         filter (fun q => RakePath.id q <> RakePath.id path) prev ++ [animatedPath]) s1 in
  if Nat.eqb (i mod 10) 0 then playSound "rake" s2 else s2.

Definition objectTypeAt (index : Z) : GardenObject :=
  if (index =? 1)%Z then bonsai else if (index =? 2)%Z then lantern else stone.

Definition placeObjects (canvas : HTMLCanvasElement) (s : State) : State :=
  let '(u, s1) := draw s in
  if Qltb 0.3 u then
    let '(u', s2) := draw s1 in
    let objectCount := 1 + inject_Z (Qfloor (u' * 3)) in
    if Qltb (num 0) objectCount
    then set_animation (Some (AwaitObject canvas 0 objectCount)) s2
    else set_animation None s2
  else set_animation None s1.

Fixpoint animatePaths (canvas : HTMLCanvasElement)
    (paths : list (RakePath (list Point))) (s : State) : State :=
  match paths with
  | [] => placeObjects canvas s
  | path :: rest =>
      let '(a, s1) := alloc [] s in
      let animatedPath := RakePath.mk (RakePath.id path) a (RakePath.width path) in
      match RakePath.points path with
      | p :: _ =>
          set_animation (Some (AwaitPoint canvas path animatedPath 0 rest))
            (reveal path animatedPath 0 p s1)
      | [] => animatePaths canvas rest s1
      end
  end.

Definition resume (now : Z) (k : Cont) (s : State) : State :=
  match k with
  | AwaitPoint canvas path animatedPath i rest =>
      match RakePath.points path !! S i with
      | Some p =>
          set_animation (Some (AwaitPoint canvas path animatedPath (S i) rest))
            (reveal path animatedPath (S i) p s)
      | None => animatePaths canvas rest s
      end
  | AwaitObject canvas i objectCount =>
      let '(u1, s1) := draw s in
      let '(u2, s2) := draw s1 in
      let '(u3, s3) := draw s2 in
      let '(u4, s4) := draw s3 in
      let '(u5, s5) := draw s4 in
      let newObject :=
        PlacedObject.mk ("auto-" +:+ pretty now +:+ "-" +:+ pretty i)
          (objectTypeAt (Qfloor (u1 * 3)))
          (100 + u2 * (HTMLCanvasElement.width canvas - 200))
          (100 + u3 * (HTMLCanvasElement.height canvas - 200))
          ((u4 - 0.5) * 0.4) (0.8 + u5 * 0.4) in
      let s6 := setPlacedObjects (fun prev => prev ++ [newObject]) s5 in
      let s7 := playSound "place" s6 in
      if Qltb (num (S i)) objectCount
      then set_animation (Some (AwaitObject canvas (S i) objectCount)) s7
      else set_animation None s7
  end.

Definition generatePattern (canvasRef : option HTMLCanvasElement) (s : State)
  : option State :=
  match canvasRef with
  | None => Some s
  | Some canvas =>
      let s1 := saveState (rakePaths s) (placedObjects s) s in
      let s2 := setRakePaths (fun _ => []) s1 in
      let s3 := setPlacedObjects (fun _ => []) s2 in
      match generateZenPattern canvas (random s3) with
      | Some (newPaths, r) => Some (animatePaths canvas newPaths (set_random r s3))
      | None => None
      end
  end.

Definition handleGeneratePattern (canvasRef : option HTMLCanvasElement) (s : State)
  : option State :=
  if isGeneratingPattern s then Some s
  else settle <$> generatePattern canvasRef (setIsGeneratingPattern true s).

Definition step (s : State) (ev : Env * Event) : option State :=
  let '(env, e) := ev in
  match e with
  | MouseDown event => Some (handleMouseDown (canvasRef env) (now env) event s)
  | MouseMove event => Some (handleMouseMove (canvasRef env) event s)
  | MouseUp | MouseLeave => Some (handleMouseUp s)
  | TouchStart touches => Some (handleTouchStart (canvasRef env) (now env) touches s)
  | TouchMove touches => Some (handleTouchMove (canvasRef env) touches s)
  | TouchEnd => Some (handleTouchEnd s)
  | ClickTool t => Some (setTool t s)
  | ClickObject o =>
      Some (if bool_decide (tool s = place) then setSelectedObject o s else s)
  | ClickGenerate => handleGeneratePattern (canvasRef env) s
  | ClickUndo => Some (undo s)
  | ClickReset => Some (clearGarden s)
  | Timeout =>
      match animation s with
      | Some k => Some (settle (resume (now env) k s))
      | None => Some s
      end
  end.

Fixpoint run (s : State) (evs : list (Env * Event)) : option State :=
  match evs with
  | [] => Some s
  | ev :: evs' =>
      match step s ev with
      | Some s' => run s' evs'
      | None => None
      end
  end.

End UseCanvas.
End WoodHook.

(** ** Sound (hooks/useSoundManager)

    What the hook does to the Web Audio API is the list of the calls it
    makes, in order, as for the canvas; the API is taken at its
    specification, and a call that the specification lets through does not
    throw. *)

Module SoundManager.

Record AudioContext := { sampleRate : number }.

(** The element [new Audio(src)] makes, with what [ensureBackgroundAudio]
    sets on it. *)
Record HTMLAudioElement := {
  src : string;
  loop : bool;
  preload : string;
  volume : number;
  autoplay : bool;
  playsInline : bool
}.

Record Refs := {
  audioContextRef : option AudioContext;
  isInitializedRef : bool;
  bgAudioRef : option HTMLAudioElement
}.

Definition initialRefs : Refs :=
  {| audioContextRef := None; isInitializedRef := false; bgAudioRef := None |}.

(** What the browser gives at a call: whether there is a [window], the
    context [new AudioContext()] returns ([None]: it throws), and the
    reading of [currentTime]. *)
Record Browser := {
  window : bool;
  newAudioContext : option AudioContext;
  currentTime : number
}.

(** The nodes of one sound. *)
Inductive AudioNode := oscillator | gainNode | filterNode | source | destination.

Inductive AudioParam := frequency (node : AudioNode) | gain.

(** [new_AudioContext] and [new_Audio] stand for a context and an element
    that have been made. *)
Inductive Call :=
| new_AudioContext
| new_Audio (element : HTMLAudioElement)
| createOscillator
| createGain
| createBiquadFilter
| createBufferSource
| createBuffer (numberOfChannels length sampleRate : number)
| connect (from to : AudioNode)
| setValueAtTime (param : AudioParam) (value startTime : number)
| linearRampToValueAtTime (param : AudioParam) (value endTime : number)
| exponentialRampToValueAtTime (param : AudioParam) (value endTime : number)
| set_type (node : AudioNode) (type : string)
| set_buffer (data : list number)
| start (node : AudioNode) (when : number)
| stop (node : AudioNode) (when : number)
| console_warn (message : string).

(** [setTimeout(() => playTone(659.25, 0.3, 'sine', 0.05), 100)]: the
    callback, with the [soundEnabled] its [playTone] closes over. *)
Record Timer := { delay : number; soundEnabled : bool }.

Definition initializeAudio (browser : Browser) (refs : Refs) : Refs * list Call :=
  if negb (isInitializedRef refs) && window browser then
    match newAudioContext browser with
    | Some context =>
        ({| audioContextRef := Some context; isInitializedRef := true;
            bgAudioRef := bgAudioRef refs |},
         [new_AudioContext])
    | None => (refs, [console_warn "Audio context not supported:"])
    end
  else (refs, []).

Definition ensureBackgroundAudio (browser : Browser) (refs : Refs) : Refs * list Call :=
  if negb (window browser) then (refs, [])
  else
    match bgAudioRef refs with
    | Some _ => (refs, [])
    | None =>
        let audio :=
          {| src := "/audio.mp3"; loop := true; preload := "auto"; volume := 0.25;
             autoplay := true; playsInline := true |} in
        ({| audioContextRef := audioContextRef refs;
            isInitializedRef := isInitializedRef refs;
            bgAudioRef := Some audio |},
         [new_Audio audio])
    end.

Definition playTone (soundEnabled : bool) (browser : Browser) (refs : Refs)
    (frequency_ duration : number) (type : string) (volume : number) : list Call :=
  if negb soundEnabled then []
  else
    match audioContextRef refs with
    | None => []
    | Some _ =>
        let now := currentTime browser in
        [createOscillator;
         createGain;
         connect oscillator gainNode;
         connect gainNode destination;
         setValueAtTime (frequency oscillator) frequency_ now;
         set_type oscillator type;
         setValueAtTime gain 0 now;
         linearRampToValueAtTime gain volume (now + 0.01);
         exponentialRampToValueAtTime gain 0.001 (now + duration);
         start oscillator now;
         stop oscillator (now + duration)]
    end.

Section UseSoundManager.

#[local] Notation "x <- m ;; k" := (gbind m (fun x => k))
  (at level 100, m at next level, right associativity).

(** [playNoise].  [createBuffer] takes the whole part of its length and
    throws when that is 0, which the [catch] reports; the loop that fills
    the channel counts up to [bufferSize] itself, and a write past the end
    of the channel is lost. *)
Definition playNoise (soundEnabled : bool) (browser : Browser) (refs : Refs)
    (duration volume : number) : Gen (list Call) :=
  if negb soundEnabled then gret []
  else
    match audioContextRef refs with
    | None => gret []
    | Some context =>
        let now := currentTime browser in
        let bufferSize := sampleRate context * duration in
        if (Qfloor bufferSize <? 1)%Z then
          gret [createBuffer 1 bufferSize (sampleRate context);
                console_warn "Error playing noise:"]
        else
          samples <-
            forEach (countBelow bufferSize)
              (fun _ => u <- rand ;; gret ((u * 2 - 1) * volume)) ;;
          let data := take (Z.to_nat (Qfloor bufferSize)) samples in
          gret
            [createBuffer 1 bufferSize (sampleRate context);
             createBufferSource;
             createGain;
             createBiquadFilter;
             set_type filterNode "lowpass";
             setValueAtTime (frequency filterNode) 800 now;
             set_buffer data;
             connect source filterNode;
             connect filterNode gainNode;
             connect gainNode destination;
             setValueAtTime gain volume now;
             exponentialRampToValueAtTime gain 0.001 (now + duration);
             start source now]
    end.

(** [playSound], with the [soundEnabled] it closes over: the refs it
    leaves, the calls it makes and the timers it sets. *)
Definition playSound (soundEnabled : bool) (browser : Browser) (sound : string)
    (refs : Refs) : Gen (Refs * list Call * list Timer) :=
  if negb soundEnabled then gret (refs, [], [])
  else
    let '(refs1, calls1) := initializeAudio browser refs in
    let '(refs2, calls2) := ensureBackgroundAudio browser refs1 in
    if String.eqb sound "rake" then
      noise <- playNoise soundEnabled browser refs2 0.3 0.02 ;;
      gret (refs2, calls1 ++ calls2 ++ noise, [])
    else if String.eqb sound "place" then
      gret (refs2,
            calls1 ++ calls2 ++ playTone soundEnabled browser refs2 523.25 0.5 "sine" 0.08,
            [{| delay := 100; soundEnabled := soundEnabled |}])
    else if String.eqb sound "clear" then
      match audioContextRef refs2 with
      | Some _ =>
          let now := currentTime browser in
          let startFreq := 200 in
          let endFreq := 100 in
          let duration := 0.8 in
          gret (refs2,
                calls1 ++ calls2
                ++ [createOscillator;
                    createGain;
                    connect oscillator gainNode;
                    connect gainNode destination;
                    setValueAtTime (frequency oscillator) startFreq now;
                    exponentialRampToValueAtTime (frequency oscillator) endFreq
                      (now + duration);
                    set_type oscillator "sine";
                    setValueAtTime gain 0.05 now;
                    exponentialRampToValueAtTime gain 0.001 (now + duration);
                    start oscillator now;
                    stop oscillator (now + duration)],
                [])
      | None => gret (refs2, calls1 ++ calls2, [])
      end
    else if String.eqb sound "undo" then
      gret (refs2,
            calls1 ++ calls2 ++ playTone soundEnabled browser refs2 880 0.2 "sine" 0.04,
            [])
    else gret (refs2, calls1 ++ calls2, []).

(** The callback of a timer of [playSound], when it runs. *)
Definition fire (timer : Timer) (browser : Browser) (refs : Refs) : list Call :=
  playTone (soundEnabled timer) browser refs 659.25 0.3 "sine" 0.05.

(** Calls of [playSound] one after the other, each with the [soundEnabled]
    of its render and what the browser gives then. *)
Fixpoint playSounds (plays : list (bool * Browser * string)) (refs : Refs)
  : Gen (Refs * list Call * list Timer) :=
  match plays with
  | [] => gret (refs, [], [])
  | (soundEnabled, browser, sound) :: plays' =>
      r1 <- playSound soundEnabled browser sound refs ;;
      r2 <- playSounds plays' r1.1.1 ;;
      gret (r2.1.1, r1.1.2 ++ r2.1.2, r1.2 ++ r2.2)
  end.

End UseSoundManager.
End SoundManager.

(** The sounds [playSound] has a case for. *)
Definition soundNames : list string := ["rake"; "place"; "clear"; "undo"].

(** A call that makes a context or an audio element. *)
Definition makesContext (k : SoundManager.Call) : bool :=
  match k with SoundManager.new_AudioContext => true | _ => false end.

Definition makesAudio (k : SoundManager.Call) : bool :=
  match k with SoundManager.new_Audio _ => true | _ => false end.

(** A call that starts a source of sound. *)
Definition startsSource (k : SoundManager.Call) : bool :=
  match k with SoundManager.start _ _ => true | _ => false end.

(** The loudest a call makes the gain, and the loudest sample of a buffer
    it sets, are at most [level]. *)
Definition atMost (level : number) (k : SoundManager.Call) : Prop :=
  match k with
  | SoundManager.setValueAtTime SoundManager.gain value _
  | SoundManager.linearRampToValueAtTime SoundManager.gain value _
  | SoundManager.exponentialRampToValueAtTime SoundManager.gain value _ =>
      0 <= value /\ value <= level
  | SoundManager.set_buffer data =>
      Forall (fun sample => - level <= sample /\ sample <= level) data
  | _ => True
  end.

(** ** The sound setting of [ZenGarden]

    [localStorage] is a map from keys to strings; [setItem] throws when the
    browser refuses the write. *)

Module Storage.
Record t := { items : gmap string string; writable : bool }.

Definition getItem (key : string) (storage : t) : option string := items storage !! key.

(** [None]: the call throws. *)
Definition setItem (key value : string) (storage : t) : option t :=
  if writable storage
  then Some {| items := <[key := value]> (items storage); writable := true |}
  else None.
End Storage.

(** [String(soundEnabled)] *)
Definition String_of_boolean (b : bool) : string := if b then "true" else "false".

(** The initial value of the state [soundEnabled]. *)
Definition initialSoundEnabled (window : bool) (localStorage : Storage.t) : bool :=
  if negb window then true
  else
    match Storage.getItem "soundEnabled" localStorage with
    | None => true
    | Some stored => String.eqb stored "true"
    end.

(** [handleSoundToggle] *)
Definition handleSoundToggle (soundEnabled : bool) : bool := negb soundEnabled.

(** The effect that keeps the setting: [try {
    localStorage.setItem('soundEnabled', String(soundEnabled)) } catch {}]. *)
Definition storeSoundEnabled (soundEnabled : bool) (localStorage : Storage.t) : Storage.t :=
  match Storage.setItem "soundEnabled" (String_of_boolean soundEnabled) localStorage with
  | Some stored => stored
  | None => localStorage
  end.

(** ** Predicates of the proofs on painting, patterns and sound *)

(** The values of the variable of a loop that grows by 1 or more each turn,
    from [v] on. *)
Fixpoint climbing (v : Q) (vs : list Q) : Prop :=
  match vs with
  | [] => True
  | v' :: vs' => v <= v' /\ climbing (v' + 1) vs'
  end.

(** The paths of a pattern have ids of their own. *)
Definition distinctIds (paths : list (RakePath (list Point))) : Prop :=
  NoDup (map RakePath.id paths).

(** The id of a ring of the centre [c] of the ripples. *)
Definition rippleOf (c : nat) (p : RakePath (list Point)) : Prop :=
  exists t, RakePath.id p = "ripple-" +:+ pretty c +:+ "-" +:+ t.

(** The paths of a pattern that have a point: [generatePattern] passes the
    others without touching the scene. *)
Definition withPoints (paths : list (RakePath (list Point))) : list (RakePath (list Point)) :=
  filter (fun p => (0 < length (RakePath.points p))%nat) paths.

(** The scene while [generatePattern] reveals the paths [newPaths]: the paths
    before the one it is at are there with all their points, and that one is
    the last, with the points revealed so far. *)
Definition unveiling (canvas : HTMLCanvasElement) (newPaths : list (RakePath (list Point)))
    (s : State) : Prop :=
  match animation s with
  | Some (AwaitPoint c path animatedPath i rest) =>
      exists done donePaths,
        c = canvas
        /\ newPaths = done ++ path :: rest
        /\ rakePaths s = donePaths ++ [animatedPath]
        /\ viewPaths (arrays s) donePaths = withPoints done
        /\ Forall (fun q => (RakePath.points q < RakePath.points animatedPath)%nat) donePaths
        /\ RakePath.id animatedPath = RakePath.id path
        /\ RakePath.width animatedPath = RakePath.width path
        /\ arrays s !! RakePath.points animatedPath
           = Some (take (S i) (RakePath.points path))
        /\ (S i <= length (RakePath.points path))%nat
  | _ => (scene s).1 = withPoints newPaths
  end.

(** The timers an [await] of the loop over the objects has still to see. *)
Definition objectTimers (i : nat) (objectCount : Q) : nat :=
  Nat.max 1 (Z.to_nat (Qceiling objectCount) - i).

(** The objects the last part of [generatePattern] will decide on, from the
    draws to come. *)
Definition objectsToCome (canvas : HTMLCanvasElement) (s : State) : nat :=
  match animation (placeObjects canvas s) with
  | Some (AwaitObject _ i objectCount) => objectTimers i objectCount
  | _ => 0%nat
  end.

(** The timers a call of [generatePattern] has still to see before it
    returns. *)
Definition timersLeft (s : State) : nat :=
  match animation s with
  | None => 0
  | Some (AwaitObject _ i objectCount) => objectTimers i objectCount
  | Some (AwaitPoint canvas path _ i rest) =>
      length (RakePath.points path) - S i + pointsLeft rest + 1 + objectsToCome canvas s
  end.

(** An object the generator places: inside the margin of 100, turned by
    0.2 at most either way and scaled by 0.8 to 1.2.  The bounds are
    included: the doubles of the code reach them. *)
Definition autoPlaced (canvas : HTMLCanvasElement) (o : PlacedObject) : Prop :=
  100 <= PlacedObject.x o /\ PlacedObject.x o <= HTMLCanvasElement.width canvas - 100
  /\ 100 <= PlacedObject.y o /\ PlacedObject.y o <= HTMLCanvasElement.height canvas - 100
  /\ - (0.2) <= PlacedObject.rotation o /\ PlacedObject.rotation o <= 0.2
  /\ 0.8 <= PlacedObject.scale o /\ PlacedObject.scale o <= 1.2.

(** The objects while [generatePattern] runs, [n] being their number at its
    end. *)
Definition placing (canvas : HTMLCanvasElement) (n : nat) (s : State) : Prop :=
  unit_draws (random s)
  /\ match animation s with
     | Some (AwaitPoint c path _ i _) =>
         c = canvas /\ placedObjects s = [] /\ objectsToCome canvas s = n
         /\ (S i <= length (RakePath.points path))%nat
     | Some (AwaitObject c i objectCount) =>
         c = canvas /\ length (placedObjects s) = i
         /\ (i + objectTimers i objectCount)%nat = n
     | None => length (placedObjects s) = n
     end.

(** The grooves of the scene once [groove] is put among them: in the place of
    the first groove of its id, or after the last one. *)
Definition withGroove (groove : RakePath (list Point))
    (grooves : list (RakePath (list Point))) : list (RakePath (list Point)) :=
  match list_find (fun q => RakePath.id q = RakePath.id groove) grooves with
  | Some (index, _) => <[index := groove]> grooves
  | None => grooves ++ [groove]
  end.

(** The state of a rake gesture on the scene of [s0]: the grooves are those
    of [s0], with the path of the gesture among them once a move is
    recorded, and the arrays of [s0] are as they were. *)
Definition grooving (s0 : State) (current : RakePath nat) (p0 : Point)
    (stroke : list Point) (s : State) : Prop :=
  raking current p0 stroke s
  /\ placedObjects s = placedObjects s0
  /\ rakePaths s = match stroke with [] => rakePaths s0 | _ => putPath current (rakePaths s0) end
  /\ RakePath.points current = length (arrays s0)
  /\ untouched s0 s.

(** An object as the hook makes them: turned by 0.2 at most either way,
    scaled by 0.8 to 1.2.  The bounds are included: the doubles of the code
    reach them. *)
Definition upright (o : PlacedObject) : Prop :=
  - (0.2) <= PlacedObject.rotation o /\ PlacedObject.rotation o <= 0.2
  /\ 0.8 <= PlacedObject.scale o /\ PlacedObject.scale o <= 1.2.

(** Every object of the scene and of the snapshots is upright, and the draws
    to come are in [0, 1). *)
Definition allUpright (s : State) : Prop :=
  unit_draws (random s)
  /\ Forall upright (placedObjects s)
  /\ Forall (fun c => Forall upright (CanvasState.placedObjects c)) (undoStack s).

(** The flag of the component is up exactly while a call of
    [generatePattern] waits for a timer. *)
Definition flagged (s : State) : Prop :=
  isGeneratingPattern s = true <-> is_Some (animation s).

(** Draws that select the spiral garden (the second layout) and place two
    objects: 0.1 first, 0.5 ever after. *)
Definition spiralDraws : Rng :=
  {| draws := fun n => match n with O => 1 # 10 | S _ => 1 # 2 end; cursor := 0 |}.

(** A call that changes the drawing state. *)
Definition changesState (k : ctx.Call) : bool :=
  match k with
  | ctx.clip | ctx.translate _ _ | ctx.rotate _ | ctx.scale _ _
  | ctx.fillStyle _ | ctx.strokeStyle _ | ctx.lineWidth _ | ctx.lineCap _
  | ctx.lineJoin _ | ctx.shadowColor _ | ctx.shadowBlur _ | ctx.shadowOffsetX _
  | ctx.shadowOffsetY _ | ctx.globalAlpha _ | ctx.globalCompositeOperation _ => true
  | _ => false
  end.

(** The depth of [save]s a list of calls ends at when it starts at [depth];
    [None] when it restores more than it has saved, or changes the drawing
    state outside of any [save] of its own. *)
Fixpoint scoped (calls : list ctx.Call) (depth : nat) : option nat :=
  match calls with
  | [] => Some depth
  | ctx.save :: calls' => scoped calls' (S depth)
  | ctx.restore :: calls' =>
      match depth with
      | O => None
      | S depth' => scoped calls' depth'
      end
  | k :: calls' =>
      if changesState k && Nat.eqb depth 0 then None else scoped calls' depth
  end.

(** A call that sets neither [globalAlpha] nor the clip. *)
Definition plain (k : ctx.Call) : bool :=
  match k with ctx.globalAlpha _ | ctx.clip => false | _ => true end.

(** A property of the drawing state that the call [k] keeps; [save] and
    [restore] are judged by what they stack. *)
Definition keepsBrush (ok : DrawingState -> Prop) (k : ctx.Call) : Prop :=
  match k with
  | ctx.save | ctx.restore => True
  | _ => forall c, ok (state c) -> ok (state (exec c k))
  end.

(** What a stroke of a groove shows: the path it follows and its width. *)
Definition strokeOf (p : Paint) : ctx.Call * list ctx.Call * number :=
  (call p, shape p, lineWidth (brush p)).

(** The path of a polyline through [points]. *)
Definition polyline (points : list Point) : list ctx.Call :=
  match points with
  | [] => []
  | first :: _ =>
      ctx.moveTo (Point.x first) (Point.y first)
      :: map (fun point => ctx.lineTo (Point.x point) (Point.y point)) points
  end.

(** The three strokes of a groove: its shadow, the groove and its
    highlight. *)
Definition grooveStrokes (path : RakePath (list Point))
  : list (ctx.Call * list ctx.Call * number) :=
  if drawn path then
    [(ctx.stroke, polyline (RakePath.points path), RakePath.width path + 2);
     (ctx.stroke, polyline (RakePath.points path), RakePath.width path);
     (ctx.stroke, polyline (RakePath.points path), Qmax 1 (RakePath.width path / 3))]
  else [].

(** A speckle inside a [width] by [height] surface. *)
Definition speckleInside (width height : number) (k : ctx.Call) : Prop :=
  match k with
  | ctx.arc x y radius _ _ =>
      0 <= x /\ x < width /\ 0 <= y /\ y < height /\ 0 <= radius /\ radius < 2
  | _ => True
  end.

Definition isArc (k : ctx.Call) : bool :=
  match k with ctx.arc _ _ _ _ _ => true | _ => false end.

(** The generator after [n] more draws. *)
Definition drawn_more (n : nat) (r : Rng) : Rng :=
  {| draws := draws r; cursor := cursor r + n |}.

(** The calls of a speckle: a fill style, and a path filled. *)
Definition fillsOnly (k : ctx.Call) : bool :=
  match k with
  | ctx.fillStyle _ | ctx.beginPath | ctx.arc _ _ _ _ _ | ctx.fill => true
  | _ => false
  end.

(** What is painted at full opacity. *)
Definition opaque (p : Paint) : Prop := globalAlpha (brush p) = 1.

(** The points a call of a path names: where it goes, and its control
    points. *)
Definition pathPoints (k : ctx.Call) : list (number * number) :=
  match k with
  | ctx.moveTo x y | ctx.lineTo x y => [(x, y)]
  | ctx.quadraticCurveTo cpx cpy x y => [(cpx, cpy); (x, y)]
  | ctx.bezierCurveTo cp1x cp1y cp2x cp2y x y => [(cp1x, cp1y); (cp2x, cp2y); (x, y)]
  | _ => []
  end.

(** A point of the rectangle at [(x, y)], [w] wide and [h] high. *)
Definition inRect (x y w h : number) (p : number * number) : Prop :=
  x <= fst p /\ fst p <= x + w /\ y <= snd p /\ snd p <= y + h.

(** A call that only [drawFlower] makes on the frame: the arc of the heart
    of a flower, or the radial gradient of a petal. *)
Definition flowerCall (k : ctx.Call) : bool :=
  match k with
  | ctx.arc _ _ _ _ _ | ctx.fillStyle (RadialGradient _ _ _ _ _ _ _) => true
  | _ => false
  end.

(** A speckle of the light garden on the sand. *)
Definition speckleOnSand (sandRect : Wood.SandRect) (k : ctx.Call) : Prop :=
  match k with
  | ctx.arc x y radius _ _ =>
      inRect (Wood.x sandRect) (Wood.y sandRect) (Wood.w sandRect) (Wood.h sandRect) (x, y)
      /\ 0 < radius /\ radius < 2
  | _ => True
  end.

(** The outline of the sand, as a path that has been begun. *)
Definition sandOutline (sandRect : Wood.SandRect) : list ctx.Call :=
  tl (Wood.roundedRectPath (Wood.x sandRect) (Wood.y sandRect) (Wood.w sandRect)
        (Wood.h sandRect) (Wood.r sandRect)).

(** What [render] of the light garden calls, given the image of the
    background. *)
Definition woodFrame {M : MathLib} (width height : number) (image : list ctx.Call)
    (rakePaths : list (RakePath (list Point))) (placedObjects : list PlacedObject)
  : list ctx.Call :=
  let sandRect := Wood.getSandRect width height in
  [ctx.clearRect 0 0 width height; ctx.drawImage image 0 0; ctx.save]
  ++ Wood.roundedRectPath (Wood.x sandRect) (Wood.y sandRect) (Wood.w sandRect)
       (Wood.h sandRect) (Wood.r sandRect)
  ++ [ctx.clip]
  ++ drawRakeGrooves wood rakePaths
  ++ drawObjects placedObjects
  ++ [ctx.restore].

(** The canvas of the cache has the size the cache was made for. *)
Definition cacheSized (bg : Wood.Background) : Prop :=
  match Wood.backgroundCacheRef bg, Wood.backgroundSizeRef bg with
  | Some off, Some size => Wood.width off == fst size /\ Wood.height off == snd size
  | _, _ => True
  end.

(** No off-screen canvas made yet. *)
Definition noBackground : Wood.Background :=
  {| Wood.backgroundCacheRef := None; Wood.backgroundSizeRef := None; Wood.created := 0 |}.

(** The context [playSound] finds: the one the refs hold, or the one it
    makes when none has been made. *)
Definition contextFor (browser : SoundManager.Browser) (refs : SoundManager.Refs)
    (context : SoundManager.AudioContext) : Prop :=
  if SoundManager.isInitializedRef refs
  then SoundManager.audioContextRef refs = Some context
  else SoundManager.window browser = true
       /\ SoundManager.newAudioContext browser = Some context.

(** A list of calls that reports no error. *)
Definition noWarning (calls : list SoundManager.Call) : Prop :=
  Forall (fun k => forall message, k <> SoundManager.console_warn message) calls.

(** What [playSound] does for the sound [cue] when sound is on and there is
    a context of 4 frames a second or more: it returns, reports no error,
    starts [now] sources of sound before it returns and sets [later] timers,
    each of 100 ms and each starting one source more when it fires, whatever
    the time then. *)
Definition sounding (cue : string) (now later : nat) : Prop :=
  forall browser refs context rng,
    unit_draws rng -> contextFor browser refs context ->
    1 <= SoundManager.sampleRate context * 0.3 ->
    exists refs' calls timers rng',
      SoundManager.playSound true browser cue refs rng = Some ((refs', calls, timers), rng')
      /\ length (List.filter startsSource calls) = now
      /\ noWarning calls
      /\ length timers = later
      /\ Forall (fun timer =>
                   SoundManager.delay timer == 100
                   /\ forall browser',
                        length (List.filter startsSource
                                  (SoundManager.fire timer browser' refs')) = 1%nat
                        /\ noWarning (SoundManager.fire timer browser' refs'))
           timers.

(** A browser with a 48 kHz context to give. *)
Definition browser48k : SoundManager.Browser :=
  {| SoundManager.window := true;
     SoundManager.newAudioContext := Some {| SoundManager.sampleRate := 48000 |};
     SoundManager.currentTime := 0 |}.

(** ** The threshold of the rake, as the specification words it

    The specification appends a point when its Euclidean distance from the
    last recorded point exceeds 3 pixels.  A distance is the square root of
    a rational and need not be one: the test is stated on the squares. *)

(** The square of the Euclidean distance of [a] and [b]. *)
Definition squaredEuclidean (a b : Point) : number :=
  (Point.x a - Point.x b) * (Point.x a - Point.x b)
  + (Point.y a - Point.y b) * (Point.y a - Point.y b).

(** The Euclidean distance of [a] and [b] exceeds the 3-pixel threshold. *)
Definition beyondThreshold (a b : Point) : Prop := 3 * 3 < squaredEuclidean a b.

(** The points the specification records of the moves of a gesture: a point
    is appended when it is beyond the threshold from the last recorded point,
    and dropped otherwise. *)
Fixpoint recordedBySpec (last : Point) (moves : list Point) : list Point :=
  match moves with
  | [] => []
  | point :: moves' =>
      if Qltb (3 * 3) (squaredEuclidean point last)
      then point :: recordedBySpec point moves'
      else recordedBySpec last moves'
  end.

(** What the specification says a rake gesture that began at [p0] and moved
    through [moves] leaves of the state [s] it started in: a path of the
    points recorded, in the order of the calls, each beyond the threshold
    from the one before. *)
Definition gestureBySpec (now : Z) (p0 : Point) (moves : list Point)
    (s s' : State) : Prop :=
  let stroke := p0 :: recordedBySpec p0 moves in
  sublist stroke (p0 :: moves)
  /\ (forall i a b, stroke !! i = Some a -> stroke !! S i = Some b -> beyondThreshold b a)
  /\ (recordedBySpec p0 moves <> [] ->
        exists w, RakePath.mk (pretty now) stroke w ∈ (scene s').1)
  /\ (recordedBySpec p0 moves = [] -> rakePaths s' = rakePaths s)
  /\ currentPathRef s' = None
  /\ undoStack s' = pushed s.

(** A stand-in for [Math] whose square root is one step of Heron's method
    from 3: above 3 exactly for the numbers above 9. *)
Definition heronMath : MathLib :=
  {| Math_sin := Math_sin (MathLib := sampleMath);
     Math_cos := Math_cos (MathLib := sampleMath);
     Math_sqrt := fun a => (3 + a / 3) / 2;
     Math_atan2 := Math_atan2 (MathLib := sampleMath);
     Math_hypot := Math_hypot (MathLib := sampleMath);
     Math_PI := Math_PI (MathLib := sampleMath) |}.

(** Auto Pattern with the draws of the spiral garden, Reset while the call
    waits after the last point of the spiral, and the timers that are left. *)
Definition resetBeforeTheEnd : list (Env * Event) :=
  on canvas800 0 ClickGenerate
  :: map (fun t => on canvas800 t Timeout) (replicate 200 0%Z)
  ++ [on canvas800 0 ClickReset]
  ++ map (fun t => on canvas800 t Timeout) (replicate 3 0%Z).

(** A state in which no call of [generatePattern] is left running and the
    scene has no groove. *)
Definition endedBare (s : State) : bool :=
  match animation s, (scene s).1 with
  | None, [] => negb (isGeneratingPattern s)
  | _, _ => false
  end.

(** Reset by a second finger during a rake gesture on a touch screen. *)
Definition resetWhileTouching : list (Env * Event) :=
  [on canvas800 0 (TouchStart [at_ 10 10]); on canvas800 0 (TouchMove [at_ 20 10]);
   on canvas800 0 ClickReset].

(** Auto Pattern with the draws of the spiral garden and, while the spiral
    is revealed, a rake gesture of two points. *)
Definition gestureMeanwhile : list (Env * Event) :=
  on canvas800 0 ClickGenerate
  :: map (fun t => on canvas800 t Timeout) (replicate 100 0%Z)
  ++ [on canvas800 7 (MouseDown (at_ 10 10)); on canvas800 7 (MouseMove (at_ 20 10));
      on canvas800 7 MouseUp]
  ++ map (fun t => on canvas800 t Timeout) (replicate 103 0%Z).

(** ** A call of [generatePattern] among other events *)

(** The events that take grooves out of the scene: Reset, Undo, and Auto
    Pattern, which clears the scene before it draws. *)
Definition clears (e : Event) : bool :=
  match e with
  | ClickReset | ClickUndo | ClickGenerate => true
  | _ => false
  end.

(** Every array of the store [h] is in [h'], with the points it had and
    maybe more. *)
Definition grows (h h' : list (list Point)) : Prop :=
  forall a, (length (deref h a) <= length (deref h' a))%nat.

(** The points of [p] are an array of the store that holds a point or more. *)
Definition begun (s : State) (p : RakePath ref) : Prop :=
  (1 <= length (deref (arrays s) (RakePath.points p)))%nat.

(** The path of a gesture in progress has the point of its pointer down. *)
Definition gestureBegun (s : State) : Prop :=
  forall current, currentPathRef s = Some current -> begun s current.

(** The scene has a path of two points or more. *)
Definition hasGroove (s : State) : Prop :=
  exists p, p ∈ (scene s).1 /\ multiPoint p.

(** A call of [generatePattern] that is under way or over: while it reveals
    a path, the scene has a path of two points or more, or a second point of
    this path or a path of two points is still to come; afterwards the scene
    has a path of two points or more. *)
Definition grooveComing (s : State) : Prop :=
  match animation s with
  | Some (AwaitPoint _ path an i rest) =>
      begun s an /\ Forall multiPoint rest
      /\ (hasGroove s \/ (S i < length (RakePath.points path))%nat \/ rest <> [])
  | _ => hasGroove s
  end.

(** ** The two hooks on one [Math.random] *)

(** The two hooks of the sources. *)
Inductive Garden := dark | light.

(** The hook of a garden once mounted on a canvas that gives its contexts:
    the effect of the first commit has called [render], on the empty scene,
    and the handlers of the events that follow draw from what that call has
    left of [Math.random].  [render] is called again only when the grooves
    or the objects have changed.  [None]: that [render] throws. *)
Definition mounted {M : MathLib} (garden : Garden) (canvas : HTMLCanvasElement)
    (r : Rng) : option State :=
  match garden with
  | dark =>
      match Slate.render (Some canvas) true [] [] r with
      | Some (_, r') => Some (initialState r')
      | None => None
      end
  | light =>
      match Wood.render (Some canvas) true true [] [] noBackground r with
      | Some (_, r') => Some (initialState r')
      | None => None
      end
  end.

(** The events of a garden after its hook is mounted, up to the first change
    of the scene and the handling of the event that makes it. *)
Definition mountedRun {M : MathLib} (garden : Garden) (canvas : HTMLCanvasElement)
    (r : Rng) (evs : list (Env * Event)) : option State :=
  match mounted garden canvas r with
  | Some s =>
      match garden with
      | dark => run s evs
      | light => WoodHook.run s evs
      end
  | None => None
  end.

(** A [Math.random] that gives 0, 1/7, ..., 6/7 over and over. *)
Definition sevenths : Rng :=
  {| draws := fun n => inject_Z (Z.of_nat (n mod 7)) / 7; cursor := 0 |}.

(** A stroke with the rake: down at (10, 10), and a move to (20, 10) that
    puts the groove in the scene. *)
Definition firstStroke : list (Env * Event) :=
  [on canvas800 0 (MouseDown (at_ 10 10)); on canvas800 0 (MouseMove (at_ 20 10))].

(** * Theorems *)

#[local] Arguments reveal : simpl never.
#[local] Arguments placeObjects : simpl never.
#[local] Arguments animatePaths : simpl nomatch.

Lemma Qltb_lt (a b : Q) : Qltb a b = true <-> a < b.
Proof.
  unfold Qltb. rewrite negb_true_iff.
  destruct (Qle_bool b a) eqn:E.
  - apply Qle_bool_iff in E. split; [discriminate | intros Hlt; lra].
  - split; [intros _ | reflexivity].
    apply Qnot_le_lt. intros Hle. apply Qle_bool_iff in Hle. congruence.
Qed.

Lemma Qltb_ge (a b : Q) : Qltb a b = false <-> b <= a.
Proof.
  unfold Qltb. rewrite negb_false_iff. apply Qle_bool_iff.
Qed.

Section Slices.
Context {A : Type}.
Implicit Types l : list A.

Lemma length_slice_last n l : length (slice_last n l) = Nat.min n (length l).
Proof. unfold slice_last. rewrite length_drop. lia. Qed.

Lemma slice_last_all n l : (length l <= n)%nat -> slice_last n l = l.
Proof.
  intros Hle. unfold slice_last. replace (length l - n)%nat with 0%nat by lia.
  reflexivity.
Qed.

Lemma slice_last_snoc n l x :
  slice_last (S n) (l ++ [x]) = slice_last n l ++ [x].
Proof.
  unfold slice_last. rewrite length_app. simpl.
  replace (length l + 1 - S n)%nat with (length l - n)%nat by lia.
  rewrite drop_app_le by lia. reflexivity.
Qed.

Lemma slice_init_snoc l x : slice_init (l ++ [x]) = l.
Proof.
  unfold slice_init. rewrite length_app. simpl.
  replace (length l + 1 - 1)%nat with (length l) by lia.
  rewrite take_app_length. reflexivity.
Qed.

Lemma slice_init_nil : slice_init (@nil A) = [].
Proof. reflexivity. Qed.

Lemma slice_last_0 l : slice_last 0 l = [].
Proof. unfold slice_last. rewrite Nat.sub_0_r. apply drop_all. Qed.

Lemma Forall_slice_last (P : A -> Prop) n l : Forall P l -> Forall P (slice_last n l).
Proof. apply Forall_drop. Qed.

Lemma Forall_slice_init (P : A -> Prop) l : Forall P l -> Forall P (slice_init l).
Proof. apply Forall_take. Qed.

Lemma last_slice_last_snoc n l x : last (slice_last (S n) (l ++ [x])) = Some x.
Proof. rewrite slice_last_snoc. apply last_snoc. Qed.

Lemma slice_init_slice_last_snoc n l x :
  slice_init (slice_last (S n) (l ++ [x])) = slice_last n l.
Proof. rewrite slice_last_snoc. apply slice_init_snoc. Qed.

Lemma slice_last_full_snoc a l x :
  length (a :: l) = 20%nat -> slice_last 20 ((a :: l) ++ [x]) = l ++ [x].
Proof.
  intros Hlen. unfold slice_last. rewrite length_app, Hlen. reflexivity.
Qed.
End Slices.

Section Frame.
Context {M : MathLib}.

Lemma pointerMove_undoStack point s : undoStack (pointerMove point s) = undoStack s.
Proof. unfold pointerMove. repeat case_match; reflexivity. Qed.

Lemma handleMouseMove_undoStack canvasRef event s :
  undoStack (handleMouseMove canvasRef event s) = undoStack s.
Proof.
  unfold handleMouseMove. repeat case_match; auto using pointerMove_undoStack.
Qed.

Lemma handleTouchMove_undoStack canvasRef touches s :
  undoStack (handleTouchMove canvasRef touches s) = undoStack s.
Proof.
  unfold handleTouchMove. repeat case_match; auto using pointerMove_undoStack.
Qed.

Lemma handleMouseUp_undoStack s : undoStack (handleMouseUp s) = undoStack s.
Proof. unfold handleMouseUp. case_match; reflexivity. Qed.

Lemma pointerDown_undoStack now point s :
  undoStack (pointerDown now point s) = pushed s.
Proof. unfold pointerDown. destruct (tool s); reflexivity. Qed.

Lemma clearGarden_undoStack s : undoStack (clearGarden s) = pushed s.
Proof. reflexivity. Qed.

Lemma reveal_undoStack path an i p s : undoStack (reveal path an i p s) = undoStack s.
Proof. unfold reveal. case_match; reflexivity. Qed.

Lemma placeObjects_undoStack canvas s : undoStack (placeObjects canvas s) = undoStack s.
Proof. unfold placeObjects, draw. simpl. repeat case_match; reflexivity. Qed.

Lemma animatePaths_undoStack canvas paths s :
  undoStack (animatePaths canvas paths s) = undoStack s.
Proof.
  revert s. induction paths as [|path rest IH]; intros s; simpl.
  - apply placeObjects_undoStack.
  - destruct path as [pid [|p pts] w]; simpl.
    + rewrite IH. reflexivity.
    + reflexivity.
Qed.

Lemma resume_undoStack now k s : undoStack (resume now k s) = undoStack s.
Proof.
  destruct k; simpl.
  - case_match; simpl.
    + apply reveal_undoStack.
    + apply animatePaths_undoStack.
  - case_match; reflexivity.
Qed.

Lemma settle_undoStack s : undoStack (settle s) = undoStack s.
Proof. unfold settle. case_match; reflexivity. Qed.

Lemma generatePattern_undoStack canvas s s' :
  generatePattern (Some canvas) s = Some s' -> undoStack s' = pushed s.
Proof.
  unfold generatePattern. simpl. case_match; [|discriminate].
  destruct p as [newPaths r]. intros [= <-].
  rewrite animatePaths_undoStack. reflexivity.
Qed.

End Frame.

Section Frozen.
Context {M : MathLib}.

Lemma frozen_intro s a :
  (a < length (arrays s))%nat ->
  (forall current, currentPathRef s = Some current -> a <> RakePath.points current) ->
  (forall c p an i rest, animation s = Some (AwaitPoint c p an i rest) ->
     a <> RakePath.points an) ->
  frozen s a.
Proof.
  intros Hlt Hc Ha. split; [exact Hlt|]. unfold live.
  rewrite elem_of_app. intros [Hin|Hin].
  - destruct (currentPathRef s) as [current|]; [|apply elem_of_nil in Hin; exact Hin].
    apply list_elem_of_singleton in Hin. eapply Hc; eauto.
  - destruct (animation s) as [[c p an i rest|]|];
      try (apply elem_of_nil in Hin; exact Hin).
    apply list_elem_of_singleton in Hin. eapply Ha; eauto.
Qed.

Lemma frozen_elim s a :
  frozen s a ->
  (a < length (arrays s))%nat /\
  (forall current, currentPathRef s = Some current -> a <> RakePath.points current) /\
  (forall c p an i rest, animation s = Some (AwaitPoint c p an i rest) ->
     a <> RakePath.points an).
Proof.
  intros [Hlt Hn]. split; [exact Hlt|]. unfold live in Hn.
  rewrite elem_of_app in Hn. split.
  - intros current Hc ->. apply Hn. left. rewrite Hc. apply list_elem_of_here.
  - intros c p an i rest Ha ->. apply Hn. right. rewrite Ha. apply list_elem_of_here.
Qed.

Lemma keeps_refl s : keeps s s.
Proof. intros a Ha. auto. Qed.

Lemma keeps_trans s1 s2 s3 : keeps s1 s2 -> keeps s2 s3 -> keeps s1 s3.
Proof.
  intros H12 H23 a Ha. destruct (H12 a Ha) as [Ha2 E2].
  destruct (H23 a Ha2) as [Ha3 E3]. split; [exact Ha3 | congruence].
Qed.

(** A step that leaves the store and the two references alone. *)
Lemma keeps_same s s' :
  arrays s' = arrays s -> currentPathRef s' = currentPathRef s ->
  animation s' = animation s -> keeps s s'.
Proof.
  intros Ea Ec Ek a [Hlt Hn]. unfold frozen, live. rewrite Ea, Ec, Ek. auto.
Qed.

Lemma keeps_push s a0 p :
  a0 ∈ live s -> keeps s (push a0 p s).
Proof.
  intros Hin a [Hlt Hn]. split.
  - split.
    + simpl. rewrite length_alter. exact Hlt.
    + exact Hn.
  - simpl. apply list_lookup_alter_ne. intros ->. contradiction.
Qed.

Lemma keeps_push_other s a0 p :
  ~ frozen s a0 -> keeps s (push a0 p s).
Proof.
  intros Hn a Ha. split.
  - destruct Ha as [Hlt Hl]. split; [simpl; rewrite length_alter; exact Hlt | exact Hl].
  - simpl. apply list_lookup_alter_ne. intros ->. contradiction.
Qed.

Lemma keeps_pointerDown now point s : keeps s (pointerDown now point s).
Proof.
  intros a Ha. apply frozen_elim in Ha as (Hlt & Hc & Hk).
  unfold pointerDown. destruct (tool s); simpl.
  - split.
    + apply frozen_intro; simpl.
      * rewrite length_app. simpl. lia.
      * intros current [= <-]. simpl. lia.
      * exact Hk.
    + apply lookup_app_l. exact Hlt.
  - split; [|reflexivity]. apply frozen_intro; simpl; auto.
Qed.

Lemma keeps_pointerMove point s : keeps s (pointerMove point s).
Proof.
  unfold pointerMove.
  destruct (currentPathRef s) as [current|] eqn:Ec; [|apply keeps_refl].
  destruct (lastPointRef s); [|apply keeps_refl].
  case_match; [|apply keeps_refl].
  eapply keeps_trans.
  - apply (keeps_push_other s (RakePath.points current) point).
    intros [_ Hn]. apply Hn. unfold live. rewrite Ec. apply elem_of_app. left.
    apply list_elem_of_here.
  - apply keeps_same; reflexivity.
Qed.

Lemma keeps_handleMouseUp s : keeps s (handleMouseUp s).
Proof.
  unfold handleMouseUp. case_match; [|apply keeps_refl].
  intros a Ha. apply frozen_elim in Ha as (Hlt & Hc & Hk).
  split; [|reflexivity]. apply frozen_intro; simpl; auto; discriminate.
Qed.

Lemma keeps_placeObjects canvas s : keeps s (placeObjects canvas s).
Proof.
  intros a Ha. apply frozen_elim in Ha as (Hlt & Hc & Hk).
  unfold placeObjects, draw. simpl.
  repeat case_match; (split; [apply frozen_intro; simpl; auto; discriminate | reflexivity]).
Qed.

Lemma arrays_reveal path an i p s :
  arrays (reveal path an i p s) = alter (fun v => v ++ [p]) (RakePath.points an) (arrays s).
Proof. unfold reveal. case_match; reflexivity. Qed.

Lemma currentPathRef_reveal path an i p s :
  currentPathRef (reveal path an i p s) = currentPathRef s.
Proof. unfold reveal. case_match; reflexivity. Qed.

Lemma keeps_animatePaths canvas paths s : keeps s (animatePaths canvas paths s).
Proof.
  revert s. induction paths as [|path rest IH]; intros s.
  - apply keeps_placeObjects.
  - destruct path as [pid [|p pts] w]; simpl.
    + eapply keeps_trans; [|apply IH].
      intros a Ha. apply frozen_elim in Ha as (Hlt & Hc & Hk). split.
      * apply frozen_intro; simpl; auto. rewrite length_app. simpl. lia.
      * simpl. apply lookup_app_l. exact Hlt.
    + intros a Ha. apply frozen_elim in Ha as (Hlt & Hc & Hk). split.
      * apply frozen_intro; simpl.
        -- rewrite ?arrays_reveal, length_alter. simpl. rewrite length_app. simpl. lia.
        -- rewrite ?currentPathRef_reveal. exact Hc.
        -- intros c p0 an i rest0 [= <- <- <- <- <-]. simpl. lia.
      * simpl. rewrite ?arrays_reveal. simpl.
        rewrite list_lookup_alter_ne by lia. apply lookup_app_l. exact Hlt.
Qed.

Lemma keeps_resume now k s : animation s = Some k -> keeps s (resume now k s).
Proof.
  intros Ek. destruct k as [canvas path an i rest|canvas i objectCount]; simpl.
  - destruct (RakePath.points path !! S i) as [p|].
    + intros a Ha. apply frozen_elim in Ha as (Hlt & Hc & Hk). split.
      * apply frozen_intro; simpl.
        -- rewrite ?arrays_reveal, length_alter. exact Hlt.
        -- rewrite ?currentPathRef_reveal. exact Hc.
        -- intros c p0 an0 i0 rest0 [= <- <- <- <- <-]. eapply Hk. exact Ek.
      * simpl. rewrite ?arrays_reveal. apply list_lookup_alter_ne.
        intros E. eapply Hk; [exact Ek|]. congruence.
    + apply keeps_animatePaths.
  - intros a Ha. apply frozen_elim in Ha as (Hlt & Hc & Hk).
    unfold draw. simpl.
    case_match; (split; [apply frozen_intro; simpl; auto; discriminate | reflexivity]).
Qed.

Lemma keeps_settle s : keeps s (settle s).
Proof. unfold settle. case_match; [apply keeps_refl | apply keeps_same; reflexivity]. Qed.

Lemma keeps_generatePattern canvasRef s s' :
  generatePattern canvasRef s = Some s' -> keeps s s'.
Proof.
  unfold generatePattern. destruct canvasRef as [canvas|].
  - destruct (generateZenPattern canvas _) as [[newPaths r]|]; [|discriminate].
    intros [= <-]. eapply keeps_trans; [|apply keeps_animatePaths].
    apply keeps_same; reflexivity.
  - intros [= <-]. apply keeps_refl.
Qed.

Lemma keeps_undo s : keeps s (undo s).
Proof. unfold undo. case_match; [apply keeps_same; reflexivity | apply keeps_refl]. Qed.

(** Every event keeps the frozen arrays. *)
Lemma step_keeps s ev s' : step s ev = Some s' -> keeps s s'.
Proof.
  destruct ev as [env e]. destruct e; simpl.
  - intros [= <-]. unfold handleMouseDown. case_match;
      [apply keeps_pointerDown | apply keeps_refl].
  - intros [= <-]. unfold handleMouseMove. repeat case_match;
      auto using keeps_pointerMove, keeps_refl.
  - intros [= <-]. apply keeps_handleMouseUp.
  - intros [= <-]. apply keeps_handleMouseUp.
  - intros [= <-]. unfold handleTouchStart. repeat case_match;
      auto using keeps_pointerDown, keeps_refl.
  - intros [= <-]. unfold handleTouchMove. repeat case_match;
      auto using keeps_pointerMove, keeps_refl.
  - intros [= <-]. apply keeps_handleMouseUp.
  - intros [= <-]. apply keeps_same; reflexivity.
  - intros [= <-]. case_match; [apply keeps_same; reflexivity | apply keeps_refl].
  - unfold handleGeneratePattern. case_match.
    + intros [= <-]. apply keeps_refl.
    + destruct (generatePattern _ _) as [s1|] eqn:Eg; [|discriminate].
      simpl. intros [= <-].
      eapply keeps_trans; [|apply keeps_settle].
      eapply keeps_trans; [|eapply keeps_generatePattern; exact Eg].
      apply keeps_same; reflexivity.
  - intros [= <-]. apply keeps_undo.
  - intros [= <-]. apply keeps_same; reflexivity.
  - destruct (animation s) as [k|] eqn:Ek; intros [= <-].
    + eapply keeps_trans; [apply keeps_resume; exact Ek | apply keeps_settle].
    + apply keeps_refl.
Qed.

Lemma run_keeps evs : forall s s', run s evs = Some s' -> keeps s s'.
Proof.
  induction evs as [|ev evs IH]; intros s s'; simpl.
  - intros [= <-]. apply keeps_refl.
  - destruct (step s ev) as [s1|] eqn:Es; [|discriminate].
    intros Hr. eapply keeps_trans; [eapply step_keeps; exact Es | apply IH; exact Hr].
Qed.

End Frozen.

Section WellFormed.
Context {M : MathLib}.

Lemma allocated_mono n m p : (n <= m)%nat -> allocated n p -> allocated m p.
Proof. unfold allocated. lia. Qed.

Lemma Forall_allocated_mono n m l :
  (n <= m)%nat -> Forall (allocated n) l -> Forall (allocated m) l.
Proof.
  intros Hle Hl. eapply Forall_impl; [exact Hl|]. intros p. apply allocated_mono, Hle.
Qed.

Lemma refsBelow_mono n m s : (n <= m)%nat -> refsBelow n s -> refsBelow m s.
Proof.
  intros Hle (Hp & Hu & Hc & Hk). repeat split.
  - eapply Forall_allocated_mono; eauto.
  - eapply Forall_impl; [exact Hu|]. intros c. apply Forall_allocated_mono, Hle.
  - intros current E. eapply allocated_mono; eauto.
  - intros c p an i rest E. eapply allocated_mono; eauto.
Qed.

Lemma refsBelow_pushed n s :
  refsBelow n s ->
  Forall (fun c => Forall (allocated n) (CanvasState.rakePaths c)) (pushed s).
Proof.
  intros (Hp & Hu & _). unfold pushed. apply Forall_slice_last.
  apply Forall_app. split; [exact Hu|]. apply Forall_singleton. exact Hp.
Qed.

Lemma Forall_putPath n current prev :
  allocated n current -> Forall (allocated n) prev ->
  Forall (allocated n) (putPath current prev).
Proof.
  intros Hc Hp. unfold putPath. destruct (list_find _ prev) as [[index q]|].
  - apply Forall_insert; assumption.
  - apply Forall_app. split; [assumption|]. apply Forall_singleton. assumption.
Qed.

Lemma wellFormed_pointerDown now point s :
  wellFormed s -> wellFormed (pointerDown now point s).
Proof.
  intros Hw. unfold wellFormed, pointerDown. destruct (tool s); simpl.
  - rewrite length_app. simpl.
    assert (Hw' : refsBelow (length (arrays s) + 1) s)
      by (eapply refsBelow_mono; [|exact Hw]; lia).
    destruct Hw' as (Hp & Hu & Hc & Hk). repeat split; simpl.
    + exact Hp.
    + apply (refsBelow_pushed _ s). repeat split; assumption.
    + intros current [= <-]. unfold allocated. simpl. lia.
    + exact Hk.
  - destruct Hw as (Hp & Hu & Hc & Hk). repeat split; simpl; auto.
    apply (refsBelow_pushed _ s). repeat split; assumption.
Qed.

Lemma wellFormed_pointerMove point s :
  wellFormed s -> wellFormed (pointerMove point s).
Proof.
  intros Hw. unfold pointerMove.
  destruct (currentPathRef s) as [current|] eqn:Ec; [|exact Hw].
  destruct (lastPointRef s); [|exact Hw].
  case_match; [|exact Hw].
  unfold wellFormed. simpl. rewrite length_alter.
  destruct Hw as (Hp & Hu & Hc & Hk). repeat split; simpl; auto.
  apply Forall_putPath; auto.
Qed.

Lemma wellFormed_handleMouseUp s : wellFormed s -> wellFormed (handleMouseUp s).
Proof.
  intros Hw. unfold handleMouseUp. case_match; [|exact Hw].
  destruct Hw as (Hp & Hu & Hc & Hk). repeat split; simpl; auto. discriminate.
Qed.

Lemma wellFormed_clearGarden s : wellFormed s -> wellFormed (clearGarden s).
Proof.
  intros Hw. pose proof (refsBelow_pushed _ _ Hw) as Hpu.
  destruct Hw as (Hp & Hu & Hc & Hk). repeat split; simpl; auto.
Qed.

Lemma wellFormed_undo s : wellFormed s -> wellFormed (undo s).
Proof.
  intros Hw. unfold undo. destruct (last (undoStack s)) as [lastState|] eqn:El; [|exact Hw].
  destruct Hw as (Hp & Hu & Hc & Hk). repeat split; simpl; auto.
  - apply last_Some in El as [l' El]. rewrite El in Hu.
    rewrite Forall_app, Forall_singleton in Hu. apply Hu.
  - apply Forall_slice_init. exact Hu.
Qed.

Lemma wellFormed_placeObjects canvas s :
  wellFormed s -> wellFormed (placeObjects canvas s).
Proof.
  intros (Hp & Hu & Hc & Hk). unfold placeObjects, draw. simpl.
  repeat case_match; repeat split; simpl; auto; discriminate.
Qed.

Lemma Forall_filter_keep {A} (P : A -> Prop) (Q : A -> Prop)
    `{forall x, Decision (Q x)} (l : list A) :
  Forall P l -> Forall P (filter Q l).
Proof.
  rewrite !Forall_forall. intros Hl x Hx.
  apply list_elem_of_filter in Hx as [_ Hx]. auto.
Qed.

Lemma rakePaths_reveal path an i p s :
  rakePaths (reveal path an i p s)
  = filter (fun q => RakePath.id q <> RakePath.id path) (rakePaths s) ++ [an].
Proof. unfold reveal. case_match; reflexivity. Qed.

Lemma animation_reveal path an i p s : animation (reveal path an i p s) = animation s.
Proof. unfold reveal. case_match; reflexivity. Qed.

Lemma refsBelow_reveal n path an i p s :
  refsBelow n s -> allocated n an -> refsBelow n (reveal path an i p s).
Proof.
  intros (Hp & Hu & Hc & Hk) Ha. repeat split.
  - rewrite rakePaths_reveal. apply Forall_app. split.
    + apply Forall_filter_keep. exact Hp.
    + apply Forall_singleton. exact Ha.
  - rewrite reveal_undoStack. exact Hu.
  - rewrite currentPathRef_reveal. exact Hc.
  - rewrite animation_reveal. exact Hk.
Qed.

Lemma refsBelow_set_animation n k s :
  refsBelow n s ->
  (forall c p an i rest, k = Some (AwaitPoint c p an i rest) -> allocated n an) ->
  refsBelow n (set_animation k s).
Proof. intros (Hp & Hu & Hc & Hk) Hk'. repeat split; simpl; auto. Qed.

Lemma wellFormed_animatePaths canvas paths s :
  wellFormed s -> wellFormed (animatePaths canvas paths s).
Proof.
  revert s. induction paths as [|path rest IH]; intros s Hw.
  - apply wellFormed_placeObjects, Hw.
  - destruct path as [pid [|p pts] w]; simpl.
    + apply IH. unfold wellFormed. simpl. rewrite length_app. simpl.
      eapply refsBelow_mono with (n := length (arrays s)); [lia|].
      destruct Hw as (Hp & Hu & Hc & Hk). repeat split; simpl; auto.
    + unfold wellFormed. simpl.
      set (an := RakePath.mk pid (length (arrays s)) w).
      set (s1 := set_arrays (arrays s ++ [[]]) s).
      change (refsBelow (length (arrays (reveal (RakePath.mk pid (p :: pts) w) an 0 p s1)))
                (set_animation (Some (AwaitPoint canvas (RakePath.mk pid (p :: pts) w) an 0 rest))
                   (reveal (RakePath.mk pid (p :: pts) w) an 0 p s1))).
      rewrite arrays_reveal, length_alter. subst s1. simpl. rewrite length_app. simpl.
      apply refsBelow_set_animation.
      * apply refsBelow_reveal.
        -- eapply refsBelow_mono with (n := length (arrays s)); [lia|].
           destruct Hw as (Hp & Hu & Hc & Hk). repeat split; simpl; auto.
        -- unfold allocated, an. simpl. lia.
      * intros c p0 an0 i rest0 [= <- <- <- <- <-]. unfold allocated, an. simpl. lia.
Qed.

Lemma wellFormed_resume now k s :
  animation s = Some k -> wellFormed s -> wellFormed (resume now k s).
Proof.
  intros Ek Hw. destruct k as [canvas path an i rest|canvas i objectCount]; simpl.
  - destruct (RakePath.points path !! S i) as [p|].
    + unfold wellFormed. simpl. rewrite arrays_reveal, length_alter.
      assert (Ha : allocated (length (arrays s)) an).
      { destruct Hw as (_ & _ & _ & Hk). eapply Hk. exact Ek. }
      apply refsBelow_set_animation.
      * apply refsBelow_reveal; assumption.
      * intros c p0 an0 i0 rest0 [= <- <- <- <- <-]. exact Ha.
    + apply wellFormed_animatePaths, Hw.
  - destruct Hw as (Hp & Hu & Hc & Hk). unfold draw. simpl.
    case_match; repeat split; simpl; auto; discriminate.
Qed.

Lemma wellFormed_settle s : wellFormed s -> wellFormed (settle s).
Proof.
  intros Hw. unfold settle. destruct (animation s) eqn:Ek; [exact Hw|].
  destruct Hw as (Hp & Hu & Hc & Hk). repeat split; simpl; auto.
Qed.

Lemma wellFormed_generatePattern canvasRef s s' :
  generatePattern canvasRef s = Some s' -> wellFormed s -> wellFormed s'.
Proof.
  unfold generatePattern. destruct canvasRef as [canvas|].
  - destruct (generateZenPattern canvas _) as [[newPaths r]|]; [|discriminate].
    intros [= <-] Hw. apply wellFormed_animatePaths.
    pose proof (refsBelow_pushed _ _ Hw) as Hpu.
    destruct Hw as (Hp & Hu & Hc & Hk). repeat split; simpl; auto.
  - intros [= <-]. auto.
Qed.

Lemma step_wellFormed s ev s' : step s ev = Some s' -> wellFormed s -> wellFormed s'.
Proof.
  destruct ev as [env e]. destruct e; simpl.
  - intros [= <-] Hw. unfold handleMouseDown. case_match;
      auto using wellFormed_pointerDown.
  - intros [= <-] Hw. unfold handleMouseMove. repeat case_match;
      auto using wellFormed_pointerMove.
  - intros [= <-]. apply wellFormed_handleMouseUp.
  - intros [= <-]. apply wellFormed_handleMouseUp.
  - intros [= <-] Hw. unfold handleTouchStart. repeat case_match;
      auto using wellFormed_pointerDown.
  - intros [= <-] Hw. unfold handleTouchMove. repeat case_match;
      auto using wellFormed_pointerMove.
  - intros [= <-]. apply wellFormed_handleMouseUp.
  - intros [= <-] (Hp & Hu & Hc & Hk). repeat split; simpl; auto.
  - intros [= <-] Hw. case_match; [|exact Hw].
    destruct Hw as (Hp & Hu & Hc & Hk). repeat split; simpl; auto.
  - unfold handleGeneratePattern. case_match.
    + intros [= <-]. auto.
    + destruct (generatePattern _ _) as [s1|] eqn:Eg; [|discriminate].
      simpl. intros [= <-] Hw. apply wellFormed_settle.
      eapply wellFormed_generatePattern; [exact Eg|].
      destruct Hw as (Hp & Hu & Hc & Hk). repeat split; simpl; auto.
  - intros [= <-]. apply wellFormed_undo.
  - intros [= <-]. apply wellFormed_clearGarden.
  - destruct (animation s) as [k|] eqn:Ek; intros [= <-] Hw; [|exact Hw].
    apply wellFormed_settle, wellFormed_resume; assumption.
Qed.

Lemma run_wellFormed evs : forall s s',
  run s evs = Some s' -> wellFormed s -> wellFormed s'.
Proof.
  induction evs as [|ev evs IH]; intros s s'; simpl.
  - intros [= <-]. auto.
  - destruct (step s ev) as [s1|] eqn:Es; [|discriminate].
    intros Hr Hw. eapply IH; [exact Hr|]. eapply step_wellFormed; eauto.
Qed.

Lemma wellFormed_initialState r : wellFormed (initialState r).
Proof. repeat split; simpl; auto; discriminate. Qed.

(** Every state the events lead to from the initial one is well formed. *)
Lemma reachable_wellFormed r evs s :
  run (initialState r) evs = Some s -> wellFormed s.
Proof.
  intros Hr. eapply run_wellFormed; [exact Hr | apply wellFormed_initialState].
Qed.

End WellFormed.

Section Runs.
Context {M : MathLib}.

Lemma run_app evs1 evs2 s :
  run s (evs1 ++ evs2) = match run s evs1 with Some s1 => run s1 evs2 | None => None end.
Proof.
  revert s. induction evs1 as [|ev evs1 IH]; intros s; simpl; [reflexivity|].
  destruct (step s ev); [apply IH | reflexivity].
Qed.

Lemma sameBut_scene_refl s : sameBut_scene s s.
Proof. repeat split. Qed.

Lemma sameBut_scene_trans s1 s2 s3 :
  sameBut_scene s1 s2 -> sameBut_scene s2 s3 -> sameBut_scene s1 s3.
Proof.
  intros (A1 & A2 & A3 & A4 & A5 & A6 & A7) (B1 & B2 & B3 & B4 & B5 & B6 & B7).
  repeat split; congruence.
Qed.

Lemma pointerMove_sameBut_scene point s : sameBut_scene s (pointerMove point s).
Proof.
  unfold pointerMove. repeat case_match; repeat split.
Qed.

Lemma handleMouseMove_sameBut_scene canvasRef event s :
  sameBut_scene s (handleMouseMove canvasRef event s).
Proof.
  unfold handleMouseMove.
  repeat case_match; auto using pointerMove_sameBut_scene, sameBut_scene_refl.
Qed.

Lemma handleTouchMove_sameBut_scene canvasRef touches s :
  sameBut_scene s (handleTouchMove canvasRef touches s).
Proof.
  unfold handleTouchMove.
  repeat case_match; auto using pointerMove_sameBut_scene, sameBut_scene_refl.
Qed.

Lemma run_mouseMoves canvas now moves s :
  exists s', run s (map (fun m => on canvas now (MouseMove m)) moves) = Some s'
             /\ sameBut_scene s s'.
Proof.
  revert s. induction moves as [|m moves IH]; intros s; simpl.
  - exists s. split; [reflexivity | apply sameBut_scene_refl].
  - destruct (IH (handleMouseMove (Some canvas) m s)) as (s' & Hr & Hs).
    exists s'. split; [exact Hr|].
    eapply sameBut_scene_trans; [apply handleMouseMove_sameBut_scene | exact Hs].
Qed.

Lemma run_touchMoves canvas now moves s :
  exists s', run s (map (fun m => on canvas now (TouchMove m)) moves) = Some s'
             /\ sameBut_scene s s'.
Proof.
  revert s. induction moves as [|m moves IH]; intros s; simpl.
  - exists s. split; [reflexivity | apply sameBut_scene_refl].
  - destruct (IH (handleTouchMove (Some canvas) m s)) as (s' & Hr & Hs).
    exists s'. split; [exact Hr|].
    eapply sameBut_scene_trans; [apply handleTouchMove_sameBut_scene | exact Hs].
Qed.

(** What the timers of an animation leave alone. *)
Lemma currentPathRef_placeObjects canvas s :
  currentPathRef (placeObjects canvas s) = currentPathRef s.
Proof. unfold placeObjects, draw. simpl. repeat case_match; reflexivity. Qed.

Lemma currentPathRef_animatePaths canvas paths s :
  currentPathRef (animatePaths canvas paths s) = currentPathRef s.
Proof.
  revert s. induction paths as [|path rest IH]; intros s.
  - apply currentPathRef_placeObjects.
  - destruct path as [pid [|p pts] w]; simpl.
    + rewrite IH. reflexivity.
    + reflexivity.
Qed.

Lemma currentPathRef_resume now k s :
  currentPathRef (resume now k s) = currentPathRef s.
Proof.
  destruct k; simpl.
  - case_match; simpl.
    + apply currentPathRef_reveal.
    + apply currentPathRef_animatePaths.
  - unfold draw. simpl. case_match; reflexivity.
Qed.

Lemma currentPathRef_settle s : currentPathRef (settle s) = currentPathRef s.
Proof. unfold settle. case_match; reflexivity. Qed.

Lemma flagDown_settle s : flagDown (settle s).
Proof.
  unfold flagDown, settle. destruct (animation s) eqn:E; simpl; [congruence | reflexivity].
Qed.

Lemma run_timeouts canvas timers s :
  exists s', run s (map (fun t => on canvas t Timeout) timers) = Some s'
             /\ undoStack s' = undoStack s /\ currentPathRef s' = currentPathRef s
             /\ (flagDown s -> flagDown s').
Proof.
  revert s. induction timers as [|t timers IH]; intros s; simpl.
  - exists s. auto.
  - destruct (animation s) as [k|] eqn:Ek.
    + destruct (IH (settle (resume t k s))) as (s' & Hr & Hu & Hc & Hf).
      exists s'. split; [exact Hr|]. split; [|split].
      * rewrite Hu, settle_undoStack, resume_undoStack. reflexivity.
      * rewrite Hc, currentPathRef_settle, currentPathRef_resume. reflexivity.
      * intros _. apply Hf, flagDown_settle.
    + destruct (IH s) as (s' & Hr & Hu & Hc & Hf). exists s'. auto.
Qed.

End Runs.

Section Ops.
Context {M : MathLib}.

Lemma pointerDown_rake now point s :
  tool s = rake ->
  let s' := pointerDown now point s in
  undoStack s' = pushed s /\ isDrawing s' = true
  /\ (exists current, currentPathRef s' = Some current
        /\ RakePath.points current = length (arrays s)
        /\ RakePath.id current = pretty now)
  /\ lastPointRef s' = Some point
  /\ arrays s' = arrays s ++ [[point]]
  /\ rakePaths s' = rakePaths s /\ placedObjects s' = placedObjects s
  /\ animation s' = animation s /\ isGeneratingPattern s' = isGeneratingPattern s
  /\ tool s' = rake.
Proof.
  intros Ht. unfold pointerDown. rewrite Ht. simpl.
  repeat split; try assumption. eexists. repeat split.
Qed.

Lemma pointerDown_place now point s :
  tool s = place ->
  let s' := pointerDown now point s in
  undoStack s' = pushed s /\ isDrawing s' = isDrawing s
  /\ currentPathRef s' = currentPathRef s
  /\ arrays s' = arrays s
  /\ rakePaths s' = rakePaths s
  /\ (exists o, placedObjects s' = placedObjects s ++ [o]
        /\ PlacedObject.type o = selectedObject s
        /\ PlacedObject.x o = Point.x point /\ PlacedObject.y o = Point.y point)
  /\ animation s' = animation s /\ isGeneratingPattern s' = isGeneratingPattern s.
Proof.
  intros Ht. unfold pointerDown. rewrite Ht. simpl.
  repeat split. eexists. repeat split.
Qed.

Lemma handleMouseUp_idle s :
  isDrawing s = true ->
  currentPathRef (handleMouseUp s) = None
  /\ animation (handleMouseUp s) = animation s
  /\ isGeneratingPattern (handleMouseUp s) = isGeneratingPattern s
  /\ undoStack (handleMouseUp s) = undoStack s.
Proof. intros Hd. unfold handleMouseUp. rewrite Hd. repeat split. Qed.

Lemma handleMouseUp_notDrawing s :
  isDrawing s = false -> handleMouseUp s = s.
Proof. intros Hd. unfold handleMouseUp. rewrite Hd. reflexivity. Qed.

Lemma currentPathRef_generatePattern canvasRef s s' :
  generatePattern canvasRef s = Some s' -> currentPathRef s' = currentPathRef s.
Proof.
  unfold generatePattern. destruct canvasRef as [canvas|]; [|intros [= <-]; reflexivity].
  destruct (generateZenPattern canvas _) as [[newPaths r]|]; [|discriminate].
  intros [= <-]. rewrite currentPathRef_animatePaths. reflexivity.
Qed.

(** An action carried through from an idle state leaves an idle state, with
    one snapshot more: that of the state it started from. *)
Lemma doOp_idle s op s' :
  idle s -> doOp s op = Some s' -> idle s' /\ undoStack s' = pushed s.
Proof.
  intros (Hc & Hk & Hg). unfold doOp.
  destruct (run s (opEvents op)) as [s1|] eqn:Hr; [|discriminate].
  destruct (animation s1) eqn:Hk1; [discriminate|]. intros [= <-].
  destruct op as [canvas now down moves|canvas now touch others moves
                 |canvas now kind down|canvas now kind touch others
                 | |canvas timers]; simpl in Hr.
  - (* MouseRake *)
    rewrite run_app in Hr.
    set (s0 := setTool rake s) in *.
    assert (Hk0 : animation s0 = None) by exact Hk.
    assert (Hg0 : isGeneratingPattern s0 = false) by exact Hg.
    assert (Hp0 : pushed s0 = pushed s) by reflexivity.
    pose proof (pointerDown_rake now (getCanvasCoordinates down canvas) s0 eq_refl)
      as (Hu & Hd & _ & _ & _ & _ & _ & Hk2 & Hg2 & _).
    destruct (run_mouseMoves canvas now moves
                (pointerDown now (getCanvasCoordinates down canvas) s0))
      as (s2 & Hr2 & (Su & Sc & Sd & St & Sk & Sg & Sp)).
    simpl in Hr2. rewrite Hr2 in Hr. simpl in Hr. injection Hr as <-.
    destruct (handleMouseUp_idle s2) as (Uc & Uk & Ug & Uu); [congruence|].
    split; [repeat split; congruence|]. rewrite Uu, Su, Hu. exact Hp0.
  - (* TouchRake *)
    rewrite run_app in Hr.
    set (s0 := setTool rake s) in *.
    assert (Hk0 : animation s0 = None) by exact Hk.
    assert (Hg0 : isGeneratingPattern s0 = false) by exact Hg.
    assert (Hp0 : pushed s0 = pushed s) by reflexivity.
    pose proof (pointerDown_rake now (getCanvasCoordinates touch canvas) s0 eq_refl)
      as (Hu & Hd & _ & _ & _ & _ & _ & Hk2 & Hg2 & _).
    destruct (run_touchMoves canvas now moves
                (pointerDown now (getCanvasCoordinates touch canvas) s0))
      as (s2 & Hr2 & (Su & Sc & Sd & St & Sk & Sg & Sp)).
    simpl in Hr2. rewrite Hr2 in Hr. simpl in Hr. injection Hr as <-.
    unfold handleTouchEnd in *.
    destruct (handleMouseUp_idle s2) as (Uc & Uk & Ug & Uu); [congruence|].
    split; [repeat split; congruence|].
    rewrite Uu, Su, Hu. exact Hp0.
  - (* MousePlace *)
    injection Hr as <-.
    set (s0 := setSelectedObject kind (setTool place s)).
    assert (Hc0 : currentPathRef s0 = None) by exact Hc.
    assert (Hk0 : animation s0 = None) by exact Hk.
    assert (Hg0 : isGeneratingPattern s0 = false) by exact Hg.
    pose proof (pointerDown_place now (getCanvasCoordinates down canvas) s0 eq_refl)
      as (Hu & _ & Hc2 & _ & _ & _ & Hk2 & Hg2).
    split; [repeat split; congruence | exact Hu].
  - (* TouchPlace *)
    injection Hr as <-.
    set (s0 := setSelectedObject kind (setTool place s)).
    assert (Hc0 : currentPathRef s0 = None) by exact Hc.
    assert (Hk0 : animation s0 = None) by exact Hk.
    assert (Hg0 : isGeneratingPattern s0 = false) by exact Hg.
    pose proof (pointerDown_place now (getCanvasCoordinates touch canvas) s0 eq_refl)
      as (Hu & Hd & Hc2 & _ & _ & _ & Hk2 & Hg2).
    unfold handleTouchEnd, handleMouseUp.
    destruct (isDrawing (pointerDown _ _ s0)) eqn:Ed.
    + split; [repeat split; simpl; congruence | exact Hu].
    + split; [repeat split; congruence | exact Hu].
  - (* Reset *)
    injection Hr as <-. split; [repeat split; assumption | reflexivity].
  - (* Generate *)
    unfold handleGeneratePattern in Hr. rewrite Hg in Hr.
    destruct (generatePattern (Some canvas) (setIsGeneratingPattern true s))
      as [s2|] eqn:Eg; [|discriminate].
    simpl in Hr.
    destruct (run_timeouts canvas timers (settle s2)) as (s3 & Hr3 & Hu3 & Hc3 & Hf3).
    rewrite Hr3 in Hr. injection Hr as <-.
    split.
    + repeat split.
      * rewrite Hc3, currentPathRef_settle.
        rewrite (currentPathRef_generatePattern _ _ _ Eg). exact Hc.
      * exact Hk1.
      * apply Hf3; [apply flagDown_settle | exact Hk1].
    + rewrite Hu3, settle_undoStack.
      apply (generatePattern_undoStack canvas _ _ Eg).
Qed.

Lemma doOp_run s op s' :
  doOp s op = Some s' -> run s (opEvents op) = Some s'.
Proof.
  unfold doOp. destruct (run s (opEvents op)) as [s1|]; [|discriminate].
  destruct (animation s1); [discriminate|]. congruence.
Qed.

Lemma doOp_keeps s op s' : doOp s op = Some s' -> keeps s s'.
Proof. intros Hd. eapply run_keeps, doOp_run, Hd. Qed.

Lemma doOp_wellFormed s op s' :
  doOp s op = Some s' -> wellFormed s -> wellFormed s'.
Proof. intros Hd. eapply run_wellFormed, doOp_run, Hd. Qed.

Lemma runOps_app ops1 ops2 s :
  runOps s (ops1 ++ ops2)
  = match runOps s ops1 with Some s1 => runOps s1 ops2 | None => None end.
Proof.
  revert s. induction ops1 as [|op ops1 IH]; intros s; simpl; [reflexivity|].
  destruct (doOp s op); [apply IH | reflexivity].
Qed.

Lemma length_pushed s : length (pushed s) = Nat.min 20 (length (undoStack s) + 1).
Proof. unfold pushed. rewrite length_slice_last, length_app. reflexivity. Qed.

Lemma doOp_steady s op s' : steady s -> doOp s op = Some s' -> steady s'.
Proof.
  intros (Hi & Hw & Hl) Hd. destruct (doOp_idle _ _ _ Hi Hd) as [Hi' Hu].
  repeat split; try apply Hi'.
  - eapply doOp_wellFormed; eauto.
  - eapply doOp_wellFormed; eauto.
  - eapply doOp_wellFormed; eauto.
  - eapply doOp_wellFormed; eauto.
  - rewrite Hu, length_pushed. lia.
Qed.

Lemma runOps_steady ops : forall s s',
  steady s -> runOps s ops = Some s' -> steady s'.
Proof.
  induction ops as [|op ops IH]; intros s s' Hs; simpl.
  - intros [= <-]. exact Hs.
  - destruct (doOp s op) as [s1|] eqn:Hd; [|discriminate].
    apply IH. eapply doOp_steady; eauto.
Qed.

Lemma runOps_keeps ops : forall s s', runOps s ops = Some s' -> keeps s s'.
Proof.
  induction ops as [|op ops IH]; intros s s'; simpl.
  - intros [= <-]. apply keeps_refl.
  - destruct (doOp s op) as [s1|] eqn:Hd; [|discriminate].
    intros Hr. eapply keeps_trans; [eapply doOp_keeps; exact Hd | apply IH; exact Hr].
Qed.

Lemma steady_initialState r : steady (initialState r).
Proof.
  split; [repeat split|]. split; [apply wellFormed_initialState | simpl; lia].
Qed.

Lemma length_undoStack_runOps ops : forall s s',
  steady s -> runOps s ops = Some s' ->
  length (undoStack s') = Nat.min 20 (length (undoStack s) + length ops).
Proof.
  induction ops as [|op ops IH]; intros s s' Hs; cbn [runOps length].
  - intros [= <-]. destruct Hs as (_ & _ & Hl). lia.
  - destruct (doOp s op) as [s1|] eqn:Hd; [|discriminate]. intros Hr.
    rewrite (IH s1 s' (doOp_steady _ _ _ Hs Hd) Hr).
    destruct Hs as (Hi & _ & Hl). destruct (doOp_idle _ _ _ Hi Hd) as [_ Hu].
    rewrite Hu, length_pushed. lia.
Qed.

End Ops.

Lemma slice_last_slice_last {A} (m n : nat) (l : list A) :
  (m <= n)%nat -> slice_last m (slice_last n l) = slice_last m l.
Proof.
  intros Hle. unfold slice_last. rewrite length_drop, drop_drop. f_equal. lia.
Qed.

Section Undo.
Context {M : MathLib}.

Lemma undo_empty s : undoStack s = [] -> undo s = s.
Proof. intros E. unfold undo. rewrite E. reflexivity. Qed.

Lemma undo_snoc s l c :
  undoStack s = l ++ [c] ->
  rakePaths (undo s) = CanvasState.rakePaths c
  /\ placedObjects (undo s) = CanvasState.placedObjects c
  /\ undoStack (undo s) = l
  /\ arrays (undo s) = arrays s.
Proof.
  intros E. unfold undo. rewrite E, last_snoc. simpl. rewrite E.
  repeat split. apply slice_init_snoc.
Qed.

Lemma arrays_undo s : arrays (undo s) = arrays s.
Proof. unfold undo. case_match; reflexivity. Qed.

Lemma arrays_iter_undo k s : arrays (Nat.iter k undo s) = arrays s.
Proof. induction k as [|k IH]; simpl; [reflexivity|]. rewrite arrays_undo. exact IH. Qed.

Lemma undone_back k u t t' :
  (k < 20)%nat -> undoStack t' = pushed t -> undone k u t' -> undone (S k) (undo u) t.
Proof.
  intros Hk Hp (_ & _ & Hu). rewrite Hp in Hu. unfold pushed in Hu.
  rewrite slice_last_slice_last in Hu by lia.
  replace (20 - k)%nat with (S (19 - k)) in Hu by lia.
  rewrite slice_last_snoc in Hu.
  destruct (undo_snoc _ _ _ Hu) as (Er & Eo & Eu & _).
  repeat split; [exact Er | exact Eo |].
  rewrite Eu. f_equal; lia.
Qed.

Lemma runOps_snoc_inv ops op s s' :
  runOps s (ops ++ [op]) = Some s' ->
  exists t, runOps s ops = Some t /\ doOp t op = Some s'.
Proof.
  rewrite runOps_app. destruct (runOps s ops) as [t|]; [|discriminate].
  simpl. destruct (doOp t op) as [t'|] eqn:Hd; [|discriminate].
  intros [= <-]. exists t. auto.
Qed.

Lemma take_snoc_last {A} (l : list A) (n : nat) :
  (n < length l)%nat -> exists x, take (S n) l = take n l ++ [x].
Proof.
  intros Hlt. destruct (lookup_lt_is_Some_2 l n Hlt) as [x Hx].
  exists x. apply take_S_r. exact Hx.
Qed.

(** [k] undos after [N] actions lead back to the state reached by the first
    [N - k] of them, as long as [k] is within the capacity of the stack. *)
Lemma undone_iter k : forall ops s0 s,
  steady s0 -> runOps s0 ops = Some s ->
  (k <= length ops)%nat -> (k <= 20)%nat ->
  exists t, runOps s0 (take (length ops - k) ops) = Some t
            /\ undone k (Nat.iter k undo s) t.
Proof.
  induction k as [|k IH]; intros ops s0 s Hs Hr Hk Hc.
  - exists s. rewrite Nat.sub_0_r, firstn_all. split; [exact Hr|].
    repeat split. simpl. symmetry. apply slice_last_all.
    apply (runOps_steady _ _ _ Hs Hr).
  - destruct (IH ops s0 s Hs Hr) as (t' & Hrt' & Hun); [lia | lia |].
    destruct (take_snoc_last ops (length ops - S k)) as [op Hop]; [lia|].
    replace (S (length ops - S k)) with (length ops - k)%nat in Hop by lia.
    rewrite Hop in Hrt'. apply runOps_snoc_inv in Hrt' as (t & Hrt & Hd).
    exists t. split; [exact Hrt|]. simpl.
    eapply undone_back; [lia | | exact Hun].
    apply (doOp_idle t op t'); [|exact Hd].
    apply (runOps_steady _ _ _ Hs Hrt).
Qed.

(** In a steady state every array a path of the scene refers to is frozen. *)
Lemma steady_frozen s p : steady s -> p ∈ rakePaths s -> frozen s (RakePath.points p).
Proof.
  intros ((Hc & Hk & _) & (Hp & _) & _) Hin. split.
  - rewrite Forall_forall in Hp. apply Hp, Hin.
  - unfold live. rewrite Hc, Hk. simpl. apply not_elem_of_nil.
Qed.

Lemma viewPaths_keeps s s' l :
  keeps s s' -> Forall (fun p => frozen s (RakePath.points p)) l ->
  viewPaths (arrays s') l = viewPaths (arrays s) l.
Proof.
  intros Hk Hl. unfold viewPaths. apply map_ext_Forall.
  eapply Forall_impl; [exact Hl|]. intros p Hp. simpl in Hp.
  unfold viewPath, deref. destruct (Hk _ Hp) as [_ ->]. reflexivity.
Qed.

Lemma scene_later s s' u :
  steady s -> keeps s s' ->
  rakePaths u = rakePaths s -> placedObjects u = placedObjects s ->
  arrays u = arrays s' ->
  scene u = scene s.
Proof.
  intros Hs Hk Er Eo Ea. unfold scene. rewrite Er, Eo, Ea. f_equal.
  apply viewPaths_keeps; [exact Hk|]. apply Forall_forall. intros p Hp.
  apply steady_frozen; assumption.
Qed.

Lemma runOps_take_drop ops n s0 s t :
  runOps s0 ops = Some s -> runOps s0 (take n ops) = Some t ->
  runOps t (drop n ops) = Some s.
Proof.
  intros Hr Ht. rewrite <- (take_drop n ops), runOps_app, Ht in Hr. exact Hr.
Qed.

End Undo.

Section Stroke.
Context {M : MathLib}.

Lemma strokePoints_sublist last moves : sublist (strokePoints last moves) moves.
Proof.
  revert last. induction moves as [|m moves IH]; intros last; simpl.
  - constructor.
  - case_match.
    + apply sublist_skip, IH.
    + apply sublist_cons, IH.
Qed.

(** Each point of a stroke is more than 3 away from the one before it. *)
Lemma strokePoints_apart last moves i a b :
  (last :: strokePoints last moves) !! i = Some a ->
  (last :: strokePoints last moves) !! S i = Some b ->
  3 < distance b a.
Proof.
  revert last i. induction moves as [|m moves IH]; intros last i; simpl.
  - destruct i; discriminate.
  - destruct (Qltb 3 (distance m last)) eqn:E.
    + destruct i as [|i]; simpl.
      * intros [= <-] [= <-]. apply Qltb_lt, E.
      * apply (IH m i).
    + apply (IH last i).
Qed.

Lemma putPath_elem current prev : current ∈ putPath current prev.
Proof.
  unfold putPath. destruct (list_find _ prev) as [[index q]|] eqn:E.
  - apply list_find_Some in E as (Hq & _ & _).
    apply list_elem_of_lookup. exists index.
    apply list_lookup_insert_eq. eapply lookup_lt_Some, Hq.
  - apply elem_of_app. right. apply list_elem_of_here.
Qed.

Lemma last_snoc_default {A} (l : list A) (x d : A) : List.last (l ++ [x]) d = x.
Proof. apply List.last_last. Qed.

Lemma pointerMove_raking current p0 stroke point s :
  raking current p0 stroke s ->
  let last := List.last stroke p0 in
  if Qltb 3 (distance point last)
  then raking current p0 (stroke ++ [point]) (pointerMove point s)
  else pointerMove point s = s.
Proof.
  intros (Hd & Ht & Hc & Hl & Ha & Hin). simpl. unfold pointerMove. rewrite Hc, Hl.
  destruct (Qltb 3 (distance point (List.last stroke p0))); [|reflexivity].
  repeat split; simpl; try assumption.
  - rewrite last_snoc_default. reflexivity.
  - rewrite list_lookup_alter_eq, Ha. reflexivity.
  - intros _. apply putPath_elem.
Qed.

Lemma guards_raking current p0 stroke s canvas event :
  raking current p0 stroke s ->
  handleMouseMove (Some canvas) event s = pointerMove (getCanvasCoordinates event canvas) s.
Proof.
  intros (Hd & Ht & Hc & _). unfold handleMouseMove. rewrite Hd, Ht, Hc. simpl.
  reflexivity.
Qed.

Lemma guards_raking_touch current p0 stroke s canvas touch others :
  raking current p0 stroke s ->
  handleTouchMove (Some canvas) (touch :: others) s
  = pointerMove (getCanvasCoordinates touch canvas) s.
Proof.
  intros (Hd & Ht & Hc & _). unfold handleTouchMove. rewrite Hd, Ht, Hc. simpl.
  reflexivity.
Qed.

Lemma raking_moves current p0 canvas now moves : forall stroke s,
  raking current p0 stroke s ->
  exists s',
    run s (map (fun m => on canvas now (MouseMove m)) moves) = Some s'
    /\ raking current p0
         (stroke ++ strokePoints (List.last stroke p0)
                      (map (fun m => getCanvasCoordinates m canvas) moves)) s'.
Proof.
  induction moves as [|m moves IH]; intros stroke s Hr; simpl.
  - exists s. rewrite app_nil_r. auto.
  - rewrite (guards_raking _ _ _ _ _ _ Hr).
    pose proof (pointerMove_raking _ _ _ (getCanvasCoordinates m canvas) _ Hr) as Hm.
    simpl in Hm.
    destruct (Qltb 3 (distance (getCanvasCoordinates m canvas) (List.last stroke p0))).
    + destruct (IH _ _ Hm) as (s' & Hrun & Hr').
      exists s'. split; [exact Hrun|].
      rewrite last_snoc_default in Hr'. rewrite <- app_assoc in Hr'. exact Hr'.
    + rewrite Hm. apply IH, Hr.
Qed.

End Stroke.

Section Gesture.
Context {M : MathLib}.

Lemma raking_touchMoves current p0 canvas now moves : forall stroke s,
  raking current p0 stroke s ->
  exists s',
    run s (map (fun m => on canvas now (TouchMove m)) moves) = Some s'
    /\ raking current p0
         (stroke ++ strokePoints (List.last stroke p0) (touchPoints canvas moves)) s'.
Proof.
  induction moves as [|m moves IH]; intros stroke s Hr; simpl.
  - exists s. rewrite app_nil_r. auto.
  - destruct m as [|touch others].
    + replace (handleTouchMove (Some canvas) [] s) with s.
      * apply IH, Hr.
      * unfold handleTouchMove. repeat case_match; reflexivity.
    + rewrite (guards_raking_touch _ _ _ _ _ _ _ Hr). simpl.
      pose proof (pointerMove_raking _ _ _ (getCanvasCoordinates touch canvas) _ Hr) as Hm.
      simpl in Hm.
      destruct (Qltb 3 (distance (getCanvasCoordinates touch canvas) (List.last stroke p0))).
      * destruct (IH _ _ Hm) as (s' & Hrun & Hr').
        exists s'. split; [exact Hrun|].
        rewrite last_snoc_default in Hr'. rewrite <- app_assoc in Hr'. exact Hr'.
      * rewrite Hm. apply IH, Hr.
Qed.

Lemma pointerDown_raking now point s :
  tool s = rake ->
  exists current,
    raking current point [] (pointerDown now point s)
    /\ RakePath.id current = pretty now
    /\ RakePath.points current = length (arrays s).
Proof.
  intros Ht.
  exists (RakePath.mk (pretty now) (length (arrays s))
            (8 + draws (random s) (cursor (random s)) * 4)).
  unfold pointerDown. rewrite Ht. split; [|split; reflexivity].
  repeat split; simpl; try assumption.
  - apply list_lookup_middle. reflexivity.
  - intros E. contradiction.
Qed.

Lemma raking_handleMouseUp current p0 stroke s :
  raking current p0 stroke s ->
  rakePaths (handleMouseUp s) = rakePaths s
  /\ arrays (handleMouseUp s) = arrays s
  /\ currentPathRef (handleMouseUp s) = None
  /\ isDrawing (handleMouseUp s) = false.
Proof.
  intros (Hd & _). unfold handleMouseUp. rewrite Hd. repeat split.
Qed.

(** A gesture as a whole: from pointer down to pointer up. *)
Lemma gesture_result current p0 stroke s :
  raking current p0 stroke s ->
  let s' := handleMouseUp s in
  (stroke <> [] ->
     RakePath.mk (RakePath.id current) (p0 :: stroke) (RakePath.width current)
       ∈ (scene s').1)
  /\ currentPathRef s' = None.
Proof.
  intros Hr. pose proof (raking_handleMouseUp _ _ _ _ Hr) as (Er & Ea & Ec & _).
  destruct Hr as (_ & _ & _ & _ & Ha & Hin). simpl. split; [|exact Ec].
  intros Hne. unfold scene. simpl. rewrite Er, Ea.
  unfold viewPaths. apply list_elem_of_fmap. exists current. split; [|auto].
  unfold viewPath, deref. rewrite Ha. reflexivity.
Qed.

(** Moves that are all within the threshold of the first point leave the
    state as it is. *)
Lemma raking_still current p0 canvas now moves s :
  raking current p0 [] s ->
  strokePoints p0 (mousePoints canvas moves) = [] ->
  run s (map (fun m => on canvas now (MouseMove m)) moves) = Some s.
Proof.
  intros Hr. induction moves as [|m moves IH]; simpl; [reflexivity|].
  rewrite (guards_raking _ _ _ _ _ _ Hr).
  pose proof (pointerMove_raking _ _ _ (getCanvasCoordinates m canvas) _ Hr) as Hm.
  simpl in Hm.
  destruct (Qltb 3 (distance (getCanvasCoordinates m canvas) p0)); [discriminate|].
  rewrite Hm. exact IH.
Qed.

Lemma raking_still_touch current p0 canvas now moves s :
  raking current p0 [] s ->
  strokePoints p0 (touchPoints canvas moves) = [] ->
  run s (map (fun m => on canvas now (TouchMove m)) moves) = Some s.
Proof.
  intros Hr. induction moves as [|m moves IH]; simpl; [reflexivity|].
  destruct m as [|touch others]; simpl.
  - replace (handleTouchMove (Some canvas) [] s) with s; [exact IH|].
    unfold handleTouchMove. repeat case_match; reflexivity.
  - rewrite (guards_raking_touch _ _ _ _ _ _ _ Hr).
    pose proof (pointerMove_raking _ _ _ (getCanvasCoordinates touch canvas) _ Hr) as Hm.
    simpl in Hm.
    destruct (Qltb 3 (distance (getCanvasCoordinates touch canvas) p0)); [discriminate|].
    rewrite Hm. exact IH.
Qed.

End Gesture.

Lemma unit_draws_same r r' : draws r' = draws r -> unit_draws r -> unit_draws r'.
Proof. unfold unit_draws. intros ->. auto. Qed.

Lemma returns_gret {A} (a : A) (P : A -> Prop) : P a -> returns (gret a) P.
Proof. intros Ha r _. exists a, r. auto. Qed.

Lemma returns_gbind {A B} (m : Gen A) (f : A -> Gen B) (P : A -> Prop) (Q : B -> Prop) :
  returns m P -> (forall a, P a -> returns (f a) Q) -> returns (gbind m f) Q.
Proof.
  intros Hm Hf r Hr. destruct (Hm r Hr) as (a & r1 & E1 & D1 & Pa).
  destruct (Hf a Pa r1 (unit_draws_same _ _ D1 Hr)) as (b & r2 & E2 & D2 & Qb).
  exists b, r2. unfold gbind. rewrite E1. repeat split; [exact E2 | congruence | exact Qb].
Qed.

Lemma returns_weaken {A} (g : Gen A) (P Q : A -> Prop) :
  returns g P -> (forall a, P a -> Q a) -> returns g Q.
Proof.
  intros Hg HPQ r Hr. destruct (Hg r Hr) as (a & r' & E & D & Pa).
  exists a, r'. auto.
Qed.

Lemma returns_forEach {A B} (l : list A) (body : A -> Gen B) (P : B -> Prop) :
  (forall a, a ∈ l -> returns (body a) P) ->
  returns (forEach l body) (fun bs => length bs = length l /\ Forall P bs).
Proof.
  induction l as [|a l IH]; intros Hb; simpl.
  - apply returns_gret. split; [reflexivity | constructor].
  - eapply returns_gbind; [apply Hb, list_elem_of_here|].
    intros b Pb. eapply returns_gbind.
    + apply IH. intros a' Ha'. apply Hb. apply list_elem_of_further, Ha'.
    + intros bs [Hlen Hall]. apply returns_gret. simpl.
      split; [congruence | constructor; assumption].
Qed.

Lemma returns_rand : returns rand (fun u => 0 <= u /\ u < 1).
Proof.
  intros r Hr. exists (draws r (cursor r)), {| draws := draws r; cursor := S (cursor r) |}.
  repeat split; apply Hr.
Qed.

Lemma num_S n : num (S n) == num n + 1.
Proof. unfold num. rewrite Nat2Z.inj_succ, <- Z.add_1_r, inject_Z_plus. reflexivity. Qed.

Lemma num_0 : num 0 == 0.
Proof. reflexivity. Qed.

(** A loop whose variable grows by 1 or more each turn, with fuel for the
    way to the bound: [Inv] holds of the variable at every turn. *)
Lemma returns_forLt {B} (Inv : Q -> Prop) (P : B -> Prop)
    (bound : Q) (incr : Q -> Gen Q) (body : Q -> Gen B) :
  (forall v, Inv v -> v < bound -> returns (body v) P) ->
  (forall v, Inv v -> v < bound -> returns (incr v) (fun v' => Inv v' /\ v + 1 <= v')) ->
  forall fuel v, Inv v -> bound - v <= num fuel ->
    returns (forLt fuel v bound incr body)
      (fun bs => Forall P bs /\ (v < bound -> bs <> [])).
Proof.
  intros Hbody Hincr. induction fuel as [|fuel IH]; intros v Hv Hfuel; simpl.
  - destruct (Qltb v bound) eqn:E.
    + apply Qltb_lt in E. rewrite num_0 in Hfuel. lra.
    + apply Qltb_ge in E. apply returns_gret. split; [constructor | intros Hlt; lra].
  - destruct (Qltb v bound) eqn:E.
    + apply Qltb_lt in E.
      eapply returns_gbind; [apply Hbody; assumption|]. intros b Pb.
      eapply returns_gbind; [apply Hincr; assumption|]. intros v' [Hv' Hstep].
      eapply returns_gbind.
      * apply IH; [exact Hv'|]. rewrite num_S in Hfuel. lra.
      * intros bs [Hall _]. apply returns_gret.
        split; [constructor; assumption | discriminate].
    + apply Qltb_ge in E. apply returns_gret. split; [constructor | intros Hlt; lra].
Qed.

Lemma fuelUpTo_enough bound v : 0 <= v -> bound - v <= num (fuelUpTo bound).
Proof.
  intros Hv. unfold fuelUpTo. rewrite num_S. unfold num.
  pose proof (Qle_ceiling bound) as Hc.
  destruct (Z_le_gt_dec 0 (Qceiling bound)) as [Hpos|Hneg].
  - rewrite Z2Nat.id by exact Hpos. lra.
  - rewrite Z2Nat.nonpos by lia.
    assert (Hle : inject_Z (Qceiling bound) <= inject_Z 0) by (rewrite <- Zle_Qle; lia).
    change (inject_Z 0) with 0 in Hle. change (inject_Z (Z.of_nat 0)) with 0. lra.
Qed.

Lemma length_countTo n : length (countTo n) = Z.to_nat (Qfloor n + 1).
Proof. unfold countTo. apply length_seq. Qed.

Lemma length_countBelow n : length (countBelow n) = Z.to_nat (Qceiling n).
Proof. unfold countBelow. apply length_seq. Qed.

Lemma countTo_two n : 1 <= n -> (2 <= length (countTo n))%nat.
Proof.
  intros Hn. rewrite length_countTo.
  assert (1 <= Qfloor n)%Z by (apply (Qfloor_resp_le 1 n), Hn). lia.
Qed.

Lemma Qfloor_Qmax_24 (z : Z) : Qfloor (Qmax 24 (inject_Z z)) = Z.max 24 z.
Proof.
  destruct (Q.max_spec 24 (inject_Z z)) as [[Hlt E]|[Hle E]];
    rewrite (Qfloor_comp _ _ E).
  - rewrite Qfloor_Z. change 24 with (inject_Z 24) in Hlt.
    rewrite <- Zlt_Qlt in Hlt. lia.
  - change 24 with (inject_Z 24) in Hle. rewrite <- Zle_Qle in Hle.
    change (Qfloor 24) with 24%Z. lia.
Qed.

Section Curves.
Context {M : MathLib}.

Lemma length_generateCirclePattern cx cy radius :
  length (generateCirclePattern cx cy radius) = Z.to_nat (Qfloor (radius * 0.5) + 1).
Proof.
  unfold generateCirclePattern. rewrite length_map, length_countTo, Qfloor_Z. reflexivity.
Qed.

Lemma length_generateEllipsePattern cx cy rx ry :
  length (generateEllipsePattern cx cy rx ry)
  = Z.to_nat
      (Z.max 24
         (Qfloor (Math_PI * (3 * (rx + ry) - Math_sqrt ((3 * rx + ry) * (rx + 3 * ry)))
                  * 0.3)) + 1).
Proof.
  unfold generateEllipsePattern. rewrite length_map, length_countTo, Qfloor_Qmax_24.
  reflexivity.
Qed.

Lemma length_generateSpiralPattern cx cy radius turns :
  length (generateSpiralPattern cx cy radius turns) = Z.to_nat (Qfloor (turns * 50) + 1).
Proof. unfold generateSpiralPattern. rewrite length_map, length_countTo. reflexivity. Qed.

Lemma length_generateWavePattern startX startY endX amplitude frequency :
  length (generateWavePattern startX startY endX amplitude frequency)
  = Z.to_nat (Qfloor ((endX - startX) / 3) + 1).
Proof.
  unfold generateWavePattern. rewrite length_map, length_countTo, Qfloor_Z. reflexivity.
Qed.

Lemma circle_multiPoint cx cy radius :
  2 <= radius -> (2 <= length (generateCirclePattern cx cy radius))%nat.
Proof.
  intros Hr. rewrite length_generateCirclePattern.
  assert (1 <= Qfloor (radius * 0.5))%Z by (apply (Qfloor_resp_le 1); lra). lia.
Qed.

Lemma ellipse_multiPoint cx cy rx ry :
  (25 <= length (generateEllipsePattern cx cy rx ry))%nat.
Proof. rewrite length_generateEllipsePattern. lia. Qed.

End Curves.

Section Patterns.
Context {M : MathLib}.
Variable rect : DOMRect.t.

Let canvas : HTMLCanvasElement := HTMLCanvasElement.mk 800 600 rect.

Lemma nonempty_length {A} (l : list A) : (0 < length l)%nat -> l <> [].
Proof. destruct l; simpl; [lia | discriminate]. Qed.

Lemma concentricCircles_returns : returns (concentricCircles canvas) paintable.
Proof.
  unfold concentricCircles. cbn [HTMLCanvasElement.width HTMLCanvasElement.height canvas].
  eapply returns_weaken.
  - apply (returns_forLt (fun v => 50 <= v) multiPoint).
    + intros v Hv _. eapply returns_gbind; [apply returns_rand|]. intros u _.
      apply returns_gret. apply circle_multiPoint. lra.
    + intros v Hv _. apply returns_gret. lra.
    + lra.
    + apply fuelUpTo_enough. lra.
  - intros bs [Hall Hne]. split; [apply Hne; reflexivity | exact Hall].
Qed.

Lemma spiralGarden_returns : returns (spiralGarden canvas) paintable.
Proof.
  unfold spiralGarden. eapply returns_gbind; [apply returns_rand|]. intros u _.
  apply returns_gret. split; [discriminate|]. apply Forall_singleton.
  unfold multiPoint; cbv zeta; cbn [RakePath.points]. rewrite length_generateSpiralPattern.
  vm_compute. lia.
Qed.

Lemma wavePatterns_returns : returns (wavePatterns canvas) paintable.
Proof.
  unfold wavePatterns. eapply returns_weaken.
  - apply (returns_forEach _ _ multiPoint). intros i _.
    eapply returns_gbind; [apply returns_rand|]. intros u1 _.
    eapply returns_gbind; [apply returns_rand|]. intros u2 _.
    eapply returns_gbind; [apply returns_rand|]. intros u3 _.
    apply returns_gret. unfold multiPoint; cbv zeta; cbn [RakePath.points].
    rewrite length_generateWavePattern. vm_compute. lia.
  - intros bs [Hlen Hall]. split; [|exact Hall].
    apply nonempty_length. rewrite Hlen. simpl. lia.
Qed.

Lemma mandala_returns : returns (mandala canvas) paintable.
Proof.
  unfold mandala. eapply returns_gbind.
  - apply (returns_forEach _ _ multiPoint). intros i _.
    eapply returns_gbind; [apply returns_rand|]. intros u _.
    apply returns_gret. unfold multiPoint; cbv zeta; cbn [RakePath.points].
    rewrite length_map, length_seq. lia.
  - intros paths [_ Hall]. apply returns_gret. split.
    + intros E. apply app_eq_nil in E as [_ E]. discriminate.
    + apply Forall_app. split; [exact Hall|]. apply Forall_singleton.
      apply circle_multiPoint. lra.
Qed.

Lemma rakedLines_returns : returns (rakedLines canvas) paintable.
Proof.
  unfold rakedLines. eapply returns_weaken.
  - apply (returns_forEach _ _ multiPoint). intros i _.
    eapply returns_gbind.
    + apply (returns_forEach _ _ (fun _ => True)). intros j _.
      eapply returns_gbind; [apply returns_rand|]. intros u _.
      apply returns_gret. exact I.
    + intros points [Hlen _].
      eapply returns_gbind; [apply returns_rand|]. intros u _.
      apply returns_gret. unfold multiPoint; cbv zeta; cbn [RakePath.points].
      rewrite Hlen, length_seq. lia.
  - intros bs [Hlen Hall]. split; [|exact Hall].
    apply nonempty_length. rewrite Hlen. simpl. lia.
Qed.

Lemma ellipticalRings_returns : returns (ellipticalRings canvas) paintable.
Proof.
  unfold ellipticalRings. cbn [HTMLCanvasElement.width HTMLCanvasElement.height canvas].
  eapply returns_gbind; [apply returns_rand|]. intros u0 _.
  eapply returns_weaken.
  - apply (returns_forLt (fun v => 40 <= v) multiPoint).
    + intros v Hv _. eapply returns_gbind; [apply returns_rand|]. intros u _.
      apply returns_gret. unfold multiPoint; cbv zeta; cbn [RakePath.points].
      pose proof (ellipse_multiPoint (800 / 2) (600 / 2) v
        (Qmax 24 (v / (Qmin 800 600 / 2 - 60) * ((Qmin 800 600 / 2 - 60) * (0.6 + u0 * 0.3))))).
      lia.
    + intros v Hv _. apply returns_gret. lra.
    + lra.
    + apply fuelUpTo_enough. lra.
  - intros bs [Hall Hne]. split; [apply Hne; reflexivity | exact Hall].
Qed.

Lemma doubleSpiral_returns : returns (doubleSpiral canvas) paintable.
Proof.
  unfold doubleSpiral. eapply returns_gbind; [apply returns_rand|]. intros u1 _.
  eapply returns_gbind; [apply returns_rand|]. intros u2 _.
  apply returns_gret. split; [discriminate|].
  assert (Hlen : (2 <= length (generateSpiralPattern
                     (HTMLCanvasElement.width canvas / 2)
                     (HTMLCanvasElement.height canvas / 2)
                     (Qmin (HTMLCanvasElement.width canvas)
                        (HTMLCanvasElement.height canvas) / 2 - 50) 3.5))%nat).
  { rewrite length_generateSpiralPattern. vm_compute. lia. }
  apply Forall_cons. split; [exact Hlen|]. apply Forall_singleton.
  unfold multiPoint; cbv zeta; cbn [RakePath.points]. rewrite length_map. exact Hlen.
Qed.

Lemma bambooGrove_returns : returns (bambooGrove canvas) paintable.
Proof.
  unfold bambooGrove. eapply returns_gbind; [apply returns_rand|]. intros u0 [Hu0 _].
  eapply returns_weaken.
  - apply (returns_forEach _ _ multiPoint). intros i _.
    eapply returns_gbind; [apply returns_rand|]. intros u1 _.
    eapply returns_gbind; [apply returns_rand|]. intros u2 _.
    eapply returns_gbind; [apply returns_rand|]. intros u3 _.
    apply returns_gret. unfold multiPoint; cbv zeta; cbn [RakePath.points].
    rewrite length_map, length_seq. lia.
  - intros bs [Hlen Hall]. split; [|exact Hall].
    apply nonempty_length. rewrite Hlen, length_countBelow.
    assert (0 <= Qfloor (u0 * 6))%Z by (apply (Qfloor_resp_le 0); lra).
    assert (10 <= Qceiling (10 + inject_Z (Qfloor (u0 * 6))))%Z.
    { apply (Qceiling_resp_le 10). 
      assert (inject_Z 0 <= inject_Z (Qfloor (u0 * 6))) by (rewrite <- Zle_Qle; lia).
      change (inject_Z 0) with 0 in *. lra. }
    lia.
Qed.

Lemma ripples_returns : returns (ripples canvas) paintable.
Proof.
  unfold ripples. cbn [HTMLCanvasElement.width HTMLCanvasElement.height canvas].
  eapply returns_gbind; [apply returns_rand|]. intros u0 [Hu0 _].
  eapply returns_gbind.
  - apply (returns_forEach _ _ paintable). intros c _.
    eapply returns_gbind; [apply returns_rand|]. intros u1 _.
    eapply returns_gbind; [apply returns_rand|]. intros u2 _.
    eapply returns_weaken.
    + apply (returns_forLt (fun v => 40 <= v) multiPoint).
      * intros v Hv _. eapply returns_gbind; [apply returns_rand|]. intros u _.
        apply returns_gret. apply circle_multiPoint. lra.
      * intros v Hv _. eapply returns_gbind; [apply returns_rand|]. intros u [Hu _].
        apply returns_gret. lra.
      * lra.
      * apply fuelUpTo_enough. lra.
    + intros bs [Hall Hne]. split; [apply Hne; reflexivity | exact Hall].
  - intros rings [Hlen Hall]. apply returns_gret.
    assert (Hc : (2 <= length rings)%nat).
    { rewrite Hlen, length_countBelow.
      assert (0 <= Qfloor (u0 * 2))%Z by (apply (Qfloor_resp_le 0); lra).
      assert (2 <= Qceiling (2 + inject_Z (Qfloor (u0 * 2))))%Z.
      { apply (Qceiling_resp_le 2).
        assert (inject_Z 0 <= inject_Z (Qfloor (u0 * 2))) by (rewrite <- Zle_Qle; lia).
        change (inject_Z 0) with 0 in *. lra. }
      lia. }
    destruct rings as [|ring rings]; [simpl in Hc; lia|].
    apply Forall_cons in Hall as [[Hne Hring] Hrings]. split.
    + simpl. intros E. apply app_eq_nil in E as [E _]. contradiction.
    + apply Forall_concat. constructor; [exact Hring|].
      eapply Forall_impl; [exact Hrings|]. intros l [_ Hl]. exact Hl.
Qed.

Lemma length_concat_const {A} (n : nat) (ls : list (list A)) :
  Forall (fun l => length l = n) ls -> length (concat ls) = (length ls * n)%nat.
Proof.
  induction 1 as [|l ls Hl _ IH]; simpl; [reflexivity|].
  rewrite length_app, IH, Hl. reflexivity.
Qed.

Lemma serpentine_returns : returns (serpentine canvas) paintable.
Proof.
  unfold serpentine. eapply returns_gbind.
  - apply (returns_forEach _ _ (fun seg => length seg = 81%nat)). intros row _.
    eapply returns_weaken.
    + apply (returns_forEach _ _ (fun _ => True)). intros i _.
      eapply returns_gbind; [apply returns_rand|]. intros u _.
      apply returns_gret. exact I.
    + intros seg [Hlen _]. rewrite Hlen. reflexivity.
  - intros segments [Hlen Hall].
    eapply returns_gbind; [apply returns_rand|]. intros u _.
    apply returns_gret. split; [discriminate|]. apply Forall_singleton.
    unfold multiPoint; cbv zeta; cbn [RakePath.points].
    rewrite (length_concat_const 81 _ Hall), Hlen. simpl. lia.
Qed.

(** Every layout of the array is paintable, and so is the one selected. *)
Lemma patterns_return g : g ∈ patterns canvas -> returns g paintable.
Proof.
  unfold patterns. intros Hg.
  repeat (apply elem_of_cons in Hg as [->|Hg];
          [auto using concentricCircles_returns, spiralGarden_returns,
             wavePatterns_returns, mandala_returns, rakedLines_returns,
             ellipticalRings_returns, doubleSpiral_returns, bambooGrove_returns,
             ripples_returns, serpentine_returns|]).
  inversion Hg.
Qed.

Lemma generateZenPattern_returns : returns (generateZenPattern canvas) paintable.
Proof.
  unfold generateZenPattern. eapply returns_gbind; [apply returns_rand|].
  intros u [Hu0 Hu1]. unfold callPattern.
  assert (H0 : (0 <= Qfloor (u * num (length (patterns canvas))))%Z).
  { apply (Qfloor_resp_le 0). change (num (length (patterns canvas))) with 10. lra. }
  assert (H1 : (Qfloor (u * num (length (patterns canvas))) < 10)%Z).
  { apply Z.lt_nge. intros Hge. 
    pose proof (Qfloor_le (u * num (length (patterns canvas)))) as Hf.
    assert (inject_Z 10 <= inject_Z (Qfloor (u * num (length (patterns canvas)))))
      by (rewrite <- Zle_Qle; exact Hge).
    change (num (length (patterns canvas))) with 10 in *.
    change (inject_Z 10) with 10 in *. lra. }
  generalize dependent (Qfloor (u * num (length (patterns canvas)))). intros index H0 H1.
  destruct (Z.ltb_spec index 0) as [Hlt|_]; [lia|].
  destruct (patterns canvas !! Z.to_nat index) as [g|] eqn:Eg.
  - apply patterns_return. eapply list_elem_of_lookup_2, Eg.
  - apply lookup_ge_None in Eg. change (length (patterns canvas)) with 10%nat in Eg. lia.
Qed.

End Patterns.

Section Animation.
Context {M : MathLib}.

Lemma rakePaths_placeObjects canvas s :
  rakePaths (placeObjects canvas s) = rakePaths s.
Proof. unfold placeObjects, draw. simpl. repeat case_match; reflexivity. Qed.

Lemma arrays_placeObjects canvas s : arrays (placeObjects canvas s) = arrays s.
Proof. unfold placeObjects, draw. simpl. repeat case_match; reflexivity. Qed.

Lemma animation_placeObjects canvas s :
  animation (placeObjects canvas s) = None
  \/ exists objectCount, animation (placeObjects canvas s)
                         = Some (AwaitObject canvas 0 objectCount).
Proof. unfold placeObjects, draw. simpl. repeat case_match; simpl; eauto. Qed.

Lemma placeObjects_revealing canvas s :
  (exists p, p ∈ (scene s).1 /\ multiPoint p) -> revealing (placeObjects canvas s).
Proof.
  intros Hp. unfold revealing.
  assert (Hs : scene (placeObjects canvas s) = (fst (scene s), placedObjects (placeObjects canvas s))).
  { unfold scene. rewrite rakePaths_placeObjects, arrays_placeObjects. reflexivity. }
  destruct (animation_placeObjects canvas s) as [->|[n ->]]; rewrite Hs; exact Hp.
Qed.

Lemma lookup_alter_fresh {A} (f : A -> A) (l : list A) (v : A) :
  alter f (length l) (l ++ [v]) !! length l = Some (f v).
Proof.
  rewrite list_lookup_alter_eq, list_lookup_middle by reflexivity. reflexivity.
Qed.

Lemma animatePaths_revealing canvas path rest s :
  Forall multiPoint (path :: rest) -> revealing (animatePaths canvas (path :: rest) s).
Proof.
  intros Hall. pose proof (Forall_inv Hall) as Hp. unfold multiPoint in Hp.
  destruct path as [pid [|p pts] w]; simpl in Hp; [lia|].
  unfold revealing. simpl. rewrite ?rakePaths_reveal, ?arrays_reveal. simpl.
  split; [apply last_snoc|]. split; [|exact Hall].
  rewrite lookup_alter_fresh. reflexivity.
Qed.

Lemma revealed_in_scene s an pts :
  last (rakePaths s) = Some an -> arrays s !! RakePath.points an = Some pts ->
  RakePath.mk (RakePath.id an) pts (RakePath.width an) ∈ (scene s).1.
Proof.
  intros Hl Ha. apply last_Some in Hl as [l' Hl]. unfold scene, viewPaths. simpl.
  apply list_elem_of_fmap. exists an. split.
  - unfold viewPath, deref. rewrite Ha. reflexivity.
  - rewrite Hl. apply elem_of_app. right. apply list_elem_of_here.
Qed.

Lemma resume_object now canvas i objectCount s :
  let s' := resume now (AwaitObject canvas i objectCount) s in
  rakePaths s' = rakePaths s /\ arrays s' = arrays s
  /\ (animation s' = None
      \/ animation s' = Some (AwaitObject canvas (S i) objectCount)
         /\ num (S i) < objectCount).
Proof.
  simpl. unfold draw. simpl.
  destruct (Qltb (num (S i)) objectCount) eqn:E; simpl; repeat split; auto.
  right. split; [reflexivity | apply Qltb_lt, E].
Qed.

Lemma resume_revealing now k s :
  animation s = Some k -> revealing s -> revealing (resume now k s).
Proof.
  intros Ek Hr. unfold revealing in Hr. rewrite Ek in Hr.
  destruct k as [canvas path an i rest|canvas i objectCount].
  - simpl. destruct Hr as (Hl & Ha & Hall).
    destruct (RakePath.points path !! S i) as [p|] eqn:Ep.
    + unfold revealing. simpl. rewrite rakePaths_reveal, arrays_reveal.
      split; [apply last_snoc|]. split; [|exact Hall].
      rewrite list_lookup_alter_eq, Ha. simpl. f_equal. symmetry.
      apply take_S_r, Ep.
    + apply lookup_ge_None in Ep. rewrite take_ge in Ha by exact Ep.
      destruct rest as [|path' rest'].
      * apply placeObjects_revealing.
        exists (RakePath.mk (RakePath.id an) (RakePath.points path) (RakePath.width an)).
        split; [apply revealed_in_scene; assumption|].
        apply (Forall_inv Hall).
      * apply animatePaths_revealing. apply (Forall_inv_tail Hall).
  - destruct Hr as (p & Hp & Hm).
    destruct (resume_object now canvas i objectCount s) as (Er & Ea & Ek').
    unfold revealing.
    assert (Hin : p ∈ (scene (resume now (AwaitObject canvas i objectCount) s)).1).
    { unfold scene. rewrite Er, Ea. exact Hp. }
    destruct Ek' as [->|[-> _]]; eauto.
Qed.

Lemma settle_revealing s : revealing s -> revealing (settle s).
Proof.
  unfold settle, revealing. destruct (animation s) eqn:Ek; [rewrite Ek; auto|].
  simpl. rewrite Ek. auto.
Qed.

Lemma timeouts_revealing canvas timers : forall s s',
  run s (map (fun t => on canvas t Timeout) timers) = Some s' ->
  revealing s -> revealing s'.
Proof.
  induction timers as [|t timers IH]; intros s s'; simpl.
  - intros [= <-]. auto.
  - destruct (animation s) as [k|] eqn:Ek.
    + intros Hr Hv. eapply IH; [exact Hr|].
      apply settle_revealing, resume_revealing; assumption.
    + apply IH.
Qed.

Lemma generatePattern_revealing canvas s s' :
  returns (generateZenPattern canvas) paintable -> unit_draws (random s) ->
  generatePattern (Some canvas) s = Some s' -> revealing s'.
Proof.
  intros Hret Hu. unfold generatePattern.
  destruct (Hret _ Hu) as (paths & r' & E & _ & Hne & Hall). simpl. rewrite E.
  intros [= <-]. destruct paths as [|path rest]; [contradiction|].
  apply animatePaths_revealing, Hall.
Qed.

Lemma generatePattern_returns canvas s :
  returns (generateZenPattern canvas) paintable -> unit_draws (random s) ->
  exists s', generatePattern (Some canvas) s = Some s'.
Proof.
  intros Hret Hu. unfold generatePattern.
  destruct (Hret _ Hu) as (paths & r' & E & _). simpl. rewrite E. eauto.
Qed.

End Animation.

Section Termination.
Context {M : MathLib}.

Lemma animation_settle s : animation (settle s) = animation s.
Proof. unfold settle. destruct (animation s) eqn:E; [exact E | exact E]. Qed.

Lemma step_timeout env k s :
  animation s = Some k -> step s (env, Timeout) = Some (settle (resume (now env) k s)).
Proof. intros E. simpl. rewrite E. reflexivity. Qed.

Lemma objects_finish canvas m : forall s c i objectCount,
  animation s = Some (AwaitObject c i objectCount) ->
  (Z.to_nat (Qceiling objectCount) - S i <= m)%nat ->
  exists timers s',
    run s (map (fun t => on canvas t Timeout) timers) = Some s' /\ animation s' = None.
Proof.
  induction m as [|m IH]; intros s c i objectCount Ek Hm.
  - exists [0%Z]. eexists. simpl. rewrite Ek. split; [reflexivity|].
    rewrite animation_settle.
    destruct (resume_object 0 c i objectCount s) as (_ & _ & [E|[_ Hlt]]); [exact E|].
    exfalso. pose proof (Qle_ceiling objectCount) as Hc.
    assert (Hz : (Z.of_nat (S i) < Qceiling objectCount)%Z).
    { rewrite Zlt_Qlt. unfold num in Hlt. lra. }
    lia.
  - destruct (resume_object 0 c i objectCount s) as (_ & _ & [E|[E Hlt]]).
    + exists [0%Z]. eexists. simpl. rewrite Ek. split; [reflexivity|].
      rewrite animation_settle. exact E.
    + destruct (IH (settle (resume 0 (AwaitObject c i objectCount) s)) c (S i) objectCount)
        as (timers & s' & Hr & Hn).
      * rewrite animation_settle. exact E.
      * lia.
      * exists (0%Z :: timers), s'. split; [|exact Hn].
        simpl. rewrite Ek. exact Hr.
Qed.

Lemma animation_animatePaths canvas paths : forall s,
  animation (animatePaths canvas paths s) = None
  \/ (exists objectCount,
        animation (animatePaths canvas paths s) = Some (AwaitObject canvas 0 objectCount))
  \/ (exists path an rest,
        animation (animatePaths canvas paths s) = Some (AwaitPoint canvas path an 0 rest)
        /\ (length (RakePath.points path) - 1 + pointsLeft rest < pointsLeft paths)%nat).
Proof.
  induction paths as [|path rest IH]; intros s.
  - destruct (animation_placeObjects canvas s) as [E|E]; simpl; auto.
  - destruct path as [pid [|p pts] w]; simpl.
    + destruct (IH (set_arrays (arrays s ++ [[]]) s)) as [E|[E|(path' & an & rest' & E & Hlt)]];
        eauto 10.
    + right. right. eexists _, _, rest. split; [reflexivity|].
      unfold pointsLeft. simpl. lia.
Qed.

Lemma points_finish canvas m : forall s c path an i rest,
  animation s = Some (AwaitPoint c path an i rest) ->
  (length (RakePath.points path) - S i + pointsLeft rest <= m)%nat ->
  exists timers s',
    run s (map (fun t => on canvas t Timeout) timers) = Some s'
    /\ (animation s' = None
        \/ exists c' i' objectCount, animation s' = Some (AwaitObject c' i' objectCount)).
Proof.
  induction m as [m IH] using lt_wf_ind. intros s c path an i rest Ek Hm.
  set (s1 := settle (resume 0 (AwaitPoint c path an i rest) s)).
  assert (Hstep : forall timers s',
            run s1 (map (fun t => on canvas t Timeout) timers) = Some s' ->
            run s (map (fun t => on canvas t Timeout) (0%Z :: timers)) = Some s').
  { intros timers s' Hr. simpl. rewrite Ek. exact Hr. }
  assert (Ek1 : animation s1 = animation (resume 0 (AwaitPoint c path an i rest) s))
    by apply animation_settle.
  simpl in Ek1.
  destruct (RakePath.points path !! S i) as [p|] eqn:Ep.
  - simpl in Ek1. apply lookup_lt_Some in Ep.
    destruct (IH (m - 1)%nat ltac:(lia) s1 c path an (S i) rest Ek1 ltac:(lia))
      as (timers & s' & Hr & Hd).
    exists (0%Z :: timers), s'. split; [apply Hstep, Hr | exact Hd].
  - destruct (animation_animatePaths c rest s)
      as [E|[[n E]|(path' & an' & rest' & E & Hlt)]]; rewrite E in Ek1.
    + exists [0%Z], s1. split; [apply (Hstep []); reflexivity | left; exact Ek1].
    + exists [0%Z], s1. split; [apply (Hstep []); reflexivity | right; eauto].
    + destruct (IH (m - 1)%nat ltac:(lia) s1 c path' an' 0%nat rest' Ek1 ltac:(lia))
        as (timers & s' & Hr & Hd).
      exists (0%Z :: timers), s'. split; [apply Hstep, Hr | exact Hd].
Qed.

(** Every animation comes to its end after enough timers. *)
Lemma animation_finishes canvas s :
  exists timers s',
    run s (map (fun t => on canvas t Timeout) timers) = Some s' /\ animation s' = None.
Proof.
  destruct (animation s) as [[c path an i rest|c i objectCount]|] eqn:Ek.
  - destruct (points_finish canvas _ s c path an i rest Ek (Nat.le_refl _))
      as (timers1 & s1 & Hr1 & [Hd|(c' & i' & n & Hd)]).
    + exists timers1, s1. auto.
    + destruct (objects_finish canvas _ s1 c' i' n Hd (Nat.le_refl _))
        as (timers2 & s2 & Hr2 & Hd2).
      exists (timers1 ++ timers2), s2. split; [|exact Hd2].
      rewrite map_app, run_app, Hr1. exact Hr2.
  - apply (objects_finish canvas _ s c i objectCount Ek (Nat.le_refl _)).
  - exists [], s. auto.
Qed.

End Termination.

Section Snapshots.
Context {M : MathLib}.

Lemma untouched_refl s : untouched s s.
Proof. intros a _. reflexivity. Qed.

Lemma untouched_alloc s v : untouched s (set_arrays (arrays s ++ [v]) s).
Proof. intros a Ha. simpl. apply lookup_app_l, Ha. Qed.

Lemma untouched_placeObjects canvas s : untouched s (placeObjects canvas s).
Proof. intros a _. rewrite arrays_placeObjects. reflexivity. Qed.

Lemma untouched_animatePaths canvas paths : forall s,
  untouched s (animatePaths canvas paths s).
Proof.
  induction paths as [|path rest IH]; intros s.
  - apply untouched_placeObjects.
  - destruct path as [pid [|p pts] w]; simpl.
    + intros a Ha. rewrite IH by (simpl; rewrite length_app; simpl; lia).
      simpl. apply lookup_app_l, Ha.
    + intros a Ha. simpl. rewrite ?arrays_reveal. simpl.
      rewrite list_lookup_alter_ne by lia. apply lookup_app_l, Ha.
Qed.

Lemma viewPaths_untouched s s' l :
  untouched s s' -> Forall (allocated (length (arrays s))) l ->
  viewPaths (arrays s') l = viewPaths (arrays s) l.
Proof.
  intros Hu Hl. unfold viewPaths. apply map_ext_Forall.
  eapply Forall_impl; [exact Hl|]. intros p Hp. simpl.
  unfold viewPath, deref. rewrite (Hu _ Hp). reflexivity.
Qed.

Lemma snapshotTaken_intro s s' :
  wellFormed s -> undoStack s' = pushed s -> untouched s s' -> snapshotTaken s s'.
Proof.
  intros Hw Hu Ht. unfold pushed in Hu.
  assert (Hv : viewPaths (arrays s') (rakePaths s) = viewPaths (arrays s) (rakePaths s)).
  { apply viewPaths_untouched; [exact Ht | apply Hw]. }
  repeat split.
  - exact Hu.
  - rewrite Hu. apply last_slice_last_snoc.
  - rewrite Hu, length_slice_last, length_app.
    change (length [snapshot s]) with 1%nat. lia.
  - unfold viewSnapshot, scene. simpl. rewrite Hv. reflexivity.
  - rewrite slice_last_snoc in Hu.
    destruct (undo_snoc _ _ _ Hu) as (Er & Eo & _ & Ea).
    unfold scene. rewrite Er, Eo, Ea. simpl. rewrite Hv. reflexivity.
Qed.

Lemma untouched_pointerDown now point s : untouched s (pointerDown now point s).
Proof.
  unfold pointerDown. destruct (tool s); simpl.
  - intros a Ha. simpl. apply lookup_app_l, Ha.
  - intros a _. reflexivity.
Qed.

Lemma untouched_generatePattern canvasRef s s' :
  generatePattern canvasRef s = Some s' -> untouched s s'.
Proof.
  unfold generatePattern. destruct canvasRef as [canvas|]; [|intros [= <-]; apply untouched_refl].
  destruct (generateZenPattern canvas _) as [[newPaths r]|]; [|discriminate].
  intros [= <-]. intros a Ha. rewrite untouched_animatePaths by exact Ha. reflexivity.
Qed.

End Snapshots.

Section History.
Context {M : MathLib}.

(** What one event does to the undo stack: nothing, a push, or a pop. *)
Lemma step_undoStack s ev s' :
  step s ev = Some s' ->
  undoStack s' = undoStack s \/ undoStack s' = pushed s
  \/ undoStack s' = slice_init (undoStack s).
Proof.
  destruct ev as [env e]. destruct e; simpl.
  - intros [= <-]. unfold handleMouseDown. case_match; [|auto].
    right. left. apply pointerDown_undoStack.
  - intros [= <-]. left. apply handleMouseMove_undoStack.
  - intros [= <-]. left. apply handleMouseUp_undoStack.
  - intros [= <-]. left. apply handleMouseUp_undoStack.
  - intros [= <-]. unfold handleTouchStart. repeat case_match; auto.
    right. left. apply pointerDown_undoStack.
  - intros [= <-]. left. apply handleTouchMove_undoStack.
  - intros [= <-]. left. apply handleMouseUp_undoStack.
  - intros [= <-]. auto.
  - intros [= <-]. case_match; auto.
  - unfold handleGeneratePattern. case_match; [intros [= <-]; auto|].
    destruct (generatePattern _ _) as [s1|] eqn:Eg; [|discriminate].
    simpl. intros [= <-]. rewrite settle_undoStack.
    destruct (canvasRef env) as [canvas|].
    + right. left. apply (generatePattern_undoStack canvas _ _ Eg).
    + injection Eg as <-. auto.
  - intros [= <-]. unfold undo. destruct (last (undoStack s)); simpl; auto.
  - intros [= <-]. right. left. reflexivity.
  - destruct (animation s) as [k|]; intros [= <-]; [|auto].
    left. rewrite settle_undoStack. apply resume_undoStack.
Qed.

Lemma run_undoStack_bound evs : forall s s',
  run s evs = Some s' -> (length (undoStack s) <= 20)%nat ->
  (length (undoStack s') <= 20)%nat.
Proof.
  induction evs as [|ev evs IH]; intros s s'; cbn [run].
  - intros [= <-]. auto.
  - destruct (step s ev) as [s1|] eqn:Es; [|discriminate]. intros Hr Hl.
    apply (IH s1 s' Hr).
    destruct (step_undoStack _ _ _ Es) as [E|[E|E]]; rewrite E.
    + exact Hl.
    + rewrite length_pushed. lia.
    + unfold slice_init. rewrite length_take. lia.
Qed.

(** C2. The undo stack never holds more than 20 snapshots, whatever the
    events; a push on a full stack drops the oldest; undo pops the newest,
    which is then gone; and after 25 actions undo succeeds 20 times, the
    21st being a no-op. *)
Theorem undoStack_at_most_20 :
  (forall r evs s, run (initialState r) evs = Some s -> (length (undoStack s) <= 20)%nat)
  /\ (forall s oldest rest rakePaths0 placedObjects0,
        undoStack s = oldest :: rest -> length (undoStack s) = 20%nat ->
        undoStack (saveState rakePaths0 placedObjects0 s)
        = rest ++ [CanvasState.mk rakePaths0 placedObjects0])
  /\ (forall s older newest,
        undoStack s = older ++ [newest] ->
        undoStack (undo s) = older
        /\ rakePaths (undo s) = CanvasState.rakePaths newest
        /\ placedObjects (undo s) = CanvasState.placedObjects newest)
  /\ (forall r ops s,
        runOps (initialState r) ops = Some s -> length ops = 25%nat ->
        (forall k, (k <= 20)%nat ->
           length (undoStack (Nat.iter k undo s)) = (20 - k)%nat)
        /\ undo (Nat.iter 20 undo s) = Nat.iter 20 undo s).
Proof.
  split; [|split; [|split]].
  - intros r evs s Hr. apply (run_undoStack_bound evs _ _ Hr). simpl. lia.
  - intros s oldest rest rp po E Hl. simpl. rewrite E in *.
    apply slice_last_full_snoc. exact Hl.
  - intros s older newest E. destruct (undo_snoc _ _ _ E) as (Er & Eo & Eu & _). auto.
  - intros r ops s Hr Hlen.
    assert (Hk : forall k, (k <= 20)%nat ->
              length (undoStack (Nat.iter k undo s)) = (20 - k)%nat).
    { intros k Hk.
      destruct (undone_iter k ops _ s (steady_initialState r) Hr) as (t & Ht & _ & _ & Eu);
        [lia | lia |].
      rewrite Eu, length_slice_last.
      rewrite (length_undoStack_runOps _ _ _ (steady_initialState r) Ht).
      rewrite length_take.
      change (length (undoStack (initialState r))) with 0%nat. lia. }
    split; [exact Hk|]. apply undo_empty.
    apply nil_length_inv. rewrite Hk by lia. reflexivity.
Qed.

(** C1. After [N] actions from the empty scene, [k] undos, [k]
    within [N] and within the 20 snapshots the stack holds, restore the scene
    as it was before the last [k] actions; so one undo restores the scene
    before the most recent action, and [N <= 20] undos restore the empty
    scene and leave an empty stack, on which one more undo changes nothing. *)
Theorem undo_after_actions r ops s :
  runOps (initialState r) ops = Some s ->
  (forall k, (k <= length ops)%nat -> (k <= 20)%nat ->
     exists t, runOps (initialState r) (take (length ops - k) ops) = Some t
               /\ scene (Nat.iter k undo s) = scene t)
  /\ (forall op s', doOp s op = Some s' -> scene (undo s') = scene s)
  /\ ((length ops <= 20)%nat ->
        scene (Nat.iter (length ops) undo s) = ([], [])
        /\ undoStack (Nat.iter (length ops) undo s) = []
        /\ undo (Nat.iter (length ops) undo s) = Nat.iter (length ops) undo s).
Proof.
  intros Hr.
  assert (Hback : forall k, (k <= length ops)%nat -> (k <= 20)%nat ->
    exists t, runOps (initialState r) (take (length ops - k) ops) = Some t
              /\ scene (Nat.iter k undo s) = scene t
              /\ undoStack (Nat.iter k undo s) = slice_last (20 - k) (undoStack t)).
  { intros k Hk Hc.
    destruct (undone_iter k ops _ s (steady_initialState r) Hr Hk Hc)
      as (t & Ht & Er & Eo & Eu).
    exists t. split; [exact Ht|]. split; [|exact Eu].
    apply (scene_later t s).
    - apply (runOps_steady _ _ _ (steady_initialState r) Ht).
    - eapply runOps_keeps, runOps_take_drop; eauto.
    - exact Er.
    - exact Eo.
    - apply arrays_iter_undo. }
  split; [|split].
  - intros k Hk Hc. destruct (Hback k Hk Hc) as (t & Ht & Es & _). eauto.
  - intros op s' Hd.
    pose proof (runOps_steady _ _ _ (steady_initialState r) Hr) as Hs.
    destruct (doOp_idle _ _ _ (proj1 Hs) Hd) as [_ Hu].
    unfold pushed in Hu. rewrite slice_last_snoc in Hu.
    destruct (undo_snoc _ _ _ Hu) as (Er & Eo & _ & Ea).
    apply (scene_later s s'); auto. eapply doOp_keeps, Hd.
  - intros Hn. destruct (Hback (length ops) (Nat.le_refl _) Hn) as (t & Ht & Es & Eu).
    rewrite Nat.sub_diag in Ht. simpl in Ht. injection Ht as <-.
    assert (Ee : undoStack (Nat.iter (length ops) undo s) = []).
    { rewrite Eu. simpl. apply drop_nil. }
    split; [exact Es|]. split; [exact Ee | apply undo_empty, Ee].
Qed.

End History.

Lemma undo_after_actions_witness :
  exists s,
    runOps (M := sampleMath) (initialState halves)
      [placeStone; MouseRake canvas800 5 (at_ 10 10) [at_ 20 10; at_ 30 10]; Reset]
    = Some s
    /\ scene (Nat.iter 3 (undo) s) = ([], [])
    /\ undoStack (Nat.iter 3 undo s) = []
    /\ undo (Nat.iter 3 undo s) = Nat.iter 3 undo s.
Proof.
  eexists. split; [vm_compute; reflexivity|].
  refine (proj2 (proj2 (undo_after_actions (M := sampleMath) halves
            [placeStone; MouseRake canvas800 5 (at_ 10 10) [at_ 20 10; at_ 30 10]; Reset]
            _ _)) _).
  - vm_compute. reflexivity.
  - simpl. lia.
Defined.

Lemma undo_21_counterexample :
  exists s,
    runOps (M := sampleMath) (initialState halves) (replicate 21 placeStone) = Some s
    /\ length (scene (Nat.iter 21 undo s)).2 = 1%nat
    /\ undoStack (Nat.iter 21 undo s) = [].
Proof.
  eexists. split; [vm_compute; reflexivity|]. split; vm_compute; reflexivity.
Qed.

Lemma undoStack_at_most_20_witness :
  exists s,
    runOps (M := sampleMath) (initialState halves) (replicate 25 placeStone) = Some s
    /\ length (undoStack (Nat.iter 20 undo s)) = 0%nat
    /\ undo (Nat.iter 20 undo s) = Nat.iter 20 undo s.
Proof.
  eexists. split; [vm_compute; reflexivity|].
  destruct (proj2 (proj2 (proj2 (undoStack_at_most_20 (M := sampleMath))))
              halves (replicate 25 placeStone) _ ltac:(vm_compute; reflexivity) eq_refl)
    as [Hk Hn].
  split; [exact (Hk 20%nat (Nat.le_refl 20)) | exact Hn].
Defined.

Section WholeGestures.
Context {M : MathLib}.

Lemma stroke_still p0 moves :
  Forall (fun point => distance point p0 <= 3) moves <-> strokePoints p0 moves = [].
Proof.
  induction moves as [|m moves IH]; simpl.
  - split; [reflexivity | constructor].
  - destruct (Qltb 3 (distance m p0)) eqn:E.
    + apply Qltb_lt in E. split; [|discriminate].
      intros Hall. apply Forall_inv in Hall. lra.
    + apply Qltb_ge in E. rewrite <- IH. split.
      * intros Hall. apply (Forall_inv_tail Hall).
      * intros Hall. constructor; assumption.
Qed.

Lemma mouse_gesture canvas now down moves s :
  exists s',
    run s (opEvents (MouseRake canvas now down moves)) = Some s'
    /\ gestureDone now (getCanvasCoordinates down canvas) (mousePoints canvas moves) s s'.
Proof.
  set (p0 := getCanvasCoordinates down canvas).
  destruct (pointerDown_raking now p0 (setTool rake s) eq_refl) as (current & Hr & Hid & Href).
  destruct (raking_moves current p0 canvas now moves [] _ Hr) as (s2 & Hrun & Hr2).
  simpl in Hr2. fold (mousePoints canvas moves) in Hr2.
  exists (handleMouseUp s2). split.
  - cbn [opEvents]. change (run s (on canvas now (ClickTool rake)
        :: on canvas now (MouseDown down)
        :: map (fun m => on canvas now (MouseMove m)) moves ++ [on canvas now MouseUp]))
      with (run (pointerDown now p0 (setTool rake s))
              (map (fun m => on canvas now (MouseMove m)) moves ++ [on canvas now MouseUp])).
    rewrite run_app, Hrun. reflexivity.
  - destruct (gesture_result _ _ _ _ Hr2) as [Hin Hc].
    destruct (handleMouseUp_idle s2 (proj1 Hr2)) as (_ & _ & _ & Hu).
    destruct (run_mouseMoves canvas now moves (pointerDown now p0 (setTool rake s)))
      as (s2' & Hrun' & Hsame).
    rewrite Hrun in Hrun'. injection Hrun' as <-.
    split; [apply sublist_skip, strokePoints_sublist|].
    split; [intros i a b; apply strokePoints_apart|].
    split; [|split; [|split]].
    + intros Hne. exists (RakePath.width current). rewrite <- Hid. apply Hin, Hne.
    + intros Hnil. rewrite (raking_still current p0 canvas now moves _ Hr Hnil) in Hrun.
      injection Hrun as <-. unfold handleMouseUp. case_match; simpl;
        unfold pointerDown; reflexivity.
    + exact Hc.
    + rewrite Hu. destruct Hsame as (-> & _).
      exact (pointerDown_undoStack now p0 (setTool rake s)).
Qed.

Lemma touch_gesture canvas now touch others moves s :
  exists s',
    run s (opEvents (TouchRake canvas now touch others moves)) = Some s'
    /\ gestureDone now (getCanvasCoordinates touch canvas) (touchPoints canvas moves) s s'.
Proof.
  set (p0 := getCanvasCoordinates touch canvas).
  destruct (pointerDown_raking now p0 (setTool rake s) eq_refl) as (current & Hr & Hid & Href).
  destruct (raking_touchMoves current p0 canvas now moves [] _ Hr) as (s2 & Hrun & Hr2).
  simpl in Hr2.
  exists (handleMouseUp s2). split.
  - cbn [opEvents]. change (run s (on canvas now (ClickTool rake)
        :: on canvas now (TouchStart (touch :: others))
        :: map (fun m => on canvas now (TouchMove m)) moves ++ [on canvas now TouchEnd]))
      with (run (pointerDown now p0 (setTool rake s))
              (map (fun m => on canvas now (TouchMove m)) moves ++ [on canvas now TouchEnd])).
    rewrite run_app, Hrun. reflexivity.
  - destruct (gesture_result _ _ _ _ Hr2) as [Hin Hc].
    destruct (handleMouseUp_idle s2 (proj1 Hr2)) as (_ & _ & _ & Hu).
    destruct (run_touchMoves canvas now moves (pointerDown now p0 (setTool rake s)))
      as (s2' & Hrun' & Hsame).
    rewrite Hrun in Hrun'. injection Hrun' as <-.
    split; [apply sublist_skip, strokePoints_sublist|].
    split; [intros i a b; apply strokePoints_apart|].
    split; [|split; [|split]].
    + intros Hne. exists (RakePath.width current). rewrite <- Hid. apply Hin, Hne.
    + intros Hnil. rewrite (raking_still_touch current p0 canvas now moves _ Hr Hnil) in Hrun.
      injection Hrun as <-. unfold handleMouseUp. case_match; simpl;
        unfold pointerDown; reflexivity.
    + exact Hc.
    + rewrite Hu. destruct Hsame as (-> & _).
      exact (pointerDown_undoStack now p0 (setTool rake s)).
Qed.

End WholeGestures.

(** ** The threshold of the rake *)

Lemma sqrtAround9_heronMath : sqrtAround9 heronMath.
Proof.
  split; intros a Ha; cbn [Math_sqrt heronMath]; unfold Qdiv;
    change (/ 3) with (1 # 3); change (/ 2) with (1 # 2); lra.
Qed.

Section ThresholdTheorem.
Context {M : MathLib}.
Hypothesis sqrt_law : sqrtAround9 M.

(** With a square root that is increasing and takes 9 to 3, the test of the
    handlers is the test of the specification. *)
Lemma distance_beyondThreshold point last :
  3 < distance point last <-> beyondThreshold point last.
Proof.
  destruct sqrt_law as [Hle Hgt].
  unfold distance, Math_pow2, beyondThreshold, squaredEuclidean.
  change (3 * 3) with 9. split.
  - intros Hd. apply Qnot_le_lt. intros Hn. apply Hle in Hn. lra.
  - apply Hgt.
Qed.

Lemma strokePoints_recordedBySpec moves : forall last,
  strokePoints last moves = recordedBySpec last moves.
Proof.
  induction moves as [|point moves IH]; intros last; [reflexivity|].
  cbn [strokePoints recordedBySpec].
  destruct (Qltb 3 (distance point last)) eqn:E.
  - apply Qltb_lt, distance_beyondThreshold in E. unfold beyondThreshold in E.
    apply Qltb_lt in E. rewrite E, IH. reflexivity.
  - apply Qltb_ge in E.
    assert (E' : Qltb (3 * 3) (squaredEuclidean point last) = false).
    { apply not_true_iff_false. intros H. apply Qltb_lt in H.
      apply distance_beyondThreshold in H. lra. }
    rewrite E', IH. reflexivity.
Qed.

Lemma gestureBySpec_intro now p0 moves s s' :
  gestureDone now p0 moves s s' -> gestureBySpec now p0 moves s s'.
Proof.
  unfold gestureDone, gestureBySpec. cbv zeta.
  rewrite (strokePoints_recordedBySpec moves p0).
  intros (H1 & H2 & H3 & H4 & H5 & H6).
  split; [exact H1|]. split; [|auto].
  intros i a b Ha Hb. apply distance_beyondThreshold. apply (H2 i a b Ha Hb).
Qed.


End ThresholdTheorem.


Section SceneTheorems.
Context {M : MathLib}.

Lemma viewSnapshot_keeps s s' c :
  keeps s s' -> settledSnapshot s c ->
  viewSnapshot (arrays s') c = viewSnapshot (arrays s) c /\ settledSnapshot s' c.
Proof.
  intros Hk Hc. split.
  - unfold viewSnapshot. f_equal. apply viewPaths_keeps; assumption.
  - unfold settledSnapshot in *. eapply Forall_impl; [exact Hc|].
    intros p Hp. apply (Hk _ Hp).
Qed.

Lemma still_final now p0 s :
  wellFormed s ->
  stillDone s (handleMouseUp (pointerDown now p0 (setTool rake s))).
Proof.
  intros Hw. unfold handleMouseUp, pointerDown. simpl.
  assert (Hv : viewPaths (arrays s ++ [[p0]]) (rakePaths s)
               = viewPaths (arrays s) (rakePaths s)).
  { apply (viewPaths_untouched s (set_arrays (arrays s ++ [[p0]]) s));
      [apply untouched_alloc | apply Hw]. }
  repeat split; simpl.
  - unfold scene. simpl. rewrite Hv. reflexivity.
  - change (length (pushed s) = Nat.min 20 (S (length (undoStack s)))).
    rewrite length_pushed. lia.
Qed.

(** C6. A rake gesture none of whose moves goes more than 3 away
    from its first point adds no path to the scene: the one-point path is held
    by [currentPathRef] alone, and dropped at pointer up; the scene is as it
    was, and the undo stack has the one snapshot the pointer down pushed. *)
Theorem still_gesture canvas now s :
  wellFormed s ->
  (forall down moves,
     Forall (fun point => distance point (getCanvasCoordinates down canvas) <= 3)
       (mousePoints canvas moves) ->
     exists s' s1 current,
       run s (opEvents (MouseRake canvas now down moves)) = Some s'
       /\ stillDone s s'
       /\ run s (rakeDown canvas now down
                 ++ map (fun m => on canvas now (MouseMove m)) moves) = Some s1
       /\ currentPathRef s1 = Some current
       /\ viewPath (arrays s1) current
          = RakePath.mk (pretty now) [getCanvasCoordinates down canvas]
              (RakePath.width current)
       /\ drawn (viewPath (arrays s1) current) = false
       /\ current ∉ rakePaths s1)
  /\ (forall touch others moves,
        Forall (fun point => distance point (getCanvasCoordinates touch canvas) <= 3)
          (touchPoints canvas moves) ->
        exists s',
          run s (opEvents (TouchRake canvas now touch others moves)) = Some s'
          /\ stillDone s s').
Proof.
  intros Hw. split.
  - intros down moves Hstill. apply stroke_still in Hstill.
    set (p0 := getCanvasCoordinates down canvas) in *.
    destruct (pointerDown_raking now p0 (setTool rake s) eq_refl)
      as (current & Hr & Hid & Href).
    pose proof (raking_still current p0 canvas now moves _ Hr Hstill) as Hrun.
    exists (handleMouseUp (pointerDown now p0 (setTool rake s))),
           (pointerDown now p0 (setTool rake s)), current.
    split; [|split; [|split; [|split; [|split; [|split]]]]].
    + cbn [opEvents]. change (run s (on canvas now (ClickTool rake)
          :: on canvas now (MouseDown down)
          :: map (fun m => on canvas now (MouseMove m)) moves ++ [on canvas now MouseUp]))
        with (run (pointerDown now p0 (setTool rake s))
                (map (fun m => on canvas now (MouseMove m)) moves ++ [on canvas now MouseUp])).
      rewrite run_app, Hrun. reflexivity.
    + apply still_final, Hw.
    + exact Hrun.
    + apply Hr.
    + destruct Hr as (_ & _ & _ & _ & Ha & _). unfold viewPath, deref.
      rewrite Ha, Hid. reflexivity.
    + destruct Hr as (_ & _ & _ & _ & Ha & _). unfold drawn, viewPath, deref.
      cbn [RakePath.points]. rewrite Ha. reflexivity.
    + intros Hin. destruct Hw as (Hp & _). rewrite Forall_forall in Hp.
      apply Hp in Hin. unfold allocated in Hin. simpl in Href. lia.
  - intros touch others moves Hstill. apply stroke_still in Hstill.
    set (p0 := getCanvasCoordinates touch canvas) in *.
    destruct (pointerDown_raking now p0 (setTool rake s) eq_refl)
      as (current & Hr & Hid & Href).
    pose proof (raking_still_touch current p0 canvas now moves _ Hr Hstill) as Hrun.
    exists (handleMouseUp (pointerDown now p0 (setTool rake s))). split.
    + cbn [opEvents]. change (run s (on canvas now (ClickTool rake)
          :: on canvas now (TouchStart (touch :: others))
          :: map (fun m => on canvas now (TouchMove m)) moves ++ [on canvas now TouchEnd]))
        with (run (pointerDown now p0 (setTool rake s))
                (map (fun m => on canvas now (TouchMove m)) moves ++ [on canvas now TouchEnd])).
      rewrite run_app, Hrun. reflexivity.
    + apply still_final, Hw.
Qed.

(** C10. No move of the pointer touches the undo stack: it holds the same
    snapshots after [handleMouseMove] and [handleTouchMove] as before, and a
    snapshot none of whose grooves is being extended reads the same; a whole
    rake gesture leaves the one snapshot its pointer down pushed. *)
Theorem moves_keep_undoStack canvasRef s :
  (forall event, undoStack (handleMouseMove canvasRef event s) = undoStack s)
  /\ (forall touches, undoStack (handleTouchMove canvasRef touches s) = undoStack s)
  /\ (forall event c,
        settledSnapshot s c ->
        viewSnapshot (arrays (handleMouseMove canvasRef event s)) c
        = viewSnapshot (arrays s) c)
  /\ (forall touches c,
        settledSnapshot s c ->
        viewSnapshot (arrays (handleTouchMove canvasRef touches s)) c
        = viewSnapshot (arrays s) c)
  /\ (forall canvas now down moves,
        exists s',
          run s (opEvents (MouseRake canvas now down moves)) = Some s'
          /\ undoStack s' = slice_last 20 (undoStack s ++ [snapshot s]))
  /\ (forall canvas now touch others moves,
        exists s',
          run s (opEvents (TouchRake canvas now touch others moves)) = Some s'
          /\ undoStack s' = slice_last 20 (undoStack s ++ [snapshot s])).
Proof.
  split; [|split; [|split; [|split; [|split]]]].
  - intros event. apply handleMouseMove_undoStack.
  - intros touches. apply handleTouchMove_undoStack.
  - intros event c Hc.
    apply (viewSnapshot_keeps s); [|exact Hc].
    apply (step_keeps s ({| canvasRef := canvasRef; now := 0 |}, MouseMove event)).
    reflexivity.
  - intros touches c Hc.
    apply (viewSnapshot_keeps s); [|exact Hc].
    apply (step_keeps s ({| canvasRef := canvasRef; now := 0 |}, TouchMove touches)).
    reflexivity.
  - intros canvas now down moves.
    destruct (mouse_gesture canvas now down moves s) as (s' & Hr & Hg).
    exists s'. split; [exact Hr | apply Hg].
  - intros canvas now touch others moves.
    destruct (touch_gesture canvas now touch others moves s) as (s' & Hr & Hg).
    exists s'. split; [exact Hr | apply Hg].
Qed.

(** C4. [saveState] stores the references of the scene, not copies
    of its arrays; a snapshot none of whose grooves is still being extended
    reads the same after any events.  Such are all the snapshots of a state
    with no gesture and no animation in progress, that of the scene included;
    and the snapshot a pointer down with the rake pushes, when no animation
    is pending. *)
Theorem settled_snapshot_stable s :
  (forall rakePaths0 placedObjects0,
     last (undoStack (saveState rakePaths0 placedObjects0 s))
     = Some (CanvasState.mk rakePaths0 placedObjects0))
  /\ (forall c evs s',
        settledSnapshot s c -> run s evs = Some s' ->
        viewSnapshot (arrays s') c = viewSnapshot (arrays s) c
        /\ settledSnapshot s' c)
  /\ (wellFormed s -> idle s ->
        Forall (settledSnapshot s) (undoStack s ++ [snapshot s]))
  /\ (wellFormed s -> animation s = None -> tool s = rake ->
        forall now point, settledSnapshot (pointerDown now point s) (snapshot s)).
Proof.
  split; [|split; [|split]].
  - intros rp po. simpl. apply last_slice_last_snoc.
  - intros c evs s' Hc Hr. apply viewSnapshot_keeps; [|exact Hc].
    eapply run_keeps, Hr.
  - intros (Hp & Hu & _) (Hc & Hk & _).
    assert (Hfr : forall l, Forall (allocated (length (arrays s))) l ->
                    Forall (fun p => frozen s (RakePath.points p)) l).
    { intros l Hl. eapply Forall_impl; [exact Hl|]. intros p Hlt. split; [exact Hlt|].
      unfold live. rewrite Hc, Hk. apply not_elem_of_nil. }
    apply Forall_app. split.
    + eapply Forall_impl; [exact Hu|]. intros c. apply Hfr.
    + apply Forall_singleton. apply Hfr, Hp.
  - intros (Hp & _) Hk Ht now point. unfold settledSnapshot. simpl.
    eapply Forall_impl; [exact Hp|]. intros p Hlt. unfold allocated in Hlt.
    unfold pointerDown. rewrite Ht. split; simpl.
    + rewrite length_app. simpl. lia.
    + unfold live. simpl. rewrite Hk. simpl.
      rewrite list_elem_of_singleton. lia.
Qed.

End SceneTheorems.

(** ** A call of [generatePattern] among other events *)

Section Uninterrupted.
Context {M : MathLib}.

Lemma grows_refl h : grows h h.
Proof. intros a. lia. Qed.

Lemma grows_trans h1 h2 h3 : grows h1 h2 -> grows h2 h3 -> grows h1 h3.
Proof. intros H1 H2 a. specialize (H1 a). specialize (H2 a). lia. Qed.

Lemma untouched_grows s s' : untouched s s' -> grows (arrays s) (arrays s').
Proof.
  intros Hu a. unfold deref. destruct (decide (a < length (arrays s))%nat) as [Hlt|Hge].
  - rewrite (Hu a Hlt). lia.
  - rewrite (proj2 (lookup_ge_None (arrays s) a)) by lia. simpl. lia.
Qed.

Lemma grows_alter h a p : grows h (alter (fun v => v ++ [p]) a h).
Proof.
  intros b. unfold deref. destruct (decide (a = b)) as [->|Hne].
  - rewrite list_lookup_alter_eq. destruct (h !! b); simpl; [rewrite length_app|]; lia.
  - rewrite list_lookup_alter_ne by exact Hne. lia.
Qed.

Lemma length_deref_alter h a p :
  (1 <= length (deref h a))%nat ->
  length (deref (alter (fun v => v ++ [p]) a h) a) = S (length (deref h a)).
Proof.
  unfold deref. rewrite list_lookup_alter_eq. destruct (h !! a); simpl; [|lia].
  rewrite length_app. simpl. lia.
Qed.

Lemma begun_grows s s' p : grows (arrays s) (arrays s') -> begun s p -> begun s' p.
Proof. unfold begun. intros Hg Hb. specialize (Hg (RakePath.points p)). lia. Qed.

Lemma hasGroove_intro s q :
  q ∈ rakePaths s -> (2 <= length (deref (arrays s) (RakePath.points q)))%nat -> hasGroove s.
Proof.
  intros Hq Hl. exists (viewPath (arrays s) q). split; [|exact Hl].
  unfold scene, viewPaths. simpl. apply list_elem_of_fmap. exists q. auto.
Qed.

Lemma hasGroove_grows s s' :
  grows (arrays s) (arrays s') -> rakePaths s' = rakePaths s -> hasGroove s -> hasGroove s'.
Proof.
  intros Hg Hr (p & Hp & Hm). unfold scene, viewPaths in Hp. simpl in Hp.
  apply list_elem_of_fmap in Hp as (q & -> & Hq).
  apply (hasGroove_intro s' q); [rewrite Hr; exact Hq|].
  unfold multiPoint in Hm. simpl in Hm. specialize (Hg (RakePath.points q)). lia.
Qed.

Lemma grooveComing_frame s s' :
  grows (arrays s) (arrays s') -> animation s' = animation s ->
  (hasGroove s -> hasGroove s') -> grooveComing s -> grooveComing s'.
Proof.
  intros Hg Ha Hp. unfold grooveComing. rewrite Ha.
  destruct (animation s) as [[canvas path an i rest|canvas i n]|]; [|exact Hp..].
  intros (Hb & Hall & Hd). split; [apply (begun_grows s), Hb; exact Hg|].
  split; [exact Hall|]. destruct Hd as [Hd|Hd]; auto.
Qed.

Lemma elem_of_putPath current prev : current ∈ putPath current prev.
Proof.
  unfold putPath. destruct (list_find _ prev) as [[index q]|] eqn:E.
  - apply list_find_Some in E as (Hq & _).
    apply (list_elem_of_lookup_2 _ index). apply list_lookup_insert_eq.
    eapply lookup_lt_Some, Hq.
  - apply elem_of_app. right. apply list_elem_of_here.
Qed.

(** *** The store grows *)

Lemma grows_pointerMove point s : grows (arrays s) (arrays (pointerMove point s)).
Proof.
  unfold pointerMove. repeat case_match; try apply grows_refl. simpl. apply grows_alter.
Qed.

Lemma grows_animatePaths canvas paths s : grows (arrays s) (arrays (animatePaths canvas paths s)).
Proof. apply untouched_grows, untouched_animatePaths. Qed.

Lemma grows_resume now k s : grows (arrays s) (arrays (resume now k s)).
Proof.
  destruct k as [canvas path an i rest|canvas i n].
  - simpl. case_match.
    + simpl. rewrite arrays_reveal. apply grows_alter.
    + apply grows_animatePaths.
  - destruct (resume_object now canvas i n s) as (_ & -> & _). apply grows_refl.
Qed.

Lemma arrays_settle s : arrays (settle s) = arrays s.
Proof. unfold settle. case_match; reflexivity. Qed.

Lemma rakePaths_settle s : rakePaths (settle s) = rakePaths s.
Proof. unfold settle. case_match; reflexivity. Qed.

Lemma grows_step s ev s' : step s ev = Some s' -> grows (arrays s) (arrays s').
Proof.
  destruct ev as [env e]. destruct e; simpl.
  - intros [= <-]. unfold handleMouseDown. case_match; [|apply grows_refl].
    apply untouched_grows, untouched_pointerDown.
  - intros [= <-]. unfold handleMouseMove. repeat case_match; try apply grows_refl.
    apply grows_pointerMove.
  - intros [= <-]. unfold handleMouseUp. case_match; apply grows_refl.
  - intros [= <-]. unfold handleMouseUp. case_match; apply grows_refl.
  - intros [= <-]. unfold handleTouchStart. repeat case_match; try apply grows_refl.
    apply untouched_grows, untouched_pointerDown.
  - intros [= <-]. unfold handleTouchMove. repeat case_match; try apply grows_refl.
    apply grows_pointerMove.
  - intros [= <-]. unfold handleTouchEnd, handleMouseUp. case_match; apply grows_refl.
  - intros [= <-]. apply grows_refl.
  - intros [= <-]. case_match; apply grows_refl.
  - unfold handleGeneratePattern. case_match; [intros [= <-]; apply grows_refl|].
    destruct (generatePattern _ _) as [s1|] eqn:Eg; [|discriminate]. intros [= <-].
    rewrite arrays_settle. apply untouched_grows.
    apply (untouched_generatePattern _ _ _ Eg).
  - intros [= <-]. rewrite arrays_undo. apply grows_refl.
  - intros [= <-]. apply grows_refl.
  - destruct (animation s) as [k|]; intros [= <-]; [|apply grows_refl].
    rewrite arrays_settle. apply grows_resume.
Qed.

(** *** The path of a gesture *)

Lemma gestureBegun_pointerDown now point s :
  gestureBegun s -> gestureBegun (pointerDown now point s).
Proof.
  intros Hb current. destruct (tool s) eqn:Ht.
  - destruct (pointerDown_rake now point s Ht) as (_ & _ & (c & Ec & Ep & _) & _ & Ea & _).
    rewrite Ec. intros [= <-]. unfold begun. rewrite Ea, Ep. unfold deref.
    rewrite list_lookup_middle by reflexivity. simpl. lia.
  - destruct (pointerDown_place now point s Ht) as (_ & _ & Ec & Ea & _).
    rewrite Ec. intros Hc. unfold begun. rewrite Ea. apply (Hb current Hc).
Qed.

Lemma currentPathRef_pointerMove point s :
  currentPathRef (pointerMove point s) = currentPathRef s.
Proof. unfold pointerMove. repeat case_match; simpl; congruence. Qed.

Lemma currentPathRef_undo s : currentPathRef (undo s) = currentPathRef s.
Proof. unfold undo. case_match; reflexivity. Qed.

Lemma gestureBegun_kept s s' :
  grows (arrays s) (arrays s') ->
  (currentPathRef s' = currentPathRef s \/ currentPathRef s' = None) ->
  gestureBegun s -> gestureBegun s'.
Proof.
  intros Hg [Hc|Hc] Hb current; rewrite Hc; [|discriminate].
  intros E. apply (begun_grows s); [exact Hg | apply Hb, E].
Qed.

Lemma currentPathRef_handleMouseUp s :
  currentPathRef (handleMouseUp s) = currentPathRef s
  \/ currentPathRef (handleMouseUp s) = None.
Proof. unfold handleMouseUp. case_match; auto. Qed.

Lemma gestureBegun_step s ev s' :
  step s ev = Some s' -> gestureBegun s -> gestureBegun s'.
Proof.
  intros Hs. pose proof (grows_step s ev s' Hs) as Hg. revert Hs.
  destruct ev as [env e]. destruct e; simpl.
  - intros [= <-]. unfold handleMouseDown. case_match; [|auto].
    apply gestureBegun_pointerDown.
  - intros [= <-]. apply gestureBegun_kept; [exact Hg|]. left.
    unfold handleMouseMove. repeat case_match; try reflexivity.
    apply currentPathRef_pointerMove.
  - intros [= <-]. apply gestureBegun_kept; [exact Hg|]. apply currentPathRef_handleMouseUp.
  - intros [= <-]. apply gestureBegun_kept; [exact Hg|]. apply currentPathRef_handleMouseUp.
  - intros [= <-]. unfold handleTouchStart. repeat case_match; auto.
    apply gestureBegun_pointerDown.
  - intros [= <-]. apply gestureBegun_kept; [exact Hg|]. left.
    unfold handleTouchMove. repeat case_match; try reflexivity.
    apply currentPathRef_pointerMove.
  - intros [= <-]. apply gestureBegun_kept; [exact Hg|]. apply currentPathRef_handleMouseUp.
  - intros [= <-]. auto.
  - intros [= <-]. case_match; auto.
  - intros Hs. apply gestureBegun_kept; [exact Hg|]. left. revert Hs.
    unfold handleGeneratePattern. case_match; [intros [= <-]; reflexivity|].
    destruct (generatePattern _ _) as [s1|] eqn:Eg; [|discriminate]. intros [= <-].
    rewrite currentPathRef_settle. apply (currentPathRef_generatePattern _ _ _ Eg).
  - intros [= <-]. apply gestureBegun_kept; [exact Hg|]. left. apply currentPathRef_undo.
  - intros [= <-]. auto.
  - intros Hs. apply gestureBegun_kept; [exact Hg|]. left. revert Hs.
    destruct (animation s) as [k|]; intros [= <-]; [|reflexivity].
    rewrite currentPathRef_settle. apply currentPathRef_resume.
Qed.

Lemma gestureBegun_run evs : forall s s',
  run s evs = Some s' -> gestureBegun s -> gestureBegun s'.
Proof.
  induction evs as [|ev evs IH]; intros s s'; simpl; [intros [= <-]; auto|].
  destruct (step s ev) as [s1|] eqn:Es; [|discriminate].
  intros Hr Hb. apply (IH s1 s' Hr), (gestureBegun_step s ev s1 Es Hb).
Qed.

Lemma gestureBegun_initialState r : gestureBegun (initialState r).
Proof. intros current. discriminate. Qed.

(** *** The grooves of the call *)

Lemma grooveComing_settle s : grooveComing s -> grooveComing (settle s).
Proof.
  unfold grooveComing. rewrite animation_settle.
  assert (Hp : hasGroove s -> hasGroove (settle s)).
  { apply hasGroove_grows; [rewrite arrays_settle; apply grows_refl | apply rakePaths_settle]. }
  destruct (animation s) as [[canvas path an i rest|canvas i n]|]; [|exact Hp..].
  intros (Hb & Hall & Hd). split; [unfold begun; rewrite arrays_settle; exact Hb|].
  split; [exact Hall|]. destruct Hd as [Hd|Hd]; auto.
Qed.

Lemma grooveComing_placeObjects canvas s : hasGroove s -> grooveComing (placeObjects canvas s).
Proof.
  intros Hp.
  assert (Hp' : hasGroove (placeObjects canvas s)).
  { revert Hp. apply hasGroove_grows;
      [rewrite arrays_placeObjects; apply grows_refl | apply rakePaths_placeObjects]. }
  unfold grooveComing. destruct (animation_placeObjects canvas s) as [->|[n ->]]; exact Hp'.
Qed.

Lemma grooveComing_animatePaths canvas paths s :
  Forall multiPoint paths -> (paths = [] -> hasGroove s) ->
  grooveComing (animatePaths canvas paths s).
Proof.
  intros Hall Hnil. destruct paths as [|path rest].
  - simpl. apply grooveComing_placeObjects, Hnil. reflexivity.
  - pose proof (Forall_inv Hall) as Hm. unfold multiPoint in Hm.
    destruct path as [pid [|p pts] w]; simpl in Hm; [lia|].
    unfold grooveComing. simpl.
    split; [|split; [exact (Forall_inv_tail Hall)|]].
    + unfold begun. simpl. rewrite ?arrays_reveal. simpl. unfold deref.
      rewrite lookup_alter_fresh. simpl. lia.
    + right. left. lia.
Qed.

Lemma grooveComing_resume now k s :
  animation s = Some k -> grooveComing s -> grooveComing (resume now k s).
Proof.
  intros Ek. unfold grooveComing at 1. rewrite Ek.
  destruct k as [canvas path an i rest|canvas i n].
  - intros (Hb & Hall & Hd). simpl.
    destruct (RakePath.points path !! S i) as [p|] eqn:Ep.
    + set (s1 := set_animation (Some (AwaitPoint canvas path an (S i) rest))
                   (reveal path an (S i) p s)).
      assert (Ea : arrays s1 = alter (fun v => v ++ [p]) (RakePath.points an) (arrays s))
        by (subst s1; simpl; rewrite ?arrays_reveal; reflexivity).
      assert (Er : an ∈ rakePaths s1).
      { subst s1. simpl. rewrite ?rakePaths_reveal. apply elem_of_app. right.
        apply list_elem_of_here. }
      assert (Hl : length (deref (arrays s1) (RakePath.points an))
                   = S (length (deref (arrays s) (RakePath.points an))))
        by (rewrite Ea; apply length_deref_alter, Hb).
      assert (Ek1 : animation s1 = Some (AwaitPoint canvas path an (S i) rest))
        by reflexivity.
      unfold grooveComing. rewrite Ek1.
      split; [unfold begun; rewrite Hl; lia|]. split; [exact Hall|]. left.
      apply (hasGroove_intro _ an Er). rewrite Hl. unfold begun in Hb. lia.
    + apply grooveComing_animatePaths; [exact Hall|]. intros ->.
      destruct Hd as [Hd|[Hd|Hd]]; [exact Hd| |contradiction].
      apply lookup_ge_None in Ep. lia.
  - intros Hp. destruct (resume_object now canvas i n s) as (Er & Ea & Ek').
    assert (Hp' : hasGroove (resume now (AwaitObject canvas i n) s)).
    { revert Hp. apply hasGroove_grows; [rewrite Ea; apply grows_refl | exact Er]. }
    unfold grooveComing. destruct Ek' as [->|[-> _]]; exact Hp'.
Qed.

Lemma grooveComing_pointerMove point s :
  gestureBegun s -> grooveComing s -> grooveComing (pointerMove point s).
Proof.
  intros Hb. apply grooveComing_frame; [apply grows_pointerMove | |].
  - unfold pointerMove. repeat case_match; reflexivity.
  - unfold pointerMove. destruct (currentPathRef s) as [current|] eqn:Ec; [|auto].
    destruct (lastPointRef s) as [last|]; [|auto].
    destruct (Qltb 3 (distance point last)); [|auto]. intros _.
    apply (hasGroove_intro _ current); simpl; [apply elem_of_putPath|].
    rewrite length_deref_alter by (apply Hb, Ec). specialize (Hb current Ec).
    unfold begun in Hb. lia.
Qed.

Lemma grooveComing_pointerDown now point s : grooveComing s -> grooveComing (pointerDown now point s).
Proof.
  apply grooveComing_frame; [apply untouched_grows, untouched_pointerDown | |].
  - unfold pointerDown. destruct (tool s); reflexivity.
  - apply hasGroove_grows; [apply untouched_grows, untouched_pointerDown|].
    unfold pointerDown. destruct (tool s); reflexivity.
Qed.

Lemma grooveComing_handleMouseUp s : grooveComing s -> grooveComing (handleMouseUp s).
Proof.
  unfold handleMouseUp. case_match; [|auto].
  apply grooveComing_frame; [apply grows_refl | reflexivity|].
  apply hasGroove_grows; [apply grows_refl | reflexivity].
Qed.

(** An event that is not Reset, Undo or Auto Pattern keeps the grooves the
    call has drawn and those it has still to draw. *)
Lemma grooveComing_step s ev s' :
  clears ev.2 = false -> step s ev = Some s' ->
  gestureBegun s -> grooveComing s -> grooveComing s'.
Proof.
  destruct ev as [env e]. destruct e; simpl; try discriminate; intros _.
  - intros [= <-] _. unfold handleMouseDown. case_match; [|auto].
    apply grooveComing_pointerDown.
  - intros [= <-] Hb. unfold handleMouseMove. repeat case_match; auto.
    apply grooveComing_pointerMove, Hb.
  - intros [= <-] _. apply grooveComing_handleMouseUp.
  - intros [= <-] _. apply grooveComing_handleMouseUp.
  - intros [= <-] _. unfold handleTouchStart. repeat case_match; auto.
    apply grooveComing_pointerDown.
  - intros [= <-] Hb. unfold handleTouchMove. repeat case_match; auto.
    apply grooveComing_pointerMove, Hb.
  - intros [= <-] _. apply grooveComing_handleMouseUp.
  - intros [= <-] _. apply grooveComing_frame; [apply grows_refl | reflexivity|].
    apply hasGroove_grows; [apply grows_refl | reflexivity].
  - intros [= <-] _. case_match; [|auto].
    apply grooveComing_frame; [apply grows_refl | reflexivity|].
    apply hasGroove_grows; [apply grows_refl | reflexivity].
  - destruct (animation s) as [k|] eqn:Ek; intros [= <-] _; [|auto].
    intros Hp. apply grooveComing_settle, grooveComing_resume; assumption.
Qed.

Lemma grooveComing_run evs : forall s s',
  Forall (fun ev => clears ev.2 = false) evs -> run s evs = Some s' ->
  gestureBegun s -> grooveComing s -> grooveComing s'.
Proof.
  induction evs as [|ev evs IH]; intros s s' Hall; simpl; [intros [= <-]; auto|].
  destruct (step s ev) as [s1|] eqn:Es; [|discriminate].
  intros Hr Hb Hp. apply (IH s1 s' (Forall_inv_tail Hall) Hr).
  - apply (gestureBegun_step s ev s1 Es Hb).
  - apply (grooveComing_step s ev s1 (Forall_inv Hall) Es Hb Hp).
Qed.

Lemma grooveComing_generatePattern canvas s s' :
  returns (generateZenPattern canvas) paintable -> unit_draws (random s) ->
  generatePattern (Some canvas) s = Some s' -> grooveComing s'.
Proof.
  intros Hret Hu. unfold generatePattern.
  destruct (Hret _ Hu) as (paths & r' & E & _ & Hne & Hall). simpl. rewrite E.
  intros [= <-]. apply grooveComing_animatePaths; [exact Hall|]. intros ->. contradiction.
Qed.

End Uninterrupted.

Section GeneratorTheorems.
Context {M : MathLib}.

(** C7. On the 800 x 600 canvas, with draws in [0, 1): every layout of
    [generateZenPattern] returns one path or more, each of two points or more;
    a call of [generatePattern] runs to its end once enough timers have
    fired; at its end, when nothing but its timers has come since the click
    on Auto Pattern, the scene holds a path of two points or more; and so it
    does, in any state the events lead to, whatever has come since the click
    other than Reset, Undo and Auto Pattern (gestures, changes of tool,
    timers), once the call is over. *)
Theorem generate_paints canvas s :
  HTMLCanvasElement.width canvas = 800 -> HTMLCanvasElement.height canvas = 600 ->
  unit_draws (random s) -> isGeneratingPattern s = false ->
  (forall g, g ∈ patterns canvas -> returns g paintable)
  /\ returns (generateZenPattern canvas) paintable
  /\ (exists timers s', doOp s (Generate canvas timers) = Some s')
  /\ (forall timers s',
        doOp s (Generate canvas timers) = Some s' ->
        exists p, p ∈ (scene s').1 /\ multiPoint p)
  /\ (forall r before now evs s',
        run (initialState r) before = Some s ->
        Forall (fun ev => clears ev.2 = false) evs ->
        run s (on canvas now ClickGenerate :: evs) = Some s' ->
        animation s' = None ->
        exists p, p ∈ (scene s').1 /\ multiPoint p).
Proof.
  intros Hw Hh Hu Hg. destruct canvas as [w h rect]. simpl in Hw, Hh. subst w h.
  pose proof (generateZenPattern_returns rect) as Hret.
  split; [intros g; apply patterns_return|]. split; [exact Hret|].
  set (canvas := HTMLCanvasElement.mk 800 600 rect) in *.
  assert (Hstart : forall s1,
            generatePattern (Some canvas) (setIsGeneratingPattern true s) = Some s1 ->
            forall timers,
              run s (opEvents (Generate canvas timers))
              = run (settle s1) (map (fun t => on canvas t Timeout) timers)).
  { intros s1 E timers.
    change (run s (opEvents (Generate canvas timers)))
      with (match handleGeneratePattern (Some canvas) s with
            | Some s2 => run s2 (map (fun t => on canvas t Timeout) timers)
            | None => None
            end).
    unfold handleGeneratePattern. rewrite Hg, E. reflexivity. }
  split; [|split].
  - destruct (generatePattern_returns canvas (setIsGeneratingPattern true s) Hret Hu)
      as [s1 E].
    destruct (animation_finishes canvas (settle s1)) as (timers & s' & Hr & Hd).
    exists timers, s'. unfold doOp. rewrite (Hstart s1 E), Hr, Hd. reflexivity.
  - intros timers s' Hd. pose proof (doOp_run _ _ _ Hd) as Hr.
    unfold doOp in Hd. rewrite Hr in Hd.
    destruct (animation s') eqn:Ek; [discriminate|].
    destruct (generatePattern_returns canvas (setIsGeneratingPattern true s) Hret Hu)
      as [s1 E].
    rewrite (Hstart s1 E) in Hr.
    assert (Hv : revealing s').
    { eapply timeouts_revealing; [exact Hr|]. apply settle_revealing.
      exact (generatePattern_revealing canvas (setIsGeneratingPattern true s) s1
               Hret Hu E). }
    unfold revealing in Hv. rewrite Ek in Hv. exact Hv.
  - intros r before now evs s' Hbefore Hall Hr Hend.
    assert (Hb : gestureBegun s)
      by (apply (gestureBegun_run before _ _ Hbefore), gestureBegun_initialState).
    destruct (generatePattern_returns canvas (setIsGeneratingPattern true s) Hret Hu)
      as [s1 E].
    assert (Hclick : step s (on canvas now ClickGenerate) = Some (settle s1)).
    { simpl. unfold handleGeneratePattern. rewrite Hg, E. reflexivity. }
    change (run s (on canvas now ClickGenerate :: evs))
      with (match step s (on canvas now ClickGenerate) with
            | Some s2 => run s2 evs
            | None => None
            end) in Hr.
    rewrite Hclick in Hr.
    assert (Hp : grooveComing s').
    { apply (grooveComing_run evs (settle s1) s' Hall Hr).
      - apply (gestureBegun_step s _ _ Hclick Hb).
      - apply grooveComing_settle.
        apply (grooveComing_generatePattern canvas (setIsGeneratingPattern true s) s1 Hret Hu E). }
    unfold grooveComing in Hp. rewrite Hend in Hp. exact Hp.
Qed.

(** C8. Each curve function returns, for the same arguments, the
    same sequence of [totalPoints + 1] points: [totalPoints] is half the
    radius of a circle (rounded down), 50 for each turn of a spiral whatever
    its radius, a third of the span of a wave, and for an ellipse 0.3 of its
    perimeter, or 24 when that is less; only the ellipse has a floor. *)
Theorem curve_lengths :
  (forall cx cy radius,
     length (generateCirclePattern cx cy radius)
     = Z.to_nat (Qfloor (radius * 0.5) + 1))
  /\ (forall cx cy rx ry,
        length (generateEllipsePattern cx cy rx ry)
        = Z.to_nat
            (Z.max 24
               (Qfloor (Math_PI * (3 * (rx + ry)
                                   - Math_sqrt ((3 * rx + ry) * (rx + 3 * ry))) * 0.3))
             + 1)
        /\ (25 <= length (generateEllipsePattern cx cy rx ry))%nat)
  /\ (forall cx cy radius turns,
        length (generateSpiralPattern cx cy radius turns)
        = Z.to_nat (Qfloor (turns * 50) + 1))
  /\ (forall startX startY endX amplitude frequency,
        length (generateWavePattern startX startY endX amplitude frequency)
        = Z.to_nat (Qfloor ((endX - startX) / 3) + 1))
  /\ (forall cx cy radius radius',
        radius <= radius' ->
        (length (generateCirclePattern cx cy radius)
         <= length (generateCirclePattern cx cy radius'))%nat)
  /\ (forall cx cy radius radius' turns,
        length (generateSpiralPattern cx cy radius turns)
        = length (generateSpiralPattern cx cy radius' turns)).
Proof.
  split; [|split; [|split; [|split; [|split]]]].
  - apply length_generateCirclePattern.
  - intros cx cy rx ry. split;
      [apply length_generateEllipsePattern | apply ellipse_multiPoint].
  - apply length_generateSpiralPattern.
  - apply length_generateWavePattern.
  - intros cx cy radius radius' Hle. rewrite !length_generateCirclePattern.
    assert (Qfloor (radius * 0.5) <= Qfloor (radius' * 0.5))%Z
      by (apply Qfloor_resp_le; lra).
    lia.
  - intros cx cy radius radius' turns. rewrite !length_generateSpiralPattern.
    reflexivity.
Qed.

End GeneratorTheorems.

Lemma unit_draws_halves : unit_draws halves.
Proof. intros n. simpl. split; lra. Qed.

(** The call of [generatePattern] runs to its end, two objects are placed,
    and the scene has no groove: Reset has removed the spiral, and no timer
    after the last point puts it back. *)
Lemma generate_ends_without_groove :
  exists s',
    run (M := sampleMath) (initialState spiralDraws) resetBeforeTheEnd = Some s'
    /\ animation s' = None
    /\ isGeneratingPattern s' = false
    /\ (scene s').1 = []
    /\ length (scene s').2 = 2%nat
    /\ ~ exists p, p ∈ (scene s').1 /\ multiPoint p.
Proof.
  assert (H : match run (M := sampleMath) (initialState spiralDraws) resetBeforeTheEnd with
              | Some s' => endedBare s' && Nat.eqb (length (scene s').2) 2
              | None => false
              end = true) by (vm_compute; reflexivity).
  destruct (run (M := sampleMath) (initialState spiralDraws) resetBeforeTheEnd) as [s'|] eqn:Er;
    [|discriminate H].
  apply andb_true_iff in H as [H Hlen]. apply Nat.eqb_eq in Hlen.
  unfold endedBare in H.
  destruct (animation s') eqn:Ea; [discriminate H|].
  destruct ((scene s').1) as [|p l] eqn:Es; [|discriminate H].
  apply negb_true_iff in H.
  exists s'. rewrite Es. split; [reflexivity|]. split; [exact Ea|].
  split; [exact H|]. split; [reflexivity|]. split; [exact Hlen|].
  intros (p & Hp & _). inversion Hp.
Qed.

(** Reset during a rake gesture on a touch screen, then one more move of
    the finger: the undo stack holds the same snapshot, and what that
    snapshot holds has changed, its groove having 3 points for 2. *)
Lemma history_altered_by_touch_move :
  exists s3 s4,
    run (M := sampleMath) (initialState halves) resetWhileTouching = Some s3
    /\ step (M := sampleMath) s3 (on canvas800 0 (TouchMove [at_ 30 10])) = Some s4
    /\ undoStack s4 = undoStack s3
    /\ length (history s4) = length (history s3)
    /\ history s4 <> history s3
    /\ map (fun snapshot => map (fun p => length (RakePath.points p)) snapshot.1) (history s3)
       = [[]; [2%nat]]
    /\ map (fun snapshot => map (fun p => length (RakePath.points p)) snapshot.1) (history s4)
       = [[]; [3%nat]].
Proof.
  eexists _, _. split; [vm_compute; reflexivity|].
  split; [vm_compute; reflexivity|]. split; [reflexivity|]. split; [reflexivity|].
  split; [|split; vm_compute; reflexivity].
  intros E.
  apply (f_equal (map (fun snapshot : list (RakePath (list Point)) * list PlacedObject =>
                         map (fun p => length (RakePath.points p)) snapshot.1))) in E.
  vm_compute in E. discriminate E.
Qed.

(** The centre circle of the mandala has 16 points. *)
Lemma circle_below_floor :
  length (generateCirclePattern (M := sampleMath) 400 300 30) = 16%nat
  /\ (16 < 24)%nat.
Proof. split; [vm_compute; reflexivity | lia]. Qed.

Lemma still_gesture_witness :
  wellFormed (initialState halves)
  /\ Forall (fun point =>
               distance (M := sampleMath) point (getCanvasCoordinates (at_ 10 10) canvas800) <= 3)
       (mousePoints canvas800 [at_ 11 10; at_ 12 11])
  /\ exists s',
       run (M := sampleMath) (initialState halves)
         (opEvents (MouseRake canvas800 0 (at_ 10 10) [at_ 11 10; at_ 12 11])) = Some s'
       /\ stillDone (initialState halves) s'.
Proof.
  assert (Hstill : Forall (fun point =>
               distance (M := sampleMath) point (getCanvasCoordinates (at_ 10 10) canvas800) <= 3)
       (mousePoints canvas800 [at_ 11 10; at_ 12 11])).
  { repeat constructor; vm_compute; discriminate. }
  split; [apply wellFormed_initialState|]. split; [exact Hstill|].
  destruct (proj1 (still_gesture (M := sampleMath) canvas800 0 (initialState halves)
                     (wellFormed_initialState halves))
              (at_ 10 10) [at_ 11 10; at_ 12 11] Hstill)
    as (s' & s1 & current & Hr & Hd & _).
  exists s'. split; [exact Hr | exact Hd].
Defined.

(** A gesture of two moves within the threshold: from the empty scene it
    leaves the scene empty; on a full undo stack it leaves 20 snapshots. *)
Lemma still_gesture_counterexample :
  exists s' s20 s21,
    run (M := sampleMath) (initialState halves)
      (opEvents (MouseRake canvas800 0 (at_ 10 10) [at_ 11 10; at_ 12 11])) = Some s'
    /\ scene s' = ([], [])
    /\ length (undoStack s') = 1%nat
    /\ runOps (M := sampleMath) (initialState halves) (replicate 20 placeStone) = Some s20
    /\ run (M := sampleMath) s20
         (opEvents (MouseRake canvas800 0 (at_ 10 10) [at_ 11 10; at_ 12 11])) = Some s21
    /\ length (undoStack s20) = 20%nat
    /\ length (undoStack s21) = 20%nat.
Proof.
  eexists _, _, _. split; [vm_compute; reflexivity|].
  split; [reflexivity|]. split; [reflexivity|].
  split; [vm_compute; reflexivity|]. split; [vm_compute; reflexivity|].
  split; reflexivity.
Qed.

(** Reset during a rake gesture, then one more move: the snapshot Reset
    pushed had a groove of 2 points, and now has one of 3. *)
Lemma snapshot_altered_by_move :
  exists s3 s4 c,
    run (M := sampleMath) (initialState halves) resetWhileRaking = Some s3
    /\ step (M := sampleMath) s3 (on canvas800 0 (MouseMove (at_ 30 10))) = Some s4
    /\ last (undoStack s3) = Some c
    /\ last (undoStack s4) = Some c
    /\ map (fun p => length (RakePath.points p)) (viewSnapshot (arrays s3) c).1 = [2%nat]
    /\ map (fun p => length (RakePath.points p)) (viewSnapshot (arrays s4) c).1 = [3%nat].
Proof.
  eexists _, _, _. split; [vm_compute; reflexivity|].
  split; [vm_compute; reflexivity|]. repeat split; vm_compute; reflexivity.
Qed.

Lemma settled_snapshot_stable_witness :
  exists s s',
    runOps (M := sampleMath) (initialState halves)
      [MouseRake canvas800 0 (at_ 10 10) [at_ 20 10]] = Some s
    /\ run (M := sampleMath) s
         [on canvas800 1 ClickReset; on canvas800 2 (MouseDown (at_ 50 50));
          on canvas800 2 (MouseMove (at_ 60 50))] = Some s'
    /\ viewSnapshot (arrays s') (snapshot s) = viewSnapshot (arrays s) (snapshot s).
Proof.
  eexists _, _. split; [vm_compute; reflexivity|]. split; [vm_compute; reflexivity|].
  match goal with
  | |- viewSnapshot (arrays ?s') (snapshot ?s) = _ =>
      assert (Hs : steady s)
        by (apply (runOps_steady (M := sampleMath)
                     [MouseRake canvas800 0 (at_ 10 10) [at_ 20 10]]
                     (initialState halves) s (steady_initialState halves));
            vm_compute; reflexivity);
      destruct (settled_snapshot_stable (M := sampleMath) s) as (_ & Hstable & Hidle & _);
      refine (proj1 (Hstable (snapshot s)
                [on canvas800 1 ClickReset; on canvas800 2 (MouseDown (at_ 50 50));
                 on canvas800 2 (MouseMove (at_ 60 50))] s' _ _));
      [ pose proof (Hidle (proj1 (proj2 Hs)) (proj1 Hs)) as Hall;
        rewrite Forall_app, Forall_singleton in Hall; apply Hall
      | vm_compute; reflexivity ]
  end.
Defined.

Lemma moves_keep_undoStack_witness :
  exists s',
    run (M := sampleMath) (initialState halves)
      (opEvents (TouchRake canvas800 0 (at_ 10 10) [] [[at_ 20 10]; []; [at_ 30 10]]))
    = Some s'
    /\ undoStack s'
       = slice_last 20 (undoStack (initialState halves) ++ [snapshot (initialState halves)]).
Proof.
  exact (proj2 (proj2 (proj2 (proj2 (proj2
           (moves_keep_undoStack (M := sampleMath) None (initialState halves))))))
           canvas800 0%Z (at_ 10 10) [] [[at_ 20 10]; []; [at_ 30 10]]).
Defined.

(** The scenario of the specification: down at (10, 10), a move to (20, 10)
    and up leave one path of these two points and one snapshot. *)
Example rake_scenario :
  exists s,
    run (M := sampleMath) (initialState halves)
      (opEvents (MouseRake canvas800 0 (at_ 10 10) [at_ 20 10])) = Some s
    /\ coordinates (scene s).1 = [[(10, 10); (20, 10)]]
    /\ (scene s).2 = []
    /\ length (undoStack s) = 1%nat.
Proof. eexists. split; [vm_compute; reflexivity|]. repeat split; reflexivity. Qed.

(** The scenario of the specification: a stone placed at (100, 100), then
    undo, which leaves the empty scene. *)
Example place_scenario :
  exists s,
    run (M := sampleMath) (initialState halves) (opEvents placeStone) = Some s
    /\ map (fun o => (PlacedObject.type o, Qred (PlacedObject.x o), Qred (PlacedObject.y o)))
         (scene s).2 = [(stone, 100, 100)]
    /\ scene (undo s) = ([], []).
Proof. eexists. split; [vm_compute; reflexivity|]. repeat split; reflexivity. Qed.

(** ** Coordinates *)

Lemma scale_nonneg (w W : Q) : 0 < w -> 0 <= W -> 0 <= W / w.
Proof. intros Hw HW. apply Qle_shift_div_l; [exact Hw | lra]. Qed.

(** X1. [getCanvasCoordinates] keeps the corner and the order of the
    positions, whatever the size the page shows the canvas at (a bounding
    rectangle that has a width and a height): the left and top edges of the
    rectangle go to 0, a position at or beyond them to a coordinate that is
    not negative, and a position further right or further down never to a
    smaller coordinate; where the canvas is shown at its own size the point
    is the position counted from the corner of the rectangle. *)
Theorem getCanvasCoordinates_monotone (canvas : HTMLCanvasElement) (pointLike : PointLike) :
  let rect := HTMLCanvasElement.getBoundingClientRect canvas in
  0 < DOMRect.width rect -> 0 < DOMRect.height rect ->
  0 <= HTMLCanvasElement.width canvas -> 0 <= HTMLCanvasElement.height canvas ->
  let p := getCanvasCoordinates pointLike canvas in
  (PointLike.clientX pointLike == DOMRect.left rect -> Point.x p == 0)
  /\ (PointLike.clientY pointLike == DOMRect.top rect -> Point.y p == 0)
  /\ (DOMRect.left rect <= PointLike.clientX pointLike -> 0 <= Point.x p)
  /\ (DOMRect.top rect <= PointLike.clientY pointLike -> 0 <= Point.y p)
  /\ (forall other,
        PointLike.clientX pointLike <= PointLike.clientX other ->
        Point.x p <= Point.x (getCanvasCoordinates other canvas))
  /\ (forall other,
        PointLike.clientY pointLike <= PointLike.clientY other ->
        Point.y p <= Point.y (getCanvasCoordinates other canvas))
  /\ (DOMRect.width rect == HTMLCanvasElement.width canvas ->
      Point.x p == PointLike.clientX pointLike - DOMRect.left rect)
  /\ (DOMRect.height rect == HTMLCanvasElement.height canvas ->
      Point.y p == PointLike.clientY pointLike - DOMRect.top rect).
Proof.
  intros rect Hw Hh HW HH p. subst p rect. unfold getCanvasCoordinates.
  cbn [Point.x Point.y].
  set (rect := HTMLCanvasElement.getBoundingClientRect canvas) in *.
  pose proof (scale_nonneg _ _ Hw HW) as Hx. pose proof (scale_nonneg _ _ Hh HH) as Hy.
  split; [|split; [|split; [|split; [|split; [|split; [|split]]]]]].
  - intros ->. field. lra.
  - intros ->. field. lra.
  - intros Hl. apply Qmult_le_0_compat; lra.
  - intros Ht. apply Qmult_le_0_compat; lra.
  - intros other Hle. apply Qmult_le_compat_r; lra.
  - intros other Hle. apply Qmult_le_compat_r; lra.
  - intros <-. field. lra.
  - intros <-. field. lra.
Qed.

Lemma getCanvasCoordinates_monotone_witness :
  let canvas := HTMLCanvasElement.mk 800 600 (DOMRect.mk 16 20 352 292) in
  Point.x (getCanvasCoordinates (at_ 16 20) canvas) == 0
  /\ 0 <= Point.x (getCanvasCoordinates (at_ 110 170) canvas)
  /\ Point.x (getCanvasCoordinates (at_ 110 170) canvas)
     <= Point.x (getCanvasCoordinates (at_ 368 170) canvas).
Proof.
  intros canvas.
  assert (H : forall pointLike,
            let p := getCanvasCoordinates pointLike canvas in
            (PointLike.clientX pointLike == 16 -> Point.x p == 0)
            /\ (16 <= PointLike.clientX pointLike -> 0 <= Point.x p)
            /\ forall other,
                 PointLike.clientX pointLike <= PointLike.clientX other ->
                 Point.x p <= Point.x (getCanvasCoordinates other canvas)).
  { intros pointLike.
    destruct (getCanvasCoordinates_monotone canvas pointLike)
      as (H1 & _ & H3 & _ & H5 & _); try (vm_compute; reflexivity);
      try (vm_compute; discriminate).
    auto. }
  split; [apply (H (at_ 16 20)); reflexivity|].
  split; [apply (H (at_ 110 170)); vm_compute; discriminate|].
  apply (H (at_ 110 170)). vm_compute. discriminate.
Defined.

(** ** Ids of the generated paths *)

Lemma returns_forEach_each {A B} (l : list A) (body : A -> Gen B) (R : A -> B -> Prop) :
  (forall a, a ∈ l -> returns (body a) (R a)) ->
  returns (forEach l body) (fun bs => Forall2 R l bs).
Proof.
  induction l as [|a l IH]; intros Hb; simpl.
  - apply returns_gret. constructor.
  - eapply returns_gbind; [apply Hb, list_elem_of_here|].
    intros b Rb. eapply returns_gbind.
    + apply IH. intros a' Ha'. apply Hb. apply list_elem_of_further, Ha'.
    + intros bs Hall. apply returns_gret. constructor; assumption.
Qed.

Lemma returns_forLt_each {B} (Inv : Q -> Prop) (R : Q -> B -> Prop)
    (bound : Q) (incr : Q -> Gen Q) (body : Q -> Gen B) :
  (forall v, Inv v -> v < bound -> returns (body v) (R v)) ->
  (forall v, Inv v -> v < bound -> returns (incr v) (fun v' => Inv v' /\ v + 1 <= v')) ->
  forall fuel v, Inv v -> bound - v <= num fuel ->
    returns (forLt fuel v bound incr body)
      (fun bs => exists vs, Forall2 R vs bs /\ climbing v vs /\ Forall Inv vs).
Proof.
  intros Hbody Hincr. induction fuel as [|fuel IH]; intros v Hv Hfuel; simpl.
  - destruct (Qltb v bound) eqn:E.
    + apply Qltb_lt in E. rewrite num_0 in Hfuel. lra.
    + apply returns_gret. exists []. repeat constructor.
  - destruct (Qltb v bound) eqn:E.
    + apply Qltb_lt in E.
      eapply returns_gbind; [apply Hbody; assumption|]. intros b Rb.
      eapply returns_gbind; [apply Hincr; assumption|]. intros v' [Hv' Hstep].
      eapply returns_gbind.
      * apply IH; [exact Hv'|]. rewrite num_S in Hfuel. lra.
      * intros bs (vs & Hall & Hc & Hi). apply returns_gret.
        exists (v :: vs). split; [constructor; assumption|]. split.
        -- simpl. split; [lra|]. destruct vs as [|v0 vs]; [exact I|].
           simpl in *. destruct Hc as [Hc1 Hc2]. split; [lra | exact Hc2].
        -- constructor; assumption.
    + apply returns_gret. exists []. repeat constructor.
Qed.

Lemma climbing_above v vs : climbing v vs -> Forall (fun x => v <= x) vs.
Proof.
  revert v. induction vs as [|v' vs IH]; intros v; simpl; [constructor|].
  intros [Hv Hc]. constructor; [exact Hv|].
  eapply Forall_impl; [apply IH, Hc|]. simpl. intros x Hx. lra.
Qed.

Lemma climbing_NoDup {K} (key : Q -> K) v vs :
  (forall a b, In a vs -> a + 1 <= b -> key a <> key b) ->
  climbing v vs -> NoDup (map key vs).
Proof.
  revert v. induction vs as [|v' vs IH]; intros v Hkey; simpl; [constructor|].
  intros [_ Hc]. constructor.
  - intros Hin. apply list_elem_of_fmap in Hin as (x & E & Hx).
    pose proof (climbing_above _ _ Hc) as Hab. rewrite Forall_forall in Hab.
    apply (Hkey v' x); [left; reflexivity | apply Hab, Hx | exact E].
  - apply (IH (v' + 1)); [|exact Hc]. intros a b Ha. apply Hkey. right. exact Ha.
Qed.

Lemma Qfloor_climbs a b : a + 1 <= b -> (Qfloor a < Qfloor b)%Z.
Proof.
  intros Hab. pose proof (Qfloor_le a) as Hf.
  assert (Hle : inject_Z (Qfloor a + 1) <= b).
  { rewrite inject_Z_plus. change (inject_Z 1) with 1. lra. }
  apply Qfloor_resp_le in Hle. rewrite Qfloor_Z in Hle. lia.
Qed.

Lemma toFixed0_climbs a b : 0 <= a -> a + 1 <= b -> toFixed0 a <> toFixed0 b.
Proof.
  intros Ha Hab. unfold toFixed0.
  assert (Ea : Qltb a 0 = false) by (apply Qltb_ge; exact Ha).
  assert (Eb : Qltb b 0 = false) by (apply Qltb_ge; lra).
  rewrite Ea, Eb. intros E. apply (inj pretty) in E.
  assert (Qfloor (a + 0.5) < Qfloor (b + 0.5))%Z by (apply Qfloor_climbs; lra). lia.
Qed.

Lemma Forall2_map_id {A} (f : A -> string) (l : list A)
    (bs : list (RakePath (list Point))) :
  Forall2 (fun a b => RakePath.id b = f a) l bs -> map RakePath.id bs = map f l.
Proof. induction 1; simpl; congruence. Qed.

Lemma NoDup_map_prefix {A} (prefix : string) (f : A -> string) (l : list A) :
  NoDup (map f l) -> NoDup (map (fun a => prefix +:+ f a) l).
Proof.
  intros Hn. rewrite <- (map_map f (String.append prefix)).
  apply NoDup_fmap_2; [|exact Hn]. intros a b E.
  induction prefix as [|c prefix IH]; simpl in E; [exact E|].
  injection E as E. auto.
Qed.

Lemma NoDup_pretty_seq (start len : nat) : NoDup (map pretty (seq start len)).
Proof. apply NoDup_fmap_2; [apply _ | apply NoDup_seq]. Qed.

Section Ids.
Context {M : MathLib}.
Variable canvas : HTMLCanvasElement.

Lemma ids_forEach (prefix : string) (l : list nat) (body : nat -> Gen (RakePath (list Point))) :
  NoDup l ->
  (forall i, returns (body i) (fun p => RakePath.id p = prefix +:+ pretty i)) ->
  returns (forEach l body) (fun paths => map RakePath.id paths = map (fun i => prefix +:+ pretty i) l
                                         /\ distinctIds paths).
Proof.
  intros Hl Hb. eapply returns_weaken.
  - apply (returns_forEach_each _ _ (fun i p => RakePath.id p = prefix +:+ pretty i)).
    intros i _. apply Hb.
  - intros bs Hall. simpl in Hall. apply Forall2_map_id in Hall.
    split; [exact Hall|]. unfold distinctIds. rewrite Hall.
    apply NoDup_map_prefix. apply NoDup_fmap_2; [apply _ | exact Hl].
Qed.

Lemma concentricCircles_ids : returns (concentricCircles canvas) distinctIds.
Proof.
  unfold concentricCircles. eapply returns_weaken.
  - apply (returns_forLt_each (fun v => 50 <= v)
             (fun v p => RakePath.id p = "circle-" +:+ Number_toString v)).
    + intros v Hv _. eapply returns_gbind; [apply returns_rand|]. intros u _.
      apply returns_gret. reflexivity.
    + intros v Hv _. apply returns_gret. lra.
    + lra.
    + apply fuelUpTo_enough. lra.
  - intros bs (vs & Hall & Hc & _). simpl in Hall.
    apply Forall2_map_id in Hall. unfold distinctIds. rewrite Hall.
    apply NoDup_map_prefix. eapply climbing_NoDup; [|exact Hc].
    intros a b _ Hab E. unfold Number_toString in E. apply (inj pretty) in E.
    pose proof (Qfloor_climbs a b Hab). lia.
Qed.

Lemma spiralGarden_ids : returns (spiralGarden canvas) distinctIds.
Proof.
  unfold spiralGarden. eapply returns_gbind; [apply returns_rand|]. intros u _.
  apply returns_gret. apply NoDup_singleton.
Qed.

Lemma wavePatterns_ids : returns (wavePatterns canvas) distinctIds.
Proof.
  unfold wavePatterns. eapply returns_weaken.
  - apply (ids_forEach "wave-"); [apply NoDup_seq|]. intros i.
    eapply returns_gbind; [apply returns_rand|]. intros u1 _.
    eapply returns_gbind; [apply returns_rand|]. intros u2 _.
    eapply returns_gbind; [apply returns_rand|]. intros u3 _.
    apply returns_gret. reflexivity.
  - intros bs [_ Hn]. exact Hn.
Qed.

Lemma mandala_ids : returns (mandala canvas) distinctIds.
Proof.
  unfold mandala. eapply returns_gbind.
  - apply (ids_forEach "petal-"); [apply NoDup_seq|]. intros i.
    eapply returns_gbind; [apply returns_rand|]. intros u _.
    apply returns_gret. reflexivity.
  - intros paths [Hids Hn]. apply returns_gret. unfold distinctIds in *.
    rewrite map_app. apply NoDup_app. split; [exact Hn|]. split.
    + intros x Hx Hc. apply list_elem_of_singleton in Hc. subst x.
      rewrite Hids in Hx. apply list_elem_of_fmap in Hx as (i & E & _). discriminate.
    + apply NoDup_singleton.
Qed.

Lemma rakedLines_ids : returns (rakedLines canvas) distinctIds.
Proof.
  unfold rakedLines. eapply returns_weaken.
  - apply (ids_forEach "zen-line-"); [apply NoDup_seq|]. intros i.
    eapply returns_gbind.
    + apply (returns_forEach _ _ (fun _ => True)). intros j _.
      eapply returns_gbind; [apply returns_rand|]. intros u _.
      apply returns_gret. exact I.
    + intros points _. eapply returns_gbind; [apply returns_rand|]. intros u _.
      apply returns_gret. reflexivity.
  - intros bs [_ Hn]. exact Hn.
Qed.

Lemma ellipticalRings_ids : returns (ellipticalRings canvas) distinctIds.
Proof.
  unfold ellipticalRings. eapply returns_gbind; [apply returns_rand|]. intros u0 _.
  eapply returns_weaken.
  - apply (returns_forLt_each (fun v => 40 <= v)
             (fun v p => RakePath.id p = "ellipse-" +:+ toFixed0 v)).
    + intros v Hv _. eapply returns_gbind; [apply returns_rand|]. intros u _.
      apply returns_gret. reflexivity.
    + intros v Hv _. apply returns_gret. lra.
    + lra.
    + apply fuelUpTo_enough. lra.
  - intros bs (vs & Hall & Hc & Hi). simpl in Hall.
    apply Forall2_map_id in Hall. unfold distinctIds. rewrite Hall.
    apply NoDup_map_prefix. eapply climbing_NoDup; [|exact Hc].
    intros a b Ha Hab. apply toFixed0_climbs; [|exact Hab].
    rewrite Forall_forall in Hi. apply list_elem_of_In in Ha. specialize (Hi a Ha). lra.
Qed.

Lemma doubleSpiral_ids : returns (doubleSpiral canvas) distinctIds.
Proof.
  unfold doubleSpiral. eapply returns_gbind; [apply returns_rand|]. intros u1 _.
  eapply returns_gbind; [apply returns_rand|]. intros u2 _.
  apply returns_gret. unfold distinctIds. simpl.
  apply NoDup_cons. split; [|apply NoDup_singleton].
  intros Hc. apply list_elem_of_singleton in Hc. discriminate.
Qed.

Lemma bambooGrove_ids : returns (bambooGrove canvas) distinctIds.
Proof.
  unfold bambooGrove. eapply returns_gbind; [apply returns_rand|]. intros u0 _.
  eapply returns_weaken.
  - apply (ids_forEach "bamboo-"); [apply NoDup_seq|]. intros i.
    eapply returns_gbind; [apply returns_rand|]. intros u1 _.
    eapply returns_gbind; [apply returns_rand|]. intros u2 _.
    eapply returns_gbind; [apply returns_rand|]. intros u3 _.
    apply returns_gret. reflexivity.
  - intros bs [_ Hn]. exact Hn.
Qed.

Lemma serpentine_ids : returns (serpentine canvas) distinctIds.
Proof.
  unfold serpentine. eapply returns_gbind.
  - apply (returns_forEach _ _ (fun _ => True)). intros row _.
    eapply returns_weaken.
    + apply (returns_forEach _ _ (fun _ => True)). intros i _.
      eapply returns_gbind; [apply returns_rand|]. intros u _.
      apply returns_gret. exact I.
    + intros; exact I.
  - intros segments _. eapply returns_gbind; [apply returns_rand|]. intros u _.
    apply returns_gret. apply NoDup_singleton.
Qed.

End Ids.

Lemma rippleOf_apart c c' p :
  (c < 3)%nat -> (c' < 3)%nat -> rippleOf c p -> rippleOf c' p -> c = c'.
Proof.
  intros Hc Hc' [t E] [t' E']. rewrite E in E'. clear E.
  destruct c as [|[|[|c]]]; [| | |lia];
    destruct c' as [|[|[|c']]]; try lia; try reflexivity;
    vm_compute in E'; discriminate.
Qed.

Lemma NoDup_concat_rings (cs : list nat) (rings : list (list (RakePath (list Point)))) :
  NoDup cs -> Forall (fun c => (c < 3)%nat) cs ->
  Forall2 (fun c ring => distinctIds ring /\ Forall (rippleOf c) ring) cs rings ->
  distinctIds (concat rings)
  /\ Forall (fun p => exists c, c ∈ cs /\ rippleOf c p) (concat rings).
Proof.
  intros Hn Hlt Hall. induction Hall as [|c ring cs rings [Hd Hr] _ IH]; simpl.
  - split; constructor.
  - apply NoDup_cons in Hn as [Hc Hn]. apply Forall_cons in Hlt as [Hc3 Hlt].
    destruct (IH Hn Hlt) as [IHd IHr]. split.
    + unfold distinctIds in *. rewrite map_app. apply NoDup_app. split; [exact Hd|].
      split; [|exact IHd]. intros x Hx Hx'.
      apply list_elem_of_fmap in Hx as (p & -> & Hp).
      apply list_elem_of_fmap in Hx' as (p' & E & Hp').
      rewrite Forall_forall in Hr. rewrite Forall_forall in IHr. rewrite Forall_forall in Hlt.
      destruct (IHr p' Hp') as (c' & Hc' & [t' Et']).
      apply Hc. replace c with c'; [exact Hc'|]. symmetry.
      apply (rippleOf_apart c c' p); [exact Hc3 | apply Hlt, Hc' | apply Hr, Hp|].
      exists t'. rewrite E. exact Et'.
    + apply Forall_app. split.
      * eapply Forall_impl; [exact Hr|]. intros p Hp. exists c. split; [left | exact Hp].
      * eapply Forall_impl; [exact IHr|]. intros p (c' & Hc' & Hp).
        exists c'. split; [right; exact Hc' | exact Hp].
Qed.

Section LayoutIds.
Context {M : MathLib}.
Variable canvas : HTMLCanvasElement.

Lemma ripples_ids : returns (ripples canvas) distinctIds.
Proof.
  unfold ripples. eapply returns_gbind; [apply returns_rand|]. intros u0 [Hu0 Hu1].
  assert (Hcs : Forall (fun c => (c < 3)%nat) (countBelow (2 + inject_Z (Qfloor (u0 * 2))))).
  { apply Forall_forall. intros c Hc. unfold countBelow in Hc.
    apply elem_of_seq in Hc as [_ Hc]. rewrite Nat.add_0_l in Hc.
    assert (Hf : (Qfloor (u0 * 2) <= 1)%Z).
    { apply Z.lt_succ_r. rewrite Zlt_Qlt. pose proof (Qfloor_le (u0 * 2)).
      change (inject_Z (Z.succ 1)) with 2. lra. }
    assert (Hq : (Qceiling (2 + inject_Z (Qfloor (u0 * 2))) <= 3)%Z).
    { change 3%Z with (Qceiling (inject_Z 3)). apply Qceiling_resp_le.
      assert (inject_Z (Qfloor (u0 * 2)) <= inject_Z 1) by (rewrite <- Zle_Qle; exact Hf).
      change (inject_Z 1) with 1 in *. change (inject_Z 3) with 3. lra. }
    lia. }
  eapply returns_gbind.
  - apply (returns_forEach_each _ _
             (fun c ring => distinctIds ring /\ Forall (rippleOf c) ring)).
    intros c _.
    eapply returns_gbind; [apply returns_rand|]. intros u1 _.
    eapply returns_gbind; [apply returns_rand|]. intros u2 _.
    eapply returns_weaken.
    + apply (returns_forLt_each (fun v => 40 <= v)
               (fun v p => RakePath.id p = "ripple-" +:+ pretty c +:+ "-" +:+ toFixed0 v)).
      * intros v Hv _. eapply returns_gbind; [apply returns_rand|]. intros u _.
        apply returns_gret. reflexivity.
      * intros v Hv _. eapply returns_gbind; [apply returns_rand|]. intros u [Hu _].
        apply returns_gret. lra.
      * lra.
      * apply fuelUpTo_enough. lra.
    + intros bs (vs & Hall & Hc & Hi). simpl in Hall. split.
      * pose proof (Forall2_map_id _ _ _ Hall) as Hids. unfold distinctIds.
        rewrite Hids.
        rewrite <- (map_map toFixed0 (fun t => "ripple-" +:+ pretty c +:+ "-" +:+ t)).
        apply NoDup_fmap_2.
        -- intros a b E. simpl in E. injection E as E.
           revert E. generalize (pretty c). intros pc E.
           induction pc as [|ch pc IH]; simpl in E; injection E as E; auto.
        -- eapply climbing_NoDup; [|exact Hc].
           intros a b Ha Hab. apply toFixed0_climbs; [|exact Hab].
           rewrite Forall_forall in Hi. apply list_elem_of_In in Ha.
           specialize (Hi a Ha). lra.
      * clear -Hall. induction Hall as [|v p vs bs E _ IH]; constructor; [|exact IH].
        eexists. exact E.
  - intros rings Hall. apply returns_gret.
    apply (NoDup_concat_rings (countBelow (2 + inject_Z (Qfloor (u0 * 2))))); 
      [apply NoDup_seq | exact Hcs | exact Hall].
Qed.

(** The paths of every layout have ids of their own. *)
Lemma patterns_ids g : g ∈ patterns canvas -> returns g distinctIds.
Proof.
  unfold patterns. intros Hg.
  repeat (apply elem_of_cons in Hg as [->|Hg];
          [auto using concentricCircles_ids, spiralGarden_ids,
             wavePatterns_ids, mandala_ids, rakedLines_ids,
             ellipticalRings_ids, doubleSpiral_ids, bambooGrove_ids,
             ripples_ids, serpentine_ids|]).
  inversion Hg.
Qed.

(** What every layout returns, the selected one returns. *)
Lemma generateZenPattern_selects (P : list (RakePath (list Point)) -> Prop) :
  (forall g, g ∈ patterns canvas -> returns g P) ->
  returns (generateZenPattern canvas) P.
Proof.
  intros Hall.
  unfold generateZenPattern. eapply returns_gbind; [apply returns_rand|].
  intros u [Hu0 Hu1]. unfold callPattern.
  assert (H0 : (0 <= Qfloor (u * num (length (patterns canvas))))%Z).
  { apply (Qfloor_resp_le 0). change (num (length (patterns canvas))) with 10. lra. }
  assert (H1 : (Qfloor (u * num (length (patterns canvas))) < 10)%Z).
  { apply Z.lt_nge. intros Hge. 
    pose proof (Qfloor_le (u * num (length (patterns canvas)))) as Hf.
    assert (inject_Z 10 <= inject_Z (Qfloor (u * num (length (patterns canvas)))))
      by (rewrite <- Zle_Qle; exact Hge).
    change (num (length (patterns canvas))) with 10 in *.
    change (inject_Z 10) with 10 in *. lra. }
  generalize dependent (Qfloor (u * num (length (patterns canvas)))). intros index H0 H1.
  destruct (Z.ltb_spec index 0) as [Hlt|_]; [lia|].
  destruct (patterns canvas !! Z.to_nat index) as [g|] eqn:Eg.
  - apply Hall. eapply list_elem_of_lookup_2, Eg.
  - apply lookup_ge_None in Eg. change (length (patterns canvas)) with 10%nat in Eg. lia.
Qed.

(** X2. Each of the ten layouts returns, whatever the canvas and the draws,
    paths whose ids differ from one another, and so does
    [generateZenPattern], which calls one of them: as [generatePattern]
    reveals a path it takes the place of any path of the same id, so that no
    path of a pattern is lost to the next. *)
Theorem layouts_distinct_ids (r : Rng) :
  unit_draws r ->
  (forall g, g ∈ patterns canvas ->
     exists paths r', g r = Some (paths, r') /\ distinctIds paths)
  /\ exists paths r', generateZenPattern canvas r = Some (paths, r') /\ distinctIds paths.
Proof.
  intros Hu. split.
  - intros g Hg. destruct (patterns_ids g Hg r Hu) as (paths & r' & E & _ & Hids). eauto.
  - destruct (generateZenPattern_selects distinctIds patterns_ids r Hu)
      as (paths & r' & E & _ & Hids).
    eauto.
Qed.

End LayoutIds.

(** ** The snapshot of a mutating operation *)

Section SnapshotTheorem.
Context {M : MathLib}.

(** [generatePattern] returns, on any canvas, when the draws are in [0, 1). *)
Lemma generatePattern_total canvas s :
  unit_draws (random s) -> exists s', generatePattern (Some canvas) s = Some s'.
Proof.
  intros Hu. unfold generatePattern.
  destruct (generateZenPattern_selects canvas (fun _ => True)) with
    (r := random (setPlacedObjects (fun _ => [])
                    (setRakePaths (fun _ => [])
                       (saveState (rakePaths s) (placedObjects s) s))))
    as (newPaths & r' & E & _).
  - intros g Hg. eapply returns_weaken; [apply (patterns_ids canvas g Hg) | auto].
  - exact Hu.
  - cbv zeta. rewrite E. eauto.
Qed.

(** C3. Every mutating operation (pointer or touch down with either tool,
    reset, generate) pushes the snapshot of the scene it starts from before it
    changes the scene: the stack it leaves is the old one with that snapshot
    pushed (the oldest dropped beyond 20), the snapshot reads as the scene
    before the operation, and one undo brings that scene back.
    [generatePattern] does return, whatever the canvas, when the draws are in
    [0, 1), and so does the click on Auto Pattern that calls it; the timers
    of its animation, however many have fired, push nothing more, so that
    the whole operation adds one entry. *)
Theorem snapshot_before_mutation canvas now s :
  wellFormed s ->
  (forall event, snapshotTaken s (handleMouseDown (Some canvas) now event s))
  /\ (forall touch others,
        snapshotTaken s (handleTouchStart (Some canvas) now (touch :: others) s))
  /\ snapshotTaken s (clearGarden s)
  /\ (unit_draws (random s) ->
      (exists s', generatePattern (Some canvas) s = Some s' /\ snapshotTaken s s')
      /\ (isGeneratingPattern s = false ->
          (exists s',
             handleGeneratePattern (Some canvas) s = Some s' /\ snapshotTaken s s')
          /\ forall timers,
               exists s',
                 run s (opEvents (Generate canvas timers)) = Some s'
                 /\ undoStack s' = pushed s)).
Proof.
  intros Hw. split; [|split; [|split]].
  - intros event. apply snapshotTaken_intro;
      [exact Hw | apply pointerDown_undoStack | apply untouched_pointerDown].
  - intros touch others. apply snapshotTaken_intro;
      [exact Hw | apply pointerDown_undoStack | apply untouched_pointerDown].
  - apply snapshotTaken_intro; [exact Hw | reflexivity | intros a _; reflexivity].
  - intros Hu. split.
    { destruct (generatePattern_total canvas s Hu) as [s' Hg]. exists s'.
      split; [exact Hg|]. apply snapshotTaken_intro;
        [exact Hw | eapply generatePattern_undoStack, Hg
        | eapply untouched_generatePattern, Hg]. }
    intros Hflag.
    destruct (generatePattern_total canvas (setIsGeneratingPattern true s) Hu) as [s1 Hg].
    assert (Hclick : handleGeneratePattern (Some canvas) s = Some (settle s1)).
    { unfold handleGeneratePattern. rewrite Hflag, Hg. reflexivity. }
    assert (Hstack : undoStack (settle s1) = pushed s).
    { rewrite settle_undoStack. apply (generatePattern_undoStack canvas _ _ Hg). }
    split.
    + exists (settle s1). split; [exact Hclick|].
      apply snapshotTaken_intro; [exact Hw | exact Hstack|].
      intros a Ha. unfold settle.
      pose proof (untouched_generatePattern _ _ _ Hg a Ha) as E.
      destruct (animation s1); exact E.
    + intros timers.
      destruct (run_timeouts canvas timers (settle s1)) as (s' & Hr & Hu' & _).
      exists s'. split; [|rewrite Hu'; exact Hstack].
      cbn [opEvents run step fst snd on canvasRef]. rewrite Hclick. exact Hr.
Qed.

End SnapshotTheorem.

Lemma snapshot_before_mutation_witness :
  let s := handleMouseDown (Some canvas800) 0 (at_ 100 100)
             (setTool place (initialState halves)) in
  wellFormed s
  /\ snapshotTaken s (handleMouseDown (Some canvas800) 1 (at_ 10 10) s)
  /\ snapshotTaken s (handleTouchStart (Some canvas800) 1 [at_ 10 10] s)
  /\ snapshotTaken s (clearGarden s)
  /\ (exists s', generatePattern (M := sampleMath) (Some canvas800) s = Some s'
                 /\ snapshotTaken s s')
  /\ exists s', run (M := sampleMath) s (opEvents (Generate canvas800 [0; 0; 0]%Z)) = Some s'
                /\ undoStack s' = pushed s.
Proof.
  intros s.
  assert (Hw : wellFormed s).
  { unfold s, handleMouseDown. apply wellFormed_pointerDown. apply wellFormed_initialState. }
  assert (Hu : unit_draws (random s)) by (intros n; vm_compute; split; [discriminate | reflexivity]).
  destruct (snapshot_before_mutation (M := sampleMath) canvas800 1 s Hw)
    as (H1 & H2 & H3 & H4).
  destruct (H4 Hu) as (H5 & H6).
  split; [exact Hw|]. split; [apply H1|]. split; [apply H2|]. split; [exact H3|]. split; [exact H5|].
  apply (proj2 (H6 eq_refl)).
Defined.

(** ** The scene while a pattern is revealed *)

Lemma viewPaths_app h l1 l2 : viewPaths h (l1 ++ l2) = viewPaths h l1 ++ viewPaths h l2.
Proof. apply map_app. Qed.

Lemma viewPaths_alter f a h l :
  Forall (fun q => RakePath.points q <> a) l ->
  viewPaths (alter f a h) l = viewPaths h l.
Proof.
  intros Hl. unfold viewPaths. apply map_ext_Forall.
  eapply Forall_impl; [exact Hl|]. intros q Hq. simpl.
  unfold viewPath, deref. rewrite list_lookup_alter_ne by auto. reflexivity.
Qed.

Lemma viewPaths_alloc v h l :
  Forall (fun q => (RakePath.points q < length h)%nat) l ->
  viewPaths (h ++ [v]) l = viewPaths h l.
Proof.
  intros Hl. unfold viewPaths. apply map_ext_Forall.
  eapply Forall_impl; [exact Hl|]. intros q Hq. simpl.
  unfold viewPath, deref. rewrite lookup_app_l by exact Hq. reflexivity.
Qed.

Lemma ids_viewPaths h l : map RakePath.id (viewPaths h l) = map RakePath.id l.
Proof. unfold viewPaths. rewrite map_map. reflexivity. Qed.

Lemma filter_other_ids (i : string) (l : list (RakePath nat)) :
  i ∉ map RakePath.id l -> filter (fun q => RakePath.id q <> i) l = l.
Proof.
  induction l as [|q l IH]; intros Hi; [reflexivity|].
  rewrite filter_cons. simpl in Hi. rewrite not_elem_of_cons in Hi. destruct Hi as [Hq Hl].
  destruct (decide (RakePath.id q <> i)) as [_|Hn]; [rewrite IH by exact Hl; reflexivity|].
  exfalso. apply Hn. congruence.
Qed.

Lemma filter_same_id (i : string) (l : list (RakePath nat)) (an : RakePath nat) :
  i ∉ map RakePath.id l -> RakePath.id an = i ->
  filter (fun q => RakePath.id q <> i) (l ++ [an]) = l.
Proof.
  intros Hi Ha. rewrite filter_app, filter_other_ids by exact Hi.
  rewrite filter_cons. destruct (decide (RakePath.id an <> i)) as [Hn|_]; [contradiction|].
  rewrite filter_nil. apply app_nil_r.
Qed.

Lemma withPoints_app l1 l2 : withPoints (l1 ++ l2) = withPoints l1 ++ withPoints l2.
Proof. apply filter_app. Qed.

Lemma ids_withPoints_sub i l : i ∈ map RakePath.id (withPoints l) -> i ∈ map RakePath.id l.
Proof.
  intros Hi. apply list_elem_of_fmap in Hi as (p & -> & Hp).
  apply list_elem_of_filter in Hp as [_ Hp]. apply list_elem_of_fmap. eauto.
Qed.

Section Unveiling.
Context {M : MathLib}.
Variable canvas : HTMLCanvasElement.

Lemma scene_placeObjects s : (scene (placeObjects canvas s)).1 = (scene s).1.
Proof. unfold scene. rewrite rakePaths_placeObjects, arrays_placeObjects. reflexivity. Qed.

Lemma placeObjects_unveiling newPaths s :
  (scene s).1 = withPoints newPaths -> unveiling canvas newPaths (placeObjects canvas s).
Proof.
  intros Hs. unfold unveiling.
  destruct (animation_placeObjects canvas s) as [->|[n ->]];
    rewrite scene_placeObjects; exact Hs.
Qed.

(** From the head of a turn of the loop over the paths. *)
Lemma animatePaths_unveiling newPaths paths : forall done s,
  newPaths = done ++ paths -> distinctIds newPaths ->
  viewPaths (arrays s) (rakePaths s) = withPoints done ->
  Forall (fun q => (RakePath.points q < length (arrays s))%nat) (rakePaths s) ->
  unveiling canvas newPaths (animatePaths canvas paths s).
Proof.
  induction paths as [|path rest IH]; intros done s Hnew Hids Hview Hrefs.
  - simpl. apply placeObjects_unveiling. rewrite app_nil_r in Hnew. subst done. exact Hview.
  - destruct path as [pid [|p pts] w]; simpl.
    + apply (IH (done ++ [RakePath.mk pid [] w])).
      * rewrite <- app_assoc. exact Hnew.
      * exact Hids.
      * simpl. rewrite viewPaths_alloc by exact Hrefs. rewrite withPoints_app.
        unfold withPoints at 2. rewrite filter_cons. simpl.
        rewrite filter_nil, app_nil_r. exact Hview.
      * simpl. rewrite length_app. eapply Forall_impl; [exact Hrefs|]. simpl. lia.
    + unfold unveiling. simpl.
      assert (Hfresh : pid ∉ map RakePath.id (rakePaths s)).
      { rewrite <- (ids_viewPaths (arrays s)), Hview. intros Hin.
        apply ids_withPoints_sub in Hin. unfold distinctIds in Hids.
        rewrite Hnew, map_app in Hids. apply NoDup_app in Hids as (_ & Hd & _).
        apply (Hd pid Hin). simpl. left. }
      exists done, (rakePaths s). rewrite ?rakePaths_reveal, ?arrays_reveal. simpl.
      rewrite filter_other_ids by exact Hfresh.
      repeat split; try reflexivity.
      * exact Hnew.
      * rewrite viewPaths_alter, viewPaths_alloc; [exact Hview | exact Hrefs |].
        eapply Forall_impl; [exact Hrefs|]. simpl. lia.
      * exact Hrefs.
      * rewrite lookup_alter_fresh. reflexivity.
      * lia.
Qed.

Lemma resume_unveiling now newPaths k s :
  distinctIds newPaths -> animation s = Some k ->
  unveiling canvas newPaths s -> unveiling canvas newPaths (resume now k s).
Proof.
  intros Hids Ek Hu. unfold unveiling in Hu. rewrite Ek in Hu.
  destruct k as [c path an i rest|c i objectCount].
  - destruct Hu as (done & donePaths & -> & Hnew & Hr & Hview & Hrefs & Hid & Hw & Ha & Hi).
    assert (Hfresh : RakePath.id path ∉ map RakePath.id donePaths).
    { rewrite <- (ids_viewPaths (arrays s)), Hview. intros Hin.
      apply ids_withPoints_sub in Hin. unfold distinctIds in Hids.
      rewrite Hnew, map_app in Hids. apply NoDup_app in Hids as (_ & Hd & _).
      apply (Hd _ Hin). simpl. left. }
    simpl. destruct (RakePath.points path !! S i) as [p|] eqn:Ep.
    + unfold unveiling. simpl. exists done, donePaths.
      rewrite rakePaths_reveal, arrays_reveal, Hr.
      rewrite filter_same_id by assumption.
      repeat split; try assumption; try reflexivity.
      * rewrite viewPaths_alter; [exact Hview|].
        eapply Forall_impl; [exact Hrefs|]. simpl. lia.
      * rewrite list_lookup_alter_eq, Ha. simpl. f_equal. symmetry.
        apply take_S_r, Ep.
      * apply lookup_lt_Some in Ep. lia.
    + apply lookup_ge_None in Ep. rewrite take_ge in Ha by exact Ep.
      apply (animatePaths_unveiling newPaths rest (done ++ [path])).
      * rewrite <- app_assoc. exact Hnew.
      * exact Hids.
      * rewrite Hr, viewPaths_app, withPoints_app, Hview. f_equal.
        unfold withPoints. rewrite filter_cons.
        destruct (decide (0 < length (RakePath.points path))%nat) as [_|Hn]; [|lia].
        rewrite filter_nil. simpl. unfold viewPath, deref. rewrite Ha. simpl.
        rewrite Hid, Hw. destruct path; reflexivity.
      * rewrite Hr. apply lookup_lt_Some in Ha. apply Forall_app. split.
        -- eapply Forall_impl; [exact Hrefs|]. simpl. lia.
        -- apply Forall_singleton. exact Ha.
  - destruct (resume_object now c i objectCount s) as (Er & Ea & Ek').
    unfold unveiling.
    assert (Hs : (scene (resume now (AwaitObject c i objectCount) s)).1 = (scene s).1).
    { unfold scene. rewrite Er, Ea. reflexivity. }
    destruct Ek' as [->|[-> _]]; rewrite Hs; exact Hu.
Qed.

Lemma settle_unveiling newPaths s : unveiling canvas newPaths s -> unveiling canvas newPaths (settle s).
Proof.
  unfold settle, unveiling. destruct (animation s) eqn:Ek; [rewrite Ek; auto|].
  simpl. rewrite Ek. auto.
Qed.

Lemma timeouts_unveiling newPaths timers : forall s s',
  distinctIds newPaths ->
  run s (map (fun t => on canvas t Timeout) timers) = Some s' ->
  unveiling canvas newPaths s -> unveiling canvas newPaths s'.
Proof.
  induction timers as [|t timers IH]; intros s s' Hids; simpl.
  - intros [= <-]. auto.
  - destruct (animation s) as [k|] eqn:Ek.
    + intros Hr Hv. eapply IH; [exact Hids | exact Hr|].
      apply settle_unveiling, resume_unveiling; assumption.
    + apply IH, Hids.
Qed.

End Unveiling.

(** ** The objects and the timers of a pattern *)

Lemma objectTimers_more i objectCount :
  num (S i) < objectCount -> objectTimers i objectCount = S (objectTimers (S i) objectCount).
Proof.
  intros Hlt. unfold objectTimers.
  pose proof (Qle_ceiling objectCount) as Hc.
  assert (Hz : (Z.of_nat (S i) < Qceiling objectCount)%Z).
  { rewrite Zlt_Qlt. unfold num in Hlt. lra. }
  lia.
Qed.

Lemma objectTimers_last i objectCount :
  objectCount <= num (S i) -> objectTimers i objectCount = 1%nat.
Proof.
  intros Hle. unfold objectTimers. unfold num in Hle.
  apply Qceiling_resp_le in Hle. rewrite Qceiling_Z in Hle. lia.
Qed.

Section Timers.
Context {M : MathLib}.

Lemma animation_placeObjects_random canvas s s' :
  random s = random s' ->
  animation (placeObjects canvas s) = animation (placeObjects canvas s').
Proof.
  intros E. unfold placeObjects, draw. simpl. rewrite E.
  repeat case_match; reflexivity.
Qed.

Lemma objectsToCome_random canvas s s' :
  random s = random s' -> objectsToCome canvas s = objectsToCome canvas s'.
Proof.
  intros E. unfold objectsToCome. rewrite (animation_placeObjects_random canvas s s' E).
  reflexivity.
Qed.

Lemma random_reveal path an i p s : random (reveal path an i p s) = random s.
Proof. unfold reveal. case_match; reflexivity. Qed.

Lemma placedObjects_reveal path an i p s :
  placedObjects (reveal path an i p s) = placedObjects s.
Proof. unfold reveal. case_match; reflexivity. Qed.

Ltac same_draws canvas s :=
  match goal with
  | |- context [objectsToCome canvas ?x] =>
      tryif constr_eq x s then fail
      else rewrite (objectsToCome_random canvas x s)
             by (simpl; rewrite ?random_reveal; reflexivity)
  end.

Lemma timersLeft_placeObjects canvas s :
  timersLeft (placeObjects canvas s) = objectsToCome canvas s.
Proof.
  unfold timersLeft, objectsToCome.
  destruct (animation_placeObjects canvas s) as [->|[n ->]]; reflexivity.
Qed.

Lemma timersLeft_animatePaths canvas paths : forall s,
  timersLeft (animatePaths canvas paths s) = (pointsLeft paths + objectsToCome canvas s)%nat.
Proof.
  induction paths as [|path rest IH]; intros s.
  - simpl. apply timersLeft_placeObjects.
  - destruct path as [pid [|p pts] w]; simpl.
    + rewrite IH. unfold pointsLeft. simpl. same_draws canvas s. reflexivity.
    + unfold timersLeft. simpl. unfold pointsLeft. simpl.
      same_draws canvas s. lia.
Qed.

Lemma timersLeft_settle s : timersLeft (settle s) = timersLeft s.
Proof.
  unfold settle. destruct (animation s) eqn:E; [reflexivity|].
  unfold timersLeft. simpl. rewrite E. reflexivity.
Qed.

(** Each timer is one timer less to wait for. *)
Lemma timersLeft_resume canvas n now k s :
  animation s = Some k -> placing canvas n s ->
  timersLeft s = S (timersLeft (settle (resume now k s))).
Proof.
  intros Ek (_ & Hk). rewrite Ek in Hk. rewrite timersLeft_settle.
  unfold timersLeft at 1. rewrite Ek.
  destruct k as [c path an i rest|c i objectCount].
  - destruct Hk as (-> & _ & _ & Hi). simpl.
    destruct (RakePath.points path !! S i) as [p|] eqn:Ep.
    + apply lookup_lt_Some in Ep. unfold timersLeft. simpl.
      same_draws canvas s. lia.
    + apply lookup_ge_None in Ep. rewrite timersLeft_animatePaths. lia.
  - simpl. unfold draw. simpl.
    destruct (Qltb (num (S i)) objectCount) eqn:E.
    + apply Qltb_lt in E. unfold timersLeft. simpl. apply objectTimers_more, E.
    + apply Qltb_ge in E. unfold timersLeft. simpl. apply objectTimers_last, E.
Qed.

Lemma timersLeft_0 s : timersLeft s = 0%nat <-> animation s = None.
Proof.
  unfold timersLeft. destruct (animation s) as [[c path an i rest|c i objectCount]|].
  - split; [lia | discriminate].
  - unfold objectTimers. split; [lia | discriminate].
  - split; reflexivity.
Qed.

End Timers.

Lemma unit_draws_next r : unit_draws r -> unit_draws (Math_random r).2.
Proof. intros Hr. exact Hr. Qed.

Lemma floor_thirds u : 0 <= u -> u < 1 -> (0 <= Qfloor (u * 3) <= 2)%Z.
Proof.
  intros H0 H1. split.
  - apply (Qfloor_resp_le 0). lra.
  - apply Z.lt_succ_r. rewrite Zlt_Qlt. pose proof (Qfloor_le (u * 3)).
    change (inject_Z (Z.succ 2)) with 3. lra.
Qed.

Section Placing.
Context {M : MathLib}.
Variable canvas : HTMLCanvasElement.

Lemma objectsToCome_le s : unit_draws (random s) -> (objectsToCome canvas s <= 3)%nat.
Proof.
  intros Hu. unfold objectsToCome, placeObjects, draw. cbn -[Qfloor Qceiling Qltb].
  destruct (Qltb 0.3 _); cbn -[Qfloor Qceiling Qltb]; [|lia].
  set (u' := draws (random s) (S (cursor (random s)))).
  destruct (Hu (S (cursor (random s)))) as [H0 H1]. fold u' in H0, H1.
  destruct (Qltb (num 0) _); cbn -[Qfloor Qceiling Qltb]; [|lia].
  unfold objectTimers. pose proof (floor_thirds u' H0 H1) as Hf.
  assert (Hq : (Qceiling (1 + inject_Z (Qfloor (u' * 3))) <= Qceiling 3)%Z).
  { apply Qceiling_resp_le.
    assert (inject_Z (Qfloor (u' * 3)) <= inject_Z 2) by (rewrite <- Zle_Qle; lia).
    change (inject_Z 2) with 2 in *. lra. }
  change (Qceiling 3) with 3%Z in Hq. lia.
Qed.

Lemma placeObjects_placing s :
  unit_draws (random s) -> placedObjects s = [] ->
  placing canvas (objectsToCome canvas s) (placeObjects canvas s).
Proof.
  intros Hu Hp. unfold placing, objectsToCome.
  assert (Hsame : placedObjects (placeObjects canvas s) = [] 
                  /\ draws (random (placeObjects canvas s)) = draws (random s)).
  { unfold placeObjects, draw. simpl. repeat case_match; simpl; auto. }
  destruct Hsame as [Ep Ed]. rewrite Ep. split.
  - eapply unit_draws_same; [exact Ed | exact Hu].
  - destruct (animation_placeObjects canvas s) as [E|[n E]]; rewrite E.
    + reflexivity.
    + repeat split.
Qed.

Lemma animatePaths_placing paths : forall s,
  unit_draws (random s) -> placedObjects s = [] ->
  placing canvas (objectsToCome canvas s) (animatePaths canvas paths s).
Proof.
  induction paths as [|path rest IH]; intros s Hu Hp.
  - simpl. apply placeObjects_placing; assumption.
  - destruct path as [pid [|p pts] w]; simpl.
    + rewrite (objectsToCome_random canvas s (set_arrays (arrays s ++ [[]]) s)) by reflexivity.
      apply IH; assumption.
    + unfold placing. simpl. rewrite ?random_reveal, ?placedObjects_reveal. simpl.
      rewrite Hp. split; [exact Hu|].
      split; [reflexivity|]. split; [reflexivity|]. split; [|lia].
      apply objectsToCome_random. simpl. rewrite ?random_reveal. reflexivity.
Qed.

Lemma resume_placing n now k s :
  animation s = Some k -> placing canvas n s -> placing canvas n (resume now k s).
Proof.
  intros Ek (Hu & Hk). rewrite Ek in Hk.
  destruct k as [c path an i rest|c i objectCount].
  - destruct Hk as (-> & Hp & Hn & Hi). simpl.
    destruct (RakePath.points path !! S i) as [p|] eqn:Ep.
    + unfold placing. simpl. rewrite ?random_reveal, ?placedObjects_reveal, Hp.
      apply lookup_lt_Some in Ep.
      split; [exact Hu|].
      split; [reflexivity|]. split; [reflexivity|]. split; [|lia].
      rewrite <- Hn. apply objectsToCome_random. simpl. rewrite ?random_reveal. reflexivity.
    + rewrite <- Hn. apply animatePaths_placing; assumption.
  - destruct Hk as (-> & Hlen & Hn).
    unfold placing. split.
    + simpl. unfold draw. simpl. destruct (Qltb (num (S i)) objectCount); exact Hu.
    + simpl. unfold draw. simpl.
      destruct (Qltb (num (S i)) objectCount) eqn:E; simpl; rewrite length_app; simpl.
      * apply Qltb_lt in E. rewrite (objectTimers_more _ _ E) in Hn.
        repeat split; lia.
      * apply Qltb_ge in E. rewrite (objectTimers_last _ _ E) in Hn. lia.
Qed.

Lemma settle_placing n s : placing canvas n s -> placing canvas n (settle s).
Proof.
  unfold settle, placing. destruct (animation s) eqn:Ek; [rewrite Ek; auto|].
  simpl. rewrite Ek. auto.
Qed.

(** The timers of an animation, one by one. *)
Lemma timeouts_placing n timers : forall s s',
  run s (map (fun t => on canvas t Timeout) timers) = Some s' ->
  placing canvas n s ->
  placing canvas n s' /\ timersLeft s' = (timersLeft s - length timers)%nat.
Proof.
  induction timers as [|t timers IH]; intros s s'; simpl.
  - intros [= <-]. split; [assumption | lia].
  - destruct (animation s) as [k|] eqn:Ek.
    + intros Hr Hp.
      destruct (IH _ _ Hr (settle_placing _ _ (resume_placing _ t _ _ Ek Hp))) as [Hp' Ht].
      split; [exact Hp'|]. rewrite Ht, (timersLeft_resume canvas n t k s Ek Hp). lia.
    + intros Hr Hp. destruct (IH _ _ Hr Hp) as [Hp' Ht]. split; [exact Hp'|].
      rewrite Ht. assert (timersLeft s = 0%nat) by (apply timersLeft_0, Ek). lia.
Qed.

Hypothesis wide : 200 <= HTMLCanvasElement.width canvas.
Hypothesis high : 200 <= HTMLCanvasElement.height canvas.

Lemma placedObjects_placeObjects s : placedObjects (placeObjects canvas s) = placedObjects s.
Proof. unfold placeObjects, draw. simpl. repeat case_match; reflexivity. Qed.

Lemma placedObjects_animatePaths paths : forall s,
  placedObjects (animatePaths canvas paths s) = placedObjects s.
Proof.
  induction paths as [|path rest IH]; intros s.
  - apply placedObjects_placeObjects.
  - destruct path as [pid [|p pts] w]; simpl.
    + rewrite IH. reflexivity.
    + rewrite ?placedObjects_reveal. reflexivity.
Qed.

Lemma resume_autoPlaced n now k s :
  animation s = Some k -> placing canvas n s ->
  Forall (autoPlaced canvas) (placedObjects s) ->
  Forall (autoPlaced canvas) (placedObjects (resume now k s)).
Proof.
  intros Ek (Hu & Hk) Hall. rewrite Ek in Hk.
  destruct k as [c path an i rest|c i objectCount].
  - destruct Hk as (-> & _). simpl.
    destruct (RakePath.points path !! S i) as [p|] eqn:Ep.
    + simpl. rewrite placedObjects_reveal. exact Hall.
    + rewrite placedObjects_animatePaths. exact Hall.
  - destruct Hk as (-> & Hlen & Hn).
    pose proof (Hu (S (cursor (random s)))) as [Hx0 Hx1].
    pose proof (Hu (S (S (cursor (random s))))) as [Hy0 Hy1].
    pose proof (Hu (S (S (S (cursor (random s)))))) as [Hr0 Hr1].
    pose proof (Hu (S (S (S (S (cursor (random s))))))) as [Hs0 Hs1].
    simpl. unfold draw. simpl.
    assert (Happ : forall o, autoPlaced canvas o ->
              Forall (autoPlaced canvas) (placedObjects s ++ [o])).
    { intros o Ho. apply Forall_app. split; [exact Hall | apply Forall_singleton, Ho]. }
    destruct (Qltb (num (S i)) objectCount); simpl; apply Happ;
      unfold autoPlaced; simpl; repeat split; nra.
Qed.

Lemma timeouts_autoPlaced n timers : forall s s',
  run s (map (fun t => on canvas t Timeout) timers) = Some s' ->
  placing canvas n s -> Forall (autoPlaced canvas) (placedObjects s) ->
  Forall (autoPlaced canvas) (placedObjects s').
Proof.
  induction timers as [|t timers IH]; intros s s'; simpl.
  - intros [= <-]. auto.
  - destruct (animation s) as [k|] eqn:Ek.
    + intros Hr Hp Hall. eapply IH; [exact Hr | |].
      * apply settle_placing, resume_placing; assumption.
      * assert (E : placedObjects (settle (resume t k s)) = placedObjects (resume t k s)).
        { unfold settle. case_match; reflexivity. }
        rewrite E. eapply resume_autoPlaced; eassumption.
    + apply IH.
Qed.

End Placing.

(** ** A pattern from its click to its end *)

Section Generated.
Context {M : MathLib}.

(** The click on Auto Pattern, up to the first [await]. *)
Lemma click_generate canvas s :
  unit_draws (random s) -> isGeneratingPattern s = false ->
  exists newPaths r s1 objects,
    generateZenPattern canvas (random s) = Some (newPaths, r)
    /\ handleGeneratePattern (Some canvas) s = Some s1
    /\ distinctIds newPaths
    /\ unveiling canvas newPaths s1
    /\ placing canvas objects s1
    /\ placedObjects s1 = []
    /\ timersLeft s1 = (pointsLeft newPaths + objects)%nat
    /\ (objects <= 3)%nat.
Proof.
  intros Hu Hflag.
  destruct (generateZenPattern_selects canvas distinctIds (patterns_ids canvas) _ Hu)
    as (newPaths & r & E & Ed & Hids).
  set (s3 := set_random r
               (setPlacedObjects (fun _ => [])
                  (setRakePaths (fun _ => [])
                     (saveState (rakePaths s) (placedObjects s)
                        (setIsGeneratingPattern true s))))).
  assert (Hu3 : unit_draws (random s3)) by (eapply unit_draws_same; [exact Ed | exact Hu]).
  exists newPaths, r, (settle (animatePaths canvas newPaths s3)), (objectsToCome canvas s3).
  split; [exact E|]. split.
  { unfold handleGeneratePattern, generatePattern. rewrite Hflag. simpl. rewrite E.
    reflexivity. }
  split; [exact Hids|]. split.
  { apply settle_unveiling. apply (animatePaths_unveiling canvas newPaths newPaths []).
    - reflexivity.
    - exact Hids.
    - reflexivity.
    - constructor. }
  split.
  { apply settle_placing. apply animatePaths_placing; [exact Hu3 | reflexivity]. }
  split.
  { assert (Es : forall x, placedObjects (settle x) = placedObjects x).
    { intros x. unfold settle. case_match; reflexivity. }
    rewrite Es, placedObjects_animatePaths. reflexivity. }
  split.
  { rewrite timersLeft_settle. apply timersLeft_animatePaths. }
  apply objectsToCome_le, Hu3.
Qed.

Lemma run_generate canvas timers s :
  run s (opEvents (Generate canvas timers))
  = match handleGeneratePattern (Some canvas) s with
    | Some s1 => run s1 (map (fun t => on canvas t Timeout) timers)
    | None => None
    end.
Proof. reflexivity. Qed.

(** X3. A call of [generatePattern] during which nothing arrives but its
    timers (no Reset, no Undo, no gesture between the click on Auto Pattern
    and its end): once it has returned, the grooves of the scene are the
    paths [generateZenPattern] gave, one after the other and each with all
    its points (a path without points left out), the flag of the component
    is down again, and the undo stack is that of before the click with the
    scene of then pushed. *)
Theorem generated_grooves canvas timers s s' :
  unit_draws (random s) -> isGeneratingPattern s = false ->
  doOp s (Generate canvas timers) = Some s' ->
  exists newPaths r,
    generateZenPattern canvas (random s) = Some (newPaths, r)
    /\ (scene s').1 = withPoints newPaths
    /\ isGeneratingPattern s' = false
    /\ undoStack s' = pushed s.
Proof.
  intros Hu Hflag Hop.
  destruct (click_generate canvas s Hu Hflag)
    as (newPaths & r & s1 & objects & E & Hclick & Hids & Hun & Hpl & _).
  exists newPaths, r. split; [exact E|].
  unfold doOp in Hop. rewrite run_generate, Hclick in Hop.
  destruct (run s1 _) as [s2|] eqn:Hrun; [|discriminate].
  destruct (animation s2) eqn:Ea; [discriminate|]. injection Hop as <-.
  pose proof (timeouts_unveiling canvas newPaths timers s1 s2 Hids Hrun Hun) as Hun2.
  unfold unveiling in Hun2. rewrite Ea in Hun2. split; [exact Hun2|].
  destruct (run_timeouts canvas timers s1) as (s2' & Hrun' & Hstack & _ & Hdown).
  rewrite Hrun in Hrun'. injection Hrun' as <-. split.
  - apply Hdown; [|exact Ea].
    unfold handleGeneratePattern in Hclick. rewrite Hflag in Hclick.
    destruct (generatePattern _ _); [|discriminate]. injection Hclick as <-.
    apply flagDown_settle.
  - rewrite Hstack. unfold handleGeneratePattern in Hclick. rewrite Hflag in Hclick.
    destruct (generatePattern _ _) as [s0|] eqn:Eg; [|discriminate]. injection Hclick as <-.
    rewrite settle_undoStack. apply (generatePattern_undoStack canvas _ _ Eg).
Qed.

(** X4. A call of [generatePattern] during which nothing arrives but its
    timers takes one timer for each point of the pattern and one for each
    object it places, of which there are three at most: it has returned
    after that many timers, and not before, and the scene then holds that
    many objects. *)
Theorem generate_duration canvas s :
  unit_draws (random s) -> isGeneratingPattern s = false ->
  exists newPaths r objects,
    generateZenPattern canvas (random s) = Some (newPaths, r)
    /\ (objects <= 3)%nat
    /\ forall timers,
         (is_Some (doOp s (Generate canvas timers))
          <-> (pointsLeft newPaths + objects <= length timers)%nat)
         /\ (forall s', doOp s (Generate canvas timers) = Some s' ->
               length (scene s').2 = objects).
Proof.
  intros Hu Hflag.
  destruct (click_generate canvas s Hu Hflag)
    as (newPaths & r & s1 & objects & E & Hclick & Hids & Hun & Hpl & _ & Ht & Hle).
  exists newPaths, r, objects. split; [exact E|]. split; [exact Hle|].
  intros timers. unfold doOp. rewrite run_generate, Hclick.
  destruct (run_timeouts canvas timers s1) as (s2 & Hrun & _).
  rewrite Hrun.
  destruct (timeouts_placing canvas objects timers s1 s2 Hrun Hpl) as [Hpl2 Ht2].
  pose proof (timersLeft_0 s2) as H0. rewrite Ht2, Ht in H0.
  destruct (animation s2) eqn:Ea.
  - split.
    + split; [intros [x Hx]; discriminate|]. intros Hlen. exfalso.
      assert (Some c = None) by (apply H0; lia). discriminate.
    + intros s' [=].
  - split.
    + split; [intros _|eauto]. destruct H0 as [_ H0]. specialize (H0 eq_refl). lia.
    + intros s' [= <-]. destruct Hpl2 as (_ & Hk). rewrite Ea in Hk. exact Hk.
Qed.

(** X5. A call of [generatePattern] during which nothing arrives but its
    timers, on a canvas of 200 by 200 or more: the objects of the scene when
    it returns are three at most, each inside the margin of 100 of the
    canvas, turned by 0.2 at most either way and scaled by 0.8 to 1.2
    (bounds included). *)
Theorem generated_objects canvas timers s s' :
  200 <= HTMLCanvasElement.width canvas -> 200 <= HTMLCanvasElement.height canvas ->
  unit_draws (random s) -> isGeneratingPattern s = false ->
  doOp s (Generate canvas timers) = Some s' ->
  Forall (autoPlaced canvas) (scene s').2 /\ (length (scene s').2 <= 3)%nat.
Proof.
  intros Hw Hh Hu Hflag Hop.
  destruct (click_generate canvas s Hu Hflag)
    as (newPaths & r & s1 & objects & E & Hclick & Hids & Hun & Hpl & Hnone & Ht & Hle).
  unfold doOp in Hop. rewrite run_generate, Hclick in Hop.
  destruct (run s1 _) as [s2|] eqn:Hrun; [|discriminate].
  destruct (animation s2) eqn:Ea; [discriminate|]. injection Hop as <-. split.
  - apply (timeouts_autoPlaced canvas Hw Hh objects timers s1 s2 Hrun Hpl).
    rewrite Hnone. constructor.
  - destruct (timeouts_placing canvas objects timers s1 s2 Hrun Hpl) as [(_ & Hk) _].
    rewrite Ea in Hk. simpl. lia.
Qed.

End Generated.

(** ** The groove of a gesture *)

Lemma putPath_idem current prev : putPath current (putPath current prev) = putPath current prev.
Proof.
  remember (putPath current prev) as l eqn:Hl. unfold putPath in Hl.
  destruct (list_find _ prev) as [[index q]|] eqn:E; subst l.
  - apply list_find_Some in E as (Hq & Hid & Hfirst).
    assert (E' : list_find (fun p => RakePath.id p = RakePath.id current)
                   (<[index := current]> prev) = Some (index, current)).
    { apply list_find_Some. split; [|split; [reflexivity|]].
      - apply list_lookup_insert_eq. eapply lookup_lt_Some, Hq.
      - intros j y Hj Hlt. rewrite list_lookup_insert_ne in Hj by lia.
        apply (Hfirst j y Hj Hlt). }
    unfold putPath. rewrite E'. apply list_insert_insert_eq.
  - assert (E' : list_find (fun p => RakePath.id p = RakePath.id current)
                   (prev ++ [current]) = Some (length prev, current)).
    { apply list_find_Some. split; [|split; [reflexivity|]].
      - apply list_lookup_middle. reflexivity.
      - intros j y Hj Hlt. rewrite lookup_app_l in Hj by exact Hlt.
        rewrite list_find_None in E. rewrite Forall_forall in E.
        apply E. eapply list_elem_of_lookup_2, Hj. }
    unfold putPath. rewrite E'.
    replace (length prev) with (length prev + 0)%nat by lia.
    rewrite insert_app_r. reflexivity.
Qed.

Lemma list_find_viewPaths (i : string) h (l : list (RakePath nat)) :
  list_find (fun q => RakePath.id q = i) (viewPaths h l)
  = prod_map id (viewPath h) <$> list_find (fun q => RakePath.id q = i) l.
Proof.
  induction l as [|q l IH]; [reflexivity|].
  cbn. destruct (decide (RakePath.id q = i)) as [E|E]; [reflexivity|].
  unfold viewPaths in IH. rewrite IH.
  destruct (list_find _ l) as [[index q0]|]; reflexivity.
Qed.

Lemma untouched_trans s1 s2 s3 :
  (length (arrays s1) <= length (arrays s2))%nat ->
  untouched s1 s2 -> untouched s2 s3 -> untouched s1 s3.
Proof. intros Hl H12 H23 a Ha. rewrite H23 by lia. apply H12, Ha. Qed.

Section Grooving.
Context {M : MathLib}.

Lemma pointerDown_grooving now point s :
  tool s = rake ->
  exists current,
    grooving s current point [] (pointerDown now point s)
    /\ current = RakePath.mk (pretty now) (length (arrays s))
                   (8 + draws (random s) (cursor (random s)) * 4).
Proof.
  intros Ht. eexists. split; [|reflexivity].
  unfold pointerDown. rewrite Ht.
  split; [|split; [reflexivity|split; [reflexivity|split; [reflexivity|]]]].
  - repeat split; simpl; try assumption.
    + apply list_lookup_middle. reflexivity.
    + intros E. contradiction.
  - intros a Ha. simpl. apply lookup_app_l, Ha.
Qed.

Lemma pointerMove_grooving s0 current p0 stroke point s :
  grooving s0 current p0 stroke s ->
  let last := List.last stroke p0 in
  if Qltb 3 (distance point last)
  then grooving s0 current p0 (stroke ++ [point]) (pointerMove point s)
  else pointerMove point s = s.
Proof.
  intros (Hr & Hp & Hg & Hc & Hu). 
  pose proof (pointerMove_raking current p0 stroke point s Hr) as Hm. simpl in *.
  destruct (Qltb 3 (distance point (List.last stroke p0))) eqn:E; [|exact Hm].
  split; [exact Hm|]. destruct Hr as (_ & _ & Hcur & Hl & _).
  unfold pointerMove. rewrite Hcur, Hl, E. simpl.
  split; [exact Hp|]. split; [|split; [exact Hc|]].
  - rewrite Hg. destruct stroke as [|q stroke]; simpl; [reflexivity | apply putPath_idem].
  - intros a Ha. simpl. rewrite list_lookup_alter_ne by lia. apply Hu, Ha.
Qed.

Lemma grooving_moves s0 current p0 canvas now moves : forall stroke s,
  grooving s0 current p0 stroke s ->
  exists s',
    run s (map (fun m => on canvas now (MouseMove m)) moves) = Some s'
    /\ grooving s0 current p0
         (stroke ++ strokePoints (List.last stroke p0) (mousePoints canvas moves)) s'.
Proof.
  induction moves as [|m moves IH]; intros stroke s Hr; simpl.
  - exists s. rewrite app_nil_r. auto.
  - rewrite (guards_raking _ _ _ _ _ _ (proj1 Hr)).
    pose proof (pointerMove_grooving _ _ _ _ (getCanvasCoordinates m canvas) _ Hr) as Hm.
    simpl in Hm.
    destruct (Qltb 3 (distance (getCanvasCoordinates m canvas) (List.last stroke p0))).
    + destruct (IH _ _ Hm) as (s' & Hrun & Hr').
      exists s'. split; [exact Hrun|].
      rewrite last_snoc_default in Hr'. rewrite <- app_assoc in Hr'. exact Hr'.
    + rewrite Hm. apply IH, Hr.
Qed.

Lemma grooving_touchMoves s0 current p0 canvas now moves : forall stroke s,
  grooving s0 current p0 stroke s ->
  exists s',
    run s (map (fun m => on canvas now (TouchMove m)) moves) = Some s'
    /\ grooving s0 current p0
         (stroke ++ strokePoints (List.last stroke p0) (touchPoints canvas moves)) s'.
Proof.
  induction moves as [|m moves IH]; intros stroke s Hr; simpl.
  - exists s. rewrite app_nil_r. auto.
  - destruct m as [|touch others].
    + replace (handleTouchMove (Some canvas) [] s) with s.
      * apply IH, Hr.
      * unfold handleTouchMove. repeat case_match; reflexivity.
    + rewrite (guards_raking_touch _ _ _ _ _ _ _ (proj1 Hr)). simpl.
      pose proof (pointerMove_grooving _ _ _ _ (getCanvasCoordinates touch canvas) _ Hr) as Hm.
      simpl in Hm.
      destruct (Qltb 3 (distance (getCanvasCoordinates touch canvas) (List.last stroke p0))).
      * destruct (IH _ _ Hm) as (s' & Hrun & Hr').
        exists s'. split; [exact Hrun|].
        rewrite last_snoc_default in Hr'. rewrite <- app_assoc in Hr'. exact Hr'.
      * rewrite Hm. apply IH, Hr.
Qed.

(** The scene at the pointer up of a gesture that has recorded a move. *)
Lemma grooving_scene s0 current p0 stroke s :
  wellFormed s0 -> stroke <> [] -> grooving s0 current p0 stroke s ->
  scene (handleMouseUp s)
  = (withGroove (RakePath.mk (RakePath.id current) (p0 :: stroke) (RakePath.width current))
       (scene s0).1, (scene s0).2).
Proof.
  intros Hw Hne (Hr & Hp & Hg & Hc & Hu).
  destruct (raking_handleMouseUp _ _ _ _ Hr) as (Er & Ea & _).
  destruct Hr as (_ & _ & _ & _ & Ha & _).
  unfold scene. rewrite Er, Ea. simpl. f_equal; [|unfold handleMouseUp; destruct (isDrawing s); exact Hp].
  destruct stroke as [|q stroke]; [contradiction|]. rewrite Hg.
  assert (Hbase : viewPaths (arrays s) (rakePaths s0) = viewPaths (arrays s0) (rakePaths s0)).
  { apply viewPaths_untouched; [exact Hu | apply Hw]. }
  assert (Hcur : viewPath (arrays s) current
                 = RakePath.mk (RakePath.id current) (p0 :: q :: stroke) (RakePath.width current)).
  { unfold viewPath, deref. rewrite Ha. reflexivity. }
  unfold withGroove, putPath. simpl. rewrite list_find_viewPaths.
  destruct (list_find _ (rakePaths s0)) as [[index q0]|] eqn:E; simpl.
  - unfold viewPaths in *. rewrite list_fmap_insert, Hcur. f_equal. exact Hbase.
  - rewrite viewPaths_app. simpl. rewrite Hcur. f_equal. exact Hbase.
Qed.

End Grooving.

Section GrooveTheorem.
Context {M : MathLib}.

Lemma withGroove_fresh groove grooves :
  RakePath.id groove ∉ map RakePath.id grooves -> withGroove groove grooves = grooves ++ [groove].
Proof.
  intros Hid. unfold withGroove.
  destruct (list_find _ grooves) as [[index q]|] eqn:E; [|reflexivity].
  apply list_find_Some in E as (Hq & E & _). exfalso. apply Hid.
  rewrite <- E. apply list_elem_of_fmap. exists q. split; [reflexivity|].
  eapply list_elem_of_lookup_2, Hq.
Qed.

(** X6. A rake gesture that records a move leaves the objects and the other
    grooves as they were, and puts its stroke among the grooves: after the
    last one, to be painted over them, unless a groove has its id (the
    [Date.now()] of its pointer down), whose place it then takes.  Its width
    is between 8 and 12 (bounds included). *)
Theorem rake_gesture_groove canvas now s :
  wellFormed s -> unit_draws (random s) ->
  (forall down moves,
     let p0 := getCanvasCoordinates down canvas in
     let stroke := strokePoints p0 (mousePoints canvas moves) in
     stroke <> [] ->
     exists s' w,
       run s (opEvents (MouseRake canvas now down moves)) = Some s'
       /\ 8 <= w /\ w <= 12
       /\ scene s'
          = (withGroove (RakePath.mk (pretty now) (p0 :: stroke) w) (scene s).1, (scene s).2))
  /\ (forall touch others moves,
        let p0 := getCanvasCoordinates touch canvas in
        let stroke := strokePoints p0 (touchPoints canvas moves) in
        stroke <> [] ->
        exists s' w,
          run s (opEvents (TouchRake canvas now touch others moves)) = Some s'
          /\ 8 <= w /\ w <= 12
          /\ scene s'
             = (withGroove (RakePath.mk (pretty now) (p0 :: stroke) w) (scene s).1,
                (scene s).2))
  /\ (forall groove,
        RakePath.id groove ∉ map RakePath.id (scene s).1 ->
        withGroove groove (scene s).1 = (scene s).1 ++ [groove]).
Proof.
  intros Hw Hu.
  destruct (Hu (cursor (random s))) as [Hu0 Hu1].
  split; [|split].
  - intros down moves p0 stroke Hne.
    destruct (pointerDown_grooving now p0 (setTool rake s) eq_refl) as (current & Hr & Hcur).
    destruct (grooving_moves _ current p0 canvas now moves [] _ Hr) as (s2 & Hrun & Hr2).
    simpl in Hr2. fold stroke in Hr2.
    exists (handleMouseUp s2), (8 + draws (random s) (cursor (random s)) * 4).
    split; [|split; [lra|split; [lra|]]].
    + cbn [opEvents]. change (run s (on canvas now (ClickTool rake)
          :: on canvas now (MouseDown down)
          :: map (fun m => on canvas now (MouseMove m)) moves ++ [on canvas now MouseUp]))
        with (run (pointerDown now p0 (setTool rake s))
                (map (fun m => on canvas now (MouseMove m)) moves ++ [on canvas now MouseUp])).
      rewrite run_app, Hrun. reflexivity.
    + rewrite (grooving_scene _ current p0 stroke s2 Hw Hne Hr2). rewrite Hcur. reflexivity.
  - intros touch others moves p0 stroke Hne.
    destruct (pointerDown_grooving now p0 (setTool rake s) eq_refl) as (current & Hr & Hcur).
    destruct (grooving_touchMoves _ current p0 canvas now moves [] _ Hr) as (s2 & Hrun & Hr2).
    simpl in Hr2. fold stroke in Hr2.
    exists (handleMouseUp s2), (8 + draws (random s) (cursor (random s)) * 4).
    split; [|split; [lra|split; [lra|]]].
    + cbn [opEvents]. change (run s (on canvas now (ClickTool rake)
          :: on canvas now (TouchStart (touch :: others))
          :: map (fun m => on canvas now (TouchMove m)) moves ++ [on canvas now TouchEnd]))
        with (run (pointerDown now p0 (setTool rake s))
                (map (fun m => on canvas now (TouchMove m)) moves ++ [on canvas now TouchEnd])).
      rewrite run_app, Hrun. reflexivity.
    + rewrite (grooving_scene _ current p0 stroke s2 Hw Hne Hr2). rewrite Hcur. reflexivity.
  - intros groove. apply withGroove_fresh.
Qed.

End GrooveTheorem.

Lemma rake_gesture_groove_witness :
  exists s' w,
    run (M := sampleMath) (initialState halves)
      (opEvents (MouseRake canvas800 7 (at_ 10 10) [at_ 20 10; at_ 21 10; at_ 30 10])) = Some s'
    /\ 8 <= w /\ w <= 12
    /\ scene s'
       = (withGroove
            (RakePath.mk (pretty 7%Z)
               (getCanvasCoordinates (at_ 10 10) canvas800
                :: strokePoints (M := sampleMath) (getCanvasCoordinates (at_ 10 10) canvas800)
                     (mousePoints canvas800 [at_ 20 10; at_ 21 10; at_ 30 10])) w)
            (scene (initialState halves)).1, (scene (initialState halves)).2).
Proof.
  refine (proj1 (rake_gesture_groove (M := sampleMath) canvas800 7 (initialState halves)
                   (wellFormed_initialState halves) unit_draws_halves)
            (at_ 10 10) [at_ 20 10; at_ 21 10; at_ 30 10] _).
  vm_compute. discriminate.
Defined.

(** ** The objects of every scene *)

Section Upright.
Context {M : MathLib}.

Lemma allUpright_pushed s :
  allUpright s ->
  Forall (fun c => Forall upright (CanvasState.placedObjects c)) (pushed s).
Proof.
  intros (_ & Ho & Hs). unfold pushed. apply Forall_slice_last.
  apply Forall_app. split; [exact Hs|]. apply Forall_singleton. exact Ho.
Qed.

Lemma allUpright_pointerDown now point s :
  allUpright s -> allUpright (pointerDown now point s).
Proof.
  intros Hj. pose proof (allUpright_pushed s Hj) as Hp. destruct Hj as (Hu & Ho & Hs).
  destruct (Hu (cursor (random s))) as [Ha0 Ha1].
  destruct (Hu (S (cursor (random s)))) as [Hb0 Hb1].
  unfold pointerDown. destruct (tool s); simpl.
  - split; [exact Hu|]. split; [exact Ho | exact Hp].
  - split; [exact Hu|]. split; [|exact Hp].
    apply Forall_app. split; [exact Ho|]. apply Forall_singleton.
    unfold upright. simpl. repeat split; lra.
Qed.

Lemma allUpright_pointerMove point s : allUpright s -> allUpright (pointerMove point s).
Proof. unfold pointerMove. repeat case_match; auto. Qed.

Lemma allUpright_handleMouseUp s : allUpright s -> allUpright (handleMouseUp s).
Proof. unfold handleMouseUp. case_match; auto. Qed.

Lemma allUpright_clearGarden s : allUpright s -> allUpright (clearGarden s).
Proof.
  intros Hj. pose proof (allUpright_pushed s Hj) as Hp. destruct Hj as (Hu & _).
  split; [exact Hu|]. split; [constructor | exact Hp].
Qed.

Lemma allUpright_undo s : allUpright s -> allUpright (undo s).
Proof.
  intros (Hu & Ho & Hs). unfold undo. destruct (last (undoStack s)) as [c|] eqn:E.
  - split; [exact Hu|]. simpl. split.
    + rewrite Forall_forall in Hs. apply Hs. apply last_Some in E as [l' ->].
      apply elem_of_app. right. apply list_elem_of_here.
    + apply Forall_slice_init, Hs.
  - split; [exact Hu|]. split; assumption.
Qed.

Lemma allUpright_same s s' :
  draws (random s') = draws (random s) -> placedObjects s' = placedObjects s ->
  undoStack s' = undoStack s -> allUpright s -> allUpright s'.
Proof.
  intros Ed Eo Es (Hu & Ho & Hs). unfold allUpright. rewrite Eo, Es.
  split; [eapply unit_draws_same; eassumption|]. split; assumption.
Qed.

Lemma draws_placeObjects canvas s :
  draws (random (placeObjects canvas s)) = draws (random s).
Proof. unfold placeObjects, draw. simpl. repeat case_match; reflexivity. Qed.

Lemma draws_animatePaths canvas paths : forall s,
  draws (random (animatePaths canvas paths s)) = draws (random s).
Proof.
  induction paths as [|path rest IH]; intros s.
  - apply draws_placeObjects.
  - destruct path as [pid [|p pts] w]; simpl.
    + rewrite IH. reflexivity.
    + rewrite ?random_reveal. reflexivity.
Qed.

Lemma allUpright_animatePaths canvas paths s :
  allUpright s -> allUpright (animatePaths canvas paths s).
Proof.
  apply allUpright_same.
  - apply draws_animatePaths.
  - apply placedObjects_animatePaths.
  - apply animatePaths_undoStack.
Qed.

Lemma allUpright_resume now k s : allUpright s -> allUpright (resume now k s).
Proof.
  intros Hj. destruct k as [c path an i rest|c i objectCount].
  - simpl. destruct (RakePath.points path !! S i) as [p|].
    + revert Hj. apply allUpright_same; simpl.
      * rewrite random_reveal. reflexivity.
      * apply placedObjects_reveal.
      * apply reveal_undoStack.
    + apply allUpright_animatePaths, Hj.
  - destruct Hj as (Hu & Ho & Hs).
    pose proof (Hu (S (S (S (cursor (random s)))))) as [Hr0 Hr1].
    pose proof (Hu (S (S (S (S (cursor (random s))))))) as [Hs0 Hs1].
    assert (Hnew : Forall upright
              (placedObjects (resume now (AwaitObject c i objectCount) s))).
    { simpl. unfold draw. simpl.
      assert (Happ : forall o, upright o -> Forall upright (placedObjects s ++ [o])).
      { intros o Hup. apply Forall_app. split; [exact Ho | apply Forall_singleton, Hup]. }
      destruct (Qltb (num (S i)) objectCount); simpl; apply Happ;
        unfold upright; simpl; repeat split; lra. }
    split; [|split; [exact Hnew|]].
    + simpl. unfold draw. simpl. destruct (Qltb (num (S i)) objectCount); exact Hu.
    + rewrite resume_undoStack. exact Hs.
Qed.

Lemma allUpright_settle s : allUpright s -> allUpright (settle s).
Proof. unfold settle. case_match; auto. Qed.

Lemma allUpright_generatePattern canvasRef s s' :
  generatePattern canvasRef s = Some s' -> allUpright s -> allUpright s'.
Proof.
  unfold generatePattern. destruct canvasRef as [canvas|]; [|intros [= <-]; auto].
  intros Hg Hj. pose proof (allUpright_pushed s Hj) as Hp. destruct Hj as (Hu & _).
  simpl in Hg.
  destruct (generateZenPattern_selects canvas distinctIds (patterns_ids canvas) _ Hu)
    as (newPaths & r & E & Ed & _).
  rewrite E in Hg. injection Hg as <-. apply allUpright_animatePaths.
  split; [eapply unit_draws_same; [exact Ed | exact Hu]|].
  split; [constructor | exact Hp].
Qed.

Lemma step_allUpright s ev s' : step s ev = Some s' -> allUpright s -> allUpright s'.
Proof.
  destruct ev as [env e]. destruct e; simpl.
  - intros [= <-] Hj. unfold handleMouseDown. case_match;
      auto using allUpright_pointerDown.
  - intros [= <-] Hj. unfold handleMouseMove. repeat case_match;
      auto using allUpright_pointerMove.
  - intros [= <-]. apply allUpright_handleMouseUp.
  - intros [= <-]. apply allUpright_handleMouseUp.
  - intros [= <-] Hj. unfold handleTouchStart. repeat case_match;
      auto using allUpright_pointerDown.
  - intros [= <-] Hj. unfold handleTouchMove. repeat case_match;
      auto using allUpright_pointerMove.
  - intros [= <-]. apply allUpright_handleMouseUp.
  - intros [= <-] Hj. exact Hj.
  - intros [= <-] Hj. case_match; exact Hj.
  - unfold handleGeneratePattern. case_match.
    + intros [= <-]. auto.
    + destruct (generatePattern _ _) as [s1|] eqn:Eg; [|discriminate].
      simpl. intros [= <-] Hj. apply allUpright_settle.
      eapply allUpright_generatePattern; [exact Eg | exact Hj].
  - intros [= <-]. apply allUpright_undo.
  - intros [= <-]. apply allUpright_clearGarden.
  - destruct (animation s) as [k|] eqn:Ek; intros [= <-] Hj; [|exact Hj].
    apply allUpright_settle, allUpright_resume, Hj.
Qed.

(** X7. Whatever the events, every object of the scene, and of every snapshot
    of the undo stack, is turned by 0.2 at most either way and scaled by 0.8
    to 1.2 (bounds included): [render] never paints one upside down or out
    of size. *)
Theorem objects_upright r evs s :
  unit_draws r -> run (initialState r) evs = Some s ->
  Forall upright (scene s).2
  /\ Forall (fun snapshot => Forall upright snapshot.2) (history s).
Proof.
  intros Hu Hrun.
  assert (Hj : allUpright s).
  { assert (H0 : allUpright (initialState r)) by (split; [exact Hu | split; constructor]).
    revert Hrun H0. generalize (initialState r). clear Hu.
    induction evs as [|ev evs IH]; intros s0; simpl.
    - intros [= <-]. auto.
    - destruct (step s0 ev) as [s1|] eqn:Es; [|discriminate].
      intros Hr Hj. eapply IH; [exact Hr|]. eapply step_allUpright; eauto. }
  destruct Hj as (_ & Ho & Hs). split; [exact Ho|].
  unfold history. apply Forall_fmap. eapply Forall_impl; [exact Hs|].
  intros c Hc. exact Hc.
Qed.

End Upright.

Lemma objects_upright_witness :
  exists s,
    run (M := sampleMath) (initialState halves)
      (opEvents placeStone ++ opEvents (MousePlace canvas800 1 lantern (at_ 50 60))
       ++ opEvents Reset) = Some s
    /\ Forall upright (scene s).2
    /\ Forall (fun snapshot => Forall upright snapshot.2) (history s)
    /\ map (fun snapshot => length snapshot.2) (history s) = [0; 1; 2]%nat.
Proof.
  eexists. split; [vm_compute; reflexivity|].
  assert (H := objects_upright (M := sampleMath) halves
                 (opEvents placeStone ++ opEvents (MousePlace canvas800 1 lantern (at_ 50 60))
                  ++ opEvents Reset) _ unit_draws_halves eq_refl).
  destruct H as [H1 H2]. split; [exact H1|]. split; [exact H2|]. reflexivity.
Defined.

(** ** One animation at a time *)

Section Exclusive.
Context {M : MathLib}.

Lemma pointerDown_frame now point s :
  animation (pointerDown now point s) = animation s
  /\ isGeneratingPattern (pointerDown now point s) = isGeneratingPattern s.
Proof. unfold pointerDown. destruct (tool s); split; reflexivity. Qed.

Lemma pointerMove_frame point s :
  animation (pointerMove point s) = animation s
  /\ isGeneratingPattern (pointerMove point s) = isGeneratingPattern s.
Proof. unfold pointerMove. repeat case_match; split; reflexivity. Qed.

Lemma handleMouseUp_frame s :
  animation (handleMouseUp s) = animation s
  /\ isGeneratingPattern (handleMouseUp s) = isGeneratingPattern s.
Proof. unfold handleMouseUp. case_match; split; reflexivity. Qed.

Lemma undo_frame s :
  animation (undo s) = animation s /\ isGeneratingPattern (undo s) = isGeneratingPattern s.
Proof. unfold undo. case_match; split; reflexivity. Qed.

(** What the listeners of the canvas and the buttons Undo and Reset leave
    alone. *)
Lemma step_frame s env e s' :
  e <> Timeout -> e <> ClickGenerate -> step s (env, e) = Some s' ->
  animation s' = animation s /\ isGeneratingPattern s' = isGeneratingPattern s.
Proof.
  intros Ht Hg. destruct e; simpl; try congruence; intros [= <-].
  - unfold handleMouseDown. case_match; auto using pointerDown_frame.
  - unfold handleMouseMove. repeat case_match; auto using pointerMove_frame.
  - apply handleMouseUp_frame.
  - apply handleMouseUp_frame.
  - unfold handleTouchStart. repeat case_match; auto using pointerDown_frame.
  - unfold handleTouchMove. repeat case_match; auto using pointerMove_frame.
  - apply handleMouseUp_frame.
  - auto.
  - case_match; auto.
  - apply undo_frame.
  - auto.
Qed.

Ltac by_frame Hs :=
  match type of Hs with
  | step ?s (?env, ?e) = Some ?s' =>
      destruct (step_frame s env e s') as [Ea Ei]; [discriminate | discriminate | exact Hs |]
  end.

Lemma isGeneratingPattern_placeObjects canvas s :
  isGeneratingPattern (placeObjects canvas s) = isGeneratingPattern s.
Proof. unfold placeObjects, draw. simpl. repeat case_match; reflexivity. Qed.

Lemma isGeneratingPattern_reveal path an i p s :
  isGeneratingPattern (reveal path an i p s) = isGeneratingPattern s.
Proof. unfold reveal. case_match; reflexivity. Qed.

Lemma isGeneratingPattern_animatePaths canvas paths : forall s,
  isGeneratingPattern (animatePaths canvas paths s) = isGeneratingPattern s.
Proof.
  induction paths as [|path rest IH]; intros s.
  - apply isGeneratingPattern_placeObjects.
  - destruct path as [pid [|p pts] w]; simpl.
    + rewrite IH. reflexivity.
    + rewrite ?isGeneratingPattern_reveal. reflexivity.
Qed.

Lemma isGeneratingPattern_resume now k s :
  isGeneratingPattern (resume now k s) = isGeneratingPattern s.
Proof.
  destruct k; simpl.
  - case_match; simpl.
    + apply isGeneratingPattern_reveal.
    + apply isGeneratingPattern_animatePaths.
  - unfold draw. simpl. case_match; reflexivity.
Qed.

Lemma flagged_settle s : isGeneratingPattern s = true -> flagged (settle s).
Proof.
  intros Hf. unfold flagged, settle. destruct (animation s) as [k|] eqn:E.
  - rewrite E. split; [eauto | auto].
  - simpl. rewrite E. split; [discriminate | intros [x Hx]; discriminate].
Qed.

Lemma step_flagged s ev s' : step s ev = Some s' -> flagged s -> flagged s'.
Proof.
  destruct ev as [env e]. intros Hs Hf.
  destruct e;
    try (by_frame Hs; unfold flagged; rewrite Ea, Ei; exact Hf).
  - simpl in Hs. unfold handleGeneratePattern in Hs.
    destruct (isGeneratingPattern s) eqn:E; [injection Hs as <-; exact Hf|].
    destruct (generatePattern _ _) as [s1|] eqn:Eg; [|discriminate]. injection Hs as <-.
    apply flagged_settle. unfold generatePattern in Eg.
    destruct (canvasRef env) as [canvas|]; [|injection Eg as <-; reflexivity].
    simpl in Eg. destruct (generateZenPattern canvas _) as [[newPaths r]|]; [|discriminate].
    injection Eg as <-. apply isGeneratingPattern_animatePaths.
  - simpl in Hs. destruct (animation s) as [k|] eqn:Ek; injection Hs as <-; [|exact Hf].
    apply flagged_settle. rewrite isGeneratingPattern_resume. apply Hf. rewrite Ek. eauto.
Qed.

Lemma run_flagged evs : forall s s', run s evs = Some s' -> flagged s -> flagged s'.
Proof.
  induction evs as [|ev evs IH]; intros s s'; simpl.
  - intros [= <-]. auto.
  - destruct (step s ev) as [s1|] eqn:Es; [|discriminate].
    intros Hr Hf. eapply IH; [exact Hr|]. eapply step_flagged; eauto.
Qed.

(** X8. Only one call of [generatePattern] runs at a time, and only its timers
    move it: in every state the events lead to, the flag of the component is
    up exactly while a call waits for a timer; while one does, Auto Pattern
    does nothing, and no event but a timer advances the call or ends it. *)
Theorem one_animation r evs s :
  run (initialState r) evs = Some s ->
  (isGeneratingPattern s = true <-> is_Some (animation s))
  /\ (is_Some (animation s) -> forall env, step s (env, ClickGenerate) = Some s)
  /\ (forall env e s',
        e <> Timeout -> step s (env, e) = Some s' -> is_Some (animation s) ->
        animation s' = animation s /\ isGeneratingPattern s' = true).
Proof.
  intros Hrun.
  assert (Hf : flagged s).
  { apply (run_flagged evs _ _ Hrun). split; [discriminate | intros [x Hx]; discriminate]. }
  split; [exact Hf|]. split.
  - intros Hk env. simpl. unfold handleGeneratePattern.
    destruct Hf as [_ Hf]. rewrite (Hf Hk). reflexivity.
  - intros env e s' Ht Hs Hk.
    destruct e;
      try (by_frame Hs; rewrite Ea, Ei; split; [reflexivity | apply Hf, Hk]).
    + simpl in Hs. unfold handleGeneratePattern in Hs.
      destruct Hf as [_ Hf]. rewrite (Hf Hk) in Hs. injection Hs as <-. auto.
    + contradiction.
Qed.

(** X9. Reset while a path is being revealed: the paths revealed before are
    gone, but the call of [generatePattern] goes on; its next timer puts the
    path back with all the points revealed so far and one more, and at its
    end the scene holds that path and those after it. *)
Theorem reset_during_animation canvas env now path animatedPath i rest p newPaths s :
  unveiling canvas newPaths s -> distinctIds newPaths ->
  animation s = Some (AwaitPoint canvas path animatedPath i rest) ->
  RakePath.points path !! S i = Some p ->
  exists s',
    run s [(env, ClickReset); (on canvas now Timeout)] = Some s'
    /\ (scene s').1
       = [RakePath.mk (RakePath.id path) (take (S (S i)) (RakePath.points path))
            (RakePath.width path)]
    /\ animation s' = Some (AwaitPoint canvas path animatedPath (S i) rest)
    /\ (forall timers s'',
          run s' (map (fun t => on canvas t Timeout) timers) = Some s'' ->
          animation s'' = None -> (scene s'').1 = withPoints (path :: rest)).
Proof.
  intros Hun Hids Ek Ep. unfold unveiling in Hun. rewrite Ek in Hun.
  destruct Hun as (done & donePaths & _ & Hnew & Hr & Hview & Hrefs & Hid & Hw & Ha & Hi).
  set (s1 := clearGarden s).
  assert (Ek1 : animation s1 = Some (AwaitPoint canvas path animatedPath i rest)) by exact Ek.
  exists (settle (resume now (AwaitPoint canvas path animatedPath i rest) s1)).
  assert (Hun' : unveiling canvas (path :: rest)
                   (settle (resume now (AwaitPoint canvas path animatedPath i rest) s1))).
  { apply settle_unveiling. simpl. rewrite Ep. unfold unveiling. simpl.
    exists [], []. rewrite rakePaths_reveal, arrays_reveal. simpl.
    repeat split; try assumption; try reflexivity; try constructor.
    - rewrite list_lookup_alter_eq, Ha. simpl. f_equal. symmetry. apply take_S_r, Ep.
    - apply lookup_lt_Some in Ep. lia. }
  split; [|split; [|split]].
  - simpl. rewrite Ek. reflexivity.
  - unfold settle. simpl. rewrite Ep. simpl.
    unfold scene. rewrite rakePaths_reveal, arrays_reveal. simpl.
    unfold viewPath, deref. rewrite list_lookup_alter_eq, Ha. simpl.
    rewrite Hid, Hw. do 2 f_equal. symmetry. apply take_S_r, Ep.
  - unfold settle. simpl. rewrite Ep. reflexivity.
  - intros timers s'' Hrun Hend.
    assert (Hids' : distinctIds (path :: rest)).
    { unfold distinctIds in *. rewrite Hnew, map_app in Hids.
      apply NoDup_app in Hids as (_ & _ & Hd). exact Hd. }
    pose proof (timeouts_unveiling canvas (path :: rest) timers _ _ Hids' Hrun Hun') as Hu.
    unfold unveiling in Hu. rewrite Hend in Hu. exact Hu.
Qed.

End Exclusive.

(** ** Examples of generated patterns *)

Lemma unit_draws_spiralDraws : unit_draws spiralDraws.
Proof. intros [|n]; simpl; split; lra. Qed.

Lemma gestureMeanwhile_ends :
  match run (M := sampleMath) (initialState spiralDraws) gestureMeanwhile with
  | Some s' => match animation s' with None => true | Some _ => false end
  | None => false
  end = true.
Proof. vm_compute. reflexivity. Qed.

Lemma generate_paints_witness :
  HTMLCanvasElement.width canvas800 = 800
  /\ HTMLCanvasElement.height canvas800 = 600
  /\ unit_draws (random (initialState spiralDraws))
  /\ isGeneratingPattern (initialState spiralDraws) = false
  /\ (exists timers s',
        doOp (M := sampleMath) (initialState spiralDraws) (Generate canvas800 timers) = Some s')
  /\ (forall timers s',
        doOp (M := sampleMath) (initialState spiralDraws) (Generate canvas800 timers) = Some s' ->
        exists p, p ∈ (scene s').1 /\ multiPoint p)
  /\ (exists s',
        run (M := sampleMath) (initialState spiralDraws) gestureMeanwhile = Some s'
        /\ animation s' = None
        /\ exists p, p ∈ (scene s').1 /\ multiPoint p).
Proof.
  split; [reflexivity|]. split; [reflexivity|]. split; [exact unit_draws_spiralDraws|].
  split; [reflexivity|].
  destruct (generate_paints (M := sampleMath) canvas800 (initialState spiralDraws)
              eq_refl eq_refl unit_draws_spiralDraws eq_refl) as (_ & _ & H3 & H4 & H5).
  split; [exact H3|]. split; [exact H4|].
  pose proof gestureMeanwhile_ends as He.
  destruct (run (M := sampleMath) (initialState spiralDraws) gestureMeanwhile)
    as [s'|] eqn:Er; [|discriminate He].
  destruct (animation s') eqn:Ea; [discriminate He|].
  exists s'. split; [reflexivity|]. split; [exact Ea|].
  apply (H5 spiralDraws [] 0%Z (List.tl gestureMeanwhile) s' eq_refl); [|exact Er|exact Ea].
  unfold gestureMeanwhile. cbn [List.tl]. apply Forall_app. split.
  - apply Forall_forall. intros ev Hev. apply list_elem_of_fmap in Hev as (t & -> & _).
    reflexivity.
  - apply Forall_app. split; [repeat constructor|].
    apply Forall_forall. intros ev Hev. apply list_elem_of_fmap in Hev as (t & -> & _).
    reflexivity.
Defined.

(** The spiral garden on the 800 by 600 canvas, with its 203 timers. *)
Lemma spiral_generated :
  bool_decide (is_Some (doOp (M := sampleMath) (initialState spiralDraws)
                          (Generate canvas800 (replicate 203 0%Z)))) = true.
Proof. vm_compute. reflexivity. Qed.

Lemma spiral_second_point :
  match handleGeneratePattern (M := sampleMath) (Some canvas800) (initialState spiralDraws) with
  | Some s =>
      match animation s with
      | Some (AwaitPoint _ path _ i _) => bool_decide (is_Some (RakePath.points path !! S i))
      | _ => false
      end
  | None => false
  end = true.
Proof. vm_compute. reflexivity. Qed.

Lemma layouts_distinct_ids_witness :
  exists paths r',
    generateZenPattern (M := sampleMath) canvas800 halves = Some (paths, r')
    /\ distinctIds paths.
Proof.
  exact (proj2 (layouts_distinct_ids (M := sampleMath) canvas800 halves unit_draws_halves)).
Defined.

Lemma generated_grooves_witness :
  exists s' newPaths r,
    doOp (M := sampleMath) (initialState spiralDraws)
      (Generate canvas800 (replicate 203 0%Z)) = Some s'
    /\ generateZenPattern (M := sampleMath) canvas800 (random (initialState spiralDraws))
       = Some (newPaths, r)
    /\ (scene s').1 = withPoints newPaths.
Proof.
  destruct (proj1 (bool_decide_eq_true _) spiral_generated) as [s' Hop].
  destruct (generated_grooves (M := sampleMath) canvas800 (replicate 203 0%Z)
              (initialState spiralDraws) s' unit_draws_spiralDraws eq_refl Hop)
    as (newPaths & r & E & Hs & _).
  exists s', newPaths, r. auto.
Defined.

Lemma generate_duration_witness :
  exists newPaths r objects,
    generateZenPattern (M := sampleMath) canvas800 (random (initialState spiralDraws))
    = Some (newPaths, r)
    /\ (objects <= 3)%nat
    /\ (is_Some (doOp (M := sampleMath) (initialState spiralDraws)
                   (Generate canvas800 (replicate 203 0%Z)))
        <-> (pointsLeft newPaths + objects <= 203)%nat).
Proof.
  destruct (generate_duration (M := sampleMath) canvas800 (initialState spiralDraws)
              unit_draws_spiralDraws eq_refl) as (newPaths & r & objects & E & Hle & H).
  exists newPaths, r, objects. split; [exact E|]. split; [exact Hle|].
  destruct (H (replicate 203 0%Z)) as [Hiff _].
  rewrite length_replicate in Hiff. exact Hiff.
Defined.

Lemma generated_objects_witness :
  exists s',
    doOp (M := sampleMath) (initialState spiralDraws)
      (Generate canvas800 (replicate 203 0%Z)) = Some s'
    /\ Forall (autoPlaced canvas800) (scene s').2.
Proof.
  destruct (proj1 (bool_decide_eq_true _) spiral_generated) as [s' Hop].
  exists s'. split; [exact Hop|].
  refine (proj1 (generated_objects (M := sampleMath) canvas800 (replicate 203 0%Z)
                   (initialState spiralDraws) s' _ _
                   unit_draws_spiralDraws eq_refl Hop)); vm_compute; discriminate.
Defined.

Lemma one_animation_witness :
  exists s,
    run (M := sampleMath) (initialState spiralDraws) [on canvas800 0 ClickGenerate] = Some s
    /\ (isGeneratingPattern s = true <-> is_Some (animation s)).
Proof.
  destruct (click_generate (M := sampleMath) canvas800 (initialState spiralDraws)
              unit_draws_spiralDraws eq_refl) as (newPaths & r & s & objects & _ & Hclick & _).
  assert (Hrun : run (M := sampleMath) (initialState spiralDraws)
                   [on canvas800 0 ClickGenerate] = Some s).
  { cbn [run step fst snd on]. unfold canvasRef. cbn [fst snd]. rewrite Hclick. reflexivity. }
  exists s. split; [exact Hrun|].
  exact (proj1 (one_animation (M := sampleMath) spiralDraws _ s Hrun)).
Defined.

Lemma reset_during_animation_witness :
  exists s path animatedPath i rest s',
    handleGeneratePattern (M := sampleMath) (Some canvas800) (initialState spiralDraws) = Some s
    /\ animation s = Some (AwaitPoint canvas800 path animatedPath i rest)
    /\ run (M := sampleMath) s [on canvas800 1 ClickReset; on canvas800 20 Timeout] = Some s'
    /\ (scene s').1
       = [RakePath.mk (RakePath.id path) (take (S (S i)) (RakePath.points path))
            (RakePath.width path)].
Proof.
  destruct (click_generate (M := sampleMath) canvas800 (initialState spiralDraws)
              unit_draws_spiralDraws eq_refl)
    as (newPaths & r & s & objects & E & Hclick & Hids & Hun & _).
  pose proof spiral_second_point as Hp. rewrite Hclick in Hp.
  destruct (animation s) as [[c path animatedPath i rest|]|] eqn:Ek; try discriminate Hp.
  assert (Ec : c = canvas800).
  { unfold unveiling in Hun. rewrite Ek in Hun. destruct Hun as (? & ? & Ec & _). exact Ec. }
  subst c. apply bool_decide_eq_true in Hp. destruct Hp as [p Ep].
  destruct (reset_during_animation (M := sampleMath) canvas800
              (on canvas800 1 ClickReset).1 20 path animatedPath i rest p newPaths s
              Hun Hids Ek Ep)
    as (s' & Hrun & Hscene & _).
  exists s, path, animatedPath, i, rest, s'. auto.
Defined.

(** ** Painting *)

Lemma execAll_app l1 l2 c : execAll (l1 ++ l2) c = execAll l2 (execAll l1 c).
Proof. apply foldl_app. Qed.

Lemma execAll_cons k l c : execAll (k :: l) c = execAll l (exec c k).
Proof. reflexivity. Qed.

Lemma scoped_app l1 : forall l2 d d',
  scoped l1 d = Some d' -> scoped (l1 ++ l2) d = scoped l2 d'.
Proof.
  induction l1 as [|k l1 IH]; intros l2 d d'; simpl.
  - intros [= <-]. reflexivity.
  - destruct k; simpl; try apply IH;
      try (destruct d; [discriminate | apply IH]);
      try (destruct (Nat.eqb d 0); [discriminate | apply IH]).
Qed.

Lemma last_cons_nonempty {A} (t : A) (top : list A) (d d' : A) :
  top <> [] -> List.last top d = List.last top d'.
Proof.
  induction top as [|a top IH]; [contradiction|]. intros _.
  destruct top as [|b top]; [reflexivity|]. simpl in *. apply IH. discriminate.
Qed.

(** The state a list of calls started in: at the bottom of what it has
    saved, or the current one. *)
Lemma execAll_scoped calls : forall top base c d' st0,
  scoped calls (length top) = Some d' ->
  saved c = top ++ base -> List.last top (state c) = st0 ->
  exists top',
    saved (execAll calls c) = top' ++ base /\ length top' = d'
    /\ List.last top' (state (execAll calls c)) = st0.
Proof.
  induction calls as [|k calls IH]; intros top base c d' st0 Hsc Hs Hl.
  - injection Hsc as <-. exists top. auto.
  - rewrite execAll_cons.
    destruct k;
      try solve [apply (IH top base); [exact Hsc | exact Hs | exact Hl]];
      try solve [destruct top as [|t top]; [discriminate Hsc|];
                 apply (IH (t :: top) base); [exact Hsc | exact Hs|];
                 rewrite <- Hl; apply (last_cons_nonempty t); discriminate].
    + apply (IH (state c :: top) base); [exact Hsc | simpl; rewrite Hs; reflexivity|].
      rewrite <- Hl. destruct top as [|t top]; [reflexivity|].
      apply (last_cons_nonempty t (state c :: t :: top)). discriminate.
    + destruct top as [|t top]; [discriminate Hsc|].
      apply (IH top base); [exact Hsc | simpl; rewrite Hs; reflexivity|].
      simpl. rewrite Hs. simpl. rewrite <- Hl. destruct top as [|t' top]; [reflexivity|].
      change (List.last (t :: t' :: top) (state c)) with (List.last (t' :: top) (state c)).
      apply (last_cons_nonempty t). discriminate.
Qed.

(** What is painted by calls that keep a property of the drawing state is
    painted in a state that has it. *)
Lemma execAll_brush (ok : DrawingState -> Prop) calls : forall top base c d',
  scoped calls (length top) = Some d' -> Forall (keepsBrush ok) calls ->
  saved c = top ++ base -> ok (state c) -> Forall ok top ->
  exists top' new,
    saved (execAll calls c) = top' ++ base /\ length top' = d'
    /\ ok (state (execAll calls c)) /\ Forall ok top'
    /\ painted (execAll calls c) = painted c ++ new
    /\ Forall (fun p => ok (brush p)) new.
Proof.
  induction calls as [|k calls IH]; intros top base c d' Hsc Hall Hs Hok Htop.
  - injection Hsc as <-. exists top, []. rewrite app_nil_r. repeat split; auto.
  - rewrite execAll_cons. apply Forall_cons in Hall as [Hk Hall].
    assert (Hpaint : forall k', painted (paint k' (currentPath c) c)
              = painted c ++ [mkPaint k' (currentPath c) (state c)]) by reflexivity.
    assert (Hnext : forall c1 new1,
              scoped calls (length top) = Some d' -> saved c1 = top ++ base ->
              ok (state c1) -> painted c1 = painted c ++ new1 ->
              Forall (fun p => ok (brush p)) new1 ->
              exists top' new,
                saved (execAll calls c1) = top' ++ base /\ length top' = d'
                /\ ok (state (execAll calls c1)) /\ Forall ok top'
                /\ painted (execAll calls c1) = painted c ++ new
                /\ Forall (fun p => ok (brush p)) new).
    { intros c1 new1 Hsc1 Hs1 Hok1 Hp1 Hn1.
      destruct (IH top base c1 d' Hsc1 Hall Hs1 Hok1 Htop)
        as (top' & new & E1 & E2 & E3 & E4 & E5 & E6).
      exists top', (new1 ++ new). rewrite E5, Hp1, app_assoc.
      repeat split; auto. apply Forall_app. auto. }
    assert (Hone : forall p, ok (brush p) -> Forall (fun p => ok (brush p)) [p])
      by (intros; apply Forall_singleton; assumption).
    destruct k;
      try solve [apply (Hnext _ []); [exact Hsc | exact Hs | exact Hok
                                     | symmetry; apply app_nil_r | constructor]];
      try solve [eapply (Hnext _ [_]);
                 [exact Hsc | exact Hs | exact Hok | reflexivity | apply Hone, Hok]];
      try solve [destruct top as [|t top]; [discriminate Hsc|];
                 apply (Hnext _ []); [exact Hsc | exact Hs | apply (Hk c Hok)
                                     | symmetry; apply app_nil_r | constructor]].
    + destruct (IH (state c :: top) base (exec c ctx.save) d' Hsc Hall)
        as (top' & new & E); [simpl; rewrite Hs; reflexivity | exact Hok
                             | constructor; assumption|].
      exists top', new. exact E.
    + destruct top as [|t top]; [discriminate Hsc|].
      apply Forall_cons in Htop as [Ht Htop].
      destruct (IH top base (exec c ctx.restore) d' Hsc Hall)
        as (top' & new & E); [simpl; rewrite Hs; reflexivity
                             | simpl; rewrite Hs; exact Ht | exact Htop|].
      exists top', new.
      assert (Ep : painted (exec c ctx.restore) = painted c)
        by (simpl; rewrite Hs; reflexivity).
      rewrite <- Ep. exact E.
Qed.

Lemma scoped_lineTos (points : list Point) d :
  scoped (map (fun point => ctx.lineTo (Point.x point) (Point.y point)) points) d = Some d.
Proof. induction points as [|p points IH]; simpl; auto. Qed.

Lemma scoped_strokePolyline points d : scoped (strokePolyline points) d = Some d.
Proof.
  destruct points as [|p points]; [reflexivity|]. unfold strokePolyline.
  cbn [app scoped changesState andb].
  change (ctx.lineTo (Point.x p) (Point.y p)
          :: map (fun point => ctx.lineTo (Point.x point) (Point.y point)) points ++ [ctx.stroke])
    with (map (fun point => ctx.lineTo (Point.x point) (Point.y point)) (p :: points)
          ++ [ctx.stroke]).
  rewrite (scoped_app _ _ _ _ (scoped_lineTos (p :: points) d)). reflexivity.
Qed.

Lemma scoped_drawRakeGroove theme path : scoped (drawRakeGroove theme path) 0 = Some 0%nat.
Proof.
  unfold drawRakeGroove. destruct (length (RakePath.points path) <? 2)%nat; [reflexivity|].
  cbn [app scoped changesState andb Nat.eqb].
  rewrite (scoped_app _ _ _ _ (scoped_strokePolyline _ 1%nat)).
  cbn [app scoped changesState andb Nat.eqb].
  rewrite (scoped_app _ _ _ _ (scoped_strokePolyline _ 1%nat)).
  cbn [app scoped changesState andb Nat.eqb].
  rewrite (scoped_app _ _ _ _ (scoped_strokePolyline _ 1%nat)).
  reflexivity.
Qed.

Lemma scoped_concat (ls : list (list ctx.Call)) :
  Forall (fun l => scoped l 0 = Some 0%nat) ls -> scoped (concat ls) 0 = Some 0%nat.
Proof.
  induction 1 as [|l ls Hl _ IH]; [reflexivity|]. simpl.
  rewrite (scoped_app _ _ _ _ Hl). exact IH.
Qed.

Lemma scoped_drawRakeGrooves theme paths : scoped (drawRakeGrooves theme paths) 0 = Some 0%nat.
Proof.
  apply scoped_concat, Forall_fmap, Forall_forall. intros path _.
  apply scoped_drawRakeGroove.
Qed.

Section PaintingLemmas.
Context {M : MathLib}.

Lemma scoped_drawObject obj : scoped (drawObject obj) 0 = Some 0%nat.
Proof. unfold drawObject. destruct (PlacedObject.type obj); reflexivity. Qed.

Lemma scoped_drawObjects objs : scoped (drawObjects objs) 0 = Some 0%nat.
Proof.
  apply scoped_concat, Forall_fmap, Forall_forall. intros obj _.
  apply scoped_drawObject.
Qed.

(** X10. [drawRakeGrooves] and [drawObjects], of either theme, leave the context
    as they find it, whatever the scene: its drawing state (styles, line
    settings, shadow, alpha, composite operation, transform, clip) and the
    stack of its saved states are after them what they were before. *)
Theorem painting_keeps_state (theme : GrooveTheme)
    (rakePaths : list (RakePath (list Point))) (placedObjects : list PlacedObject)
    (c : Context2D) :
  let c' := execAll (drawRakeGrooves theme rakePaths ++ drawObjects placedObjects) c in
  state c' = state c /\ saved c' = saved c.
Proof.
  assert (Hsc : scoped (drawRakeGrooves theme rakePaths ++ drawObjects placedObjects) 0
                = Some 0%nat).
  { rewrite (scoped_app _ _ _ _ (scoped_drawRakeGrooves theme rakePaths)).
    apply scoped_drawObjects. }
  destruct (execAll_scoped _ [] (saved c) c 0%nat (state c) Hsc eq_refl eq_refl)
    as (top' & Hs & Hlen & Hl).
  destruct top' as [|t top']; [|discriminate]. simpl in *. auto.
Qed.

End PaintingLemmas.

Lemma execAll_lineTos (points : list Point) : forall c,
  execAll (map (fun point => ctx.lineTo (Point.x point) (Point.y point)) points) c
  = mkContext2D (state c) (saved c)
      (currentPath c ++ map (fun point => ctx.lineTo (Point.x point) (Point.y point)) points)
      (painted c).
Proof.
  induction points as [|p points IH]; intros c; cbn [map].
  - rewrite app_nil_r. destruct c; reflexivity.
  - rewrite execAll_cons, IH. simpl. rewrite <- app_assoc. reflexivity.
Qed.

Lemma execAll_strokePolyline (points : list Point) c :
  points <> [] ->
  execAll (strokePolyline points) c
  = mkContext2D (state c) (saved c) (polyline points)
      (painted c ++ [mkPaint ctx.stroke (polyline points) (state c)]).
Proof.
  destruct points as [|p points]; [contradiction|]. intros _.
  unfold strokePolyline. rewrite execAll_app, execAll_app. 
  cbn [execAll foldl exec addToPath state saved currentPath painted app].
  change (foldl exec ?c ?l) with (execAll l c).
  rewrite execAll_lineTos. reflexivity.
Qed.

(** What [drawRakeGrooves] paints of one path. *)
Lemma painted_drawRakeGroove theme path c :
  exists new,
    painted (execAll (drawRakeGroove theme path) c) = painted c ++ new
    /\ map strokeOf new = grooveStrokes path.
Proof.
  unfold drawRakeGroove, grooveStrokes, drawn.
  destruct (length (RakePath.points path) <? 2)%nat eqn:E; cbn [negb app].
  - exists []. rewrite app_nil_r. auto.
  - assert (Hne : RakePath.points path <> []).
    { apply Nat.ltb_ge in E. destruct (RakePath.points path); simpl in E; [lia | discriminate]. }
    eexists. split.
    + rewrite !execAll_cons. rewrite execAll_app, (execAll_strokePolyline _ _ Hne).
      rewrite !execAll_cons. rewrite execAll_app, (execAll_strokePolyline _ _ Hne).
      rewrite !execAll_cons. rewrite execAll_app, (execAll_strokePolyline _ _ Hne).
      cbn. rewrite <- !app_assoc. reflexivity.
    + reflexivity.
Qed.

(** X11. [drawRakeGrooves], of either theme, strokes each path of two points or
    more three times along all its points, in the order of the scene: its
    shadow two wider than the groove, the groove at its width, and the
    highlight at a third of it or at 1 if that is more.  A path of fewer
    than two points is not painted. *)
Theorem grooves_strokes (theme : GrooveTheme) (rakePaths : list (RakePath (list Point)))
    (c : Context2D) :
  exists new,
    painted (execAll (drawRakeGrooves theme rakePaths) c) = painted c ++ new
    /\ map strokeOf new = concat (map grooveStrokes rakePaths).
Proof.
  revert c. unfold drawRakeGrooves.
  induction rakePaths as [|path rakePaths IH]; intros c; cbn [map concat].
  - exists []. rewrite app_nil_r. auto.
  - rewrite execAll_app.
    destruct (painted_drawRakeGroove theme path c) as (new1 & E1 & S1).
    destruct (IH (execAll (drawRakeGroove theme path) c)) as (new2 & E2 & S2).
    exists (new1 ++ new2). rewrite E2, E1, <- app_assoc. split; [reflexivity|].
    rewrite map_app, S1, S2. reflexivity.
Qed.

Lemma plain_keeps_alpha a k :
  plain k = true -> keepsBrush (fun st => globalAlpha st = a) k.
Proof. destruct k; simpl; try discriminate; intros _; auto. Qed.

Lemma plain_keeps_clips cl k :
  plain k = true -> keepsBrush (fun st => clips st = cl) k.
Proof. destruct k; simpl; try discriminate; intros _; auto. Qed.

Lemma Forall_plain (ok : DrawingState -> Prop) calls :
  (forall k, plain k = true -> keepsBrush ok k) ->
  forallb plain calls = true -> Forall (keepsBrush ok) calls.
Proof.
  intros Hk H. apply Forall_forall. intros k Hin. apply Hk.
  rewrite forallb_forall in H. apply H. apply list_elem_of_In, Hin.
Qed.

Lemma plain_strokePolyline points : forallb plain (strokePolyline points) = true.
Proof.
  destruct points as [|p points]; [reflexivity|]. unfold strokePolyline.
  rewrite !forallb_app. simpl. rewrite andb_true_r.
  induction points as [|q points IH]; [reflexivity | exact IH].
Qed.

Lemma plain_drawRakeGrooves theme paths : forallb plain (drawRakeGrooves theme paths) = true.
Proof.
  unfold drawRakeGrooves. induction paths as [|path paths IH]; [reflexivity|].
  cbn [map concat]. rewrite forallb_app, IH, andb_true_r.
  unfold drawRakeGroove. destruct (length (RakePath.points path) <? 2)%nat; [reflexivity|].
  rewrite !forallb_app, !plain_strokePolyline. reflexivity.
Qed.

Section RenderLemmas.
Context {M : MathLib}.

Lemma plain_drawObjects objs : forallb plain (drawObjects objs) = true.
Proof.
  unfold drawObjects. induction objs as [|obj objs IH]; [reflexivity|].
  cbn [map concat]. rewrite forallb_app, IH, andb_true_r.
  unfold drawObject. destruct (PlacedObject.type obj); reflexivity.
Qed.

Lemma scoped_scene theme rakePaths placedObjects :
  scoped (drawRakeGrooves theme rakePaths ++ drawObjects placedObjects) 0 = Some 0%nat.
Proof.
  rewrite (scoped_app _ _ _ _ (scoped_drawRakeGrooves theme rakePaths)).
  apply scoped_drawObjects.
Qed.

Lemma plain_scene theme rakePaths placedObjects :
  forallb plain (drawRakeGrooves theme rakePaths ++ drawObjects placedObjects) = true.
Proof. rewrite forallb_app, plain_drawRakeGrooves, plain_drawObjects. reflexivity. Qed.

(** What the grooves and the objects are painted in is the alpha of the
    context they are given. *)
Lemma scene_alpha theme rakePaths placedObjects c :
  exists new,
    painted (execAll (drawRakeGrooves theme rakePaths ++ drawObjects placedObjects) c)
    = painted c ++ new
    /\ Forall (fun p => globalAlpha (brush p) = globalAlpha (state c)) new.
Proof.
  destruct (execAll_brush (fun st => globalAlpha st = globalAlpha (state c)) _
              [] (saved c) c 0%nat (scoped_scene theme rakePaths placedObjects))
    as (top' & new & _ & _ & _ & _ & Hp & Hall).
  - apply Forall_plain; [apply plain_keeps_alpha | apply plain_scene].
  - reflexivity.
  - reflexivity.
  - constructor.
  - exists new. auto.
Qed.

(** The speckles of the dark garden, one by one. *)
Lemma speckles width height n : forall start r,
  unit_draws r -> 0 < width -> 0 < height ->
  exists speckles,
    forEach (seq start n) (fun _ => Slate.drawSpeckle width height) r
    = Some (speckles, drawn_more (4 * n) r)
    /\ length (List.filter isArc (concat speckles)) = n
    /\ Forall (speckleInside width height) (concat speckles)
    /\ forallb fillsOnly (concat speckles) = true.
Proof.
  induction n as [|n IH]; intros start r Hu Hw Hh.
  - exists []. simpl. unfold gret, drawn_more. rewrite Nat.add_0_r. destruct r. auto.
  - cbn [seq forEach]. unfold gbind at 1. unfold Slate.drawSpeckle at 1. unfold gbind, rand, gret.
    cbn [Math_random fst snd draws cursor].
    set (r4 := {| draws := draws r; cursor := S (S (S (S (cursor r)))) |}).
    destruct (IH (S start) r4 Hu Hw Hh) as (rest & E & Hlen & Hin & Hflat).
    rewrite E. eexists. split; [|split; [|split]].
    + unfold drawn_more, r4. cbn [draws cursor]. do 3 f_equal. lia.
    + cbn [concat app List.filter isArc]. cbn [length]. rewrite Hlen. reflexivity.
    + cbn [concat app].
      destruct (Hu (cursor r)) as [A0 A1]. destruct (Hu (S (cursor r))) as [B0 B1].
      destruct (Hu (S (S (cursor r)))) as [C0 C1].
      repeat (apply Forall_cons; split); try exact I; [|exact Hin].
      simpl. repeat split; try nra.
    + cbn [concat app forallb fillsOnly]. rewrite Hflat. reflexivity.
Qed.

Lemma execAll_fillsOnly calls : forall c,
  forallb fillsOnly calls = true ->
  let c' := execAll calls c in
  saved c' = saved c /\ globalAlpha (state c') = globalAlpha (state c)
  /\ transforms (state c') = transforms (state c) /\ clips (state c') = clips (state c).
Proof.
  induction calls as [|k calls IH]; intros c H; [simpl; auto|].
  cbn [forallb] in H. apply andb_true_iff in H as [Hk H].
  rewrite execAll_cons. destruct (IH (exec c k) H) as (E1 & E2 & E3 & E4).
  cbv zeta. rewrite E1, E2, E3, E4.
  destruct k; simpl in Hk; try discriminate; simpl; auto.
Qed.

End RenderLemmas.

Section RenderTheorems.
Context {M : MathLib}.

(** X12. [render] of the dark garden paints nothing without a canvas or without
    a context.  With both, and a canvas that has a width and a height, it
    clears the canvas, paints the sand with 1000 speckles that lie inside the
    canvas (four draws each), and then the grooves and the objects: the
    alpha of 0.05 of the speckles is back at 1 before them, so that every
    stroke and fill of the scene is painted at full opacity, and the stack of
    saved states, the transform and the clip are what they were. *)
Theorem render_slate (canvas : HTMLCanvasElement)
    (rakePaths : list (RakePath (list Point))) (placedObjects : list PlacedObject) (r : Rng) :
  let width := HTMLCanvasElement.width canvas in
  let height := HTMLCanvasElement.height canvas in
  unit_draws r -> 0 < width -> 0 < height ->
  Slate.render None true rakePaths placedObjects r = Some ([], r)
  /\ Slate.render (Some canvas) false rakePaths placedObjects r = Some ([], r)
  /\ exists texture,
       Slate.drawSandTexture width height r = Some (texture, drawn_more 4000 r)
       /\ Slate.render (Some canvas) true rakePaths placedObjects r
          = Some ([ctx.clearRect 0 0 width height] ++ texture
                  ++ drawRakeGrooves slate rakePaths ++ drawObjects placedObjects,
                  drawn_more 4000 r)
       /\ length (List.filter isArc texture) = 1000%nat
       /\ Forall (speckleInside width height) texture
       /\ forall c,
            let c1 := execAll ([ctx.clearRect 0 0 width height] ++ texture) c in
            saved c1 = saved c /\ globalAlpha (state c1) = 1
            /\ transforms (state c1) = transforms (state c)
            /\ clips (state c1) = clips (state c)
            /\ exists new,
                 painted (execAll (drawRakeGrooves slate rakePaths
                                   ++ drawObjects placedObjects) c1)
                 = painted c1 ++ new
                 /\ Forall opaque new.
Proof.
  intros width height Hu Hw Hh. split; [reflexivity|]. split; [reflexivity|].
  destruct (speckles width height 1000 0 r Hu Hw Hh) as (sp & E & Hlen & Hin & Hfill).
  change (4 * 1000)%nat with 4000%nat in E.
  eexists. split; [|split; [|split; [|split]]].
  - unfold Slate.drawSandTexture, gbind. rewrite E. reflexivity.
  - unfold Slate.render, gbind, Slate.drawSandTexture, gbind. fold width height. rewrite E. reflexivity.
  - cbn [app List.filter isArc]. rewrite List.filter_app, length_app, Hlen. reflexivity.
  - repeat (apply Forall_cons; split; [exact I|]). apply Forall_app. split; [exact Hin|].
    apply Forall_singleton. exact I.
  - intros c.
    set (c0 := execAll [ctx.clearRect 0 0 width height;
                        ctx.fillStyle (LinearGradient 0 0 width height
                           [(0, "#1f2937"); (0.5, "#111827"); (1, "#0b1220")]);
                        ctx.fillRect 0 0 width height; ctx.globalAlpha 0.05] c).
    assert (Ec1 : execAll ([ctx.clearRect 0 0 width height]
                    ++ [ctx.fillStyle (LinearGradient 0 0 width height
                          [(0, "#1f2937"); (0.5, "#111827"); (1, "#0b1220")]);
                        ctx.fillRect 0 0 width height; ctx.globalAlpha 0.05]
                    ++ concat sp ++ [ctx.globalAlpha 1]) c
                  = exec (execAll (concat sp) c0) (ctx.globalAlpha 1)).
    { rewrite app_assoc, execAll_app, execAll_app. reflexivity. }
    cbv zeta. rewrite Ec1.
    destruct (execAll_fillsOnly (concat sp) c0 Hfill) as (E1 & E2 & E3 & E4).
    split; [simpl; rewrite E1; reflexivity|]. split; [reflexivity|].
    split; [simpl; rewrite E3; reflexivity|]. split; [simpl; rewrite E4; reflexivity|].
    apply scene_alpha.
Qed.

End RenderTheorems.

Lemma render_slate_witness :
  exists texture,
    Slate.drawSandTexture (M := sampleMath) 800 600 halves = Some (texture, drawn_more 4000 halves)
    /\ length (List.filter isArc texture) = 1000%nat
    /\ Forall (speckleInside 800 600) texture.
Proof.
  destruct (render_slate (M := sampleMath) canvas800 [] [] halves unit_draws_halves)
    as (_ & _ & texture & E & _ & Hlen & Hin & _); [reflexivity | reflexivity |].
  exists texture. auto.
Defined.

(** ** The light garden *)

(** The corners of [roundedRectPath] never turn more than half a side. *)
Lemma roundedRectPath_points (x y w h r : number) :
  0 <= w -> 0 <= h -> 0 <= r ->
  Forall (inRect x y w h) (concat (map pathPoints (Wood.roundedRectPath x y w h r))).
Proof.
  intros Hw Hh Hr. unfold Wood.roundedRectPath.
  set (hw := w / 2). set (hh := h / 2).
  assert (Ew : w == 2 * hw) by (unfold hw; field).
  assert (Eh : h == 2 * hh) by (unfold hh; field).
  set (radius := Qmin r (Qmin hw hh)).
  assert (H0 : 0 <= radius).
  { unfold radius. apply Q.min_glb; [exact Hr|]. apply Q.min_glb; lra. }
  assert (H1 : radius <= hw).
  { unfold radius. eapply Qle_trans; [apply Q.le_min_r | apply Q.le_min_l]. }
  assert (H2 : radius <= hh).
  { unfold radius. eapply Qle_trans; [apply Q.le_min_r | apply Q.le_min_r]. }
  cbn [map concat app pathPoints].
  repeat (apply Forall_cons; split; [unfold inRect; simpl; repeat split; lra|]).
  constructor.
Qed.

(** X13. [getSandRect] leaves a frame of 42 around the sand.  The sand is never
    of negative size; on a canvas of 84 or more either way it has 42 on each
    side, and every point of its outline (the path [render] clips the scene
    to) lies in the canvas, 42 or more from its edges; on a smaller canvas it
    is empty. *)
Theorem sand_rect_in_canvas (width height : number) :
  let sandRect := Wood.getSandRect width height in
  Wood.x sandRect == 42 /\ Wood.y sandRect == 42 /\ Wood.r sandRect == 28
  /\ 0 <= Wood.w sandRect /\ 0 <= Wood.h sandRect
  /\ (84 <= width -> Wood.x sandRect + Wood.w sandRect == width - 42)
  /\ (84 <= height -> Wood.y sandRect + Wood.h sandRect == height - 42)
  /\ (width <= 84 -> Wood.w sandRect == 0)
  /\ (height <= 84 -> Wood.h sandRect == 0)
  /\ (84 <= width -> 84 <= height ->
      Forall (fun p => 42 <= fst p /\ fst p <= width - 42
                       /\ 42 <= snd p /\ snd p <= height - 42)
        (concat (map pathPoints
                   (Wood.roundedRectPath (Wood.x sandRect) (Wood.y sandRect)
                      (Wood.w sandRect) (Wood.h sandRect) (Wood.r sandRect))))).
Proof.
  cbv zeta.
  assert (Hw0 : 0 <= Wood.w (Wood.getSandRect width height)) by apply Q.le_max_l.
  assert (Hh0 : 0 <= Wood.h (Wood.getSandRect width height)) by apply Q.le_max_l.
  assert (Hw1 : 84 <= width ->
                Wood.x (Wood.getSandRect width height) + Wood.w (Wood.getSandRect width height)
                == width - 42).
  { intros Hw. cbn [Wood.getSandRect Wood.x Wood.w]. rewrite Q.max_r by lra. lra. }
  assert (Hh1 : 84 <= height ->
                Wood.y (Wood.getSandRect width height) + Wood.h (Wood.getSandRect width height)
                == height - 42).
  { intros Hh. cbn [Wood.getSandRect Wood.y Wood.h]. rewrite Q.max_r by lra. lra. }
  split; [reflexivity|]. split; [reflexivity|]. split; [reflexivity|].
  split; [exact Hw0|]. split; [exact Hh0|]. split; [exact Hw1|]. split; [exact Hh1|].
  split; [|split].
  - intros Hw. cbn [Wood.getSandRect Wood.w]. rewrite Q.max_l by lra. reflexivity.
  - intros Hh. cbn [Wood.getSandRect Wood.h]. rewrite Q.max_l by lra. reflexivity.
  - intros Hw Hh. specialize (Hw1 Hw). specialize (Hh1 Hh).
    eapply Forall_impl.
    + apply (roundedRectPath_points _ _ _ _ (Wood.r (Wood.getSandRect width height)));
        [exact Hw0 | exact Hh0 | cbn [Wood.getSandRect Wood.r]; lra].
    + intros p (A & B & C & D).
      assert (Ex : Wood.x (Wood.getSandRect width height) == 42) by reflexivity.
      assert (Ey : Wood.y (Wood.getSandRect width height) == 42) by reflexivity.
      repeat split; lra.
Qed.

(** X14. The corners of [roundedRectPath] never turn more than half a side: for a
    rectangle that has a size and a radius that is not negative, every point
    the path names lies in the rectangle, whatever the radius asked for. *)
Theorem rounded_rect_in_rect (x y w h r : number) :
  0 <= w -> 0 <= h -> 0 <= r ->
  Forall (inRect x y w h) (concat (map pathPoints (Wood.roundedRectPath x y w h r))).
Proof. apply roundedRectPath_points. Qed.

Lemma rounded_rect_in_rect_witness :
  Forall (inRect 42 42 716 516)
    (concat (map pathPoints (Wood.roundedRectPath 42 42 716 516 28))).
Proof.
  apply (rounded_rect_in_rect 42 42 716 516 28); vm_compute; discriminate.
Defined.

Section WoodLemmas.
Context {M : MathLib}.

Lemma returns_pointAt points z :
  (0 <= z < Z.of_nat (length points))%Z ->
  returns (Wood.pointAt points z) (fun p => p ∈ points).
Proof.
  intros [H0 H1]. unfold Wood.pointAt.
  destruct (z <? 0)%Z eqn:E; [apply Z.ltb_lt in E; lia|].
  destruct (points !! Z.to_nat z) as [p|] eqn:Ep.
  - apply returns_gret. eapply list_elem_of_lookup_2, Ep.
  - apply lookup_ge_None in Ep. lia.
Qed.

Lemma flowerless_drawLeaf cx cy angle size :
  forallb (fun k => negb (flowerCall k)) (Wood.drawLeaf cx cy angle size) = true.
Proof. reflexivity. Qed.

(** The index of a leaf is 1 more than a multiple of 12: its neighbours are
    points of the vine, and it is no multiple of 24. *)
Lemma returns_drawLeafAt points (v : Q) (k : nat) :
  v == inject_Z (1 + 12 * Z.of_nat k) -> v < num (length points) - 1 ->
  returns (Wood.drawLeafAt points v)
    (fun calls => forallb (fun k => negb (flowerCall k)) calls = true).
Proof.
  intros Ev Hlt.
  assert (Ef : Qfloor v = (1 + 12 * Z.of_nat k)%Z)
    by (rewrite (Qfloor_comp _ _ Ev); apply Qfloor_Z).
  assert (Hb : (1 + 12 * Z.of_nat k < Z.of_nat (length points) - 1)%Z).
  { rewrite Zlt_Qlt. unfold Z.sub. rewrite (inject_Z_plus (Z.of_nat _)), inject_Z_opp.
    rewrite <- Ev. unfold num in Hlt. change (inject_Z 1) with 1. lra. }
  unfold Wood.drawLeafAt. rewrite Ef.
  eapply returns_gbind; [apply returns_pointAt; lia|]. intros prev _.
  eapply returns_gbind; [apply returns_pointAt; lia|]. intros curr _.
  eapply returns_gbind; [apply returns_pointAt; lia|]. intros next _.
  eapply returns_gbind; [apply returns_rand|]. intros u _.
  assert (E24 : ((1 + 12 * Z.of_nat k) mod 24 =? 0)%Z = false).
  { apply Z.eqb_neq. intros H. apply Z.mod_divide in H; [|lia]. destruct H as [q Hq]. lia. }
  rewrite E24. apply returns_gret. apply flowerless_drawLeaf.
Qed.

Lemma forallb_concat {A} (f : A -> bool) (ls : list (list A)) :
  Forall (fun l => forallb f l = true) ls -> forallb f (concat ls) = true.
Proof.
  induction 1 as [|l ls Hl _ IH]; [reflexivity|].
  cbn [concat]. rewrite forallb_app, Hl, IH. reflexivity.
Qed.

Lemma flowerless_lineTos (points : list Point) :
  forallb (fun k => negb (flowerCall k))
    (map (fun point => ctx.lineTo (Point.x point) (Point.y point)) points) = true.
Proof. induction points as [|p points IH]; [reflexivity | exact IH]. Qed.

Lemma returns_drawVine points :
  returns (Wood.drawVine points)
    (fun calls => forallb (fun k => negb (flowerCall k)) calls = true).
Proof.
  unfold Wood.drawVine. destruct points as [|first [|second others]];
    try (apply returns_gret; reflexivity).
  set (points := first :: second :: others).
  eapply returns_gbind.
  - apply (returns_forLt (fun v => exists k : nat, v == inject_Z (1 + 12 * Z.of_nat k))
             (fun calls => forallb (fun k => negb (flowerCall k)) calls = true)).
    + intros v [k Ev] Hlt. apply (returns_drawLeafAt points v k Ev Hlt).
    + intros v [k Ev] _. apply returns_gret. split; [|lra].
      exists (S k). rewrite Ev, Nat2Z.inj_succ.
      replace (1 + 12 * Z.succ (Z.of_nat k))%Z with ((1 + 12 * Z.of_nat k) + 12)%Z by lia.
      rewrite (inject_Z_plus (1 + 12 * Z.of_nat k) 12). reflexivity.
    + exists 0%nat. reflexivity.
    + apply fuelUpTo_enough. lra.
  - intros leaves [Hall _]. apply returns_gret.
    rewrite !forallb_app, flowerless_lineTos, (forallb_concat _ _ Hall). reflexivity.
Qed.

Lemma returns_speckle sandRect :
  0 <= Wood.w sandRect -> 0 <= Wood.h sandRect ->
  returns (Wood.drawSpeckle sandRect)
    (fun calls => Forall (speckleOnSand sandRect) calls).
Proof.
  intros Hw Hh. unfold Wood.drawSpeckle.
  eapply returns_gbind; [apply returns_rand|]. intros u1 [A0 A1].
  eapply returns_gbind; [apply returns_rand|]. intros u2 [B0 B1].
  eapply returns_gbind; [apply returns_rand|]. intros u3 [C0 C1].
  eapply returns_gbind; [apply returns_rand|]. intros u4 _.
  apply returns_gret. repeat (apply Forall_cons; split); try exact I; [|constructor].
  unfold speckleOnSand, inRect. cbn [fst snd]. repeat split; nra.
Qed.

Lemma flowerless_speckleOnSand sandRect calls :
  forallb (fun k => negb (flowerCall k)) calls = true ->
  Forall (speckleOnSand sandRect) calls.
Proof.
  intros H. apply Forall_forall. intros k Hin.
  rewrite forallb_forall in H. specialize (H k (proj1 (list_elem_of_In _ _) Hin)).
  destruct k; try exact I. discriminate H.
Qed.

Lemma Forall_concat {A} (P : A -> Prop) (ls : list (list A)) :
  Forall (Forall P) ls -> Forall P (concat ls).
Proof.
  induction 1 as [|l ls Hl _ IH]; [constructor|]. cbn [concat]. apply Forall_app. auto.
Qed.

Lemma sandRect_nonneg width height :
  0 <= Wood.w (Wood.getSandRect width height) /\ 0 <= Wood.h (Wood.getSandRect width height).
Proof. cbn [Wood.getSandRect Wood.w Wood.h]. split; apply Q.le_max_l. Qed.

(** The background is painted whatever the draws, and the only arcs on it
    are the speckles of the sand. *)
Lemma returns_drawSandTexture width height :
  returns (Wood.drawSandTexture width height (Wood.getSandRect width height))
    (fun texture => Forall (speckleOnSand (Wood.getSandRect width height)) texture).
Proof.
  destruct (sandRect_nonneg width height) as [Hw Hh].
  set (sandRect := Wood.getSandRect width height) in *.
  unfold Wood.drawSandTexture.
  eapply returns_gbind.
  { apply returns_forEach. intros i _. apply (returns_speckle sandRect Hw Hh). }
  intros speckles [_ Hsp].
  do 4 (eapply returns_gbind; [apply returns_drawVine|]; intros ? ?).
  apply returns_gret.
  repeat first
    [ apply Forall_nil
    | apply Forall_cons; split; [exact I|]
    | apply Forall_app; split ];
    try (apply flowerless_speckleOnSand; assumption);
    try (apply Forall_concat; assumption).
  all: try (apply flowerless_speckleOnSand; reflexivity).
  all: exact I.
Qed.

End WoodLemmas.

Section WoodTheorems.
Context {M : MathLib}.

Lemma execAll_roundedRectPath x y w h r c :
  execAll (Wood.roundedRectPath x y w h r) c
  = mkContext2D (state c) (saved c) (tl (Wood.roundedRectPath x y w h r)) (painted c).
Proof. reflexivity. Qed.

Lemma otherSize_same width height : Wood.otherSize (width, height) width height = false.
Proof.
  unfold Wood.otherSize. cbn [fst snd].
  rewrite (proj2 (Qeq_bool_iff width width)), (proj2 (Qeq_bool_iff height height));
    reflexivity.
Qed.

Lemma otherSize_other size width height :
  ~ (fst size == width /\ snd size == height) -> Wood.otherSize size width height = true.
Proof.
  intros Hne. unfold Wood.otherSize.
  destruct (Qeq_bool (fst size) width) eqn:E1; [|reflexivity].
  destruct (Qeq_bool (snd size) height) eqn:E2; [|reflexivity].
  exfalso. apply Hne. split; apply Qeq_bool_iff; assumption.
Qed.

(** A background that is asked for a first time, or in a new size. *)
Lemma getBackgroundCanvas_new width height getContext bg r :
  unit_draws r ->
  match Wood.backgroundCacheRef bg, Wood.backgroundSizeRef bg with
  | Some _, Some size => Wood.otherSize size width height = true
  | _, _ => True
  end ->
  exists painted r',
    let off := {| Wood.serial := Wood.created bg; Wood.width := width;
                  Wood.height := height; Wood.bitmap := painted |} in
    Wood.getBackgroundCanvas width height getContext bg r
    = Some ((off, {| Wood.backgroundCacheRef := Some off;
                     Wood.backgroundSizeRef := Some (width, height);
                     Wood.created := S (Wood.created bg) |}), r')
    /\ draws r' = draws r
    /\ (getContext = false -> painted = [] /\ r' = r)
    /\ Forall (speckleOnSand (Wood.getSandRect width height)) painted.
Proof.
  intros Hu Hnew. unfold Wood.getBackgroundCanvas.
  assert (E : match Wood.backgroundCacheRef bg, Wood.backgroundSizeRef bg with
              | Some _, Some size => Wood.otherSize size width height
              | _, _ => true
              end = true).
  { destruct (Wood.backgroundCacheRef bg), (Wood.backgroundSizeRef bg); auto. }
  rewrite E. destruct getContext.
  - destruct (returns_drawSandTexture width height r Hu) as (texture & r' & Et & Ed & Ht).
    exists texture, r'. unfold gbind. rewrite Et. repeat split; auto; discriminate.
  - exists [], r. repeat split; auto.
Qed.

Lemma getBackgroundCanvas_cached width height getContext off created r :
  Wood.getBackgroundCanvas width height getContext
    {| Wood.backgroundCacheRef := Some off;
       Wood.backgroundSizeRef := Some (width, height);
       Wood.created := created |} r
  = Some ((off, {| Wood.backgroundCacheRef := Some off;
                   Wood.backgroundSizeRef := Some (width, height);
                   Wood.created := created |}), r).
Proof.
  unfold Wood.getBackgroundCanvas. cbn [Wood.backgroundCacheRef Wood.backgroundSizeRef].
  rewrite otherSize_same. reflexivity.
Qed.

(** What [getBackgroundCanvas] returns it returns again, without a draw. *)
Lemma background_cache_step width height getContext bg r :
  unit_draws r ->
  exists off bg' r',
    Wood.getBackgroundCanvas width height getContext bg r = Some ((off, bg'), r')
    /\ forall getContext2 r2,
         Wood.getBackgroundCanvas width height getContext2 bg' r2 = Some ((off, bg'), r2).
Proof.
  intros Hu.
  destruct (Wood.backgroundCacheRef bg) as [off0|] eqn:Ec;
    [destruct (Wood.backgroundSizeRef bg) as [size|] eqn:Es;
     [destruct (Wood.otherSize size width height) eqn:Eo|]|].
  2:{ exists off0, bg, r.
      assert (Ehit : forall getContext2 r2,
                Wood.getBackgroundCanvas width height getContext2 bg r2
                = Some ((off0, bg), r2)).
      { intros g2 r2. unfold Wood.getBackgroundCanvas. rewrite Ec, Es, Eo. reflexivity. }
      split; [apply Ehit | exact Ehit]. }
  all: destruct (getBackgroundCanvas_new width height getContext bg r Hu)
         as (painted & r' & E & _);
    [rewrite Ec, ?Es; solve [exact Eo | exact I]|];
    eexists _, _, r'; (split; [exact E|]);
    intros g2 r2; apply getBackgroundCanvas_cached.
Qed.

(** X15. The vines of the frame: [drawVine] returns whatever the points it is
    given (the neighbours of a leaf are never out of range), and draws no
    flower: a leaf is at an index that is 1 more than a multiple of 12, and a
    flower needs a multiple of 24. *)
Theorem vines_without_flowers (points : list Point) (r : Rng) :
  unit_draws r ->
  exists calls r',
    Wood.drawVine points r = Some (calls, r')
    /\ Forall (fun k => flowerCall k = false) calls.
Proof.
  intros Hu. destruct (returns_drawVine points r Hu) as (calls & r' & E & _ & H).
  exists calls, r'. split; [exact E|]. apply Forall_forall. intros k Hin.
  rewrite forallb_forall in H. specialize (H k (proj1 (list_elem_of_In _ _) Hin)).
  destruct (flowerCall k); [discriminate H | reflexivity].
Qed.

(** X16. The background of the light garden is made once for a size.
    [getBackgroundCanvas] always returns a canvas, which it keeps; when it
    paints one, the only arcs on it are speckles that lie on the sand (the
    frame has none).  Asked again for the same size it returns the canvas it
    has kept, draws no random number and makes no canvas, whatever the
    context; asked for another size it makes one more canvas, of that
    size. *)
Theorem background_made_once (width height : number) (getContext : bool)
    (bg : Wood.Background) (r : Rng) :
  unit_draws r ->
  exists off bg' r',
    Wood.getBackgroundCanvas width height getContext bg r = Some ((off, bg'), r')
    /\ Wood.backgroundCacheRef bg' = Some off
    /\ (Wood.created bg' = Wood.created bg \/
        Wood.created bg' = S (Wood.created bg)
        /\ Wood.width off = width /\ Wood.height off = height
        /\ Forall (speckleOnSand (Wood.getSandRect width height)) (Wood.bitmap off))
    /\ (forall getContext2 r2,
          Wood.getBackgroundCanvas width height getContext2 bg' r2 = Some ((off, bg'), r2))
    /\ (forall width2 height2 getContext2 r2,
          unit_draws r2 -> ~ (width2 == width /\ height2 == height) ->
          exists off2 bg2 r3,
            Wood.getBackgroundCanvas width2 height2 getContext2 bg' r2
            = Some ((off2, bg2), r3)
            /\ Wood.created bg2 = S (Wood.created bg')
            /\ Wood.width off2 = width2 /\ Wood.height off2 = height2
            /\ Wood.backgroundCacheRef bg2 = Some off2).
Proof.
  intros Hu.
  destruct (Wood.backgroundCacheRef bg) as [off0|] eqn:Ec;
    [destruct (Wood.backgroundSizeRef bg) as [size|] eqn:Es;
     [destruct (Wood.otherSize size width height) eqn:Eo|]|].
  2:{ (* the canvas that is kept *)
    exists off0, bg, r.
    assert (Ehit : forall getContext2 r2,
              Wood.getBackgroundCanvas width height getContext2 bg r2 = Some ((off0, bg), r2)).
    { intros g2 r2. unfold Wood.getBackgroundCanvas. rewrite Ec, Es, Eo. reflexivity. }
    split; [apply Ehit|]. split; [exact Ec|]. split; [left; reflexivity|].
    split; [exact Ehit|].
    intros width2 height2 g2 r2 Hu2 Hne.
    destruct (getBackgroundCanvas_new width2 height2 g2 bg r2 Hu2)
      as (painted & r3 & E & _).
    { rewrite Ec, Es. apply otherSize_other. intros [E1 E2]. apply Hne.
      unfold Wood.otherSize in Eo. apply orb_false_iff in Eo as [Eo1 Eo2].
      apply negb_false_iff, Qeq_bool_iff in Eo1. apply negb_false_iff, Qeq_bool_iff in Eo2.
      split; [rewrite <- Eo1 | rewrite <- Eo2]; symmetry; assumption. }
    eexists _, _, r3. split; [exact E|]. repeat split. }
  all: destruct (getBackgroundCanvas_new width height getContext bg r Hu)
         as (painted & r' & E & _ & _ & Hp);
    [rewrite Ec, ?Es; solve [exact Eo | exact I]|];
    eexists _, _, r'; (split; [exact E|]); (split; [reflexivity|]);
    (split; [right; repeat split; exact Hp|]);
    (split; [intros g2 r2; apply getBackgroundCanvas_cached|]);
    intros width2 height2 g2 r2 Hu2 Hne;
    match goal with
    | |- context [Wood.getBackgroundCanvas _ _ _ ?b _] =>
        destruct (getBackgroundCanvas_new width2 height2 g2 b r2 Hu2)
          as (painted2 & r3 & E2 & _);
        [cbn [Wood.backgroundCacheRef Wood.backgroundSizeRef];
         apply otherSize_other; cbn [fst snd]; intros [E1 E2]; apply Hne;
         split; symmetry; assumption|];
        eexists _, _, r3; split; [exact E2|]; repeat split
    end.
Qed.

(** What [getBackgroundCanvas] returns has the size asked for. *)
Lemma background_size width height getContext bg r off bg' r' :
  cacheSized bg ->
  Wood.getBackgroundCanvas width height getContext bg r = Some ((off, bg'), r') ->
  Wood.width off == width /\ Wood.height off == height /\ cacheSized bg'.
Proof.
  intros Hs. unfold Wood.getBackgroundCanvas, cacheSized in *.
  destruct (Wood.backgroundCacheRef bg) as [off0|] eqn:Ec;
    [destruct (Wood.backgroundSizeRef bg) as [size|] eqn:Es;
     [destruct (Wood.otherSize size width height) eqn:Eo|]|].
  2:{ intros [= <- <- <-]. rewrite Ec, Es.
      unfold Wood.otherSize in Eo. apply orb_false_iff in Eo as [Eo1 Eo2].
      apply negb_false_iff, Qeq_bool_iff in Eo1. apply negb_false_iff, Qeq_bool_iff in Eo2.
      destruct Hs as [Hw Hh]. rewrite Hw, Hh.
      split; [exact Eo1|]. split; [exact Eo2|]. split; reflexivity. }
  all: unfold gbind; destruct (if getContext then _ else _) as [[painted r1]|];
    [|discriminate]; intros [= <- <- <-]; cbn; repeat split; reflexivity.
Qed.

(** X17. [render] of the light garden paints nothing without a canvas or without
    a context, and throws on a canvas that has no width or no height: that
    is what [drawImage] does with the empty image of the background.  On a
    canvas that has both it clears the canvas, draws the image of the
    background and then the grooves and the objects, every stroke and fill
    of which is clipped to the outline of the sand; when it returns, the
    drawing state and the stack of saved states are what they were.  Every
    later render on the same canvas draws the same image and draws no random
    number. *)
Theorem render_wood (canvas : HTMLCanvasElement) (offContext : bool)
    (rakePaths : list (RakePath (list Point))) (placedObjects : list PlacedObject)
    (bg : Wood.Background) (r : Rng) :
  let width := HTMLCanvasElement.width canvas in
  let height := HTMLCanvasElement.height canvas in
  unit_draws r -> cacheSized bg ->
  Wood.render None true offContext rakePaths placedObjects bg r = Some (([], bg), r)
  /\ Wood.render (Some canvas) false offContext rakePaths placedObjects bg r
     = Some (([], bg), r)
  /\ (width == 0 \/ height == 0 ->
      Wood.render (Some canvas) true offContext rakePaths placedObjects bg r = None)
  /\ (0 < width -> 0 < height ->
      exists image bg' r',
        Wood.render (Some canvas) true offContext rakePaths placedObjects bg r
        = Some ((woodFrame width height image rakePaths placedObjects, bg'), r')
        /\ cacheSized bg'
        /\ (forall c,
              let c' := execAll (woodFrame width height image rakePaths placedObjects) c in
              state c' = state c /\ saved c' = saved c
              /\ exists new,
                   painted c'
                   = painted c
                     ++ [mkPaint (ctx.clearRect 0 0 width height) [] (state c);
                         mkPaint (ctx.drawImage image 0 0) [] (state c)]
                     ++ new
                   /\ Forall (fun p => clips (brush p)
                                       = clips (state c)
                                         ++ [sandOutline (Wood.getSandRect width height)]) new)
        /\ forall offContext2 rakePaths2 placedObjects2 r2,
             Wood.render (Some canvas) true offContext2 rakePaths2 placedObjects2 bg' r2
             = Some ((woodFrame width height image rakePaths2 placedObjects2, bg'), r2)).
Proof.
  intros width height Hu Hs. split; [reflexivity|]. split; [reflexivity|].
  destruct (background_cache_step width height offContext bg r Hu)
    as (off & bg' & r' & E & Hagain).
  destruct (background_size _ _ _ _ _ _ _ _ Hs E) as (Ew & Eh & Hs').
  split.
  - intros Hzero. unfold Wood.render, gbind. fold width height. rewrite E. cbn [fst].
    unfold Wood.drawable.
    assert (Ez : Qeq_bool (Wood.width off) 0 || Qeq_bool (Wood.height off) 0 = true).
    { apply orb_true_iff. destruct Hzero as [Hz|Hz]; [left|right]; apply Qeq_bool_iff;
        [rewrite Ew | rewrite Eh]; exact Hz. }
    rewrite Ez. reflexivity.
  - intros Hw Hh.
    assert (Ed : Wood.drawable off = true).
    { unfold Wood.drawable. apply negb_true_iff, orb_false_iff.
      split; apply not_true_iff_false; intros Hq; apply Qeq_bool_iff in Hq;
        [rewrite Ew in Hq | rewrite Eh in Hq]; lra. }
    exists (Wood.bitmap off), bg', r'. split; [|split; [exact Hs'|split]].
    + unfold Wood.render, gbind. fold width height. rewrite E. cbn [fst snd].
      rewrite Ed. reflexivity.
    + intros c. unfold woodFrame.
      set (sandRect := Wood.getSandRect width height).
      set (outline := Wood.roundedRectPath _ _ _ _ _).
      rewrite execAll_app, execAll_app, execAll_app.
      set (c1 := execAll [ctx.clearRect 0 0 width height;
                          ctx.drawImage (Wood.bitmap off) 0 0; ctx.save] c).
      unfold outline at 1. rewrite execAll_roundedRectPath. fold outline.
      set (c3 := execAll [ctx.clip] _).
      rewrite app_assoc, execAll_app.
      destruct (execAll_brush (fun st => clips st = clips (state c) ++ [sandOutline sandRect])
                  (drawRakeGrooves wood rakePaths ++ drawObjects placedObjects)
                  [] (state c :: saved c) c3 0%nat (scoped_scene wood rakePaths placedObjects))
        as (top' & new & Es & El & _ & _ & Ep & Hall).
      * apply Forall_plain; [apply plain_keeps_clips | apply plain_scene].
      * reflexivity.
      * reflexivity.
      * constructor.
      * destruct top' as [|? ?]; [|discriminate El]. cbn [app] in Es.
        cbv zeta. change (execAll [ctx.restore] ?x) with (exec x ctx.restore).
        cbn [exec]. rewrite Es. cbn [state saved painted].
        split; [reflexivity|]. split; [reflexivity|].
        exists new. split; [|exact Hall]. rewrite Ep.
        transitivity (((painted c ++ [mkPaint (ctx.clearRect 0 0 width height) [] (state c)])
                       ++ [mkPaint (ctx.drawImage (Wood.bitmap off) 0 0) [] (state c)])
                      ++ new); [reflexivity|].
        rewrite <- !app_assoc. reflexivity.
    + intros g2 paths2 objs2 r2. unfold Wood.render, gbind. fold width height.
      rewrite Hagain. cbn [fst snd]. rewrite Ed. reflexivity.
Qed.

End WoodTheorems.

Lemma vines_without_flowers_witness :
  exists calls r',
    Wood.drawVine (M := sampleMath) (Wood.buildWavePoints (M := sampleMath) 12 12 788 12 7 4)
      halves = Some (calls, r')
    /\ Forall (fun k => flowerCall k = false) calls.
Proof.
  exact (vines_without_flowers (M := sampleMath) _ halves unit_draws_halves).
Defined.

Lemma background_made_once_witness :
  exists off bg' r',
    Wood.getBackgroundCanvas (M := sampleMath) 800 600 true noBackground halves
    = Some ((off, bg'), r')
    /\ Wood.backgroundCacheRef bg' = Some off.
Proof.
  destruct (background_made_once (M := sampleMath) 800 600 true noBackground halves
              unit_draws_halves) as (off & bg' & r' & E & Hc & _).
  exists off, bg', r'. auto.
Defined.

Lemma render_wood_witness :
  exists image bg' r',
    Wood.render (M := sampleMath) (Some canvas800) true true [] [] noBackground halves
    = Some ((woodFrame (M := sampleMath) 800 600 image [] [], bg'), r').
Proof.
  destruct (render_wood (M := sampleMath) canvas800 true [] [] noBackground halves
              unit_draws_halves I) as (_ & _ & _ & H).
  destruct H as (image & bg' & r' & E & _); [reflexivity | reflexivity |].
  exists image, bg', r'. exact E.
Defined.

(** ** Sound *)

Section Cues.
Context {M : MathLib}.

(** *** The cues of the canvas hook *)

Lemma cues_pointerDown now point s :
  exists cue, cue ∈ soundNames /\ cues (pointerDown now point s) = cues s ++ [cue].
Proof.
  unfold pointerDown. destruct (tool s).
  - exists "rake". split; [unfold soundNames; repeat constructor | reflexivity].
  - exists "place". split; [unfold soundNames; repeat constructor | reflexivity].
Qed.

Lemma cues_pointerMove point s : cues (pointerMove point s) = cues s.
Proof. unfold pointerMove. repeat case_match; reflexivity. Qed.

Lemma cues_reveal path an i p s :
  exists more, cues (reveal path an i p s) = cues s ++ more /\ Forall (.∈ soundNames) more.
Proof.
  unfold reveal. case_match.
  - exists ["rake"]. split; [reflexivity|]. repeat constructor.
  - exists []. split; [symmetry; apply app_nil_r | constructor].
Qed.

Ltac by_reveal :=
  match goal with
  | |- context [reveal ?path ?an ?i ?p ?s] =>
      let more := fresh "more" in
      let E := fresh "E" in
      let Hm := fresh "Hm" in
      destruct (cues_reveal path an i p s) as (more & E & Hm);
      exists more; split; [exact E | exact Hm]
  end.

Lemma cues_placeObjects canvas s : cues (placeObjects canvas s) = cues s.
Proof. unfold placeObjects, draw. simpl. repeat case_match; reflexivity. Qed.

Lemma cues_animatePaths canvas paths : forall s,
  exists more,
    cues (animatePaths canvas paths s) = cues s ++ more /\ Forall (.∈ soundNames) more.
Proof.
  induction paths as [|path rest IH]; intros s.
  - exists []. split; [|constructor]. cbn [animatePaths]. rewrite cues_placeObjects.
    symmetry. apply app_nil_r.
  - destruct path as [pid [|p pts] w];
      cbn [animatePaths alloc RakePath.points RakePath.id RakePath.width].
    + destruct (IH (set_arrays (arrays s ++ [[]]) s)) as (more & E & Hm).
      exists more. split; [exact E | exact Hm].
    + by_reveal.
Qed.

Lemma cues_resume now k s :
  exists more, cues (resume now k s) = cues s ++ more /\ Forall (.∈ soundNames) more.
Proof.
  destruct k; cbn [resume].
  - case_match; [by_reveal | apply cues_animatePaths].
  - exists ["place"]. split; [|repeat constructor].
    unfold draw. simpl. case_match; reflexivity.
Qed.

Lemma cues_settle s : cues (settle s) = cues s.
Proof. unfold settle. case_match; reflexivity. Qed.

(** What an event adds to the sounds asked for. *)
Lemma cues_step s ev s' :
  step s ev = Some s' ->
  exists more, cues s' = cues s ++ more /\ Forall (.∈ soundNames) more.
Proof.
  assert (Hnone : forall x : State, cues x = cues s ->
            exists more, cues x = cues s ++ more /\ Forall (.∈ soundNames) more).
  { intros x Hx. exists []. split; [rewrite app_nil_r; exact Hx | constructor]. }
  assert (Hdown : forall now point,
            exists more, cues (pointerDown now point s) = cues s ++ more
                         /\ Forall (.∈ soundNames) more).
  { intros now point. destruct (cues_pointerDown now point s) as (cue & Hin & E).
    exists [cue]. split; [exact E | apply Forall_singleton, Hin]. }
  destruct ev as [env e]. destruct e; simpl; try (intros [= <-]).
  - unfold handleMouseDown. case_match; [apply Hdown | apply Hnone; reflexivity].
  - apply Hnone. unfold handleMouseMove. repeat case_match; auto using cues_pointerMove.
  - apply Hnone. unfold handleMouseUp. case_match; reflexivity.
  - apply Hnone. unfold handleMouseUp. case_match; reflexivity.
  - unfold handleTouchStart. repeat case_match; first [apply Hdown | apply Hnone; reflexivity].
  - apply Hnone. unfold handleTouchMove. repeat case_match; auto using cues_pointerMove.
  - apply Hnone. unfold handleTouchEnd, handleMouseUp. case_match; reflexivity.
  - apply Hnone. reflexivity.
  - apply Hnone. case_match; reflexivity.
  - unfold handleGeneratePattern.
    destruct (isGeneratingPattern s); [intros [= <-]; apply Hnone; reflexivity|].
    destruct (generatePattern _ _) as [s1|] eqn:Eg; [|discriminate]. intros [= <-].
    rewrite cues_settle. unfold generatePattern in Eg.
    destruct (canvasRef env) as [canvas|]; [|injection Eg as <-; apply Hnone; reflexivity].
    simpl in Eg. destruct (generateZenPattern canvas _) as [[newPaths r]|]; [|discriminate].
    injection Eg as <-.
    match goal with
    | |- context [animatePaths canvas newPaths ?x] =>
        destruct (cues_animatePaths canvas newPaths x) as (more & E & Hm)
    end.
    exists more. split; [exact E | exact Hm].
  - unfold undo. case_match.
    + exists ["undo"]. split; [reflexivity | repeat constructor; unfold soundNames; repeat constructor].
    + apply Hnone. reflexivity.
  - exists ["clear"]. split; [reflexivity | repeat constructor; unfold soundNames; repeat constructor].
  - destruct (animation s) as [k|]; intros [= <-]; [|apply Hnone; reflexivity].
    rewrite cues_settle. apply cues_resume.
Qed.

Lemma cues_run evs : forall s s',
  run s evs = Some s' -> Forall (.∈ soundNames) (cues s) -> Forall (.∈ soundNames) (cues s').
Proof.
  induction evs as [|ev evs IH]; intros s s'; simpl.
  - intros [= <-]. auto.
  - destruct (step s ev) as [s1|] eqn:Es; [|discriminate]. intros Hr Hc.
    apply (IH s1 s' Hr). destruct (cues_step s ev s1 Es) as (more & E & Hm).
    rewrite E. apply Forall_app. auto.
Qed.

(** *** The sound manager *)

Lemma initializeAudio_calls browser refs :
  let res := SoundManager.initializeAudio browser refs in
  SoundManager.bgAudioRef res.1 = SoundManager.bgAudioRef refs
  /\ (SoundManager.isInitializedRef refs = true -> res = (refs, []))
  /\ (SoundManager.isInitializedRef res.1 = true \/ res.1 = refs)
  /\ (List.filter makesContext res.2 = []
      \/ SoundManager.isInitializedRef refs = false
         /\ SoundManager.isInitializedRef res.1 = true
         /\ List.filter makesContext res.2 = [SoundManager.new_AudioContext])
  /\ List.filter makesAudio res.2 = [] /\ List.filter startsSource res.2 = []
  /\ forall level, Forall (atMost level) res.2.
Proof.
  unfold SoundManager.initializeAudio.
  destruct (SoundManager.isInitializedRef refs) eqn:Ei; simpl.
  { repeat split; auto. }
  destruct (SoundManager.window browser); simpl; [|repeat split; auto; discriminate].
  destruct (SoundManager.newAudioContext browser); simpl.
  - split; [reflexivity|]. split; [discriminate|]. split; [auto|]. split; [right; auto|].
    repeat split; repeat constructor.
  - split; [reflexivity|]. split; [discriminate|]. split; [auto|]. split; [left; reflexivity|].
    repeat split; repeat constructor.
Qed.

Lemma ensureBackgroundAudio_calls browser refs :
  let res := SoundManager.ensureBackgroundAudio browser refs in
  SoundManager.audioContextRef res.1 = SoundManager.audioContextRef refs
  /\ SoundManager.isInitializedRef res.1 = SoundManager.isInitializedRef refs
  /\ (is_Some (SoundManager.bgAudioRef refs) -> res = (refs, []))
  /\ (is_Some (SoundManager.bgAudioRef res.1) \/ res.1 = refs)
  /\ List.filter makesContext res.2 = []
  /\ (List.filter makesAudio res.2 = []
      \/ SoundManager.bgAudioRef refs = None
         /\ is_Some (SoundManager.bgAudioRef res.1)
         /\ length (List.filter makesAudio res.2) = 1%nat)
  /\ List.filter startsSource res.2 = []
  /\ forall level, Forall (atMost level) res.2.
Proof.
  unfold SoundManager.ensureBackgroundAudio.
  destruct (SoundManager.window browser); simpl.
  2:{ repeat split; auto. }
  destruct (SoundManager.bgAudioRef refs) eqn:Eb; simpl.
  - repeat split; auto.
  - split; [reflexivity|]. split; [reflexivity|].
    split; [intros [x Hx]; discriminate|]. split; [left; eauto|]. split; [reflexivity|].
    split; [right; eauto|]. repeat split; repeat constructor.
Qed.

Lemma playTone_calls soundEnabled browser refs frequency duration type volume level :
  0 <= volume -> volume <= level -> 1 # 1000 <= level ->
  let calls := SoundManager.playTone soundEnabled browser refs frequency duration type volume in
  List.filter makesContext calls = [] /\ List.filter makesAudio calls = []
  /\ Forall (atMost level) calls
  /\ (soundEnabled = false -> calls = [])
  /\ (soundEnabled = true -> is_Some (SoundManager.audioContextRef refs) ->
      length (List.filter startsSource calls) = 1%nat
      /\ Forall (fun k => forall message, k <> SoundManager.console_warn message) calls).
Proof.
  intros H0 Hv Hl. unfold SoundManager.playTone.
  destruct soundEnabled; simpl; [|repeat split; auto; discriminate].
  destruct (SoundManager.audioContextRef refs); simpl.
  - split; [reflexivity|]. split; [reflexivity|]. split.
    { repeat (apply Forall_cons; split); try exact I; try (apply Forall_nil; exact I);
        simpl; lra. }
    split; [discriminate|]. intros _ _. split; [reflexivity|].
    repeat (apply Forall_cons; split); try (apply Forall_nil; exact I);
      intros message; discriminate.
  - split; [reflexivity|]. split; [reflexivity|]. split; [constructor|].
    split; [reflexivity|]. intros _ [x Hx]. discriminate.
Qed.

Lemma playNoise_calls soundEnabled browser refs duration volume level :
  0 <= volume -> volume <= level -> 1 # 1000 <= level ->
  returns (SoundManager.playNoise soundEnabled browser refs duration volume)
    (fun calls =>
       List.filter makesContext calls = [] /\ List.filter makesAudio calls = []
       /\ Forall (atMost level) calls
       /\ (soundEnabled = false -> calls = [])
       /\ (soundEnabled = true ->
           forall context, SoundManager.audioContextRef refs = Some context ->
           1 <= SoundManager.sampleRate context * duration ->
           length (List.filter startsSource calls) = 1%nat
           /\ Forall (fun k => forall message, k <> SoundManager.console_warn message) calls)).
Proof.
  intros H0 Hv Hl. unfold SoundManager.playNoise.
  destruct soundEnabled; cbn [negb];
    [|apply returns_gret; repeat split; auto; discriminate].
  destruct (SoundManager.audioContextRef refs) as [context|]; cbv beta iota zeta.
  2:{ apply returns_gret. split; [reflexivity|]. split; [reflexivity|].
      split; [constructor|]. split; [reflexivity|]. intros _ c Hc. discriminate. }
  destruct (Qfloor (SoundManager.sampleRate context * duration) <? 1)%Z eqn:Ef.
  - apply returns_gret. split; [reflexivity|]. split; [reflexivity|].
    split; [repeat constructor|]. split; [discriminate|].
    intros _ c [= <-] Hs. exfalso. apply Z.ltb_lt in Ef.
    assert (H1 : (Qfloor 1 <= Qfloor (SoundManager.sampleRate context * duration))%Z)
      by (apply Qfloor_resp_le; exact Hs).
    change (Qfloor 1) with 1%Z in H1. lia.
  - eapply returns_gbind.
    + apply (returns_forEach _ _ (fun sample => - level <= sample /\ sample <= level)).
      intros i _. eapply returns_gbind; [apply returns_rand|]. intros u [U0 U1].
      apply returns_gret. split; nra.
    + intros samples [_ Hs]. apply returns_gret.
      split; [reflexivity|]. split; [reflexivity|]. split.
      { repeat (apply Forall_cons; split); try exact I; try (apply Forall_nil; exact I).
        - apply Forall_take, Hs.
        - simpl. lra.
        - simpl. lra. }
      split; [discriminate|]. intros _ c _ _. split; [reflexivity|].
      repeat (apply Forall_cons; split); try (apply Forall_nil; exact I);
        intros message; discriminate.
Qed.

End Cues.

Section SoundTheorems.
Context {M : MathLib}.

(** [playSound], case by case: what it adds to the calls of
    [initializeAudio] and [ensureBackgroundAudio]. *)
Lemma playSound_body soundEnabled browser sound refs :
  let refs1 := (SoundManager.initializeAudio browser refs).1 in
  let refs2 := (SoundManager.ensureBackgroundAudio browser refs1).1 in
  returns (SoundManager.playSound soundEnabled browser sound refs)
    (fun res =>
       (soundEnabled = false -> res = (refs, [], []))
       /\ (soundEnabled = true ->
           exists body,
             res.1.1 = refs2
             /\ res.1.2 = (SoundManager.initializeAudio browser refs).2
                          ++ (SoundManager.ensureBackgroundAudio browser refs1).2 ++ body
             /\ List.filter makesContext body = [] /\ List.filter makesAudio body = []
             /\ Forall (atMost (2 # 25)) body
             /\ (sound ∈ soundNames ->
                 forall context,
                   SoundManager.audioContextRef refs1 = Some context ->
                   1 <= SoundManager.sampleRate context * 0.3 ->
                   length (List.filter startsSource body) = 1%nat
                   /\ Forall (fun k => forall message, k <> SoundManager.console_warn message)
                        body)
             /\ (sound ∉ soundNames -> body = [] /\ res.2 = []))
       /\ (res.2 = [] \/ res.2 = [{| SoundManager.delay := 100;
                                     SoundManager.soundEnabled := soundEnabled |}])).
Proof.
  intros refs1 refs2. unfold SoundManager.playSound.
  destruct soundEnabled; cbn [negb].
  2:{ apply returns_gret. split; [reflexivity|]. split; [discriminate | left; reflexivity]. }
  destruct (ensureBackgroundAudio_calls browser refs1) as (Hctx & _).
  fold refs2 in Hctx.
  destruct (SoundManager.initializeAudio browser refs) as [r1 calls1] eqn:Ei.
  cbn [fst snd] in refs1. subst refs1.
  destruct (SoundManager.ensureBackgroundAudio browser r1) as [r2 calls2] eqn:Ee.
  cbn [fst snd] in refs2. subst refs2. cbn [fst snd].
  assert (Hin : forall name, name ∈ soundNames ->
            name = "rake" \/ name = "place" \/ name = "clear" \/ name = "undo").
  { intros name H. unfold soundNames in H.
    repeat (apply elem_of_cons in H as [H|H]; [auto|]). inversion H. }
  destruct (String.eqb_spec sound "rake") as [->|N1].
  { eapply returns_gbind; [apply (playNoise_calls true browser r2 0.3 0.02 (2 # 25)); lra|].
    intros noise (E1 & E2 & E3 & _ & E5). apply returns_gret.
    split; [discriminate|]. split; [|left; reflexivity]. intros _. exists noise.
    cbn [fst snd]. split; [reflexivity|]. split; [reflexivity|].
    split; [exact E1|]. split; [exact E2|]. split; [exact E3|]. split.
    - intros _ context Hc Hs. rewrite Hctx in E5. apply (E5 eq_refl context Hc Hs).
    - intros H. exfalso. apply H. unfold soundNames. repeat constructor. }
  destruct (String.eqb_spec sound "place") as [->|N2].
  { destruct (playTone_calls true browser r2 523.25 0.5 "sine" 0.08 (2 # 25))
      as (E1 & E2 & E3 & _ & E5); try lra.
    apply returns_gret. split; [discriminate|]. split; [|right; reflexivity]. intros _.
    eexists. cbn [fst snd]. split; [reflexivity|]. split; [reflexivity|].
    split; [exact E1|]. split; [exact E2|]. split; [exact E3|]. split.
    - intros _ context Hc Hs. apply (E5 eq_refl). rewrite Hctx, Hc. eauto.
    - intros H. exfalso. apply H. unfold soundNames. repeat constructor. }
  destruct (String.eqb_spec sound "clear") as [->|N3].
  { destruct (SoundManager.audioContextRef r2) as [context|] eqn:Ec.
    - apply returns_gret. split; [discriminate|]. split; [|left; reflexivity]. intros _.
      eexists. cbn [fst snd]. split; [reflexivity|]. split; [reflexivity|].
      split; [reflexivity|]. split; [reflexivity|]. split.
      { repeat (apply Forall_cons; split); try exact I; try (apply Forall_nil; exact I);
          simpl; lra. }
      split.
      + intros _ c _ _. split; [reflexivity|].
        repeat (apply Forall_cons; split); try (apply Forall_nil; exact I);
          intros message; discriminate.
      + intros H. exfalso. apply H. unfold soundNames. repeat constructor.
    - apply returns_gret. split; [discriminate|]. split; [|left; reflexivity]. intros _.
      exists []. cbn [fst snd]. rewrite app_nil_r.
      split; [reflexivity|]. split; [reflexivity|].
      split; [reflexivity|]. split; [reflexivity|]. split; [constructor|]. split.
      + intros _ c Hc. congruence.
      + intros H. exfalso. apply H. unfold soundNames. repeat constructor. }
  destruct (String.eqb_spec sound "undo") as [->|N4].
  { destruct (playTone_calls true browser r2 880 0.2 "sine" 0.04 (2 # 25))
      as (E1 & E2 & E3 & _ & E5); try lra.
    apply returns_gret. split; [discriminate|]. split; [|left; reflexivity]. intros _.
    eexists. cbn [fst snd]. split; [reflexivity|]. split; [reflexivity|].
    split; [exact E1|]. split; [exact E2|]. split; [exact E3|]. split.
    - intros _ context Hc Hs. apply (E5 eq_refl). rewrite Hctx, Hc. eauto.
    - intros H. exfalso. apply H. unfold soundNames. repeat constructor. }
  apply returns_gret. split; [discriminate|]. split; [|left; reflexivity]. intros _.
  exists []. cbn [fst snd]. rewrite app_nil_r. split; [reflexivity|]. split; [reflexivity|].
  split; [reflexivity|]. split; [reflexivity|]. split; [constructor|]. split.
  - intros H. apply Hin in H. destruct H as [H|[H|[H|H]]]; congruence.
  - auto.
Qed.

Lemma contextFor_initializeAudio browser refs context :
  contextFor browser refs context ->
  SoundManager.audioContextRef (SoundManager.initializeAudio browser refs).1 = Some context
  /\ Forall (fun k => forall message, k <> SoundManager.console_warn message)
       (SoundManager.initializeAudio browser refs).2.
Proof.
  unfold contextFor, SoundManager.initializeAudio.
  destruct (SoundManager.isInitializedRef refs); cbn [negb andb].
  - intros Hc. split; [exact Hc | constructor].
  - intros [-> ->]. split; [reflexivity|]. apply Forall_singleton. intros message. discriminate.
Qed.

(** One call of [playSound]: what it makes. *)
Lemma playSound_makes soundEnabled browser sound refs :
  returns (SoundManager.playSound soundEnabled browser sound refs)
    (fun res =>
       (length (List.filter makesContext res.1.2)
        <= if SoundManager.isInitializedRef refs then 0 else 1)%nat
       /\ (length (List.filter makesAudio res.1.2)
           <= match SoundManager.bgAudioRef refs with Some _ => 0 | None => 1 end)%nat
       /\ (List.filter makesContext res.1.2 <> [] ->
           SoundManager.isInitializedRef res.1.1 = true)
       /\ (List.filter makesAudio res.1.2 <> [] ->
           is_Some (SoundManager.bgAudioRef res.1.1))
       /\ (SoundManager.isInitializedRef refs = true ->
           SoundManager.isInitializedRef res.1.1 = true
           /\ SoundManager.audioContextRef res.1.1 = SoundManager.audioContextRef refs)
       /\ (is_Some (SoundManager.bgAudioRef refs) ->
           SoundManager.bgAudioRef res.1.1 = SoundManager.bgAudioRef refs)
       /\ Forall (atMost (2 # 25)) res.1.2
       /\ Forall (fun timer => forall browser' refs',
                    Forall (atMost (2 # 25)) (SoundManager.fire timer browser' refs')) res.2).
Proof.
  eapply returns_weaken; [apply playSound_body|].
  intros [[refs' calls] timers] (Hoff & Hon & Htimers). cbn [fst snd] in *.
  assert (Hfire : Forall (fun timer => forall browser' refs',
                    Forall (atMost (2 # 25)) (SoundManager.fire timer browser' refs')) timers).
  { destruct Htimers as [-> | ->]; [constructor|]. apply Forall_singleton.
    intros browser' refs''. unfold SoundManager.fire.
    apply (playTone_calls _ browser' refs'' 659.25 0.3 "sine" 0.05 (2 # 25)); lra. }
  destruct soundEnabled.
  2:{ specialize (Hoff eq_refl). injection Hoff as -> -> ->. cbn [List.filter length].
      split; [lia|]. split; [lia|]. split; [intros H; contradiction|].
      split; [intros H; contradiction|]. split; [auto|]. split; [auto|].
      split; [constructor | exact Hfire]. }
  destruct (Hon eq_refl) as (body & -> & -> & B1 & B2 & B3 & _).
  destruct (initializeAudio_calls browser refs) as (I1 & I2 & I3 & I4 & I5 & _ & I7).
  destruct (ensureBackgroundAudio_calls browser (SoundManager.initializeAudio browser refs).1)
    as (E1 & E2 & E3 & E4 & E5 & E6 & _ & E8).
  set (res1 := SoundManager.initializeAudio browser refs) in *.
  set (res2 := SoundManager.ensureBackgroundAudio browser res1.1) in *.
  rewrite !List.filter_app, B1, B2, E5, I5, !app_nil_r. cbn [app].
  split; [|split; [|split; [|split; [|split; [|split; [|split]]]]]].
  - destruct I4 as [-> | (-> & _ & ->)]; simpl; lia.
  - destruct E6 as [-> | (Eb & _ & ->)]; [simpl; lia|].
    rewrite I1 in Eb. rewrite Eb. lia.
  - intros Hne. rewrite E2. destruct I4 as [E | (_ & E & _)]; [contradiction | exact E].
  - intros Hne. destruct E6 as [E | (_ & E & _)]; [contradiction | exact E].
  - intros Hi. rewrite (I2 Hi) in *. cbn [fst] in *. rewrite E1, E2. auto.
  - intros Hb. rewrite <- I1 in Hb. rewrite (E3 Hb). cbn [fst]. exact I1.
  - apply Forall_app. split; [apply I7|]. apply Forall_app. split; [apply E8 | exact B3].
  - exact Hfire.
Qed.

End SoundTheorems.

Section SoundResults.
Context {M : MathLib}.

Lemma contextFor_browser48k :
  contextFor browser48k SoundManager.initialRefs {| SoundManager.sampleRate := 48000 |}.
Proof. split; reflexivity. Qed.

(** The calls of [playSound] one after the other. *)
Lemma playSounds_makes plays : forall refs,
  returns (SoundManager.playSounds plays refs)
    (fun res =>
       (length (List.filter makesContext res.1.2)
        <= if SoundManager.isInitializedRef refs then 0 else 1)%nat
       /\ (length (List.filter makesAudio res.1.2)
           <= match SoundManager.bgAudioRef refs with Some _ => 0 | None => 1 end)%nat
       /\ (SoundManager.isInitializedRef refs = true ->
           SoundManager.isInitializedRef res.1.1 = true
           /\ SoundManager.audioContextRef res.1.1 = SoundManager.audioContextRef refs)
       /\ (is_Some (SoundManager.bgAudioRef refs) ->
           SoundManager.bgAudioRef res.1.1 = SoundManager.bgAudioRef refs)
       /\ Forall (atMost (2 # 25)) res.1.2
       /\ Forall (fun timer => forall browser' refs',
                    Forall (atMost (2 # 25)) (SoundManager.fire timer browser' refs')) res.2).
Proof.
  induction plays as [|[[soundEnabled browser] sound] plays IH]; intros refs;
    cbn [SoundManager.playSounds].
  - apply returns_gret. cbn [fst snd List.filter length].
    split; [lia|]. split; [lia|]. split; [auto|]. split; [auto|]. split; constructor.
  - eapply returns_gbind; [apply playSound_makes|].
    intros [[refs1 calls1] timers1] (A1 & A2 & A3 & A4 & A5 & A6 & A7 & A8).
    cbn [fst snd] in *.
    eapply returns_gbind; [apply IH|].
    intros [[refs2 calls2] timers2] (B1 & B2 & B3 & B4 & B5 & B6).
    cbn [fst snd] in *. apply returns_gret. cbn [fst snd].
    rewrite !List.filter_app, !length_app.
    split; [|split; [|split; [|split; [|split]]]].
    + destruct (SoundManager.isInitializedRef refs) eqn:Ei.
      * destruct (A5 eq_refl) as [Ei1 _]. rewrite Ei1 in B1. cbv iota in B1. lia.
      * destruct (List.filter makesContext calls1) as [|k l] eqn:Ef.
        { destruct (SoundManager.isInitializedRef refs1); cbn [length] in *; lia. }
        rewrite A3 in B1 by discriminate. cbv iota in B1. lia.
    + destruct (SoundManager.bgAudioRef refs) as [audio|] eqn:Eb.
      * rewrite (A6 (mk_is_Some _ _ eq_refl)) in B2. lia.
      * destruct (List.filter makesAudio calls1) as [|k l] eqn:Ef.
        { destruct (SoundManager.bgAudioRef refs1); cbn [length] in *; lia. }
        destruct A4 as [audio Ea]; [discriminate|]. rewrite Ea in B2. lia.
    + intros Hi. destruct (A5 Hi) as [Ei1 Ec1]. destruct (B3 Ei1) as [Ei2 Ec2].
      split; [exact Ei2 | congruence].
    + intros Hb. pose proof (A6 Hb) as E1.
      assert (Hb1 : is_Some (SoundManager.bgAudioRef refs1)) by (rewrite E1; exact Hb).
      rewrite (B4 Hb1). exact E1.
    + apply Forall_app. auto.
    + apply Forall_app. auto.
Qed.

Lemma noWarning_prelude browser refs context :
  contextFor browser refs context ->
  let refs1 := (SoundManager.initializeAudio browser refs).1 in
  let refs2 := (SoundManager.ensureBackgroundAudio browser refs1).1 in
  SoundManager.audioContextRef refs2 = Some context
  /\ noWarning ((SoundManager.initializeAudio browser refs).2
                ++ (SoundManager.ensureBackgroundAudio browser refs1).2)
  /\ List.filter startsSource
       ((SoundManager.initializeAudio browser refs).2
        ++ (SoundManager.ensureBackgroundAudio browser refs1).2) = [].
Proof.
  intros Hc refs1 refs2.
  destruct (contextFor_initializeAudio browser refs context Hc) as [Hc1 Hw1].
  destruct (initializeAudio_calls browser refs) as (_ & _ & _ & _ & _ & Hs1 & _).
  destruct (ensureBackgroundAudio_calls browser refs1) as (Hctx & _ & _ & _ & _ & _ & Hs2 & _).
  split; [subst refs2; rewrite Hctx; exact Hc1|]. split.
  - apply Forall_app. split; [exact Hw1|].
    unfold SoundManager.ensureBackgroundAudio.
    destruct (negb _); [constructor|].
    destruct (SoundManager.bgAudioRef _); [constructor|].
    apply Forall_singleton. intros message. discriminate.
  - rewrite List.filter_app, Hs1, Hs2. reflexivity.
Qed.

(** The sounds of [playSound], one by one. *)
Lemma sounding_playSound sound :
  sounding sound
    (if bool_decide (sound ∈ soundNames) then 1 else 0)
    (if String.eqb sound "place" then 1 else 0).
Proof.
  intros browser refs context rng Hu Hc Hs.
  destruct (noWarning_prelude browser refs context Hc) as (Hc2 & Hw & Hst).
  destruct (playSound_body true browser sound refs rng Hu)
    as ([[refs' calls] timers] & rng' & E & _ & _ & Hon & Htimers).
  destruct (Hon eq_refl) as (body & Er & Ecalls & _ & _ & _ & Hin & Hout).
  cbn [fst snd] in Er, Ecalls, Htimers.
  exists refs', calls, timers, rng'. split; [exact E|].
  assert (Hc1 : SoundManager.audioContextRef (SoundManager.initializeAudio browser refs).1
                = Some context) by apply (contextFor_initializeAudio _ _ _ Hc).
  assert (Hbody : length (List.filter startsSource body)
                  = (if bool_decide (sound ∈ soundNames) then 1 else 0)%nat
                  /\ noWarning body).
  { destruct (decide (sound ∈ soundNames)) as [Hi|Ho].
    - rewrite bool_decide_eq_true_2 by exact Hi. apply (Hin Hi context Hc1 Hs).
    - rewrite bool_decide_eq_false_2 by exact Ho. destruct (Hout Ho) as [-> _].
      split; [reflexivity | constructor]. }
  destruct Hbody as [Hb1 Hb2]. subst calls.
  rewrite app_assoc. split; [|split].
  - rewrite List.filter_app, Hst. exact Hb1.
  - apply Forall_app. split; [exact Hw | exact Hb2].
  - assert (Ht : timers = if String.eqb sound "place"
                          then [{| SoundManager.delay := 100;
                                   SoundManager.soundEnabled := true |}]
                          else []).
    { unfold SoundManager.playSound in E. cbn [negb] in E.
      destruct (SoundManager.initializeAudio browser refs) as [r1 calls1].
      destruct (SoundManager.ensureBackgroundAudio browser r1) as [r2 calls2].
      destruct (String.eqb sound "rake") eqn:E1.
      { apply String.eqb_eq in E1. subst sound. cbn [String.eqb Ascii.eqb Bool.eqb].
        unfold gbind in E. destruct (SoundManager.playNoise _ _ _ _ _ _) as [[noise r]|];
          [|discriminate]. injection E as _ _ <- _. reflexivity. }
      destruct (String.eqb sound "place"); [injection E as _ _ <- _; reflexivity|].
      destruct (String.eqb sound "clear").
      { destruct (SoundManager.audioContextRef r2); injection E as _ _ <- _; reflexivity. }
      destruct (String.eqb sound "undo"); injection E as _ _ <- _; reflexivity. }
    rewrite Ht. destruct (String.eqb sound "place"); [|split; [reflexivity | constructor]].
    split; [reflexivity|]. apply Forall_singleton. split; [reflexivity|].
    intros browser'. unfold SoundManager.fire. cbn [SoundManager.soundEnabled].
    destruct (playTone_calls true browser' refs' 659.25 0.3 "sine" 0.05 (2 # 25))
      as (_ & _ & _ & _ & Hfire); try lra.
    apply (Hfire eq_refl). rewrite Er, Hc2. eauto.
Qed.

(** X18. The sounds the canvas hook asks for are sounds the manager plays: in
    every state the events lead to, each sound asked for so far is one of
    'rake', 'place', 'clear' and 'undo'.  For each of these [playSound],
    when sound is on and there is an audio context (of 4 frames a second or
    more), returns without reporting an error and has started one source of
    sound; 'place' also sets one timer, of 100 ms, whose callback starts one
    source more when it fires, and the other three set no timer.  For any
    other name [playSound] starts nothing and sets no timer. *)
Theorem cues_heard (r : Rng) (evs : list (Env * Event)) (s : State) :
  run (initialState r) evs = Some s ->
  Forall (fun cue => cue ∈ soundNames) (cues s)
  /\ sounding "rake" 1 0 /\ sounding "place" 1 1
  /\ sounding "clear" 1 0 /\ sounding "undo" 1 0
  /\ forall sound, sound ∉ soundNames -> sounding sound 0 0.
Proof.
  intros Hrun. split; [apply (cues_run evs _ _ Hrun); constructor|].
  split; [exact (sounding_playSound "rake")|].
  split; [exact (sounding_playSound "place")|].
  split; [exact (sounding_playSound "clear")|].
  split; [exact (sounding_playSound "undo")|].
  intros sound Hout. pose proof (sounding_playSound sound) as H.
  rewrite bool_decide_eq_false_2 in H by exact Hout.
  destruct (String.eqb_spec sound "place") as [->|_]; [|exact H].
  exfalso. apply Hout. unfold soundNames. repeat constructor.
Qed.

(** X19. However often [playSound] is called, with sound on or off and whatever
    the browser gives, it returns, and all its calls together make at most
    one [AudioContext] and at most one audio element: none when the refs
    hold one already; a context that has been made is never replaced, nor is
    the audio element. *)
Theorem audio_made_once (plays : list (bool * SoundManager.Browser * string))
    (refs : SoundManager.Refs) (rng : Rng) :
  unit_draws rng ->
  exists refs' calls timers rng',
    SoundManager.playSounds plays refs rng = Some ((refs', calls, timers), rng')
    /\ (length (List.filter makesContext calls)
        <= if SoundManager.isInitializedRef refs then 0 else 1)%nat
    /\ (length (List.filter makesAudio calls)
        <= match SoundManager.bgAudioRef refs with Some _ => 0 | None => 1 end)%nat
    /\ (SoundManager.isInitializedRef refs = true ->
        SoundManager.isInitializedRef refs' = true
        /\ SoundManager.audioContextRef refs' = SoundManager.audioContextRef refs)
    /\ (is_Some (SoundManager.bgAudioRef refs) ->
        SoundManager.bgAudioRef refs' = SoundManager.bgAudioRef refs).
Proof.
  intros Hu.
  destruct (playSounds_makes plays refs rng Hu)
    as ([[refs' calls] timers] & rng' & E & _ & H1 & H2 & H3 & H4 & _).
  exists refs', calls, timers, rng'. cbn [fst snd] in *. auto.
Qed.

(** X20. No sound is loud: in the calls of [playSound], whatever the sound asked
    for, the gain is only ever set to, or ramped to, a value between 0 and
    0.08, and every sample of the noise of the rake lies between -0.08 and
    0.08; the same holds of the second tone that a timer plays. *)
Theorem sounds_are_soft (plays : list (bool * SoundManager.Browser * string))
    (refs : SoundManager.Refs) (rng : Rng) :
  unit_draws rng ->
  exists refs' calls timers rng',
    SoundManager.playSounds plays refs rng = Some ((refs', calls, timers), rng')
    /\ Forall (atMost (2 # 25)) calls
    /\ forall timer browser refs'',
         timer ∈ timers -> Forall (atMost (2 # 25)) (SoundManager.fire timer browser refs'').
Proof.
  intros Hu.
  destruct (playSounds_makes plays refs rng Hu)
    as ([[refs' calls] timers] & rng' & E & _ & _ & _ & _ & _ & H5 & H6).
  exists refs', calls, timers, rng'. cbn [fst snd] in *.
  split; [exact E|]. split; [exact H5|].
  intros timer browser refs'' Hin. rewrite Forall_forall in H6. apply (H6 timer Hin).
Qed.

End SoundResults.

Lemma cues_heard_witness :
  exists s,
    run (M := sampleMath) (initialState halves)
      [on canvas800 0 (MouseDown (at_ 10 10)); on canvas800 1 MouseUp;
       on canvas800 2 ClickUndo] = Some s
    /\ cues s = ["rake"; "undo"]
    /\ Forall (fun cue => cue ∈ soundNames) (cues s)
    /\ sounding "place" 1 1.
Proof.
  eexists. split; [reflexivity|]. split; [reflexivity|].
  pose proof (cues_heard (M := sampleMath) halves
                [on canvas800 0 (MouseDown (at_ 10 10)); on canvas800 1 MouseUp;
                 on canvas800 2 ClickUndo] _ eq_refl) as (H1 & _ & H2 & _).
  split; [exact H1 | exact H2].
Defined.

Lemma audio_made_once_witness :
  exists refs' calls timers rng',
    SoundManager.playSounds
      [(true, browser48k, "place"); (false, browser48k, "rake"); (true, browser48k, "undo")]
      SoundManager.initialRefs halves
    = Some ((refs', calls, timers), rng')
    /\ (length (List.filter makesContext calls) <= 1)%nat
    /\ (length (List.filter makesAudio calls) <= 1)%nat.
Proof.
  destruct (audio_made_once
              [(true, browser48k, "place"); (false, browser48k, "rake");
               (true, browser48k, "undo")]
              SoundManager.initialRefs halves unit_draws_halves)
    as (refs' & calls & timers & rng' & E & H1 & H2 & _).
  exists refs', calls, timers, rng'. auto.
Defined.

Lemma sounds_are_soft_witness :
  exists refs' calls timers rng',
    SoundManager.playSounds
      [(true, browser48k, "place"); (true, browser48k, "clear")]
      SoundManager.initialRefs halves
    = Some ((refs', calls, timers), rng')
    /\ Forall (atMost (2 # 25)) calls.
Proof.
  destruct (sounds_are_soft
              [(true, browser48k, "place"); (true, browser48k, "clear")]
              SoundManager.initialRefs halves unit_draws_halves)
    as (refs' & calls & timers & rng' & E & H1 & _).
  exists refs', calls, timers, rng'. auto.
Defined.

(** ** The sound setting *)

(** X21. The sound setting comes back as it was stored: what the effect writes,
    the next visit reads as the same value, and no other key of the storage
    is touched.  When the browser refuses the write the storage is as before,
    and when nothing is stored the sound is on; a stored string other than
    'true' turns it off. *)
Theorem sound_setting_kept (soundEnabled : bool) (localStorage : Storage.t) :
  (Storage.writable localStorage = true ->
   initialSoundEnabled true (storeSoundEnabled soundEnabled localStorage) = soundEnabled
   /\ initialSoundEnabled true
        (storeSoundEnabled (handleSoundToggle soundEnabled)
           (storeSoundEnabled soundEnabled localStorage))
      = negb soundEnabled
   /\ forall key, key <> "soundEnabled" ->
        Storage.getItem key (storeSoundEnabled soundEnabled localStorage)
        = Storage.getItem key localStorage)
  /\ (Storage.writable localStorage = false ->
      storeSoundEnabled soundEnabled localStorage = localStorage)
  /\ (Storage.getItem "soundEnabled" localStorage = None ->
      initialSoundEnabled true localStorage = true)
  /\ (forall stored, Storage.getItem "soundEnabled" localStorage = Some stored ->
      initialSoundEnabled true localStorage = true <-> stored = "true").
Proof.
  split; [|split; [|split]].
  - intros Hw. unfold storeSoundEnabled, Storage.setItem. rewrite Hw.
    cbn [Storage.writable].
    unfold initialSoundEnabled, Storage.getItem. cbn [negb Storage.items].
    rewrite !lookup_insert_eq. split; [|split].
    + destruct soundEnabled; reflexivity.
    + destruct soundEnabled; reflexivity.
    + intros key Hk. apply lookup_insert_ne. congruence.
  - intros Hw. unfold storeSoundEnabled, Storage.setItem. rewrite Hw. reflexivity.
  - intros Hn. unfold initialSoundEnabled. rewrite Hn. reflexivity.
  - intros stored Hs. unfold initialSoundEnabled. rewrite Hs. cbn [negb].
    apply String.eqb_eq.
Qed.

Lemma sound_setting_kept_witness :
  initialSoundEnabled true
    (storeSoundEnabled false {| Storage.items := ∅; Storage.writable := true |}) = false.
Proof.
  exact (proj1 (proj1 (sound_setting_kept false
                         {| Storage.items := ∅; Storage.writable := true |}) eq_refl)).
Defined.

(** ** The controller of the light garden

    Each function of the hook of the light garden is the function of the
    same name of the dark one: they are compared one by one, in the order of
    the text, each with those before it replaced. *)

Create Rewrite HintDb light.

Lemma saveState_light : @WoodHook.saveState = @saveState.
Proof. unfold WoodHook.saveState, saveState. autorewrite with light. reflexivity. Qed.
#[local] Hint Rewrite saveState_light : light.

Lemma getCanvasCoordinates_light : @WoodHook.getCanvasCoordinates = @getCanvasCoordinates.
Proof. unfold WoodHook.getCanvasCoordinates, getCanvasCoordinates. autorewrite with light. reflexivity. Qed.
#[local] Hint Rewrite getCanvasCoordinates_light : light.

Lemma putPath_light : @WoodHook.putPath = @putPath.
Proof. unfold WoodHook.putPath, putPath. autorewrite with light. reflexivity. Qed.
#[local] Hint Rewrite putPath_light : light.

Lemma distance_light : @WoodHook.distance = @distance.
Proof. unfold WoodHook.distance, distance. autorewrite with light. reflexivity. Qed.
#[local] Hint Rewrite distance_light : light.

Lemma pointerDown_light : @WoodHook.pointerDown = @pointerDown.
Proof. unfold WoodHook.pointerDown, pointerDown. autorewrite with light. reflexivity. Qed.
#[local] Hint Rewrite pointerDown_light : light.

Lemma handleMouseDown_light : @WoodHook.handleMouseDown = @handleMouseDown.
Proof. unfold WoodHook.handleMouseDown, handleMouseDown. autorewrite with light. reflexivity. Qed.
#[local] Hint Rewrite handleMouseDown_light : light.

Lemma handleTouchStart_light : @WoodHook.handleTouchStart = @handleTouchStart.
Proof. unfold WoodHook.handleTouchStart, handleTouchStart. autorewrite with light. reflexivity. Qed.
#[local] Hint Rewrite handleTouchStart_light : light.

Lemma pointerMove_light : @WoodHook.pointerMove = @pointerMove.
Proof. unfold WoodHook.pointerMove, pointerMove. autorewrite with light. reflexivity. Qed.
#[local] Hint Rewrite pointerMove_light : light.

Lemma handleMouseMove_light : @WoodHook.handleMouseMove = @handleMouseMove.
Proof. unfold WoodHook.handleMouseMove, handleMouseMove. autorewrite with light. reflexivity. Qed.
#[local] Hint Rewrite handleMouseMove_light : light.

Lemma handleTouchMove_light : @WoodHook.handleTouchMove = @handleTouchMove.
Proof. unfold WoodHook.handleTouchMove, handleTouchMove. autorewrite with light. reflexivity. Qed.
#[local] Hint Rewrite handleTouchMove_light : light.

Lemma handleMouseUp_light : @WoodHook.handleMouseUp = @handleMouseUp.
Proof. unfold WoodHook.handleMouseUp, handleMouseUp. autorewrite with light. reflexivity. Qed.
#[local] Hint Rewrite handleMouseUp_light : light.

Lemma handleTouchEnd_light : @WoodHook.handleTouchEnd = @handleTouchEnd.
Proof. unfold WoodHook.handleTouchEnd, handleTouchEnd. autorewrite with light. reflexivity. Qed.
#[local] Hint Rewrite handleTouchEnd_light : light.

Lemma clearGarden_light : @WoodHook.clearGarden = @clearGarden.
Proof. unfold WoodHook.clearGarden, clearGarden. autorewrite with light. reflexivity. Qed.
#[local] Hint Rewrite clearGarden_light : light.

Lemma undo_light : @WoodHook.undo = @undo.
Proof. unfold WoodHook.undo, undo. autorewrite with light. reflexivity. Qed.
#[local] Hint Rewrite undo_light : light.

Lemma generateSpiralPattern_light : @WoodHook.generateSpiralPattern = @generateSpiralPattern.
Proof. unfold WoodHook.generateSpiralPattern, generateSpiralPattern. autorewrite with light. reflexivity. Qed.
#[local] Hint Rewrite generateSpiralPattern_light : light.

Lemma generateWavePattern_light : @WoodHook.generateWavePattern = @generateWavePattern.
Proof. unfold WoodHook.generateWavePattern, generateWavePattern. autorewrite with light. reflexivity. Qed.
#[local] Hint Rewrite generateWavePattern_light : light.

Lemma generateCirclePattern_light : @WoodHook.generateCirclePattern = @generateCirclePattern.
Proof. unfold WoodHook.generateCirclePattern, generateCirclePattern. autorewrite with light. reflexivity. Qed.
#[local] Hint Rewrite generateCirclePattern_light : light.

Lemma generateEllipsePattern_light : @WoodHook.generateEllipsePattern = @generateEllipsePattern.
Proof. unfold WoodHook.generateEllipsePattern, generateEllipsePattern. autorewrite with light. reflexivity. Qed.
#[local] Hint Rewrite generateEllipsePattern_light : light.

Lemma concentricCircles_light : @WoodHook.concentricCircles = @concentricCircles.
Proof. unfold WoodHook.concentricCircles, concentricCircles. autorewrite with light. reflexivity. Qed.
#[local] Hint Rewrite concentricCircles_light : light.

Lemma spiralGarden_light : @WoodHook.spiralGarden = @spiralGarden.
Proof. unfold WoodHook.spiralGarden, spiralGarden. autorewrite with light. reflexivity. Qed.
#[local] Hint Rewrite spiralGarden_light : light.

Lemma wavePatterns_light : @WoodHook.wavePatterns = @wavePatterns.
Proof. unfold WoodHook.wavePatterns, wavePatterns. autorewrite with light. reflexivity. Qed.
#[local] Hint Rewrite wavePatterns_light : light.

Lemma mandala_light : @WoodHook.mandala = @mandala.
Proof. unfold WoodHook.mandala, mandala. autorewrite with light. reflexivity. Qed.
#[local] Hint Rewrite mandala_light : light.

Lemma rakedLines_light : @WoodHook.rakedLines = @rakedLines.
Proof. unfold WoodHook.rakedLines, rakedLines. autorewrite with light. reflexivity. Qed.
#[local] Hint Rewrite rakedLines_light : light.

Lemma ellipticalRings_light : @WoodHook.ellipticalRings = @ellipticalRings.
Proof. unfold WoodHook.ellipticalRings, ellipticalRings. autorewrite with light. reflexivity. Qed.
#[local] Hint Rewrite ellipticalRings_light : light.

Lemma doubleSpiral_light : @WoodHook.doubleSpiral = @doubleSpiral.
Proof. unfold WoodHook.doubleSpiral, doubleSpiral. autorewrite with light. reflexivity. Qed.
#[local] Hint Rewrite doubleSpiral_light : light.

Lemma bambooGrove_light : @WoodHook.bambooGrove = @bambooGrove.
Proof. unfold WoodHook.bambooGrove, bambooGrove. autorewrite with light. reflexivity. Qed.
#[local] Hint Rewrite bambooGrove_light : light.

Lemma ripples_light : @WoodHook.ripples = @ripples.
Proof. unfold WoodHook.ripples, ripples. autorewrite with light. reflexivity. Qed.
#[local] Hint Rewrite ripples_light : light.

Lemma serpentine_light : @WoodHook.serpentine = @serpentine.
Proof. unfold WoodHook.serpentine, serpentine. autorewrite with light. reflexivity. Qed.
#[local] Hint Rewrite serpentine_light : light.

Lemma patterns_light : @WoodHook.patterns = @patterns.
Proof. unfold WoodHook.patterns, patterns. autorewrite with light. reflexivity. Qed.
#[local] Hint Rewrite patterns_light : light.

Lemma callPattern_light : @WoodHook.callPattern = @callPattern.
Proof. unfold WoodHook.callPattern, callPattern. autorewrite with light. reflexivity. Qed.
#[local] Hint Rewrite callPattern_light : light.

Lemma generateZenPattern_light : @WoodHook.generateZenPattern = @generateZenPattern.
Proof. unfold WoodHook.generateZenPattern, generateZenPattern. autorewrite with light. reflexivity. Qed.
#[local] Hint Rewrite generateZenPattern_light : light.

Lemma reveal_light : @WoodHook.reveal = @reveal.
Proof. unfold WoodHook.reveal, reveal. autorewrite with light. reflexivity. Qed.
#[local] Hint Rewrite reveal_light : light.

Lemma objectTypeAt_light : @WoodHook.objectTypeAt = @objectTypeAt.
Proof. unfold WoodHook.objectTypeAt, objectTypeAt. autorewrite with light. reflexivity. Qed.
#[local] Hint Rewrite objectTypeAt_light : light.

Lemma placeObjects_light : @WoodHook.placeObjects = @placeObjects.
Proof. unfold WoodHook.placeObjects, placeObjects. autorewrite with light. reflexivity. Qed.
#[local] Hint Rewrite placeObjects_light : light.

Lemma animatePaths_light : @WoodHook.animatePaths = @animatePaths.
Proof. unfold WoodHook.animatePaths, animatePaths. autorewrite with light. reflexivity. Qed.
#[local] Hint Rewrite animatePaths_light : light.

Lemma resume_light : @WoodHook.resume = @resume.
Proof. unfold WoodHook.resume, resume. autorewrite with light. reflexivity. Qed.
#[local] Hint Rewrite resume_light : light.

Lemma generatePattern_light : @WoodHook.generatePattern = @generatePattern.
Proof. unfold WoodHook.generatePattern, generatePattern. autorewrite with light. reflexivity. Qed.
#[local] Hint Rewrite generatePattern_light : light.

Lemma handleGeneratePattern_light : @WoodHook.handleGeneratePattern = @handleGeneratePattern.
Proof. unfold WoodHook.handleGeneratePattern, handleGeneratePattern. autorewrite with light. reflexivity. Qed.
#[local] Hint Rewrite handleGeneratePattern_light : light.

Lemma step_light : @WoodHook.step = @step.
Proof. unfold WoodHook.step, step. autorewrite with light. reflexivity. Qed.
#[local] Hint Rewrite step_light : light.

Lemma run_light : @WoodHook.run = @run.
Proof. unfold WoodHook.run, run. autorewrite with light. reflexivity. Qed.
#[local] Hint Rewrite run_light : light.

(** C9. The two hooks have the same controller: [saveState],
    [getCanvasCoordinates], each handler, each pattern function,
    [generatePattern] and what its timers resume are the same functions in
    the light garden as in the dark one, so that from the same state, with
    the same draws for the handlers, every sequence of events (pointer and
    touch handling, undo, reset, pattern generation and its timers) leads
    both to the same state, and with it to the same grooves, the same objects
    and the same undo history. *)
Theorem themes_share_controller {M : MathLib} :
  @WoodHook.saveState = @saveState
  /\ @WoodHook.getCanvasCoordinates = @getCanvasCoordinates
  /\ WoodHook.handleMouseDown = handleMouseDown
  /\ WoodHook.handleMouseMove = handleMouseMove
  /\ WoodHook.handleMouseUp = handleMouseUp
  /\ WoodHook.handleTouchStart = handleTouchStart
  /\ WoodHook.handleTouchMove = handleTouchMove
  /\ WoodHook.handleTouchEnd = handleTouchEnd
  /\ WoodHook.clearGarden = clearGarden
  /\ WoodHook.undo = undo
  /\ WoodHook.patterns = patterns
  /\ WoodHook.generateZenPattern = generateZenPattern
  /\ WoodHook.generatePattern = generatePattern
  /\ WoodHook.resume = resume
  /\ (forall s ev, WoodHook.step s ev = step s ev)
  /\ (forall s evs,
        WoodHook.run s evs = run s evs
        /\ (scene <$> WoodHook.run s evs) = (scene <$> run s evs)
        /\ (history <$> WoodHook.run s evs) = (history <$> run s evs)).
Proof.
  autorewrite with light. repeat split; reflexivity.
Qed.

(** On one [Math.random] the two gardens differ from the first groove on:
    the first [render] of the dark garden takes 4000 draws, that of the light
    garden 2440, and the width of the groove is the draw that comes next. *)
Lemma themes_differ_on_one_stream :
  mounted (M := sampleMath) dark canvas800 sevenths
  = Some (initialState (drawn_more 4000 sevenths))
  /\ mounted (M := sampleMath) light canvas800 sevenths
     = Some (initialState (drawn_more 2440 sevenths))
  /\ exists s_dark s_light,
       mountedRun (M := sampleMath) dark canvas800 sevenths firstStroke = Some s_dark
       /\ mountedRun (M := sampleMath) light canvas800 sevenths firstStroke = Some s_light
       /\ map (fun p => Qred (RakePath.width p)) (scene s_dark).1 = [68 # 7]
       /\ map (fun p => Qred (RakePath.width p)) (scene s_light).1 = [72 # 7]
       /\ scene s_dark <> scene s_light.
Proof.
  split; [vm_compute; reflexivity|]. split; [vm_compute; reflexivity|].
  eexists _, _. split; [vm_compute; reflexivity|]. split; [vm_compute; reflexivity|].
  split; [vm_compute; reflexivity|]. split; [vm_compute; reflexivity|].
  intros E.
  apply (f_equal (fun sc : list (RakePath (list Point)) * list PlacedObject =>
                    map (fun p => Qred (RakePath.width p)) sc.1)) in E.
  vm_compute in E. discriminate E.
Qed.
